(** * Shallow embedding of the archival / invoke / invariant core of stellar-core

    Sources embedded here:
    - [src/invariant/ArchivedStateConsistency.cpp]
    - [src/invariant/InvariantManagerImpl.cpp]
    - [src/transactions/RestoreFootprintOpFrame.cpp]
    - [src/transactions/InvokeHostFunctionOpFrame.cpp]

    Unsigned 32-bit counters are integers in [Z] with the wrap-around written
    out ([u32]).  Ledger state is a finite map ([gmap]); containers that the
    code iterates ([UnorderedMap], [UnorderedSet], [std::map], vectors) are
    lists in iteration order. *)

From stdpp Require Import gmap strings list fin_maps sorting.

Local Open Scope Z_scope.

(** ** Machine integers *)

Definition u32 (z : Z) : Z := z `mod` 2 ^ 32.

(** ** Exceptions and the state-and-exception monad

    C++ code that mutates the members of a helper object and may throw is a
    function from the state to a [Result].  A thrown exception keeps the
    state reached so far, as member writes made before a [throw] persist. *)

Inductive Exception : Type :=
  | RuntimeError (msg : string)
  | InvalidArgument (msg : string)
  | OutOfRange
  | ReleaseAssertFailed (what : string)
  | XdrWrongUnion (what : string).

Inductive Result (S A : Type) : Type :=
  | Done (a : A) (s : S)
  | Thrown (e : Exception) (s : S).
Arguments Done {S A} a s.
Arguments Thrown {S A} e s.

Definition M (S A : Type) : Type := S → Result S A.

Definition ret {S A} (a : A) : M S A := λ s, Done a s.
Definition bind {S A B} (m : M S A) (k : A → M S B) : M S B :=
  λ s, match m s with
       | Done a s' => k a s'
       | Thrown e s' => Thrown e s'
       end.
Definition throw {S A} (e : Exception) : M S A := λ s, Thrown e s.
Definition get {S} : M S S := λ s, Done s s.
Definition modify {S} (f : S → S) : M S () := λ s, Done () (f s).
Definition releaseAssertOrThrow {S} (what : string) (b : bool) : M S () :=
  if b then ret () else throw (ReleaseAssertFailed what).

Global Instance M_ret {S} : MRet (M S) := λ A a, ret a.
Global Instance M_bind {S} : MBind (M S) := λ A B k m, bind m k.

(** Pure computations that may throw (no state). *)
Inductive Outcome (A : Type) : Type :=
  | Returns (a : A)
  | Throws (e : Exception).
Arguments Returns {A} a.
Arguments Throws {A} e.

Definition obind {A B} (m : Outcome A) (k : A → Outcome B) : Outcome B :=
  match m with
  | Returns a => k a
  | Throws e => Throws e
  end.

Definition liftO {S A} (o : Outcome A) : M S A :=
  λ s, match o with Returns a => Done a s | Throws e => Thrown e s end.

(** ** Ledger keys and entries (XDR types)

    The XDR declarations are generated and not part of the embedded sources.
    Payloads that no embedded function inspects are opaque numbers. *)

Inductive ContractDataDurability : Type := TEMPORARY | PERSISTENT.

Inductive LedgerEntryType : Type :=
  | ACCOUNT | TRUSTLINE | OFFER | DATA | CLAIMABLE_BALANCE | LIQUIDITY_POOL
  | CONTRACT_DATA | CONTRACT_CODE | CONFIG_SETTING | TTL.

(** Classic (non-contract) entry kinds. *)
Inductive ClassicType : Type :=
  | CAccount | CTrustline | COffer | CData | CClaimableBalance
  | CLiquidityPool | CConfigSetting.

Inductive LedgerKey : Type :=
  | ClassicKey (ty : ClassicType) (id : N)
  | ContractDataKey (contract : N) (key : N) (durability : ContractDataDurability)
  | ContractCodeKey (hash : N)
  | TTLKey (keyHash : N).

Inductive LedgerEntryData : Type :=
  | ClassicData (ty : ClassicType) (id : N) (body : N)
  | ContractDataEntry (contract : N) (key : N)
      (durability : ContractDataDurability) (val : N)
  | ContractCodeEntry (hash : N) (code : N)
  | TTLData (keyHash : N) (liveUntilLedgerSeq : Z).

Record LedgerEntry : Type := mkLedgerEntry {
  lastModifiedLedgerSeq : Z;
  data : LedgerEntryData;
  ext : N;
}.

Record TTLEntry : Type := mkTTLEntry {
  ttl_keyHash : N;
  ttl_liveUntilLedgerSeq : Z;
}.

Inductive HotArchiveBucketEntry : Type :=
  | HOT_ARCHIVE_ARCHIVED (archivedEntry : LedgerEntry)
  | HOT_ARCHIVE_LIVE (key : LedgerKey)
  | HOT_ARCHIVE_METAENTRY.

Global Instance ContractDataDurability_eq_dec : EqDecision ContractDataDurability.
Proof. solve_decision. Defined.
Global Instance ClassicType_eq_dec : EqDecision ClassicType.
Proof. solve_decision. Defined.
Global Instance LedgerEntryType_eq_dec : EqDecision LedgerEntryType.
Proof. solve_decision. Defined.
Global Instance LedgerKey_eq_dec : EqDecision LedgerKey.
Proof. solve_decision. Defined.
Global Instance LedgerEntryData_eq_dec : EqDecision LedgerEntryData.
Proof. solve_decision. Defined.
Global Instance LedgerEntry_eq_dec : EqDecision LedgerEntry.
Proof. solve_decision. Defined.
Global Instance TTLEntry_eq_dec : EqDecision TTLEntry.
Proof. solve_decision. Defined.

Definition ClassicType_tag (ty : ClassicType) : N :=
  match ty with
  | CAccount => 0 | CTrustline => 1 | COffer => 2 | CData => 3
  | CClaimableBalance => 4 | CLiquidityPool => 5 | CConfigSetting => 8
  end%N.

Definition ClassicType_of_tag (n : N) : ClassicType :=
  match n with
  | 0 => CAccount | 1 => CTrustline | 2 => COffer | 3 => CData
  | 4 => CClaimableBalance | 5 => CLiquidityPool | _ => CConfigSetting
  end%N.

Definition LedgerKey_encode (k : LedgerKey) : N * N + N * N * bool + N + N :=
  match k with
  | ClassicKey ty id => inl (inl (inl (ClassicType_tag ty, id)))
  | ContractDataKey c key d =>
      inl (inl (inr (c, key, if d is PERSISTENT then true else false)))
  | ContractCodeKey h => inl (inr h)
  | TTLKey h => inr h
  end.

Definition LedgerKey_decode (x : N * N + N * N * bool + N + N) : LedgerKey :=
  match x with
  | inl (inl (inl (t, id))) => ClassicKey (ClassicType_of_tag t) id
  | inl (inl (inr (c, key, b))) =>
      ContractDataKey c key (if b then PERSISTENT else TEMPORARY)
  | inl (inr h) => ContractCodeKey h
  | inr h => TTLKey h
  end.

Global Instance LedgerKey_countable : Countable LedgerKey.
Proof.
  apply (inj_countable' LedgerKey_encode LedgerKey_decode).
  intros [[] id|c key []|h|h]; reflexivity.
Defined.

(** [key.type()] *)
Definition LedgerKey_type (k : LedgerKey) : LedgerEntryType :=
  match k with
  | ClassicKey CAccount _ => ACCOUNT
  | ClassicKey CTrustline _ => TRUSTLINE
  | ClassicKey COffer _ => OFFER
  | ClassicKey CData _ => DATA
  | ClassicKey CClaimableBalance _ => CLAIMABLE_BALANCE
  | ClassicKey CLiquidityPool _ => LIQUIDITY_POOL
  | ClassicKey CConfigSetting _ => CONFIG_SETTING
  | ContractDataKey _ _ _ => CONTRACT_DATA
  | ContractCodeKey _ => CONTRACT_CODE
  | TTLKey _ => TTL
  end.

(** [LedgerEntryKey(e)]: the key under which an entry is stored. *)
Definition LedgerEntryKey_data (d : LedgerEntryData) : LedgerKey :=
  match d with
  | ClassicData ty id _ => ClassicKey ty id
  | ContractDataEntry c k dur _ => ContractDataKey c k dur
  | ContractCodeEntry h _ => ContractCodeKey h
  | TTLData h _ => TTLKey h
  end.

Definition LedgerEntryKey (e : LedgerEntry) : LedgerKey :=
  LedgerEntryKey_data (data e).

(** The canonical order on keys ([operator<] of the XDR union): first the
    discriminant, then the fields of the arm. *)
Definition LedgerEntryType_tag (t : LedgerEntryType) : N :=
  match t with
  | ACCOUNT => 0 | TRUSTLINE => 1 | OFFER => 2 | DATA => 3
  | CLAIMABLE_BALANCE => 4 | LIQUIDITY_POOL => 5 | CONTRACT_DATA => 6
  | CONTRACT_CODE => 7 | CONFIG_SETTING => 8 | TTL => 9
  end%N.

Definition durability_tag (d : ContractDataDurability) : N :=
  match d with TEMPORARY => 0 | PERSISTENT => 1 end%N.

Definition LedgerKey_fields (k : LedgerKey) : list N :=
  match k with
  | ClassicKey _ id => [id]
  | ContractDataKey c key d => [c; key; durability_tag d]
  | ContractCodeKey h => [h]
  | TTLKey h => [h]
  end.

Fixpoint lex_ltb (a b : list N) : bool :=
  match a, b with
  | [], [] => false
  | [], _ :: _ => true
  | _ :: _, [] => false
  | x :: a', y :: b' =>
      if (x <? y)%N then true else if (y <? x)%N then false else lex_ltb a' b'
  end.

Definition LedgerKey_ltb (a b : LedgerKey) : bool :=
  let ta := LedgerEntryType_tag (LedgerKey_type a) in
  let tb := LedgerEntryType_tag (LedgerKey_type b) in
  if (ta <? tb)%N then true
  else if (tb <? ta)%N then false
  else lex_ltb (LedgerKey_fields a) (LedgerKey_fields b).

Inductive SCVal : Type :=
  | SCV_U64 (v : Z)
  | SCV_Bytes (b : N)
  | SCV_Address (a : N)
  | SCV_Symbol (s : string)
  | SCV_Opaque (v : N).

(** ** Serialization and hashing (external)

    [xdr::xdr_size], [toCxxBuf(..).data->size()], [sha256] over the XDR
    encoding of a key and [xdrSha256] of the success pre-image (events and
    return value) are library code; they are taken as an interface. *)

Class XdrCodec : Type := {
  sha256_xdr_key : LedgerKey → N;
  xdr_size_key : LedgerKey → Z;
  xdr_size_entry : LedgerEntry → Z;
  xdrSha256_success : list N → SCVal → N;
}.

(** ** [util/ProtocolVersion.h] *)

Definition V_8 : Z := 8.
Definition V_23 : Z := 23.
Definition V_24 : Z := 24.

Definition protocolVersionIsBefore (protocolVersion beforeVersion : Z) : bool :=
  protocolVersion <? beforeVersion.
Definition protocolVersionStartsFrom (protocolVersion fromVersion : Z) : bool :=
  fromVersion <=? protocolVersion.

(** The constant is declared with the bucket classes; the embedded sources
    document its value ("check the hot archive if protocol >= 23",
    "autorestore support started in p23"). *)
Definition FIRST_PROTOCOL_SUPPORTING_PERSISTENT_EVICTION : Z := V_23.
Definition AUTO_RESTORE_PROTOCOL_VERSION : Z := V_23.

(** ** [ledger/LedgerTypeUtils] *)

(** Modelled from the spec: [is_contract(key)] of LedgerTypeUtils, a
    contract-data or contract-code key ("persistent or temporary"). *)
Definition isSorobanEntry (k : LedgerKey) : bool :=
  match k with
  | ContractDataKey _ _ _ | ContractCodeKey _ => true
  | _ => false
  end.

(** Modelled from the spec: [is_temporary(key)] of LedgerTypeUtils,
    "temporary contract" data. *)
Definition isTemporaryEntry (k : LedgerKey) : bool :=
  match k with
  | ContractDataKey _ _ TEMPORARY => true
  | _ => false
  end.

(** Modelled from the spec: [is_persistent(key)] of LedgerTypeUtils,
    "persistent contract (code/data flagged persistent)". *)
Definition isPersistentEntry (k : LedgerKey) : bool :=
  match k with
  | ContractCodeKey _ | ContractDataKey _ _ PERSISTENT => true
  | _ => false
  end.

(** Modelled from the spec: the contract-code keys, of LedgerTypeUtils. *)
Definition isContractCodeEntry (k : LedgerKey) : bool :=
  match k with
  | ContractCodeKey _ => true
  | _ => false
  end.

(** Modelled from the spec: [ttl_key_of(key)], "a deterministic function of
    the key": the TTL key carries the hash of the encoded key. *)
Definition getTTLKey `{XdrCodec} (k : LedgerKey) : LedgerKey :=
  TTLKey (sha256_xdr_key k).

(** Modelled from the spec: [is_live(ttl_entry, ledger_seq) :=
    ttl_entry.live_until_ledger >= ledger_seq].  Reading the [ttl] arm of an
    entry of another type throws. *)
Definition isLive (e : LedgerEntry) (cutoffLedger : Z) : Outcome bool :=
  match data e with
  | TTLData _ liveUntil => Returns (cutoffLedger <=? liveUntil)
  | _ => Throws (XdrWrongUnion "ttl")
  end.

(** [e.data.ttl()] *)
Definition ttl_of (e : LedgerEntry) : Outcome TTLEntry :=
  match data e with
  | TTLData h liveUntil => Returns (mkTTLEntry h liveUntil)
  | _ => Throws (XdrWrongUnion "ttl")
  end.

(** [be.archivedEntry()] *)
Definition archivedEntry_of (be : HotArchiveBucketEntry) : Outcome LedgerEntry :=
  match be with
  | HOT_ARCHIVE_ARCHIVED e => Returns e
  | _ => Throws (XdrWrongUnion "archivedEntry")
  end.

Global Instance Outcome_ret : MRet Outcome := λ A a, Returns a.
Global Instance Outcome_bind : MBind Outcome := λ A B k m, obind m k.

(** An [UnorderedMap] that the code iterates is the list of its pairs in
    iteration order; [find] returns the pair stored under the key. *)
Fixpoint umap_find {V} (m : list (LedgerKey * V)) (k : LedgerKey) : option V :=
  match m with
  | [] => None
  | (k', v) :: m' => if decide (k' = k) then Some v else umap_find m' k
  end.

(** ** Snapshots of the two stores *)

Record SearchableSnapshot : Type := mkSnapshot {
  snap_ledgerSeq : Z;
  snap_ledgerVersion : Z;
  snap_entries : gmap LedgerKey LedgerEntry;
}.

(** Reads of the stores made by the invariant, in program order. *)
Inductive SnapshotAccess : Type :=
  | LoadCompleteHotArchiveState
  | LoadCompleteLedgerState
  | LoadKeysLive (keys : gset LedgerKey)
  | LoadKeysHotArchive (keys : gset LedgerKey).

(** Modelled from the spec: [loadKeys] of a snapshot, "an immutable view of
    the committed state", returns the stored entries of the requested keys. *)
Definition loadKeys {V} (store : gmap LedgerKey V) (keys : gset LedgerKey) : list V :=
  omap (λ k, store !! k) (elements keys).

(** * [invariant/ArchivedStateConsistency.cpp] *)

Module ArchivedStateConsistency.

(** The checks return a [std::string]: empty when the invariant holds, else
    the formatted message.  The message is represented by the failure it
    reports ([None] is the empty string); [message_format] gives its text. *)
Inductive Failure : Type :=
  | SameKeyInLiveAndArchived (k : LedgerKey)
  | ArchivedEntryAlreadyInArchive (e : LedgerEntry)
  | EvictedEntryNotInLiveState (k : LedgerKey)
  | TTLForPersistentEntryMissing (k ttlKey : LedgerKey)
  | EvictedTTLStillLive (k : LedgerKey) (ttl : LedgerEntry)
  | OutdatedEntryEvicted (k : LedgerKey) (evicted correct : LedgerEntry)
  | EvictedTempKeyNotInLiveState (k : LedgerKey)
  | TTLForTempEntryMissing (k ttlKey : LedgerKey)
  | EvictedTempTTLStillLive (k : LedgerKey) (ttl : LedgerEntry)
  | EvictedCountMismatch (ttls temps archived : nat)
  | RestoredFromLiveNotPersistent (k : LedgerKey)
  | RestoredFromLiveTTLMissing (ttlKey : LedgerKey)
  | RestoredFromArchiveNotPersistent (k : LedgerKey)
  | RestoredFromArchiveTTLMissing (ttlKey : LedgerKey)
  | RestoredFromArchiveStillInLive (k : LedgerKey)
  | RestoredFromArchiveNotInHotArchive (k : LedgerKey)
  | RestoredFromArchiveIncorrectValue (entry hot : LedgerEntry)
  | RestoredFromLiveInHotArchive (entry hot : LedgerEntry)
  | RestoredFromLiveNotInLiveState (k : LedgerKey)
  | RestoredFromLiveIncorrectValue (liveData : LedgerEntryData) (entry : LedgerEntry)
  | RestoredFromLiveNotExpired (entry : LedgerEntry).

Definition message_format (f : Failure) : string :=
  match f with
  | SameKeyInLiveAndArchived _ =>
      "ArchivedStateConsistency:: Entry with the same key is present in both live and archived state. Key: {}"
  | ArchivedEntryAlreadyInArchive _ =>
      "ArchivedStateConsistency invariant failed: Archived entry already present in archive: {}"
  | EvictedEntryNotInLiveState _ =>
      "ArchivedStateConsistency invariant failed: Evicted entry does not exist in live state: {}"
  | TTLForPersistentEntryMissing _ _ =>
      "ArchivedStateConsistency invariant failed: TTL for persistent entry does not exist. Entry key: {}, TTL key: {}"
  | EvictedTTLStillLive _ _ =>
      "ArchivedStateConsistency invariant failed: Evicted TTL is still live. Entry key: {}, TTL entry: {}"
  | OutdatedEntryEvicted _ _ _ =>
      "ArchivedStateConsistency invariant failed: Outdated entry evicted. Key: {}"
  | EvictedTempKeyNotInLiveState _ =>
      "ArchivedStateConsistency invariant failed: Evicted temp key does not exist in live state: {}"
  | TTLForTempEntryMissing _ _ =>
      "ArchivedStateConsistency invariant failed: TTL for temp entry does not exist in live state. Entry key: {}, TTL key: {}"
  | EvictedTempTTLStillLive _ _ =>
      "ArchivedStateConsistency invariant failed: Evicted TTL for temp entry is still live. Entry key: {}, TTL entry: {}"
  | EvictedCountMismatch _ _ _ =>
      "ArchivedStateConsistency invariant failed: Number of TTLs evicted does not match number of data/code entries evicted. Evicted {} TTLs, {} temp entries, {} archived entries."
  | RestoredFromLiveNotPersistent _ =>
      "ArchivedStateConsistency invariant failed: Restored entry from live state is not a persistent entry: {}"
  | RestoredFromLiveTTLMissing _ =>
      "ArchivedStateConsistency invariant failed: TTL for restored entry from live state is missing: {}"
  | RestoredFromArchiveNotPersistent _ =>
      "ArchivedStateConsistency invariant failed: Restored entry from archive is not a persistent entry: {}"
  | RestoredFromArchiveTTLMissing _ =>
      "ArchivedStateConsistency invariant failed: TTL for restored entry from archive is missing: {}"
  | RestoredFromArchiveStillInLive _ =>
      "ArchivedStateConsistency invariant failed: Restored entry from archive is still in live state: {}"
  | RestoredFromArchiveNotInHotArchive _ =>
      "ArchivedStateConsistency invariant failed: Restored entry from archive does not exist in hot archive: {}"
  | RestoredFromArchiveIncorrectValue _ _ =>
      "ArchivedStateConsistency invariant failed: Restored entry from archive has incorrect value: Entry to Restore: {}, Hot Archive Entry: {}"
  | RestoredFromLiveInHotArchive _ _ =>
      "ArchivedStateConsistency invariant failed: Restored entry from live BucketList exists in hot archive: Live Entry: {}, Hot Archive Entry: {}"
  | RestoredFromLiveNotInLiveState _ =>
      "ArchivedStateConsistency invariant failed: Restored entry from live BucketList does not exist in live state: {}"
  | RestoredFromLiveIncorrectValue _ _ =>
      "ArchivedStateConsistency invariant failed: Restored entry from live BucketList has incorrect value: Live Entry: {}, Entry to Restore: {}"
  | RestoredFromLiveNotExpired _ =>
      "ArchivedStateConsistency invariant failed: Restored entry from live BucketList is not expired: Entry: {}, TTL Entry: {}"
  end.

(** A loop over [l] whose body may [return] a message: the first message
    returned by a body ends the loop. *)
Fixpoint first_failure {A} (body : A → Outcome (option Failure)) (l : list A)
    : Outcome (option Failure) :=
  match l with
  | [] => Returns None
  | x :: l' =>
      r ← body x;
      match r with
      | Some f => Returns (Some f)
      | None => first_failure body l'
      end
  end.

Section checks.
Context `{XdrCodec}.

(** *** [start]: the merge walk over the two sorted complete states *)

Fixpoint start_walk (archived : list (LedgerKey * LedgerEntry))
    : list (LedgerKey * LedgerEntry) → option Failure :=
  fix walk_live (live : list (LedgerKey * LedgerEntry)) : option Failure :=
    match archived, live with
    | [], _ => None
    | _, [] => None
    | (ka, _) :: archived', (kl, _) :: live' =>
        if LedgerKey_ltb ka kl then start_walk archived' live
        else if LedgerKey_ltb kl ka then walk_live live'
        else Some (SameKeyInLiveAndArchived ka)
    end.

(** [protocolVersion] is the ledger version of the last closed ledger;
    [archived] and [live] are what [loadCompleteHotArchiveState] and
    [loadCompleteLedgerState] return (a [std::map], in key order). *)
Definition start (protocolVersion : Z)
    (archived live : list (LedgerKey * LedgerEntry))
    : list SnapshotAccess * option Failure :=
  if protocolVersionIsBefore protocolVersion
       FIRST_PROTOCOL_SUPPORTING_PERSISTENT_EVICTION
  then ([], None)
  else ([LoadCompleteHotArchiveState; LoadCompleteLedgerState],
        start_walk archived live).

(** *** [checkEvictionInvariants] *)

(** Body of the loop over [archivedEntries]. *)
Definition checkEvictedEntry
    (preloadedLiveEntries : gmap LedgerKey LedgerEntry)
    (preloadedArchivedEntries : gmap LedgerKey HotArchiveBucketEntry)
    (ledgerSeq ledgerVers : Z) (archivedEntry : LedgerEntry)
    : Outcome (option Failure) :=
  if negb (isPersistentEntry (LedgerEntryKey_data (data archivedEntry)))
  then Throws (ReleaseAssertFailed "isPersistentEntry(archivedEntry.data)")
  else
    let lk := LedgerEntryKey archivedEntry in
    match preloadedArchivedEntries !! lk with
    | Some preexistingEntry =>
        e ← archivedEntry_of preexistingEntry;
        Returns (Some (ArchivedEntryAlreadyInArchive e))
    | None =>
        match preloadedLiveEntries !! lk with
        | None => Returns (Some (EvictedEntryNotInLiveState lk))
        | Some liveEntry =>
            let ttlKey := getTTLKey (LedgerEntryKey archivedEntry) in
            match preloadedLiveEntries !! ttlKey with
            | None => Returns (Some (TTLForPersistentEntryMissing lk ttlKey))
            | Some ttl =>
                live ← isLive ttl ledgerSeq;
                if live : bool then Returns (Some (EvictedTTLStillLive lk ttl))
                else if protocolVersionStartsFrom ledgerVers V_24
                        && bool_decide (archivedEntry ≠ liveEntry)
                then Returns (Some (OutdatedEntryEvicted lk archivedEntry liveEntry))
                else Returns None
            end
        end
    end.

(** Body of the loop over [deletedKeys] for a temporary key. *)
Definition checkDeletedTempKey
    (preloadedLiveEntries : gmap LedgerKey LedgerEntry)
    (ledgerSeq : Z) (lk : LedgerKey) : Outcome (option Failure) :=
  match preloadedLiveEntries !! lk with
  | None => Returns (Some (EvictedTempKeyNotInLiveState lk))
  | Some _ =>
      let ttlLk := getTTLKey lk in
      match preloadedLiveEntries !! ttlLk with
      | None => Returns (Some (TTLForTempEntryMissing lk ttlLk))
      | Some ttl =>
          live ← isLive ttl ledgerSeq;
          if live : bool then Returns (Some (EvictedTempTTLStillLive lk ttl))
          else Returns None
      end
  end.

(** The counting loop over [deletedKeys]: either a message returned from
    inside the loop, or the final values of [ttls] and [temps]. *)
Fixpoint countDeletedKeys
    (preloadedLiveEntries : gmap LedgerKey LedgerEntry) (ledgerSeq : Z)
    (deletedKeys : list LedgerKey) (ttls temps : nat)
    : Outcome (Failure + nat * nat) :=
  match deletedKeys with
  | [] => Returns (inr (ttls, temps))
  | lk :: rest =>
      if isTemporaryEntry lk then
        r ← checkDeletedTempKey preloadedLiveEntries ledgerSeq lk;
        match r with
        | Some f => Returns (inl f)
        | None =>
            countDeletedKeys preloadedLiveEntries ledgerSeq rest ttls (S temps)
        end
      else countDeletedKeys preloadedLiveEntries ledgerSeq rest (S ttls) temps
  end.

(** [deletedKeys] is the [UnorderedSet] in iteration order. *)
Definition checkEvictionInvariants
    (preloadedLiveEntries : gmap LedgerKey LedgerEntry)
    (preloadedArchivedEntries : gmap LedgerKey HotArchiveBucketEntry)
    (deletedKeys : list LedgerKey) (archivedEntries : list LedgerEntry)
    (ledgerSeq ledgerVers : Z) : Outcome (option Failure) :=
  if bool_decide (deletedKeys = []) && bool_decide (archivedEntries = [])
  then Returns None
  else
    r ← first_failure
          (checkEvictedEntry preloadedLiveEntries preloadedArchivedEntries
             ledgerSeq ledgerVers) archivedEntries;
    match r with
    | Some f => Returns (Some f)
    | None =>
        c ← countDeletedKeys preloadedLiveEntries ledgerSeq deletedKeys 0 0;
        match c with
        | inl f => Returns (Some f)
        | inr (ttls, temps) =>
            if bool_decide ((temps + length archivedEntries)%nat ≠ ttls)
            then Returns (Some (EvictedCountMismatch ttls temps
                                  (length archivedEntries)))
            else Returns None
        end
    end.

(** *** [checkRestoreInvariants] *)

(** Body of the first loop, over [restoredFromLiveState]. *)
Definition checkRestoredFromLiveKey
    (restoredFromLiveState : list (LedgerKey * LedgerEntry))
    (p : LedgerKey * LedgerEntry) : Outcome (option Failure) :=
  let key := p.1 in
  if bool_decide (LedgerKey_type key = TTL) then Returns None
  else if negb (isPersistentEntry key)
  then Returns (Some (RestoredFromLiveNotPersistent key))
  else if umap_find restoredFromLiveState (getTTLKey key) is None
  then Returns (Some (RestoredFromLiveTTLMissing (getTTLKey key)))
  else Returns None.

(** Body of the second loop, over [restoredFromArchive]. *)
Definition checkRestoredFromArchiveKey
    (restoredFromArchive : list (LedgerKey * LedgerEntry))
    (p : LedgerKey * LedgerEntry) : Outcome (option Failure) :=
  let key := p.1 in
  if bool_decide (LedgerKey_type key = TTL) then Returns None
  else if negb (isPersistentEntry key)
  then Returns (Some (RestoredFromArchiveNotPersistent key))
  else if umap_find restoredFromArchive (getTTLKey key) is None
  then Returns (Some (RestoredFromArchiveTTLMissing (getTTLKey key)))
  else Returns None.

(** The condition of the last [else if] of the third loop, with the
    precedence of the source: [!(a) || (!(b) && c)]. *)
Definition restoredValueIsIncorrect (archived entry : LedgerEntry)
    (ledgerVer : Z) : bool :=
  negb (bool_decide (data archived = data entry))
  || (negb (bool_decide (ext archived = ext entry))
      && protocolVersionStartsFrom ledgerVer V_24).

(** Body of the third loop, over [restoredFromArchive]. *)
Definition checkHotArchiveRestore
    (preloadedLiveEntries : gmap LedgerKey LedgerEntry)
    (preloadedArchivedEntries : gmap LedgerKey HotArchiveBucketEntry)
    (ledgerVer : Z) (p : LedgerKey * LedgerEntry) : Outcome (option Failure) :=
  let '(key, entry) := p in
  if preloadedLiveEntries !! key is Some _
  then Returns (Some (RestoredFromArchiveStillInLive key))
  else if bool_decide (LedgerKey_type key = TTL) then Returns None
  else
    match preloadedArchivedEntries !! key with
    | None => Returns (Some (RestoredFromArchiveNotInHotArchive key))
    | Some hotArchiveEntry =>
        archived ← archivedEntry_of hotArchiveEntry;
        if restoredValueIsIncorrect archived entry ledgerVer
        then Returns (Some (RestoredFromArchiveIncorrectValue entry archived))
        else Returns None
    end.

(** Body of the fourth loop, over [restoredFromLiveState]. *)
Definition checkLiveRestore
    (preloadedLiveEntries : gmap LedgerKey LedgerEntry)
    (preloadedArchivedEntries : gmap LedgerKey HotArchiveBucketEntry)
    (ledgerSeq : Z) (p : LedgerKey * LedgerEntry) : Outcome (option Failure) :=
  let '(key, entry) := p in
  match preloadedArchivedEntries !! key with
  | Some hotArchiveEntry =>
      archived ← archivedEntry_of hotArchiveEntry;
      Returns (Some (RestoredFromLiveInHotArchive entry archived))
  | None =>
      match preloadedLiveEntries !! key with
      | None => Returns (Some (RestoredFromLiveNotInLiveState key))
      | Some liveEntry =>
          if bool_decide (liveEntry ≠ entry)
          then Returns (Some (RestoredFromLiveIncorrectValue (data liveEntry) entry))
          else if bool_decide (LedgerKey_type key = TTL)
          then
            live ← isLive entry ledgerSeq;
            if live : bool then Returns (Some (RestoredFromLiveNotExpired entry))
            else Returns None
          else Returns None
      end
  end.

Definition checkRestoreInvariants
    (preloadedLiveEntries : gmap LedgerKey LedgerEntry)
    (preloadedArchivedEntries : gmap LedgerKey HotArchiveBucketEntry)
    (restoredFromArchive restoredFromLiveState : list (LedgerKey * LedgerEntry))
    (ledgerSeq ledgerVer : Z) : Outcome (option Failure) :=
  r1 ← first_failure (checkRestoredFromLiveKey restoredFromLiveState)
         restoredFromLiveState;
  if r1 is Some f then Returns (Some f) else
  r2 ← first_failure (checkRestoredFromArchiveKey restoredFromArchive)
         restoredFromArchive;
  if r2 is Some f then Returns (Some f) else
  r3 ← first_failure
         (checkHotArchiveRestore preloadedLiveEntries preloadedArchivedEntries
            ledgerVer) restoredFromArchive;
  if r3 is Some f then Returns (Some f) else
  first_failure
    (checkLiveRestore preloadedLiveEntries preloadedArchivedEntries ledgerSeq)
    restoredFromLiveState.

(** *** [checkOnLedgerCommit] *)

(** The keys added to [allKeys] for one key: the key, and its TTL key when the
    key is persistent. *)
Definition keysToPreload (key : LedgerKey) : gset LedgerKey :=
  if isPersistentEntry key then {[key; getTTLKey key]} else {[key]}.

Definition collectAllKeys (evictedFromLive : list LedgerEntry)
    (deletedKeysFromLive : list LedgerKey)
    (restoredFromArchive restoredFromLiveState : list (LedgerKey * LedgerEntry))
    : gset LedgerKey :=
  ⋃ (((λ e, keysToPreload (LedgerEntryKey e)) <$> evictedFromLive)
     ++ (keysToPreload <$> deletedKeysFromLive)
     ++ ((λ p, if isPersistentEntry p.1
               then {[p.1; getTTLKey (LedgerEntryKey p.2)]} else {[p.1]})
           <$> restoredFromArchive)
     ++ ((λ p, if isPersistentEntry p.1
               then {[p.1; getTTLKey (LedgerEntryKey p.2)]} else {[p.1]})
           <$> restoredFromLiveState)).

(** [preloadedLiveEntries[LedgerEntryKey(entry)] = entry] for each loaded
    entry. *)
Definition preloadLive (loaded : list LedgerEntry) : gmap LedgerKey LedgerEntry :=
  foldl (λ m entry, <[LedgerEntryKey entry := entry]> m) ∅ loaded.

Definition preloadArchived (loaded : list HotArchiveBucketEntry)
    : gmap LedgerKey HotArchiveBucketEntry :=
  foldl (λ m entry,
           match entry with
           | HOT_ARCHIVE_ARCHIVED e => <[LedgerEntryKey e := entry]> m
           | _ => m
           end) ∅ loaded.

(** The returned string: [None] is the empty string, [Some (e, r)] is
    [evictionRes + "
" + restoreRes]. *)
Definition checkOnLedgerCommit
    (lclLiveState : SearchableSnapshot)
    (lclHotArchiveState : gmap LedgerKey HotArchiveBucketEntry)
    (evictedFromLive : list LedgerEntry)
    (deletedKeysFromLive : list LedgerKey)
    (restoredFromArchive restoredFromLiveState : list (LedgerKey * LedgerEntry))
    : list SnapshotAccess * Outcome (option (option Failure * option Failure)) :=
  if protocolVersionIsBefore (snap_ledgerVersion lclLiveState)
       FIRST_PROTOCOL_SUPPORTING_PERSISTENT_EVICTION
  then ([], Returns None)
  else
    let ledgerSeq := u32 (snap_ledgerSeq lclLiveState + 1) in
    let ledgerVers := snap_ledgerVersion lclLiveState in
    let allKeys :=
      collectAllKeys evictedFromLive deletedKeysFromLive restoredFromArchive
        restoredFromLiveState in
    let preloadedLiveEntries :=
      preloadLive (loadKeys (snap_entries lclLiveState) allKeys) in
    let preloadedArchivedEntries :=
      preloadArchived (loadKeys lclHotArchiveState allKeys) in
    let deletedKeys := remove_dups deletedKeysFromLive in
    ([LoadKeysLive allKeys; LoadKeysHotArchive allKeys],
     evictionRes ← checkEvictionInvariants preloadedLiveEntries
                     preloadedArchivedEntries deletedKeys evictedFromLive
                     ledgerSeq ledgerVers;
     restoreRes ← checkRestoreInvariants preloadedLiveEntries
                    preloadedArchivedEntries restoredFromArchive
                    restoredFromLiveState ledgerSeq ledgerVers;
     match evictionRes, restoreRes with
     | None, None => Returns None
     | _, _ => Returns (Some (evictionRes, restoreRes))
     end).

End checks.
End ArchivedStateConsistency.

(** * Types shared by the operation frames *)

(** ** Diagnostic events *)

Inductive SCErrorType : Type := SCE_BUDGET | SCE_VALUE | SCE_STORAGE.
Inductive SCErrorCode : Type := SCEC_EXCEEDED_LIMIT | SCEC_INVALID_INPUT.

Definition makeU64SCVal (v : Z) : SCVal := SCV_U64 v.
Definition makeBytesSCVal (b : N) : SCVal := SCV_Bytes b.
Definition makeAddressSCVal (a : N) : SCVal := SCV_Address a.
Definition makeSymbolSCVal (s : string) : SCVal := SCV_Symbol s.

Inductive DiagnosticEvent : Type :=
  | ErrorEvent (ty : SCErrorType) (code : SCErrorCode) (message : string)
      (args : list SCVal)
  | CoreMetricsEvent (inSuccessfulContractCall : bool) (topics : list SCVal)
      (value : SCVal)
  | HostDiagnosticEvent (payload : N).

(** Modelled from the spec: the [DiagnosticEventManager] is the sequence of
    the structured diagnostic events pushed so far; [pushError] and
    [pushEvent] append to it. *)
Definition pushError (ty : SCErrorType) (code : SCErrorCode) (message : string)
    (args : list SCVal) (buffer : list DiagnosticEvent) : list DiagnosticEvent :=
  buffer ++ [ErrorEvent ty code message args].

(** Modelled from the spec: [pushEvent] of the [DiagnosticEventManager]
    appends the event. *)
Definition pushEvent (e : DiagnosticEvent) (buffer : list DiagnosticEvent)
    : list DiagnosticEvent :=
  buffer ++ [e].

(** ** Resources and network configuration (the fields the code reads) *)

Record LedgerFootprint : Type := mkFootprint {
  readOnly : list LedgerKey;
  readWrite : list LedgerKey;
}.

Record SorobanResources : Type := mkResources {
  footprint : LedgerFootprint;
  instructions : Z;
  diskReadBytes : Z;
  writeBytes : Z;
}.

(** [SorobanTransactionData::ext]: arm 1 carries [archivedSorobanEntries],
    indices into the read-write footprint. *)
Inductive SorobanResourcesExt : Type :=
  | ResourcesExtV0
  | ResourcesExtV1 (archivedSorobanEntries : list nat).

Record StateArchivalSettings : Type := mkArchivalSettings {
  minPersistentTTL : Z;
  minTemporaryTTL : Z;
  maxEntryTTL : Z;
}.

Record SorobanNetworkConfig : Type := mkNetworkConfig {
  txMemoryLimit : Z;
  txMaxContractEventsSizeBytes : Z;
  maxContractSizeBytes : Z;
  stateArchivalSettings : StateArchivalSettings;
  cpuCostParams : N;
  memCostParams : N;
  rustBridgeRentFeeConfiguration : N;
}.

Record Config : Type := mkConfig {
  CURRENT_LEDGER_PROTOCOL_VERSION : Z;
  ENABLE_SOROBAN_DIAGNOSTIC_EVENTS : bool;
}.

Record CxxLedgerEntryRentChange : Type := mkRentChange {
  is_persistent : bool;
  old_size_bytes : Z;
  new_size_bytes : Z;
  old_live_until_ledger : Z;
  new_live_until_ledger : Z;
}.

(** ** The transactional overlay *)

Record LedgerHeader : Type := mkHeader {
  ledgerSeq : Z;
  ledgerVersion : Z;
  baseReserve : Z;
  closeTime : Z;
}.

(** Modelled from the spec: the overlay ([AbstractLedgerTxn]) is "a stacked
    transactional view over LiveStore" that buffers creates, modifications,
    deletes and restores.  It is the map of the entries visible through it,
    together with the restores recorded for the commit: a key in
    [ltx_restoredFromHotArchive] is deleted from the HotArchive. *)
Record LedgerTxn : Type := mkLedgerTxn {
  ltx_header : LedgerHeader;
  ltx_entries : gmap LedgerKey LedgerEntry;
  ltx_restoredFromHotArchive : gmap LedgerKey LedgerEntry;
  ltx_restoredFromLiveBucketList : gmap LedgerKey LedgerEntry;
}.

(** [ltx.loadHeader().current().ledgerSeq] and [.ledgerVersion] *)
Definition getLedgerSeq (ltx : LedgerTxn) : Z := ledgerSeq (ltx_header ltx).
Definition getLedgerVersion (ltx : LedgerTxn) : Z := ledgerVersion (ltx_header ltx).

Section ledger_txn.
Context `{XdrCodec}.

(** Modelled from the spec: [load_without_record(k)], the same as
    [load(k)] "without marking for mutation". *)
Definition loadWithoutRecord (ltx : LedgerTxn) (k : LedgerKey) : option LedgerEntry :=
  ltx_entries ltx !! k.

(** Modelled from the spec: [load(k) → Option<Entry>] of the overlay. *)
Definition load (ltx : LedgerTxn) (k : LedgerKey) : option LedgerEntry :=
  ltx_entries ltx !! k.

(** Modelled from the spec: [getNewestVersion(k)] of the overlay, the entry
    that [load(k)] sees. *)
Definition getNewestVersion (ltx : LedgerTxn) (k : LedgerKey) : option LedgerEntry :=
  ltx_entries ltx !! k.

(** The overlay with its entries replaced. *)
Definition with_entries (ltx : LedgerTxn) (m : gmap LedgerKey LedgerEntry) : LedgerTxn :=
  {| ltx_header := ltx_header ltx;
     ltx_entries := m;
     ltx_restoredFromHotArchive := ltx_restoredFromHotArchive ltx;
     ltx_restoredFromLiveBucketList := ltx_restoredFromLiveBucketList ltx |}.

(** Modelled from the spec: [create(e)] "fails if key already present". *)
Definition create (ltx : LedgerTxn) (e : LedgerEntry) : Outcome LedgerTxn :=
  match ltx_entries ltx !! LedgerEntryKey e with
  | Some _ => Throws (RuntimeError "Key already exists")
  | None => Returns (with_entries ltx (<[LedgerEntryKey e := e]> (ltx_entries ltx)))
  end.

(** Modelled from the spec: [update(e)] "replaces by key"; in the source it is
    the assignment [ltxe.current() = le] to a loaded entry. *)
Definition update (ltx : LedgerTxn) (e : LedgerEntry) : LedgerTxn :=
  with_entries ltx (<[LedgerEntryKey e := e]> (ltx_entries ltx)).

(** Modelled from the spec: [erase(k)] "removes". *)
Definition erase (ltx : LedgerTxn) (k : LedgerKey) : LedgerTxn :=
  with_entries ltx (delete k (ltx_entries ltx)).

(** Modelled from the spec: the TTL entry that a restore writes for [e], "a
    fresh TTL" with the given [live_until]. *)
Definition restoredTTLEntry (e : LedgerEntry) (liveUntil : Z) : LedgerEntry :=
  {| lastModifiedLedgerSeq := 0;
     data := TTLData (sha256_xdr_key (LedgerEntryKey e)) liveUntil;
     ext := 0%N |}.

(** Modelled from the spec: [restore_from_hot_archive(e, live_until)], which
    "inserts/replaces the entry and writes its TTL" and "also deletes from
    HotArchive".  It returns the TTL entry written. *)
Definition restoreFromHotArchive (ltx : LedgerTxn) (e : LedgerEntry)
    (liveUntil : Z) : LedgerTxn * LedgerEntry :=
  let ttl := restoredTTLEntry e liveUntil in
  ({| ltx_header := ltx_header ltx;
      ltx_entries :=
        <[getTTLKey (LedgerEntryKey e) := ttl]>
          (<[LedgerEntryKey e := e]> (ltx_entries ltx));
      ltx_restoredFromHotArchive :=
        <[getTTLKey (LedgerEntryKey e) := ttl]>
          (<[LedgerEntryKey e := e]> (ltx_restoredFromHotArchive ltx));
      ltx_restoredFromLiveBucketList := ltx_restoredFromLiveBucketList ltx |},
   ttl).

(** Modelled from the spec: [restore_from_live(e, live_until)], which
    "inserts/replaces the entry and writes its TTL". *)
Definition restoreFromLiveBucketList (ltx : LedgerTxn) (e : LedgerEntry)
    (liveUntil : Z) : LedgerTxn * LedgerEntry :=
  let ttl := restoredTTLEntry e liveUntil in
  ({| ltx_header := ltx_header ltx;
      ltx_entries :=
        <[getTTLKey (LedgerEntryKey e) := ttl]>
          (<[LedgerEntryKey e := e]> (ltx_entries ltx));
      ltx_restoredFromHotArchive := ltx_restoredFromHotArchive ltx;
      ltx_restoredFromLiveBucketList :=
        <[getTTLKey (LedgerEntryKey e) := ttl]>
          (<[LedgerEntryKey e := e]> (ltx_restoredFromLiveBucketList ltx)) |},
   ttl).

End ledger_txn.

(** ** External collaborators of the operation frames *)

(** [validateContractLedgerEntry] ([TransactionUtils]) answers whether the
    entry is within the configured size limits and pushes its diagnostics;
    [consumeRefundableSorobanResources] is the refundable-fee tracker. *)
Class TransactionUtils : Type := {
  validateContractLedgerEntry :
    LedgerKey → Z → SorobanNetworkConfig → Config → bool * list DiagnosticEvent;
  RefundableFeeTracker : Type;
  consumeRefundableSorobanResources :
    RefundableFeeTracker → Z → Z → Z → SorobanNetworkConfig → Config →
    bool * RefundableFeeTracker * list DiagnosticEvent;
}.

(** What the Soroban host receives and returns.  A [CxxBuf] is represented by the
    value it encodes together with its length in bytes. *)
Record CxxLedgerInfo : Type := mkLedgerInfo {
  info_protocol_version : Z;
  info_sequence_number : Z;
  info_timestamp : Z;
  info_base_reserve : Z;
  info_memory_limit : Z;
  info_min_persistent_entry_ttl : Z;
  info_min_temp_entry_ttl : Z;
  info_max_entry_ttl : Z;
  info_cpu_cost_params : N;
  info_mem_cost_params : N;
  info_network_id : N;
}.

Record HostInvocation : Type := mkInvocation {
  inv_config_max_protocol : Z;
  inv_enable_diagnostics : bool;
  inv_instruction_limit : Z;
  inv_hf : N;
  inv_resources : SorobanResources;
  inv_ext : SorobanResourcesExt;
  inv_source : N;
  inv_auth : list N;
  inv_ledger_info : CxxLedgerInfo;
  inv_ledger_entries : list LedgerEntry;
  inv_ttl_entries : list (option TTLEntry);
  inv_base_prng_seed : N;
  inv_rent_fee_configuration : N;
}.

Record InvokeHostFunctionOutput : Type := mkOutput {
  success : bool;
  is_internal_error : bool;
  cpu_insns : Z;
  mem_bytes : Z;
  time_nsecs : Z;
  cpu_insns_excluding_vm_instantiation : Z;
  time_nsecs_excluding_vm_instantiation : Z;
  modified_ledger_entries : list (Z * LedgerEntry);
  contract_events : list (Z * N);
  diagnostic_events : list N;
  result_value : Z * SCVal;
  rent_fee : Z;
}.

(** The functions of the Rust bridge (the Soroban host and the fee
    functions), by interface. *)
Class RustBridge : Type := {
  invoke_host_function : HostInvocation → Outcome InvokeHostFunctionOutput;
  compute_rent_fee : Z → Z → list CxxLedgerEntryRentChange → N → Z → Z;
  contract_code_memory_size_for_rent : Z → Z → N → N → N → Z;
}.

(** [e.data.contractCode()] *)
Definition contractCode_of (e : LedgerEntry) : Outcome N :=
  match data e with
  | ContractCodeEntry _ code => Returns code
  | _ => Throws (XdrWrongUnion "contractCode")
  end.

(** * [transactions/RestoreFootprintOpFrame.cpp] *)

Module RestoreFootprintOpFrame.

Inductive RestoreFootprintResultCode : Type :=
  | RESTORE_FOOTPRINT_SUCCESS
  | RESTORE_FOOTPRINT_MALFORMED
  | RESTORE_FOOTPRINT_RESOURCE_LIMIT_EXCEEDED
  | RESTORE_FOOTPRINT_INSUFFICIENT_REFUNDABLE_FEE.

Section frame.
Context `{XdrCodec} `{TransactionUtils} `{RustBridge}.

(** What [doApply] reads and does not change. *)
Record Env : Type := mkEnv {
  resources : SorobanResources;
  sorobanConfig : SorobanNetworkConfig;
  appConfig : Config;
  hotArchive : gmap LedgerKey HotArchiveBucketEntry;
}.

(** What [doApply] changes: the overlay, the byte counters of
    [RestoreFootprintMetrics], the rent changes collected, the diagnostic
    events, the result code and the refundable-fee tracker. *)
Record State : Type := mkState {
  ltx : LedgerTxn;
  mLedgerReadByte : Z;
  mLedgerWriteByte : Z;
  rustEntryRentChanges : list CxxLedgerEntryRentChange;
  diagnosticEvents : list DiagnosticEvent;
  res : option RestoreFootprintResultCode;
  refundableFeeTracker : option RefundableFeeTracker;
}.

Definition set_ltx (v : LedgerTxn) (s : State) : State :=
  mkState v (mLedgerReadByte s) (mLedgerWriteByte s) (rustEntryRentChanges s)
    (diagnosticEvents s) (res s) (refundableFeeTracker s).
Definition set_mLedgerReadByte (v : Z) (s : State) : State :=
  mkState (ltx s) v (mLedgerWriteByte s) (rustEntryRentChanges s)
    (diagnosticEvents s) (res s) (refundableFeeTracker s).
Definition set_mLedgerWriteByte (v : Z) (s : State) : State :=
  mkState (ltx s) (mLedgerReadByte s) v (rustEntryRentChanges s)
    (diagnosticEvents s) (res s) (refundableFeeTracker s).
Definition set_rustEntryRentChanges (v : list CxxLedgerEntryRentChange)
    (s : State) : State :=
  mkState (ltx s) (mLedgerReadByte s) (mLedgerWriteByte s) v
    (diagnosticEvents s) (res s) (refundableFeeTracker s).
Definition set_diagnosticEvents (v : list DiagnosticEvent) (s : State) : State :=
  mkState (ltx s) (mLedgerReadByte s) (mLedgerWriteByte s)
    (rustEntryRentChanges s) v (res s) (refundableFeeTracker s).
Definition set_res (v : RestoreFootprintResultCode) (s : State) : State :=
  mkState (ltx s) (mLedgerReadByte s) (mLedgerWriteByte s)
    (rustEntryRentChanges s) (diagnosticEvents s) (Some v)
    (refundableFeeTracker s).
Definition set_refundableFeeTracker (v : RefundableFeeTracker) (s : State) : State :=
  mkState (ltx s) (mLedgerReadByte s) (mLedgerWriteByte s)
    (rustEntryRentChanges s) (diagnosticEvents s) (res s) (Some v).

(** [rustEntryRentChanges.emplace_back()] appends a value-initialised
    element: every field is zero. *)
Definition emptyRentChange : CxxLedgerEntryRentChange :=
  {| is_persistent := false;
     old_size_bytes := 0;
     new_size_bytes := 0;
     old_live_until_ledger := 0;
     new_live_until_ledger := 0 |}.

(** An assignment through the reference [rustEntryRentChanges.back()]. *)
Definition update_back {A} (f : A → A) (l : list A) : list A :=
  alter f (pred (length l)) l.
Global Arguments update_back : simpl never.

(** [innerResult(res).code(c); return false;] *)
Definition fail_with (c : RestoreFootprintResultCode) : M State bool :=
  modify (set_res c);; mret false.

(** Where the entry to restore was found by the first block of the loop
    body; [Skip] stands for its three [continue] statements. *)
Inductive Source : Type :=
  | Skip
  | FromHotArchive (hotArchiveEntry : HotArchiveBucketEntry)
  | FromLiveBucketList.

Definition findSource (env : Env) (ledgerSeq : Z) (lk : LedgerKey)
    : M State Source :=
  s ← get;
  match loadWithoutRecord (ltx s) (getTTLKey lk) with
  | None =>
      if protocolVersionStartsFrom (getLedgerVersion (ltx s))
           FIRST_PROTOCOL_SUPPORTING_PERSISTENT_EVICTION
      then
        match hotArchive env !! lk with
        | None => mret Skip
        | Some hotArchiveEntry => mret (FromHotArchive hotArchiveEntry)
        end
      else mret Skip
  | Some constTTLLtxe =>
      live ← liftO (isLive constTTLLtxe ledgerSeq);
      if live : bool then mret Skip else mret FromLiveBucketList
  end.

(** The rest of the loop body for an entry that is restored.  The result
    [false] is [return false]; [true] is the end of the body.  The rent
    change is appended empty, and filled through the reference [rustChange]
    to the last element: three fields before the memory size for rent is
    computed, two after. *)
Definition restoreEntry (env : Env) (restoredLiveUntilLedger ledgerVersion : Z)
    (lk : LedgerKey) (hotArchiveEntry : option HotArchiveBucketEntry)
    : M State bool :=
  s ← get;
  entry ← match hotArchiveEntry with
          | Some be => liftO (archivedEntry_of be)
          | None =>
              match loadWithoutRecord (ltx s) lk with
              | Some e => mret e
              | None => throw (ReleaseAssertFailed "constEntryLtxe")
              end
          end;
  let entrySize := u32 (xdr_size_entry entry) in
  let readByte := u32 (mLedgerReadByte s + entrySize) in
  modify (set_mLedgerReadByte readByte);;
  if diskReadBytes (resources env) <? readByte then
    modify (λ s, set_diagnosticEvents
      (pushError SCE_BUDGET SCEC_EXCEEDED_LIMIT
         "operation byte-read resources exceeds amount specified"
         [makeU64SCVal readByte; makeU64SCVal (diskReadBytes (resources env))]
         (diagnosticEvents s)) s);;
    fail_with RESTORE_FOOTPRINT_RESOURCE_LIMIT_EXCEEDED
  else
  let writeByte := u32 (mLedgerWriteByte s + entrySize) in
  modify (set_mLedgerWriteByte writeByte);;
  let '(valid, diags) :=
    validateContractLedgerEntry lk entrySize (sorobanConfig env) (appConfig env) in
  modify (λ s, set_diagnosticEvents (diagnosticEvents s ++ diags) s);;
  if negb valid then fail_with RESTORE_FOOTPRINT_RESOURCE_LIMIT_EXCEEDED
  else
  if writeBytes (resources env) <? writeByte then
    modify (λ s, set_diagnosticEvents
      (pushError SCE_BUDGET SCEC_EXCEEDED_LIMIT
         "operation byte-write resources exceeds amount specified"
         [makeU64SCVal writeByte; makeU64SCVal (writeBytes (resources env))]
         (diagnosticEvents s)) s);;
    fail_with RESTORE_FOOTPRINT_RESOURCE_LIMIT_EXCEEDED
  else
  modify (λ s, set_rustEntryRentChanges
    (rustEntryRentChanges s ++ [emptyRentChange]) s);;
  modify (λ s, set_rustEntryRentChanges
    (update_back
       (λ rustChange,
          {| is_persistent := true;
             old_size_bytes := 0;
             new_size_bytes := new_size_bytes rustChange;
             old_live_until_ledger := 0;
             new_live_until_ledger := new_live_until_ledger rustChange |})
       (rustEntryRentChanges s)) s);;
  entrySizeForRent ←
    (if protocolVersionStartsFrom ledgerVersion V_23 && isContractCodeEntry lk
     then
       code ← liftO (contractCode_of entry);
       mret (u32 (contract_code_memory_size_for_rent
                    (CURRENT_LEDGER_PROTOCOL_VERSION (appConfig env))
                    ledgerVersion code (cpuCostParams (sorobanConfig env))
                    (memCostParams (sorobanConfig env))))
     else mret entrySize);
  modify (λ s, set_rustEntryRentChanges
    (update_back
       (λ rustChange,
          {| is_persistent := is_persistent rustChange;
             old_size_bytes := old_size_bytes rustChange;
             new_size_bytes := entrySizeForRent;
             old_live_until_ledger := old_live_until_ledger rustChange;
             new_live_until_ledger := restoredLiveUntilLedger |})
       (rustEntryRentChanges s)) s);;
  match hotArchiveEntry with
  | Some be =>
      archived ← liftO (archivedEntry_of be);
      modify (λ s, set_ltx
        (restoreFromHotArchive (ltx s) archived restoredLiveUntilLedger).1 s);;
      mret true
  | None =>
      s ← get;
      match getNewestVersion (ltx s) lk with
      | None => throw (ReleaseAssertFailed "entry")
      | Some e =>
          modify (set_ltx
            (restoreFromLiveBucketList (ltx s) e restoredLiveUntilLedger).1);;
          mret true
      end
  end.

(** The body of the loop over [footprint.readWrite]. *)
Definition restoreKey (env : Env) (ledgerSeq restoredLiveUntilLedger
    ledgerVersion : Z) (lk : LedgerKey) : M State bool :=
  source ← findSource env ledgerSeq lk;
  match source with
  | Skip => mret true
  | FromHotArchive be =>
      restoreEntry env restoredLiveUntilLedger ledgerVersion lk (Some be)
  | FromLiveBucketList =>
      restoreEntry env restoredLiveUntilLedger ledgerVersion lk None
  end.

Fixpoint restoreKeys (env : Env) (ledgerSeq restoredLiveUntilLedger
    ledgerVersion : Z) (keys : list LedgerKey) : M State bool :=
  match keys with
  | [] => mret true
  | lk :: rest =>
      ok ← restoreKey env ledgerSeq restoredLiveUntilLedger ledgerVersion lk;
      if ok : bool
      then restoreKeys env ledgerSeq restoredLiveUntilLedger ledgerVersion rest
      else mret false
  end.

(** The restored TTL: "minimum TTL, including the current ledger". *)
Definition restoredLiveUntilLedger_of (ledgerSeq : Z)
    (archivalSettings : StateArchivalSettings) : Z :=
  u32 (ledgerSeq + minPersistentTTL archivalSettings - 1).

(** The state in which [doApply] starts: the byte counters of the fresh
    [RestoreFootprintMetrics] are zero and no rent change is collected. *)
Definition initialState (ltx0 : LedgerTxn)
    (res0 : option RestoreFootprintResultCode)
    (tracker : option RefundableFeeTracker)
    (diagnosticEvents0 : list DiagnosticEvent) : State :=
  {| ltx := ltx0;
     mLedgerReadByte := 0;
     mLedgerWriteByte := 0;
     rustEntryRentChanges := [];
     diagnosticEvents := diagnosticEvents0;
     res := res0;
     refundableFeeTracker := tracker |}.

(** The rent fee is computed from the rent changes collected and charged to
    the refundable fee. *)
Definition chargeRentFee (env : Env) (ledgerSeq ledgerVersion : Z) : M State bool :=
  s ← get;
  let rentFee :=
    compute_rent_fee (CURRENT_LEDGER_PROTOCOL_VERSION (appConfig env))
      ledgerVersion (rustEntryRentChanges s)
      (rustBridgeRentFeeConfiguration (sorobanConfig env)) ledgerSeq in
  match refundableFeeTracker s with
  | None => throw (ReleaseAssertFailed "refundableFeeTracker")
  | Some tracker =>
      let '(enough, tracker', diags) :=
        consumeRefundableSorobanResources tracker 0 rentFee
          (getLedgerVersion (ltx s)) (sorobanConfig env) (appConfig env) in
      modify (λ s, set_diagnosticEvents (diagnosticEvents s ++ diags)
                     (set_refundableFeeTracker tracker' s));;
      if negb enough
      then fail_with RESTORE_FOOTPRINT_INSUFFICIENT_REFUNDABLE_FEE
      else modify (set_res RESTORE_FOOTPRINT_SUCCESS);; mret true
  end.

Definition doApply (env : Env) (ltx0 : LedgerTxn)
    (res0 : option RestoreFootprintResultCode)
    (tracker : option RefundableFeeTracker)
    (diagnosticEvents0 : list DiagnosticEvent) : Result State bool :=
  let s := initialState ltx0 res0 tracker diagnosticEvents0 in
  match tracker with
  | None => Thrown (ReleaseAssertFailed "refundableFeeTracker") s
  | Some _ =>
      let ledgerSeq := getLedgerSeq ltx0 in
      let restoredLiveUntilLedger :=
        restoredLiveUntilLedger_of ledgerSeq
          (stateArchivalSettings (sorobanConfig env)) in
      let ledgerVersion := getLedgerVersion ltx0 in
      (ok ← restoreKeys env ledgerSeq restoredLiveUntilLedger ledgerVersion
              (readWrite (footprint (resources env)));
       if negb ok then mret false
       else chargeRentFee env ledgerSeq ledgerVersion) s
  end.

(** The loop of [doCheckValidForSoroban] over [footprint.readWrite]. *)
Fixpoint checkReadWriteKeys (keys : list LedgerKey)
    (res0 : option RestoreFootprintResultCode)
    (diagnosticEvents0 : list DiagnosticEvent)
    : bool * option RestoreFootprintResultCode * list DiagnosticEvent :=
  match keys with
  | [] => (true, res0, diagnosticEvents0)
  | lk :: rest =>
      if negb (isPersistentEntry lk) then
        (false, Some RESTORE_FOOTPRINT_MALFORMED,
         pushError SCE_STORAGE SCEC_INVALID_INPUT
           "only persistent Soroban entries can be restored" []
           diagnosticEvents0)
      else checkReadWriteKeys rest res0 diagnosticEvents0
  end.

(** [doCheckValidForSoroban]: from the footprint, the result code and the
    diagnostic events before the call, to the returned flag and their values
    after it. *)
Definition doCheckValidForSoroban (fp : LedgerFootprint)
    (res0 : option RestoreFootprintResultCode)
    (diagnosticEvents0 : list DiagnosticEvent)
    : bool * option RestoreFootprintResultCode * list DiagnosticEvent :=
  if negb (bool_decide (readOnly fp = [])) then
    (false, Some RESTORE_FOOTPRINT_MALFORMED,
     pushError SCE_STORAGE SCEC_INVALID_INPUT
       "read-only footprint must be empty for RestoreFootprint operation" []
       diagnosticEvents0)
  else checkReadWriteKeys (readWrite fp) res0 diagnosticEvents0.

End frame.
End RestoreFootprintOpFrame.

(** * [transactions/InvokeHostFunctionOpFrame.cpp] *)

Module InvokeHostFunctionOpFrame.

Inductive InvokeHostFunctionResultCode : Type :=
  | INVOKE_HOST_FUNCTION_SUCCESS
  | INVOKE_HOST_FUNCTION_MALFORMED
  | INVOKE_HOST_FUNCTION_TRAPPED
  | INVOKE_HOST_FUNCTION_RESOURCE_LIMIT_EXCEEDED
  | INVOKE_HOST_FUNCTION_ENTRY_ARCHIVED
  | INVOKE_HOST_FUNCTION_INSUFFICIENT_REFUNDABLE_FEE.

(** ** [struct HostFunctionMetrics]

    The [uint32_t] counters wrap at [2^32]; the host runtime metrics are
    [uint64_t] values copied from the output of the host. *)
Record HostFunctionMetrics : Type := mkMetrics {
  mReadEntry : Z;
  mWriteEntry : Z;
  mLedgerReadByte : Z;
  mLedgerWriteByte : Z;
  mReadKeyByte : Z;
  mWriteKeyByte : Z;
  mReadDataByte : Z;
  mWriteDataByte : Z;
  mReadCodeByte : Z;
  mWriteCodeByte : Z;
  mEmitEvent : Z;
  mEmitEventByte : Z;
  mCpuInsn : Z;
  mMemByte : Z;
  mInvokeTimeNsecs : Z;
  mCpuInsnExclVm : Z;
  mInvokeTimeNsecsExclVm : Z;
  mDeclaredCpuInsn : Z;
  mMaxReadWriteKeyByte : Z;
  mMaxReadWriteDataByte : Z;
  mMaxReadWriteCodeByte : Z;
  mMaxEmitEventByte : Z;
  mSuccess : bool;
}.

(** Assignment to one member. *)
Definition set_mReadEntry (v : Z) (m : HostFunctionMetrics) : HostFunctionMetrics :=
  mkMetrics v (mWriteEntry m) (mLedgerReadByte m) (mLedgerWriteByte m)
    (mReadKeyByte m) (mWriteKeyByte m) (mReadDataByte m) (mWriteDataByte m)
    (mReadCodeByte m) (mWriteCodeByte m) (mEmitEvent m) (mEmitEventByte m)
    (mCpuInsn m) (mMemByte m) (mInvokeTimeNsecs m) (mCpuInsnExclVm m)
    (mInvokeTimeNsecsExclVm m) (mDeclaredCpuInsn m) (mMaxReadWriteKeyByte m)
    (mMaxReadWriteDataByte m) (mMaxReadWriteCodeByte m) (mMaxEmitEventByte m)
    (mSuccess m).
Definition set_mWriteEntry (v : Z) (m : HostFunctionMetrics) : HostFunctionMetrics :=
  mkMetrics (mReadEntry m) v (mLedgerReadByte m) (mLedgerWriteByte m)
    (mReadKeyByte m) (mWriteKeyByte m) (mReadDataByte m) (mWriteDataByte m)
    (mReadCodeByte m) (mWriteCodeByte m) (mEmitEvent m) (mEmitEventByte m)
    (mCpuInsn m) (mMemByte m) (mInvokeTimeNsecs m) (mCpuInsnExclVm m)
    (mInvokeTimeNsecsExclVm m) (mDeclaredCpuInsn m) (mMaxReadWriteKeyByte m)
    (mMaxReadWriteDataByte m) (mMaxReadWriteCodeByte m) (mMaxEmitEventByte m)
    (mSuccess m).
Definition set_mLedgerReadByte (v : Z) (m : HostFunctionMetrics) : HostFunctionMetrics :=
  mkMetrics (mReadEntry m) (mWriteEntry m) v (mLedgerWriteByte m)
    (mReadKeyByte m) (mWriteKeyByte m) (mReadDataByte m) (mWriteDataByte m)
    (mReadCodeByte m) (mWriteCodeByte m) (mEmitEvent m) (mEmitEventByte m)
    (mCpuInsn m) (mMemByte m) (mInvokeTimeNsecs m) (mCpuInsnExclVm m)
    (mInvokeTimeNsecsExclVm m) (mDeclaredCpuInsn m) (mMaxReadWriteKeyByte m)
    (mMaxReadWriteDataByte m) (mMaxReadWriteCodeByte m) (mMaxEmitEventByte m)
    (mSuccess m).
Definition set_mLedgerWriteByte (v : Z) (m : HostFunctionMetrics) : HostFunctionMetrics :=
  mkMetrics (mReadEntry m) (mWriteEntry m) (mLedgerReadByte m) v
    (mReadKeyByte m) (mWriteKeyByte m) (mReadDataByte m) (mWriteDataByte m)
    (mReadCodeByte m) (mWriteCodeByte m) (mEmitEvent m) (mEmitEventByte m)
    (mCpuInsn m) (mMemByte m) (mInvokeTimeNsecs m) (mCpuInsnExclVm m)
    (mInvokeTimeNsecsExclVm m) (mDeclaredCpuInsn m) (mMaxReadWriteKeyByte m)
    (mMaxReadWriteDataByte m) (mMaxReadWriteCodeByte m) (mMaxEmitEventByte m)
    (mSuccess m).
Definition set_mReadKeyByte (v : Z) (m : HostFunctionMetrics) : HostFunctionMetrics :=
  mkMetrics (mReadEntry m) (mWriteEntry m) (mLedgerReadByte m)
    (mLedgerWriteByte m) v (mWriteKeyByte m) (mReadDataByte m)
    (mWriteDataByte m) (mReadCodeByte m) (mWriteCodeByte m) (mEmitEvent m)
    (mEmitEventByte m) (mCpuInsn m) (mMemByte m) (mInvokeTimeNsecs m)
    (mCpuInsnExclVm m) (mInvokeTimeNsecsExclVm m) (mDeclaredCpuInsn m)
    (mMaxReadWriteKeyByte m) (mMaxReadWriteDataByte m)
    (mMaxReadWriteCodeByte m) (mMaxEmitEventByte m) (mSuccess m).
Definition set_mWriteKeyByte (v : Z) (m : HostFunctionMetrics) : HostFunctionMetrics :=
  mkMetrics (mReadEntry m) (mWriteEntry m) (mLedgerReadByte m)
    (mLedgerWriteByte m) (mReadKeyByte m) v (mReadDataByte m)
    (mWriteDataByte m) (mReadCodeByte m) (mWriteCodeByte m) (mEmitEvent m)
    (mEmitEventByte m) (mCpuInsn m) (mMemByte m) (mInvokeTimeNsecs m)
    (mCpuInsnExclVm m) (mInvokeTimeNsecsExclVm m) (mDeclaredCpuInsn m)
    (mMaxReadWriteKeyByte m) (mMaxReadWriteDataByte m)
    (mMaxReadWriteCodeByte m) (mMaxEmitEventByte m) (mSuccess m).
Definition set_mReadDataByte (v : Z) (m : HostFunctionMetrics) : HostFunctionMetrics :=
  mkMetrics (mReadEntry m) (mWriteEntry m) (mLedgerReadByte m)
    (mLedgerWriteByte m) (mReadKeyByte m) (mWriteKeyByte m) v
    (mWriteDataByte m) (mReadCodeByte m) (mWriteCodeByte m) (mEmitEvent m)
    (mEmitEventByte m) (mCpuInsn m) (mMemByte m) (mInvokeTimeNsecs m)
    (mCpuInsnExclVm m) (mInvokeTimeNsecsExclVm m) (mDeclaredCpuInsn m)
    (mMaxReadWriteKeyByte m) (mMaxReadWriteDataByte m)
    (mMaxReadWriteCodeByte m) (mMaxEmitEventByte m) (mSuccess m).
Definition set_mWriteDataByte (v : Z) (m : HostFunctionMetrics) : HostFunctionMetrics :=
  mkMetrics (mReadEntry m) (mWriteEntry m) (mLedgerReadByte m)
    (mLedgerWriteByte m) (mReadKeyByte m) (mWriteKeyByte m) (mReadDataByte m)
    v (mReadCodeByte m) (mWriteCodeByte m) (mEmitEvent m) (mEmitEventByte m)
    (mCpuInsn m) (mMemByte m) (mInvokeTimeNsecs m) (mCpuInsnExclVm m)
    (mInvokeTimeNsecsExclVm m) (mDeclaredCpuInsn m) (mMaxReadWriteKeyByte m)
    (mMaxReadWriteDataByte m) (mMaxReadWriteCodeByte m) (mMaxEmitEventByte m)
    (mSuccess m).
Definition set_mReadCodeByte (v : Z) (m : HostFunctionMetrics) : HostFunctionMetrics :=
  mkMetrics (mReadEntry m) (mWriteEntry m) (mLedgerReadByte m)
    (mLedgerWriteByte m) (mReadKeyByte m) (mWriteKeyByte m) (mReadDataByte m)
    (mWriteDataByte m) v (mWriteCodeByte m) (mEmitEvent m) (mEmitEventByte m)
    (mCpuInsn m) (mMemByte m) (mInvokeTimeNsecs m) (mCpuInsnExclVm m)
    (mInvokeTimeNsecsExclVm m) (mDeclaredCpuInsn m) (mMaxReadWriteKeyByte m)
    (mMaxReadWriteDataByte m) (mMaxReadWriteCodeByte m) (mMaxEmitEventByte m)
    (mSuccess m).
Definition set_mWriteCodeByte (v : Z) (m : HostFunctionMetrics) : HostFunctionMetrics :=
  mkMetrics (mReadEntry m) (mWriteEntry m) (mLedgerReadByte m)
    (mLedgerWriteByte m) (mReadKeyByte m) (mWriteKeyByte m) (mReadDataByte m)
    (mWriteDataByte m) (mReadCodeByte m) v (mEmitEvent m) (mEmitEventByte m)
    (mCpuInsn m) (mMemByte m) (mInvokeTimeNsecs m) (mCpuInsnExclVm m)
    (mInvokeTimeNsecsExclVm m) (mDeclaredCpuInsn m) (mMaxReadWriteKeyByte m)
    (mMaxReadWriteDataByte m) (mMaxReadWriteCodeByte m) (mMaxEmitEventByte m)
    (mSuccess m).
Definition set_mEmitEvent (v : Z) (m : HostFunctionMetrics) : HostFunctionMetrics :=
  mkMetrics (mReadEntry m) (mWriteEntry m) (mLedgerReadByte m)
    (mLedgerWriteByte m) (mReadKeyByte m) (mWriteKeyByte m) (mReadDataByte m)
    (mWriteDataByte m) (mReadCodeByte m) (mWriteCodeByte m) v
    (mEmitEventByte m) (mCpuInsn m) (mMemByte m) (mInvokeTimeNsecs m)
    (mCpuInsnExclVm m) (mInvokeTimeNsecsExclVm m) (mDeclaredCpuInsn m)
    (mMaxReadWriteKeyByte m) (mMaxReadWriteDataByte m)
    (mMaxReadWriteCodeByte m) (mMaxEmitEventByte m) (mSuccess m).
Definition set_mEmitEventByte (v : Z) (m : HostFunctionMetrics) : HostFunctionMetrics :=
  mkMetrics (mReadEntry m) (mWriteEntry m) (mLedgerReadByte m)
    (mLedgerWriteByte m) (mReadKeyByte m) (mWriteKeyByte m) (mReadDataByte m)
    (mWriteDataByte m) (mReadCodeByte m) (mWriteCodeByte m) (mEmitEvent m) v
    (mCpuInsn m) (mMemByte m) (mInvokeTimeNsecs m) (mCpuInsnExclVm m)
    (mInvokeTimeNsecsExclVm m) (mDeclaredCpuInsn m) (mMaxReadWriteKeyByte m)
    (mMaxReadWriteDataByte m) (mMaxReadWriteCodeByte m) (mMaxEmitEventByte m)
    (mSuccess m).
Definition set_mCpuInsn (v : Z) (m : HostFunctionMetrics) : HostFunctionMetrics :=
  mkMetrics (mReadEntry m) (mWriteEntry m) (mLedgerReadByte m)
    (mLedgerWriteByte m) (mReadKeyByte m) (mWriteKeyByte m) (mReadDataByte m)
    (mWriteDataByte m) (mReadCodeByte m) (mWriteCodeByte m) (mEmitEvent m)
    (mEmitEventByte m) v (mMemByte m) (mInvokeTimeNsecs m) (mCpuInsnExclVm m)
    (mInvokeTimeNsecsExclVm m) (mDeclaredCpuInsn m) (mMaxReadWriteKeyByte m)
    (mMaxReadWriteDataByte m) (mMaxReadWriteCodeByte m) (mMaxEmitEventByte m)
    (mSuccess m).
Definition set_mMemByte (v : Z) (m : HostFunctionMetrics) : HostFunctionMetrics :=
  mkMetrics (mReadEntry m) (mWriteEntry m) (mLedgerReadByte m)
    (mLedgerWriteByte m) (mReadKeyByte m) (mWriteKeyByte m) (mReadDataByte m)
    (mWriteDataByte m) (mReadCodeByte m) (mWriteCodeByte m) (mEmitEvent m)
    (mEmitEventByte m) (mCpuInsn m) v (mInvokeTimeNsecs m) (mCpuInsnExclVm m)
    (mInvokeTimeNsecsExclVm m) (mDeclaredCpuInsn m) (mMaxReadWriteKeyByte m)
    (mMaxReadWriteDataByte m) (mMaxReadWriteCodeByte m) (mMaxEmitEventByte m)
    (mSuccess m).
Definition set_mInvokeTimeNsecs (v : Z) (m : HostFunctionMetrics) : HostFunctionMetrics :=
  mkMetrics (mReadEntry m) (mWriteEntry m) (mLedgerReadByte m)
    (mLedgerWriteByte m) (mReadKeyByte m) (mWriteKeyByte m) (mReadDataByte m)
    (mWriteDataByte m) (mReadCodeByte m) (mWriteCodeByte m) (mEmitEvent m)
    (mEmitEventByte m) (mCpuInsn m) (mMemByte m) v (mCpuInsnExclVm m)
    (mInvokeTimeNsecsExclVm m) (mDeclaredCpuInsn m) (mMaxReadWriteKeyByte m)
    (mMaxReadWriteDataByte m) (mMaxReadWriteCodeByte m) (mMaxEmitEventByte m)
    (mSuccess m).
Definition set_mCpuInsnExclVm (v : Z) (m : HostFunctionMetrics) : HostFunctionMetrics :=
  mkMetrics (mReadEntry m) (mWriteEntry m) (mLedgerReadByte m)
    (mLedgerWriteByte m) (mReadKeyByte m) (mWriteKeyByte m) (mReadDataByte m)
    (mWriteDataByte m) (mReadCodeByte m) (mWriteCodeByte m) (mEmitEvent m)
    (mEmitEventByte m) (mCpuInsn m) (mMemByte m) (mInvokeTimeNsecs m) v
    (mInvokeTimeNsecsExclVm m) (mDeclaredCpuInsn m) (mMaxReadWriteKeyByte m)
    (mMaxReadWriteDataByte m) (mMaxReadWriteCodeByte m) (mMaxEmitEventByte m)
    (mSuccess m).
Definition set_mInvokeTimeNsecsExclVm (v : Z) (m : HostFunctionMetrics) : HostFunctionMetrics :=
  mkMetrics (mReadEntry m) (mWriteEntry m) (mLedgerReadByte m)
    (mLedgerWriteByte m) (mReadKeyByte m) (mWriteKeyByte m) (mReadDataByte m)
    (mWriteDataByte m) (mReadCodeByte m) (mWriteCodeByte m) (mEmitEvent m)
    (mEmitEventByte m) (mCpuInsn m) (mMemByte m) (mInvokeTimeNsecs m)
    (mCpuInsnExclVm m) v (mDeclaredCpuInsn m) (mMaxReadWriteKeyByte m)
    (mMaxReadWriteDataByte m) (mMaxReadWriteCodeByte m) (mMaxEmitEventByte m)
    (mSuccess m).
Definition set_mDeclaredCpuInsn (v : Z) (m : HostFunctionMetrics) : HostFunctionMetrics :=
  mkMetrics (mReadEntry m) (mWriteEntry m) (mLedgerReadByte m)
    (mLedgerWriteByte m) (mReadKeyByte m) (mWriteKeyByte m) (mReadDataByte m)
    (mWriteDataByte m) (mReadCodeByte m) (mWriteCodeByte m) (mEmitEvent m)
    (mEmitEventByte m) (mCpuInsn m) (mMemByte m) (mInvokeTimeNsecs m)
    (mCpuInsnExclVm m) (mInvokeTimeNsecsExclVm m) v (mMaxReadWriteKeyByte m)
    (mMaxReadWriteDataByte m) (mMaxReadWriteCodeByte m) (mMaxEmitEventByte m)
    (mSuccess m).
Definition set_mMaxReadWriteKeyByte (v : Z) (m : HostFunctionMetrics) : HostFunctionMetrics :=
  mkMetrics (mReadEntry m) (mWriteEntry m) (mLedgerReadByte m)
    (mLedgerWriteByte m) (mReadKeyByte m) (mWriteKeyByte m) (mReadDataByte m)
    (mWriteDataByte m) (mReadCodeByte m) (mWriteCodeByte m) (mEmitEvent m)
    (mEmitEventByte m) (mCpuInsn m) (mMemByte m) (mInvokeTimeNsecs m)
    (mCpuInsnExclVm m) (mInvokeTimeNsecsExclVm m) (mDeclaredCpuInsn m) v
    (mMaxReadWriteDataByte m) (mMaxReadWriteCodeByte m) (mMaxEmitEventByte m)
    (mSuccess m).
Definition set_mMaxReadWriteDataByte (v : Z) (m : HostFunctionMetrics) : HostFunctionMetrics :=
  mkMetrics (mReadEntry m) (mWriteEntry m) (mLedgerReadByte m)
    (mLedgerWriteByte m) (mReadKeyByte m) (mWriteKeyByte m) (mReadDataByte m)
    (mWriteDataByte m) (mReadCodeByte m) (mWriteCodeByte m) (mEmitEvent m)
    (mEmitEventByte m) (mCpuInsn m) (mMemByte m) (mInvokeTimeNsecs m)
    (mCpuInsnExclVm m) (mInvokeTimeNsecsExclVm m) (mDeclaredCpuInsn m)
    (mMaxReadWriteKeyByte m) v (mMaxReadWriteCodeByte m) (mMaxEmitEventByte m)
    (mSuccess m).
Definition set_mMaxReadWriteCodeByte (v : Z) (m : HostFunctionMetrics) : HostFunctionMetrics :=
  mkMetrics (mReadEntry m) (mWriteEntry m) (mLedgerReadByte m)
    (mLedgerWriteByte m) (mReadKeyByte m) (mWriteKeyByte m) (mReadDataByte m)
    (mWriteDataByte m) (mReadCodeByte m) (mWriteCodeByte m) (mEmitEvent m)
    (mEmitEventByte m) (mCpuInsn m) (mMemByte m) (mInvokeTimeNsecs m)
    (mCpuInsnExclVm m) (mInvokeTimeNsecsExclVm m) (mDeclaredCpuInsn m)
    (mMaxReadWriteKeyByte m) (mMaxReadWriteDataByte m) v (mMaxEmitEventByte m)
    (mSuccess m).
Definition set_mMaxEmitEventByte (v : Z) (m : HostFunctionMetrics) : HostFunctionMetrics :=
  mkMetrics (mReadEntry m) (mWriteEntry m) (mLedgerReadByte m)
    (mLedgerWriteByte m) (mReadKeyByte m) (mWriteKeyByte m) (mReadDataByte m)
    (mWriteDataByte m) (mReadCodeByte m) (mWriteCodeByte m) (mEmitEvent m)
    (mEmitEventByte m) (mCpuInsn m) (mMemByte m) (mInvokeTimeNsecs m)
    (mCpuInsnExclVm m) (mInvokeTimeNsecsExclVm m) (mDeclaredCpuInsn m)
    (mMaxReadWriteKeyByte m) (mMaxReadWriteDataByte m)
    (mMaxReadWriteCodeByte m) v (mSuccess m).
Definition set_mSuccess (v : bool) (m : HostFunctionMetrics) : HostFunctionMetrics :=
  mkMetrics (mReadEntry m) (mWriteEntry m) (mLedgerReadByte m)
    (mLedgerWriteByte m) (mReadKeyByte m) (mWriteKeyByte m) (mReadDataByte m)
    (mWriteDataByte m) (mReadCodeByte m) (mWriteCodeByte m) (mEmitEvent m)
    (mEmitEventByte m) (mCpuInsn m) (mMemByte m) (mInvokeTimeNsecs m)
    (mCpuInsnExclVm m) (mInvokeTimeNsecsExclVm m) (mDeclaredCpuInsn m)
    (mMaxReadWriteKeyByte m) (mMaxReadWriteDataByte m)
    (mMaxReadWriteCodeByte m) (mMaxEmitEventByte m) v.

Definition initialMetrics (declaredCpuInsn : Z) : HostFunctionMetrics :=
  mkMetrics 0 0 0 0 0 0 0 0 0 0 0 0 0 0 0 0 0 declaredCpuInsn 0 0 0 0 false.

Definition noteDiskReadEntry (isCodeEntry : bool) (keySize entrySize : Z)
    (m : HostFunctionMetrics) : HostFunctionMetrics :=
  let m := set_mReadEntry (u32 (mReadEntry m + 1)) m in
  let m := set_mReadKeyByte (u32 (mReadKeyByte m + keySize)) m in
  let m := set_mMaxReadWriteKeyByte (mMaxReadWriteKeyByte m `max` keySize) m in
  let m := set_mLedgerReadByte (u32 (mLedgerReadByte m + entrySize)) m in
  if isCodeEntry then
    let m := set_mReadCodeByte (u32 (mReadCodeByte m + entrySize)) m in
    set_mMaxReadWriteCodeByte (mMaxReadWriteCodeByte m `max` entrySize) m
  else
    let m := set_mReadDataByte (u32 (mReadDataByte m + entrySize)) m in
    set_mMaxReadWriteDataByte (mMaxReadWriteDataByte m `max` entrySize) m.

Definition noteWriteEntry (isCodeEntry : bool) (keySize entrySize : Z)
    (m : HostFunctionMetrics) : HostFunctionMetrics :=
  let m := set_mWriteEntry (u32 (mWriteEntry m + 1)) m in
  let m := set_mMaxReadWriteKeyByte (mMaxReadWriteKeyByte m `max` keySize) m in
  let m := set_mLedgerWriteByte (u32 (mLedgerWriteByte m + entrySize)) m in
  if isCodeEntry then
    let m := set_mWriteCodeByte (u32 (mWriteCodeByte m + entrySize)) m in
    set_mMaxReadWriteCodeByte (mMaxReadWriteCodeByte m `max` entrySize) m
  else
    let m := set_mWriteDataByte (u32 (mWriteDataByte m + entrySize)) m in
    set_mMaxReadWriteDataByte (mMaxReadWriteDataByte m `max` entrySize) m.

(** [metricsEvent(success, topic, value)] *)
Definition metricsEvent (success : bool) (topic : string) (value : Z)
    : DiagnosticEvent :=
  CoreMetricsEvent success
    [makeSymbolSCVal "core_metrics"; makeSymbolSCVal topic] (makeU64SCVal value).

(** [maybePopulateDiagnosticEvents] *)
Definition maybePopulateDiagnosticEvents (cfg : Config)
    (output : InvokeHostFunctionOutput) (metrics : HostFunctionMetrics)
    (buffer : list DiagnosticEvent) : list DiagnosticEvent :=
  if ENABLE_SOROBAN_DIAGNOSTIC_EVENTS cfg then
    foldl (λ buffer e, pushEvent e buffer) buffer
      ((HostDiagnosticEvent <$> diagnostic_events output)
       ++ ((λ p, metricsEvent (mSuccess metrics) p.1 p.2) <$>
        [("read_entry", mReadEntry metrics);
         ("write_entry", mWriteEntry metrics);
         ("ledger_read_byte", mLedgerReadByte metrics);
         ("ledger_write_byte", mLedgerWriteByte metrics);
         ("read_key_byte", mReadKeyByte metrics);
         ("write_key_byte", mWriteKeyByte metrics);
         ("read_data_byte", mReadDataByte metrics);
         ("write_data_byte", mWriteDataByte metrics);
         ("read_code_byte", mReadCodeByte metrics);
         ("write_code_byte", mWriteCodeByte metrics);
         ("emit_event", mEmitEvent metrics);
         ("emit_event_byte", mEmitEventByte metrics);
         ("cpu_insn", mCpuInsn metrics);
         ("mem_byte", mMemByte metrics);
         ("invoke_time_nsecs", mInvokeTimeNsecs metrics);
         ("max_rw_key_byte", mMaxReadWriteKeyByte metrics);
         ("max_rw_data_byte", mMaxReadWriteDataByte metrics);
         ("max_rw_code_byte", mMaxReadWriteCodeByte metrics);
         ("max_emit_event_byte", mMaxEmitEventByte metrics)]))
  else buffer.

(** ** [class ApplyHelper] *)

Section helper.
Context `{XdrCodec} `{TransactionUtils} `{RustBridge}.

(** The members that [apply] reads and does not change, and the parts of the
    operation frame and of the application that it passes to the host. *)
Record Env : Type := mkEnv {
  mResources : SorobanResources;
  mSorobanConfig : SorobanNetworkConfig;
  mAppConfig : Config;
  mHotArchive : gmap LedgerKey HotArchiveBucketEntry;
  mAutorestoredEntries : list bool;
  mSorobanBasePrngSeed : N;
  resourcesExt : SorobanResourcesExt;
  hostFunction : N;
  auth : list N;
  sourceID : N;
  networkID : N;
}.

(** The members that [apply] changes. [mRes] is the code of
    [innerResult(mRes)], [mResSuccess] its [success()] hash; [mOpMetaEvents]
    and [mOpMetaReturnValue] are what is handed to [mOpMeta]. *)
Record State : Type := mkState {
  mLtx : LedgerTxn;
  mRes : option InvokeHostFunctionResultCode;
  mResSuccess : option N;
  mRefundableFeeTracker : option RefundableFeeTracker;
  mOpMetaEvents : list N;
  mOpMetaReturnValue : option SCVal;
  mLedgerEntryCxxBufs : list LedgerEntry;
  mTtlEntryCxxBufs : list (option TTLEntry);
  mMetrics : HostFunctionMetrics;
  mDiagnosticEvents : list DiagnosticEvent;
}.

Definition set_mLtx (v : LedgerTxn) (s : State) : State :=
  mkState v (mRes s) (mResSuccess s) (mRefundableFeeTracker s)
    (mOpMetaEvents s) (mOpMetaReturnValue s) (mLedgerEntryCxxBufs s)
    (mTtlEntryCxxBufs s) (mMetrics s) (mDiagnosticEvents s).
Definition set_mRes (v : InvokeHostFunctionResultCode) (s : State) : State :=
  mkState (mLtx s) (Some v) (mResSuccess s) (mRefundableFeeTracker s)
    (mOpMetaEvents s) (mOpMetaReturnValue s) (mLedgerEntryCxxBufs s)
    (mTtlEntryCxxBufs s) (mMetrics s) (mDiagnosticEvents s).
Definition set_mResSuccess (v : N) (s : State) : State :=
  mkState (mLtx s) (mRes s) (Some v) (mRefundableFeeTracker s)
    (mOpMetaEvents s) (mOpMetaReturnValue s) (mLedgerEntryCxxBufs s)
    (mTtlEntryCxxBufs s) (mMetrics s) (mDiagnosticEvents s).
Definition set_mRefundableFeeTracker (v : RefundableFeeTracker) (s : State)
    : State :=
  mkState (mLtx s) (mRes s) (mResSuccess s) (Some v)
    (mOpMetaEvents s) (mOpMetaReturnValue s) (mLedgerEntryCxxBufs s)
    (mTtlEntryCxxBufs s) (mMetrics s) (mDiagnosticEvents s).
Definition set_mOpMeta (events : list N) (returnValue : SCVal) (s : State)
    : State :=
  mkState (mLtx s) (mRes s) (mResSuccess s) (mRefundableFeeTracker s)
    events (Some returnValue) (mLedgerEntryCxxBufs s)
    (mTtlEntryCxxBufs s) (mMetrics s) (mDiagnosticEvents s).
Definition emplace_back_bufs (le : LedgerEntry) (ttl : option TTLEntry)
    (s : State) : State :=
  mkState (mLtx s) (mRes s) (mResSuccess s) (mRefundableFeeTracker s)
    (mOpMetaEvents s) (mOpMetaReturnValue s) (mLedgerEntryCxxBufs s ++ [le])
    (mTtlEntryCxxBufs s ++ [ttl]) (mMetrics s) (mDiagnosticEvents s).
Definition set_mMetrics (v : HostFunctionMetrics) (s : State) : State :=
  mkState (mLtx s) (mRes s) (mResSuccess s) (mRefundableFeeTracker s)
    (mOpMetaEvents s) (mOpMetaReturnValue s) (mLedgerEntryCxxBufs s)
    (mTtlEntryCxxBufs s) v (mDiagnosticEvents s).
Definition set_mDiagnosticEvents (v : list DiagnosticEvent) (s : State) : State :=
  mkState (mLtx s) (mRes s) (mResSuccess s) (mRefundableFeeTracker s)
    (mOpMetaEvents s) (mOpMetaReturnValue s) (mLedgerEntryCxxBufs s)
    (mTtlEntryCxxBufs s) (mMetrics s) v.

(** [mDiagnosticEvents.pushError(...)] *)
Definition diag_pushError (ty : SCErrorType) (code : SCErrorCode)
    (message : string) (args : list SCVal) : M State () :=
  modify (λ s, set_mDiagnosticEvents
                 (pushError ty code message args (mDiagnosticEvents s)) s).

(** [mOpFrame.innerResult(mRes).code(c); return false;] *)
Definition fail_with (c : InvokeHostFunctionResultCode) : M State bool :=
  modify (set_mRes c);; mret false.

(** [validateContractLedgerEntry(...)] with its diagnostics pushed. *)
Definition validate (env : Env) (lk : LedgerKey) (entrySize : Z) : M State bool :=
  let '(valid, diags) :=
    validateContractLedgerEntry lk entrySize (mSorobanConfig env) (mAppConfig env) in
  modify (λ s, set_mDiagnosticEvents (mDiagnosticEvents s ++ diags) s);;
  mret valid.

(** *** The constructor: the autorestore bitmap *)

Fixpoint markAutorestored (v : list bool) (archivedEntries : list nat)
    : Outcome (list bool) :=
  match archivedEntries with
  | [] => Returns v
  | index :: rest =>
      if decide (index < length v)%nat
      then markAutorestored (<[index := true]> v) rest
      else Throws OutOfRange
  end.

Definition initAutorestoredEntries (ext : SorobanResourcesExt)
    (rwFootprint : list LedgerKey) : Outcome (list bool) :=
  match ext with
  | ResourcesExtV0 => Returns []
  | ResourcesExtV1 archivedEntries =>
      if bool_decide (archivedEntries = []) then Returns []
      else markAutorestored (replicate (length rwFootprint) false) archivedEntries
  end.

(** *** [checkIfReadWriteEntryIsMarkedForAutorestore] *)
Definition checkIfReadWriteEntryIsMarkedForAutorestore (env : Env)
    (lk : LedgerKey) (index : nat) : Outcome bool :=
  if bool_decide (mAutorestoredEntries env = []) then Returns false
  else
    match mAutorestoredEntries env !! index with
    | Some b => Returns b
    | None => Throws OutOfRange
    end.

(** *** [meterDiskReadResource] *)
Definition meterDiskReadResource (env : Env) (lk : LedgerKey)
    (keySize entrySize : Z) : M State bool :=
  modify (λ s, set_mMetrics
    (noteDiskReadEntry (isContractCodeEntry lk) keySize entrySize (mMetrics s)) s);;
  s ← get;
  if diskReadBytes (mResources env) <? mLedgerReadByte (mMetrics s) then
    diag_pushError SCE_BUDGET SCEC_EXCEEDED_LIMIT
      "operation byte-read resources exceeds amount specified"
      [makeU64SCVal (mLedgerReadByte (mMetrics s));
       makeU64SCVal (diskReadBytes (mResources env))];;
    fail_with INVOKE_HOST_FUNCTION_RESOURCE_LIMIT_EXCEEDED
  else mret true.

(** *** [handleArchivedEntry] *)

(** The diagnostic pushed for an archived key that is not restored. *)
Definition archivedEntryDiagnostic (lk : LedgerKey) : M State () :=
  match lk with
  | ContractCodeKey hash =>
      diag_pushError SCE_VALUE SCEC_INVALID_INPUT
        "trying to access an archived contract code entry"
        [makeBytesSCVal hash]
  | ContractDataKey contract key _ =>
      diag_pushError SCE_VALUE SCEC_INVALID_INPUT
        "trying to access an archived contract data entry"
        [makeAddressSCVal contract; SCV_Opaque key]
  | _ => mret ()
  end.

Definition handleArchivedEntry (env : Env) (lk : LedgerKey) (le : LedgerEntry)
    (isReadOnly : bool) (restoredLiveUntilLedger : Z) (isHotArchiveEntry : bool)
    (index : nat) : M State bool :=
  s ← get;
  autorestore ←
    (if negb isReadOnly
        && protocolVersionStartsFrom (getLedgerVersion (mLtx s))
             FIRST_PROTOCOL_SUPPORTING_PERSISTENT_EVICTION
     then liftO (checkIfReadWriteEntryIsMarkedForAutorestore env lk index)
     else mret false);
  if autorestore : bool then
    let entrySize := u32 (xdr_size_entry le) in
    let keySize := u32 (xdr_size_key lk) in
    valid ← validate env lk entrySize;
    if negb valid then fail_with INVOKE_HOST_FUNCTION_RESOURCE_LIMIT_EXCEEDED
    else
    metered ← meterDiskReadResource env lk keySize entrySize;
    if negb metered then mret false
    else
    s ← get;
    let '(ltx', ttlEntry) :=
      if isHotArchiveEntry
      then restoreFromHotArchive (mLtx s) le restoredLiveUntilLedger
      else restoreFromLiveBucketList (mLtx s) le restoredLiveUntilLedger in
    modify (set_mLtx ltx');;
    ttl ← liftO (ttl_of ttlEntry);
    modify (emplace_back_bufs le (Some ttl));;
    mret true
  else
    archivedEntryDiagnostic lk;;
    fail_with INVOKE_HOST_FUNCTION_ENTRY_ARCHIVED.

(** *** [addReads] *)

(** The outcome of the first block of the loop body (the block guarded by
    [isSorobanEntry(lk)]): [Handled ok] when [handleArchivedEntry] was called
    ([continue] if [ok], else [return false]); otherwise the values of
    [sorobanEntryLive] and [ttlEntry] with which the body goes on. *)
Inductive ExpiryCheck : Type :=
  | Handled (ok : bool)
  | GoOn (sorobanEntryLive : bool) (ttlEntry : option TTLEntry).

Definition checkExpiry (env : Env) (ledgerSeq restoredLiveUntilLedger : Z)
    (isReadOnly : bool) (i : nat) (lk : LedgerKey) : M State ExpiryCheck :=
  if isSorobanEntry lk then
    s ← get;
    match loadWithoutRecord (mLtx s) (getTTLKey lk) with
    | Some ttlEntryOp =>
        live ← liftO (isLive ttlEntryOp ledgerSeq);
        if negb live then
          if negb (isTemporaryEntry lk) then
            match loadWithoutRecord (mLtx s) lk with
            | None => throw (RuntimeError "ConstLedgerTxnEntry is not active")
            | Some le =>
                ok ← handleArchivedEntry env lk le isReadOnly
                       restoredLiveUntilLedger false i;
                mret (Handled ok)
            end
          else mret (GoOn false None)
        else
          ttl ← liftO (ttl_of ttlEntryOp);
          mret (GoOn true (Some ttl))
    | None =>
        if isPersistentEntry lk
           && protocolVersionStartsFrom (getLedgerVersion (mLtx s))
                FIRST_PROTOCOL_SUPPORTING_PERSISTENT_EVICTION
        then
          match mHotArchive env !! lk with
          | Some archiveEntry =>
              le ← (match archiveEntry with
                    | HOT_ARCHIVE_ARCHIVED le => mret le
                    | _ => throw (ReleaseAssertFailed
                                    "archiveEntry->type() == HOT_ARCHIVE_ARCHIVED")
                    end);
              ok ← handleArchivedEntry env lk le isReadOnly
                     restoredLiveUntilLedger true i;
              mret (Handled ok)
          | None => mret (GoOn false None)
          end
        else mret (GoOn false None)
    end
  else mret (GoOn false None).

(** The rest of the loop body: load, validate and meter an entry that is not
    archived. Returns the entry size through the state only; the result
    [false] is [return false]. *)
Definition readEntry (env : Env) (ledgerVersion : Z) (lk : LedgerKey)
    (sorobanEntryLive : bool) (ttlEntry : option TTLEntry) : M State bool :=
  let keySize := u32 (xdr_size_key lk) in
  entrySize ←
    (if negb (isSorobanEntry lk) || sorobanEntryLive then
       s ← get;
       match loadWithoutRecord (mLtx s) lk with
       | Some e =>
           modify (emplace_back_bufs e ttlEntry);;
           mret (u32 (xdr_size_entry e))
       | None =>
           (if isSorobanEntry lk
            then releaseAssertOrThrow "!ttlEntry" (bool_decide (ttlEntry = None))
            else mret ());;
           mret 0
       end
     else mret 0);
  valid ← validate env lk entrySize;
  if negb valid then fail_with INVOKE_HOST_FUNCTION_RESOURCE_LIMIT_EXCEEDED
  else
  if negb (isSorobanEntry lk)
     || protocolVersionIsBefore ledgerVersion AUTO_RESTORE_PROTOCOL_VERSION
  then meterDiskReadResource env lk keySize entrySize
  else if isSorobanEntry lk then
    modify (λ s, set_mMetrics
      (set_mReadEntry (u32 (mReadEntry (mMetrics s) + 1)) (mMetrics s)) s);;
    mret true
  else mret true.

(** The body of the loop of [addReads] for [keys[i]]. *)
Definition addRead (env : Env) (ledgerSeq ledgerVersion
    restoredLiveUntilLedger : Z) (isReadOnly : bool) (i : nat) (lk : LedgerKey)
    : M State bool :=
  c ← checkExpiry env ledgerSeq restoredLiveUntilLedger isReadOnly i lk;
  match c with
  | Handled ok => mret ok
  | GoOn sorobanEntryLive ttlEntry =>
      readEntry env ledgerVersion lk sorobanEntryLive ttlEntry
  end.

Fixpoint addReads_from (env : Env) (ledgerSeq ledgerVersion
    restoredLiveUntilLedger : Z) (isReadOnly : bool) (i : nat)
    (keys : list LedgerKey) : M State bool :=
  match keys with
  | [] => mret true
  | lk :: rest =>
      ok ← addRead env ledgerSeq ledgerVersion restoredLiveUntilLedger
             isReadOnly i lk;
      if ok : bool
      then addReads_from env ledgerSeq ledgerVersion restoredLiveUntilLedger
             isReadOnly (S i) rest
      else mret false
  end.

Definition restoredLiveUntilLedger_of (ledgerSeq : Z)
    (archivalSettings : StateArchivalSettings) : Z :=
  u32 (ledgerSeq + minPersistentTTL archivalSettings - 1).

Definition addReads (env : Env) (keys : list LedgerKey) (isReadOnly : bool)
    : M State bool :=
  s ← get;
  let ledgerSeq := getLedgerSeq (mLtx s) in
  let ledgerVersion := getLedgerVersion (mLtx s) in
  let restoredLiveUntilLedger :=
    restoredLiveUntilLedger_of ledgerSeq
      (stateArchivalSettings (mSorobanConfig env)) in
  addReads_from env ledgerSeq ledgerVersion restoredLiveUntilLedger isReadOnly
    0 keys.

(** *** [apply] *)

(** [getLedgerInfo] *)
Definition getLedgerInfo (env : Env) (ltx : LedgerTxn) : CxxLedgerInfo :=
  let hdr := ltx_header ltx in
  let cfg := mSorobanConfig env in
  {| info_protocol_version := ledgerVersion hdr;
     info_sequence_number := ledgerSeq hdr;
     info_timestamp := closeTime hdr;
     info_base_reserve := baseReserve hdr;
     info_memory_limit := txMemoryLimit cfg;
     info_min_persistent_entry_ttl := minPersistentTTL (stateArchivalSettings cfg);
     info_min_temp_entry_ttl := minTemporaryTTL (stateArchivalSettings cfg);
     info_max_entry_ttl := maxEntryTTL (stateArchivalSettings cfg);
     info_cpu_cost_params := cpuCostParams cfg;
     info_mem_cost_params := memCostParams cfg;
     info_network_id := networkID env |}.

(** [InvokeHostFunctionOutput out{}; out.success = false;] *)
Definition emptyOutput : InvokeHostFunctionOutput :=
  mkOutput false false 0 0 0 0 0 [] [] [] (0, SCV_Opaque 0%N) 0.

Definition set_is_internal_error (b : bool) (out : InvokeHostFunctionOutput)
    : InvokeHostFunctionOutput :=
  mkOutput (success out) b (cpu_insns out) (mem_bytes out) (time_nsecs out)
    (cpu_insns_excluding_vm_instantiation out)
    (time_nsecs_excluding_vm_instantiation out) (modified_ledger_entries out)
    (contract_events out) (diagnostic_events out) (result_value out)
    (rent_fee out).

(** The [try] block: the call of the host, the copy of its runtime
    metrics, and the [catch] that turns an exception into an internal error. *)
Definition invokeHost (env : Env) : M State InvokeHostFunctionOutput :=
  s ← get;
  match invoke_host_function
          {| inv_config_max_protocol :=
               CURRENT_LEDGER_PROTOCOL_VERSION (mAppConfig env);
             inv_enable_diagnostics :=
               ENABLE_SOROBAN_DIAGNOSTIC_EVENTS (mAppConfig env);
             inv_instruction_limit := instructions (mResources env);
             inv_hf := hostFunction env;
             inv_resources := mResources env;
             inv_ext := resourcesExt env;
             inv_source := sourceID env;
             inv_auth := auth env;
             inv_ledger_info := getLedgerInfo env (mLtx s);
             inv_ledger_entries := mLedgerEntryCxxBufs s;
             inv_ttl_entries := mTtlEntryCxxBufs s;
             inv_base_prng_seed := mSorobanBasePrngSeed env;
             inv_rent_fee_configuration :=
               rustBridgeRentFeeConfiguration (mSorobanConfig env) |} with
  | Returns out =>
      modify (λ s, set_mMetrics
        (set_mInvokeTimeNsecsExclVm (time_nsecs_excluding_vm_instantiation out)
           (set_mCpuInsnExclVm (cpu_insns_excluding_vm_instantiation out)
              (set_mInvokeTimeNsecs (time_nsecs out)
                 (set_mMemByte (mem_bytes out)
                    (set_mCpuInsn (cpu_insns out) (mMetrics s)))))) s);;
      (if negb (success out) then
         modify (λ s, set_mDiagnosticEvents
           (maybePopulateDiagnosticEvents (mAppConfig env) out (mMetrics s)
              (mDiagnosticEvents s)) s)
       else mret ());;
      mret out
  | Throws _ => mret (set_is_internal_error true emptyOutput)
  end.

(** The block under [if (!out.success)]. *)
Definition failedInvocation (env : Env) (out : InvokeHostFunctionOutput)
    : M State bool :=
  if is_internal_error out then
    throw (RuntimeError "Got internal error during Soroban host invocation.")
  else if instructions (mResources env) <? cpu_insns out then
    diag_pushError SCE_BUDGET SCEC_EXCEEDED_LIMIT
      "operation instructions exceeds amount specified"
      [makeU64SCVal (cpu_insns out);
       makeU64SCVal (instructions (mResources env))];;
    fail_with INVOKE_HOST_FUNCTION_RESOURCE_LIMIT_EXCEEDED
  else if txMemoryLimit (mSorobanConfig env) <? mem_bytes out then
    diag_pushError SCE_BUDGET SCEC_EXCEEDED_LIMIT
      "operation memory usage exceeds network config limit"
      [makeU64SCVal (mem_bytes out);
       makeU64SCVal (txMemoryLimit (mSorobanConfig env))];;
    fail_with INVOKE_HOST_FUNCTION_RESOURCE_LIMIT_EXCEEDED
  else fail_with INVOKE_HOST_FUNCTION_TRAPPED.

(** The local sets [createdAndModifiedKeys] and [createdKeys]. *)
Record TouchedKeys : Type := mkTouched {
  createdAndModifiedKeys : gset LedgerKey;
  createdKeys : gset LedgerKey;
}.

(** The body of the loop over [out.modified_ledger_entries]; [None] is
    [return false]. *)
Definition applyModifiedEntry (env : Env) (buf : Z * LedgerEntry)
    (keys : TouchedKeys) : M State (option TouchedKeys) :=
  let '(size, le) := buf in
  valid ← validate env (LedgerEntryKey le) size;
  if negb valid then
    fail_with INVOKE_HOST_FUNCTION_RESOURCE_LIMIT_EXCEEDED;; mret None
  else
  let lk := LedgerEntryKey le in
  let touched := {[lk]} ∪ createdAndModifiedKeys keys in
  let keySize := u32 (xdr_size_key lk) in
  let entrySize := u32 size in
  within ←
    (if negb (bool_decide (LedgerKey_type lk = TTL)) then
       modify (λ s, set_mMetrics
         (noteWriteEntry (isContractCodeEntry lk) keySize entrySize (mMetrics s)) s);;
       s ← get;
       if writeBytes (mResources env) <? mLedgerWriteByte (mMetrics s) then
         diag_pushError SCE_BUDGET SCEC_EXCEEDED_LIMIT
           "operation byte-write resources exceeds amount specified"
           [makeU64SCVal (mLedgerWriteByte (mMetrics s));
            makeU64SCVal (writeBytes (mResources env))];;
         fail_with INVOKE_HOST_FUNCTION_RESOURCE_LIMIT_EXCEEDED
       else mret true
     else mret true);
  if negb within then mret None
  else
  s ← get;
  match load (mLtx s) lk with
  | Some _ =>
      modify (set_mLtx (update (mLtx s) le));;
      mret (Some (mkTouched touched (createdKeys keys)))
  | None =>
      ltx' ← liftO (create (mLtx s) le);
      modify (set_mLtx ltx');;
      mret (Some (mkTouched touched ({[lk]} ∪ createdKeys keys)))
  end.

Fixpoint applyModifiedEntries (env : Env) (bufs : list (Z * LedgerEntry))
    (keys : TouchedKeys) : M State (option TouchedKeys) :=
  match bufs with
  | [] => mret (Some keys)
  | buf :: rest =>
      r ← applyModifiedEntry env buf keys;
      match r with
      | Some keys' => applyModifiedEntries env rest keys'
      | None => mret None
      end
  end.

(** The assertions on [createdKeys]: every created contract entry comes with
    its created TTL entry, and every other created key is a TTL key. *)
Definition createdKeyIsPaired (created : gset LedgerKey) (key : LedgerKey) : bool :=
  if isSorobanEntry key then bool_decide (getTTLKey key ∈ created)
  else bool_decide (LedgerKey_type key = TTL).

Definition checkCreatedKeys (created : gset LedgerKey) : M State () :=
  releaseAssertOrThrow "createdKeys"
    (forallb (createdKeyIsPaired created) (elements created)).

(** The body of the loop that erases the read-write keys not returned. *)
Definition eraseUntouched (touched : gset LedgerKey) (lk : LedgerKey)
    : M State () :=
  if bool_decide (lk ∈ touched) then mret ()
  else
    s ← get;
    match load (mLtx s) lk with
    | None => mret ()
    | Some _ =>
        releaseAssertOrThrow "isSorobanEntry(lk)" (isSorobanEntry lk);;
        modify (λ s, set_mLtx (erase (mLtx s) lk) s);;
        s ← get;
        let ttlLK := getTTLKey lk in
        releaseAssertOrThrow "ttlLtxe" (bool_decide (is_Some (load (mLtx s) ttlLK)));;
        modify (λ s, set_mLtx (erase (mLtx s) ttlLK) s)
    end.

Fixpoint eraseAllUntouched (touched : gset LedgerKey) (keys : list LedgerKey)
    : M State () :=
  match keys with
  | [] => mret ()
  | lk :: rest => eraseUntouched touched lk;; eraseAllUntouched touched rest
  end.

(** The body of the loop over [out.contract_events]: meter the event, then
    compare the running total with the limit. *)
Definition meterEvent (eventSize : Z) (m : HostFunctionMetrics)
    : HostFunctionMetrics :=
  let m := set_mEmitEvent (u32 (mEmitEvent m + 1)) m in
  let m := set_mEmitEventByte (u32 (mEmitEventByte m + eventSize)) m in
  set_mMaxEmitEventByte (mMaxEmitEventByte m `max` eventSize) m.

(** [events] accumulates [success.events]; [None] is [return false]. *)
Fixpoint ingestEvents (env : Env) (bufs : list (Z * N)) (events : list N)
    : M State (option (list N)) :=
  match bufs with
  | [] => mret (Some events)
  | (size, evt) :: rest =>
      modify (λ s, set_mMetrics (meterEvent (u32 size) (mMetrics s)) s);;
      s ← get;
      if txMaxContractEventsSizeBytes (mSorobanConfig env)
         <? mEmitEventByte (mMetrics s)
      then
        diag_pushError SCE_BUDGET SCEC_EXCEEDED_LIMIT
          "total events size exceeds network config maximum"
          [makeU64SCVal (mEmitEventByte (mMetrics s));
           makeU64SCVal (txMaxContractEventsSizeBytes (mSorobanConfig env))];;
        fail_with INVOKE_HOST_FUNCTION_RESOURCE_LIMIT_EXCEEDED;;
        mret None
      else ingestEvents env rest (events ++ [evt])
  end.

(** From the return value to the end of [apply]. *)
Definition finish (env : Env) (out : InvokeHostFunctionOutput)
    (events : list N) : M State bool :=
  modify (λ s, set_mDiagnosticEvents
    (maybePopulateDiagnosticEvents (mAppConfig env) out (mMetrics s)
       (mDiagnosticEvents s)) s);;
  modify (λ s, set_mMetrics
    (set_mEmitEventByte
       (u32 (mEmitEventByte (mMetrics s) + u32 (result_value out).1))
       (mMetrics s)) s);;
  s ← get;
  if txMaxContractEventsSizeBytes (mSorobanConfig env)
     <? mEmitEventByte (mMetrics s)
  then
    diag_pushError SCE_BUDGET SCEC_EXCEEDED_LIMIT
      "return value pushes events size above network config maximum"
      [makeU64SCVal (mEmitEventByte (mMetrics s));
       makeU64SCVal (txMaxContractEventsSizeBytes (mSorobanConfig env))];;
    fail_with INVOKE_HOST_FUNCTION_RESOURCE_LIMIT_EXCEEDED
  else
    match mRefundableFeeTracker s with
    | None => throw (ReleaseAssertFailed "refundableFeeTracker")
    | Some tracker =>
        let '(enough, tracker', diags) :=
          consumeRefundableSorobanResources tracker
            (mEmitEventByte (mMetrics s)) (rent_fee out)
            (getLedgerVersion (mLtx s)) (mSorobanConfig env) (mAppConfig env) in
        modify (λ s, set_mDiagnosticEvents (mDiagnosticEvents s ++ diags)
                       (set_mRefundableFeeTracker tracker' s));;
        if negb enough
        then fail_with INVOKE_HOST_FUNCTION_INSUFFICIENT_REFUNDABLE_FEE
        else
          let returnValue := (result_value out).2 in
          modify (set_mRes INVOKE_HOST_FUNCTION_SUCCESS);;
          modify (set_mResSuccess (xdrSha256_success events returnValue));;
          modify (set_mOpMeta events returnValue);;
          modify (λ s, set_mMetrics (set_mSuccess true (mMetrics s)) s);;
          mret true
    end.

(** The events and everything after them. *)
Definition emitEvents (env : Env) (out : InvokeHostFunctionOutput)
    : M State bool :=
  events ← ingestEvents env (contract_events out) [];
  match events with
  | None => mret false
  | Some events => finish env out events
  end.

(** What [apply] does once the host has returned with [out.success]. *)
Definition applyOutput (env : Env) (out : InvokeHostFunctionOutput)
    : M State bool :=
  keys ← applyModifiedEntries env (modified_ledger_entries out)
           (mkTouched ∅ ∅);
  match keys with
  | None => mret false
  | Some keys =>
      checkCreatedKeys (createdKeys keys);;
      eraseAllUntouched (createdAndModifiedKeys keys)
        (readWrite (footprint (mResources env)));;
      emitEvents env out
  end.

(** The two calls of [addReads] at the start of [apply]. *)
Definition readFootprint (env : Env) : M State bool :=
  ok ← addReads env (readOnly (footprint (mResources env))) true;
  if negb ok then mret false
  else addReads env (readWrite (footprint (mResources env))) false.

Definition apply (env : Env) : M State bool :=
  ok ← readFootprint env;
  if negb ok then mret false else
  out ← invokeHost env;
  if negb (success out) then failedInvocation env out
  else applyOutput env out.

(** *** [InvokeHostFunctionOpFrame::doApply] *)

(** The operation frame and the application, as far as the helper reads
    them. *)
Record Frame : Type := mkFrame {
  frame_resources : SorobanResources;
  frame_resourcesExt : SorobanResourcesExt;
  frame_hostFunction : N;
  frame_auth : list N;
  frame_sourceID : N;
}.

Record App : Type := mkApp {
  app_sorobanConfig : SorobanNetworkConfig;
  app_config : Config;
  app_hotArchive : gmap LedgerKey HotArchiveBucketEntry;
  app_networkID : N;
}.

(** The constructor of [ApplyHelper]. *)
Definition newApplyHelper (app : App) (frame : Frame) (seed : N) : Outcome Env :=
  marks ← initAutorestoredEntries (frame_resourcesExt frame)
            (readWrite (footprint (frame_resources frame)));
  Returns
    {| mResources := frame_resources frame;
       mSorobanConfig := app_sorobanConfig app;
       mAppConfig := app_config app;
       mHotArchive := app_hotArchive app;
       mAutorestoredEntries := marks;
       mSorobanBasePrngSeed := seed;
       resourcesExt := frame_resourcesExt frame;
       hostFunction := frame_hostFunction frame;
       auth := frame_auth frame;
       sourceID := frame_sourceID frame;
       networkID := app_networkID app |}.

Definition initialState (frame : Frame) (ltx : LedgerTxn)
    (res : option InvokeHostFunctionResultCode)
    (refundableFeeTracker : option RefundableFeeTracker)
    (diagnosticEvents : list DiagnosticEvent) : State :=
  {| mLtx := ltx;
     mRes := res;
     mResSuccess := None;
     mRefundableFeeTracker := refundableFeeTracker;
     mOpMetaEvents := [];
     mOpMetaReturnValue := None;
     mLedgerEntryCxxBufs := [];
     mTtlEntryCxxBufs := [];
     mMetrics := initialMetrics (instructions (frame_resources frame));
     mDiagnosticEvents := diagnosticEvents |}.

Definition doApply (app : App) (frame : Frame) (ltx : LedgerTxn) (seed : N)
    (res : option InvokeHostFunctionResultCode)
    (refundableFeeTracker : option RefundableFeeTracker)
    (diagnosticEvents : list DiagnosticEvent) : Result State bool :=
  let s := initialState frame ltx res refundableFeeTracker diagnosticEvents in
  match refundableFeeTracker with
  | None => Thrown (ReleaseAssertFailed "refundableFeeTracker") s
  | Some _ =>
      match newApplyHelper app frame seed with
      | Throws e => Thrown e s
      | Returns env => apply env s
      end
  end.

End helper.
End InvokeHostFunctionOpFrame.

(** * [invariant/InvariantManagerImpl.cpp] *)

Module InvariantManagerImpl.

(** An invariant object behind a [std::shared_ptr]: [std::find] over
    [mEnabled] compares the pointers, so the object carries its address. *)
Record Invariant : Type := mkInvariant {
  address : N;
  getName : string;
  isStrict : bool;
}.

Global Instance Invariant_eq_dec : EqDecision Invariant.
Proof. solve_decision. Defined.

(** ** [<regex>] by interface *)

Inductive syntax_option_type : Type := ECMAScript | icase.
Inductive match_flag_type : Type := match_not_null.

(** [regex_ctor] is the constructor [std::regex(pattern, flags)]: it gives
    the compiled expression, or the [what()] of the [std::regex_error] it
    throws. *)
Class StdRegex : Type := {
  regex : Type;
  regex_ctor : string → list syntax_option_type → regex + string;
  regex_match : string → regex → list match_flag_type → bool;
}.

Section manager.
Context `{StdRegex}.

(** [mInvariants] is a [std::map] from name to invariant, here the list of
    its pairs in key order; [mEnabled] is a vector. *)
Record State : Type := mkState {
  mInvariants : list (string * Invariant);
  mEnabled : list Invariant;
}.

Definition push_back_enabled (inv : Invariant) (s : State) : State :=
  mkState (mInvariants s) (mEnabled s ++ [inv]).

(** [getEnabledInvariants] *)
Definition getEnabledInvariants (s : State) : list string :=
  getName <$> mEnabled s.

(** Insertion into the [std::map], which keeps the keys in order. *)
Fixpoint map_insert (name : string) (inv : Invariant)
    (m : list (string * Invariant)) : list (string * Invariant) :=
  match m with
  | [] => [(name, inv)]
  | (n, v) :: m' =>
      if String.ltb name n then (name, inv) :: m
      else if String.eqb name n then (name, inv) :: m'
      else (n, v) :: map_insert name inv m'
  end.

(** [registerInvariant] *)
Definition registerInvariant (invariant : Invariant) : M State () :=
  s ← get;
  let name := getName invariant in
  if bool_decide (name ∈ (mInvariants s).*1) then
    throw (RuntimeError ("Invariant " +:+ name +:+ " already registered"))
  else
    modify (λ s, mkState (map_insert name invariant (mInvariants s)) (mEnabled s)).

(** The loop of [enableInvariant] over [mInvariants]; the result is the final
    value of [enabledSome]. *)
Fixpoint enableMatching (r : regex) (invs : list (string * Invariant))
    (enabledSome : bool) : M State bool :=
  match invs with
  | [] => mret enabledSome
  | (name, inv) :: rest =>
      if regex_match name r [match_not_null] then
        s ← get;
        if bool_decide (inv ∈ mEnabled s) then
          throw (RuntimeError ("Invariant " +:+ name +:+ " already enabled"))
        else
          modify (push_back_enabled inv);;
          enableMatching r rest true
      else enableMatching r rest enabledSome
  end.

(** The message of the exception thrown when nothing was enabled. *)
Definition noMatchMessage (invPattern : string)
    (invs : list (string * Invariant)) : string :=
  let message :=
    "Invariant pattern '" +:+ invPattern +:+ "' did not match any invariants." in
  match invs with
  | (first, _) :: rest =>
      message +:+ " Registered invariants are: " +:+
        foldl (λ lhs rhs, lhs +:+ ", " +:+ rhs.1) first rest
  | [] => message +:+ " There are no registered invariants"
  end.

(** [enableInvariant] *)
Definition enableInvariant (invPattern : string) : M State () :=
  if bool_decide (invPattern = "") then
    throw (InvalidArgument "Invariant pattern must be non empty")
  else
    match regex_ctor invPattern [ECMAScript; icase] with
    | inr what =>
        throw (InvalidArgument
                 ("Invalid invariant pattern '" +:+ invPattern +:+ "': " +:+ what))
    | inl r =>
        s ← get;
        enabledSome ← enableMatching r (mInvariants s) false;
        if negb enabledSome then
          s ← get;
          throw (RuntimeError (noMatchMessage invPattern (mInvariants s)))
        else mret ()
    end.

End manager.

(** ** The checks run through the manager

    The checks of an invariant ([Invariant::checkOnOperationApply],
    [Invariant::checkAfterAssumeState]) are virtual functions that return a
    message, empty when the invariant holds.  They are taken by interface,
    with the types of their arguments, the two fields of
    [ltxDelta.header.current] that the manager reads and the rendering
    [xdrToCerealString] of util/XDRCereal. *)
Class InvariantChecks : Type := {
  Operation : Type;
  OperationResult : Type;
  LedgerTxnDelta : Type;
  ContractEvent : Type;
  delta_ledgerVersion : LedgerTxnDelta → Z;
  delta_ledgerSeq : LedgerTxnDelta → Z;
  Invariant_checkOnOperationApply :
    Invariant → Operation → OperationResult → LedgerTxnDelta →
    list ContractEvent → string;
  Invariant_checkAfterAssumeState : Invariant → Z → string;
  xdrToCerealString : Operation → string → string;
}.

(** [struct InvariantFailureInformation] *)
Record InvariantFailureInformation : Type := mkFailureInformation {
  lastFailedOnLedger : Z;
  lastFailedWithMessage : string;
}.

(** The manager with its failure bookkeeping: the registry and the enabled
    invariants, the counter [mInvariantFailureCount] and the [std::map]
    [mFailureInformation] from the name of an invariant to its last
    failure. *)
Record Manager : Type := mkManager {
  mRegistry : State;
  mInvariantFailureCount : Z;
  mFailureInformation : gmap string InvariantFailureInformation;
}.

(** A check of the manager returns, or throws [InvariantDoesNotHold] with a
    message; the bookkeeping done before the [throw] persists.  The lines
    written to the log are not part of the model. *)
Inductive CheckResult : Type :=
  | Returned (m : Manager)
  | InvariantDoesNotHold (message : string) (m : Manager).

(** [handleInvariantFailure], outside the fuzzing build (which aborts). *)
Definition handleInvariantFailure (invariant : Invariant) (message : string)
    (m : Manager) : CheckResult :=
  if isStrict invariant then InvariantDoesNotHold message m else Returned m.

(** [onInvariantFailure] *)
Definition onInvariantFailure (invariant : Invariant) (message : string)
    (ledger : Z) (m : Manager) : CheckResult :=
  handleInvariantFailure invariant message
    {| mRegistry := mRegistry m;
       mInvariantFailureCount := mInvariantFailureCount m + 1;
       mFailureInformation :=
         <[getName invariant := mkFailureInformation ledger message]>
           (mFailureInformation m) |}.

(** The characters [34] and [10] of the format strings. *)
Definition doubleQuote : string := String (Ascii.ascii_of_nat 34) EmptyString.
Definition lineFeed : string := String (Ascii.ascii_of_nat 10) EmptyString.

Section checks.
Context `{InvariantChecks}.

(** The message of a failed check on an operation. *)
Definition operationApplyMessage (invariant : Invariant) (result : string)
    (operation : Operation) : string :=
  "Invariant " +:+ doubleQuote +:+ getName invariant +:+ doubleQuote
  +:+ " does not hold on operation: " +:+ result +:+ lineFeed
  +:+ xdrToCerealString operation "Operation".

(** The loop of [checkOnOperationApply] over [mEnabled]. *)
Fixpoint checkEnabledOnOperationApply (enabled : list Invariant)
    (operation : Operation) (opres : OperationResult)
    (ltxDelta : LedgerTxnDelta) (events : list ContractEvent) (m : Manager)
    : CheckResult :=
  match enabled with
  | [] => Returned m
  | invariant :: rest =>
      if protocolVersionIsBefore (delta_ledgerVersion ltxDelta) V_8
         && negb (bool_decide
                    (getName invariant = "EventsAreConsistentWithEntryDiffs"))
      then checkEnabledOnOperationApply rest operation opres ltxDelta events m
      else
        let result :=
          Invariant_checkOnOperationApply invariant operation opres ltxDelta
            events in
        if bool_decide (result = EmptyString)
        then checkEnabledOnOperationApply rest operation opres ltxDelta events m
        else
          match onInvariantFailure invariant
                  (operationApplyMessage invariant result operation)
                  (delta_ledgerSeq ltxDelta) m with
          | Returned m' =>
              checkEnabledOnOperationApply rest operation opres ltxDelta
                events m'
          | InvariantDoesNotHold message m' => InvariantDoesNotHold message m'
          end
  end.

(** [checkOnOperationApply] *)
Definition checkOnOperationApply (operation : Operation)
    (opres : OperationResult) (ltxDelta : LedgerTxnDelta)
    (events : list ContractEvent) (m : Manager) : CheckResult :=
  checkEnabledOnOperationApply (mEnabled (mRegistry m)) operation opres
    ltxDelta events m.

(** The message of a failed check after the state is assumed. *)
Definition assumeStateMessage (invariant : Invariant) (result : string)
    : string :=
  "invariant " +:+ doubleQuote +:+ getName invariant +:+ doubleQuote
  +:+ " does not hold after assume state: " +:+ result.

(** The loop of [checkAfterAssumeState] over [mEnabled]. *)
Fixpoint checkEnabledAfterAssumeState (enabled : list Invariant)
    (newestLedger : Z) (m : Manager) : CheckResult :=
  match enabled with
  | [] => Returned m
  | invariant :: rest =>
      let result := Invariant_checkAfterAssumeState invariant newestLedger in
      if bool_decide (result = EmptyString)
      then checkEnabledAfterAssumeState rest newestLedger m
      else
        match onInvariantFailure invariant
                (assumeStateMessage invariant result) 0 m with
        | Returned m' => checkEnabledAfterAssumeState rest newestLedger m'
        | InvariantDoesNotHold message m' => InvariantDoesNotHold message m'
        end
  end.

(** [checkAfterAssumeState] *)
Definition checkAfterAssumeState (newestLedger : Z) (m : Manager)
    : CheckResult :=
  checkEnabledAfterAssumeState (mEnabled (mRegistry m)) newestLedger m.

End checks.

(** The members of the [Json::Value] that [getJsonInfo] builds: the object
    of one failure, or the failure count. *)
Inductive JsonMember : Type :=
  | JsonFailure (last_failed_on_ledger : Z) (last_failed_with_message : string)
  | JsonCount (count : Z).

(** [getJsonInfo]: the members of the object [failures], by name; without
    members it is the null value that the function returns when nothing
    failed. *)
Definition getJsonInfo (m : Manager) : gmap string JsonMember :=
  let failures :=
    (λ info, JsonFailure (lastFailedOnLedger info) (lastFailedWithMessage info))
    <$> mFailureInformation m in
  if bool_decide (failures = ∅) then failures
  else <["count" := JsonCount (mInvariantFailureCount m)]> failures.

End InvariantManagerImpl.

(** * Concrete collaborators, for evaluating the embedding on examples *)

Module Examples.

Definition codec : XdrCodec :=
  {| sha256_xdr_key := λ k,
       match k with
       | ClassicKey _ id => (4 * id)%N
       | ContractDataKey c key TEMPORARY => (4 * (1000 * c + key) + 1)%N
       | ContractDataKey c key PERSISTENT => (4 * (1000 * c + key) + 2)%N
       | ContractCodeKey h => (4 * h + 3)%N
       | TTLKey h => h
       end;
     xdr_size_key := λ _, 40;
     xdr_size_entry := λ e,
       match data e with
       | ContractCodeEntry _ code => 64 + Z.of_N code
       | _ => 96
       end;
     xdrSha256_success := λ events _, N.of_nat (length events) |}.

(** Entries above 64 KiB are rejected; the tracker is the refundable fee
    left. *)
Definition utils : TransactionUtils :=
  {| validateContractLedgerEntry := λ _ size _ _, (size <=? 65536, []);
     RefundableFeeTracker := Z;
     consumeRefundableSorobanResources := λ left eventBytes rentFee _ _ _,
       if eventBytes + rentFee <=? left
       then (true, left - (eventBytes + rentFee), [])
       else (false, left, []) |}.

(** A host that answers every invocation with [out]. *)
Definition bridge (out : Outcome InvokeHostFunctionOutput) : RustBridge :=
  {| invoke_host_function := λ _, out;
     compute_rent_fee := λ _ _ changes _ _,
       foldr (λ c acc, new_size_bytes c + acc) 0 changes;
     contract_code_memory_size_for_rent := λ _ _ code _ _, 2 * Z.of_N code |}.

Definition header (seq version : Z) : LedgerHeader :=
  {| ledgerSeq := seq; ledgerVersion := version; baseReserve := 5000000;
     closeTime := 0 |}.

Definition networkConfig : SorobanNetworkConfig :=
  {| txMemoryLimit := 41943040;
     txMaxContractEventsSizeBytes := 8198;
     maxContractSizeBytes := 65536;
     stateArchivalSettings :=
       {| minPersistentTTL := 4096; minTemporaryTTL := 16; maxEntryTTL := 3110400 |};
     cpuCostParams := 0;
     memCostParams := 0;
     rustBridgeRentFeeConfiguration := 0 |}.

Definition config : Config :=
  {| CURRENT_LEDGER_PROTOCOL_VERSION := 24;
     ENABLE_SOROBAN_DIAGNOSTIC_EVENTS := false |}.

(** A persistent contract-data key, an entry stored under it and a second
    entry with the same key and another value. *)
Definition key1 : LedgerKey := ContractDataKey 7 1 PERSISTENT.
Definition entry1 : LedgerEntry :=
  {| lastModifiedLedgerSeq := 90; data := ContractDataEntry 7 1 PERSISTENT 11;
     ext := 0 |}.
Definition entry1' : LedgerEntry :=
  {| lastModifiedLedgerSeq := 90; data := ContractDataEntry 7 1 PERSISTENT 12;
     ext := 0 |}.
Definition ttlKey1 : LedgerKey := @getTTLKey codec key1.
Definition ttlEntry1 (liveUntil : Z) : LedgerEntry :=
  {| lastModifiedLedgerSeq := 90;
     data := TTLData (@sha256_xdr_key codec key1) liveUntil; ext := 0 |}.

(** A contract-code key and its entry. *)
Definition key2 : LedgerKey := ContractCodeKey 9.
Definition entry2 : LedgerEntry :=
  {| lastModifiedLedgerSeq := 80; data := ContractCodeEntry 9 500; ext := 0 |}.

(** A temporary contract-data key, its entry, its TTL key and TTL entry. *)
Definition key3 : LedgerKey := ContractDataKey 7 2 TEMPORARY.
Definition entry3 : LedgerEntry :=
  {| lastModifiedLedgerSeq := 10; data := ContractDataEntry 7 2 TEMPORARY 5;
     ext := 0 |}.
Definition ttlKey3 : LedgerKey := @getTTLKey codec key3.
Definition ttlEntry3 (liveUntil : Z) : LedgerEntry :=
  {| lastModifiedLedgerSeq := 10;
     data := TTLData (@sha256_xdr_key codec key3) liveUntil; ext := 0 |}.

(** A toy regular-expression engine for the invariant manager: a pattern is
    either [.*] or a literal name; the flags are ignored. *)
Definition stdRegex : InvariantManagerImpl.StdRegex :=
  {| InvariantManagerImpl.regex := string;
     InvariantManagerImpl.regex_ctor := λ pattern _,
       if bool_decide (pattern = "(") then inr "regex_error" else inl pattern;
     InvariantManagerImpl.regex_match := λ name r _,
       bool_decide (r = ".*") || bool_decide (r = name) |}.

Definition ltx0 (seq version : Z) (entries : gmap LedgerKey LedgerEntry)
    : LedgerTxn :=
  mkLedgerTxn (header seq version) entries ∅ ∅.

Definition resources0 (ro rw : list LedgerKey) (insns : Z) : SorobanResources :=
  mkResources (mkFootprint ro rw) insns 10000 10000.

Definition restoreEnv (rw : list LedgerKey)
    (hot : gmap LedgerKey HotArchiveBucketEntry) : RestoreFootprintOpFrame.Env :=
  RestoreFootprintOpFrame.mkEnv (resources0 [] rw 0) networkConfig config hot.

Definition restoreState (ltx : LedgerTxn) : @RestoreFootprintOpFrame.State utils :=
  @RestoreFootprintOpFrame.initialState utils ltx None (Some 1000000) [].

Definition invokeEnv (ro rw : list LedgerKey) (insns : Z)
    (hot : gmap LedgerKey HotArchiveBucketEntry) (marks : list bool)
    : InvokeHostFunctionOpFrame.Env :=
  InvokeHostFunctionOpFrame.mkEnv (resources0 ro rw insns) networkConfig config
    hot marks 0 ResourcesExtV0 0 [] 0 0.

Definition invokeState (ltx : LedgerTxn) (insns : Z)
    : @InvokeHostFunctionOpFrame.State utils :=
  @InvokeHostFunctionOpFrame.mkState utils ltx None None (Some 1000000) [] None
    [] []
    (InvokeHostFunctionOpFrame.initialMetrics insns) [].

(** The hot archive holding [entry1]. *)
Definition hot1 : gmap LedgerKey HotArchiveBucketEntry :=
  {[key1 := HOT_ARCHIVE_ARCHIVED entry1]}.

(** A live state in which [entry1] is present with the TTL [liveUntil]. *)
Definition live1 (liveUntil : Z) : gmap LedgerKey LedgerEntry :=
  {[key1 := entry1; ttlKey1 := ttlEntry1 liveUntil]}.

(** Outputs of the host. *)
Definition failedOutput (cpu mem : Z) : InvokeHostFunctionOutput :=
  mkOutput false false cpu mem 0 0 0 [] [] [] (0, SCV_Opaque 0) 0.
Definition eventsOutput (events : list (Z * N)) (returnValueSize : Z)
    : InvokeHostFunctionOutput :=
  mkOutput true false 50 1000 0 0 0 [] events [] (returnValueSize, SCV_U64 1) 0.

(** Two registered invariants, none enabled. *)
Definition inv1 : InvariantManagerImpl.Invariant :=
  InvariantManagerImpl.mkInvariant 1 "AccountSubEntriesCountIsValid" false.
Definition inv2 : InvariantManagerImpl.Invariant :=
  InvariantManagerImpl.mkInvariant 2 "ArchivedStateConsistency" true.
Definition manager0 : InvariantManagerImpl.State :=
  InvariantManagerImpl.mkState
    [("AccountSubEntriesCountIsValid", inv1); ("ArchivedStateConsistency", inv2)]
    [].

(** An invoke operation whose read-write footprint is [key1], marked for
    autorestore, over a hot archive that holds [entry1]; the host returns
    the restored entry and its TTL, one event of 100 bytes, a return value of
    8 bytes and a rent fee of 20. *)
Definition autorestoreApp : InvokeHostFunctionOpFrame.App :=
  InvokeHostFunctionOpFrame.mkApp networkConfig config hot1 0.
Definition autorestoreFrame : InvokeHostFunctionOpFrame.Frame :=
  InvokeHostFunctionOpFrame.mkFrame (resources0 [] [key1] 100)
    (ResourcesExtV1 [0%nat]) 0 [] 0.
Definition autorestoreOutput : InvokeHostFunctionOutput :=
  mkOutput true false 50 1000 0 0 0
    [(96, entry1); (48, @restoredTTLEntry codec entry1 4195)] [(100, 1%N)] []
    (8, SCV_U64 1) 20.

(** A live state in which the code entry [entry2] is present with a TTL that
    expired at ledger 50. *)
Definition live2 : gmap LedgerKey LedgerEntry :=
  {[key2 := entry2;
    @getTTLKey codec key2 :=
      mkLedgerEntry 80 (TTLData (@sha256_xdr_key codec key2) 50) 0]}.


(** Checks for the invariant manager: an operation is a number, and the check
    of an invariant on it fails when the address of the invariant is at most
    that number; after assume-state the invariant at address 1 fails.  The
    delta is the pair of the ledger version and the ledger sequence. *)
Definition checks : InvariantManagerImpl.InvariantChecks :=
  {| InvariantManagerImpl.Operation := N;
     InvariantManagerImpl.OperationResult := ();
     InvariantManagerImpl.LedgerTxnDelta := Z * Z;
     InvariantManagerImpl.ContractEvent := N;
     InvariantManagerImpl.delta_ledgerVersion := fst;
     InvariantManagerImpl.delta_ledgerSeq := snd;
     InvariantManagerImpl.Invariant_checkOnOperationApply := λ inv op _ _ _,
       if (InvariantManagerImpl.address inv <=? op)%N then "violated"
       else EmptyString;
     InvariantManagerImpl.Invariant_checkAfterAssumeState := λ inv _,
       if (InvariantManagerImpl.address inv =? 1)%N then "violated"
       else EmptyString;
     InvariantManagerImpl.xdrToCerealString := λ _ _, "{}" |}.

(** The two invariants registered and enabled, nothing failed so far. *)
Definition manager1 : InvariantManagerImpl.Manager :=
  InvariantManagerImpl.mkManager
    (InvariantManagerImpl.mkState
       (InvariantManagerImpl.mInvariants manager0) [inv1; inv2])
    0 ∅.

(** A third invariant, not registered in [manager0]. *)
Definition inv3 : InvariantManagerImpl.Invariant :=
  InvariantManagerImpl.mkInvariant 3 "LedgerEntryIsValid" false.

(** The configuration with the diagnostic events enabled. *)
Definition configDiagnostics : Config :=
  {| CURRENT_LEDGER_PROTOCOL_VERSION := 24;
     ENABLE_SOROBAN_DIAGNOSTIC_EVENTS := true |}.

(** An invoke operation that lists the index 3 of a read-write footprint of
    one key. *)
Definition outOfRangeFrame : InvokeHostFunctionOpFrame.Frame :=
  InvokeHostFunctionOpFrame.mkFrame (resources0 [] [key1] 100)
    (ResourcesExtV1 [3%nat]) 0 [] 0.

(** The helper that the constructor builds for [autorestoreFrame]. *)
Definition autorestoreEnv : InvokeHostFunctionOpFrame.Env :=
  InvokeHostFunctionOpFrame.mkEnv (resources0 [] [key1] 100) networkConfig
    config hot1 [true] 0 (ResourcesExtV1 [0%nat]) 0 [] 0 0.

(** A live state in which the temporary entry [entry3] is present with the
    TTL [liveUntil]. *)
Definition live3 (liveUntil : Z) : gmap LedgerKey LedgerEntry :=
  {[key3 := entry3; ttlKey3 := ttlEntry3 liveUntil]}.

End Examples.

(** * Notions used to state the properties *)

(** The numbers compared by the count identity of the eviction check: the
    temporary keys and the other (TTL) keys among the deleted keys. *)
Definition numTemps (deletedKeys : list LedgerKey) : nat :=
  length (List.filter isTemporaryEntry deletedKeys).
Definition numTTLs (deletedKeys : list LedgerKey) : nat :=
  length (List.filter (λ k, negb (isTemporaryEntry k)) deletedKeys).

(** The eviction check answers with the count-identity message. *)
Definition reportsCountMismatch
    (r : Outcome (option ArchivedStateConsistency.Failure)) : Prop :=
  ∃ ttls temps archived,
    r = Returns (Some (ArchivedStateConsistency.EvictedCountMismatch
                         ttls temps archived)).

(** The string returned by [checkOnLedgerCommit] has the count-identity
    message as its eviction part. *)
Definition commitReportsCountMismatch
    (r : Outcome (option (option ArchivedStateConsistency.Failure
                          * option ArchivedStateConsistency.Failure))) : Prop :=
  ∃ ttls temps archived restoreRes,
    r = Returns (Some (Some (ArchivedStateConsistency.EvictedCountMismatch
                               ttls temps archived), restoreRes)).

(** The applier finds [e] as the archived entry of [lk] in state [ltx]:
    either [lk] has no TTL in the live state, the protocol supports persistent
    eviction and the hot archive holds [e] under [lk]; or the TTL of [lk] in
    the live state is expired at [ledgerSeq] and the live state holds [e]
    under [lk]. *)
Definition foundArchived `{XdrCodec} (hotArchive : gmap LedgerKey HotArchiveBucketEntry)
    (ltx : LedgerTxn) (ledgerSeq : Z) (lk : LedgerKey) (e : LedgerEntry)
    (isHotArchiveEntry : bool) : Prop :=
  if isHotArchiveEntry then
    loadWithoutRecord ltx (getTTLKey lk) = None
    ∧ protocolVersionStartsFrom (getLedgerVersion ltx)
        FIRST_PROTOCOL_SUPPORTING_PERSISTENT_EVICTION = true
    ∧ hotArchive !! lk = Some (HOT_ARCHIVE_ARCHIVED e)
  else
    ∃ ttl, loadWithoutRecord ltx (getTTLKey lk) = Some ttl
           ∧ isLive ttl ledgerSeq = Returns false
           ∧ loadWithoutRecord ltx lk = Some e.

(** The TTL stored for the entry [e] in [ltx]. *)
Definition liveUntilOf `{XdrCodec} (ltx : LedgerTxn) (e : LedgerEntry) : option Z :=
  match ltx_entries ltx !! getTTLKey (LedgerEntryKey e) with
  | Some ttl =>
      match data ttl with
      | TTLData _ liveUntil => Some liveUntil
      | _ => None
      end
  | None => None
  end.

(** The final state of a run, returned or thrown. *)
Definition state_of {S A} (r : Result S A) : S :=
  match r with Done _ s => s | Thrown _ s => s end.

(** The computation [m] never changes the observation [f] of the state. *)
Definition preserves {S A X} (f : S → X) (m : M S A) : Prop :=
  ∀ s, f (state_of (m s)) = f s.

(** The value of the counter [mEmitEventByte] after events of the given
    sizes are metered, starting from [c0]; each addition wraps at [2^32]. *)
Definition meterFrom (c0 : Z) (sizes : list Z) : Z :=
  foldl (λ acc size, u32 (acc + u32 size)) c0 sizes.

(** The plain sum of the sizes. *)
Definition sumSizes (sizes : list Z) : Z := foldr Z.add 0 sizes.

(** The diagnostic that describes an archived contract key. *)
Definition archivedDiagnosticOf (lk : LedgerKey) : list DiagnosticEvent :=
  match lk with
  | ContractCodeKey hash =>
      [ErrorEvent SCE_VALUE SCEC_INVALID_INPUT
         "trying to access an archived contract code entry" [SCV_Bytes hash]]
  | ContractDataKey contract key _ =>
      [ErrorEvent SCE_VALUE SCEC_INVALID_INPUT
         "trying to access an archived contract data entry"
         [SCV_Address contract; SCV_Opaque key]]
  | _ => []
  end.

Section invoke_notions.
Import InvokeHostFunctionOpFrame.
Context `{XdrCodec} `{TransactionUtils} `{RustBridge}.

(** The state in which the operation is left when the archived key [lk] is
    refused in state [s]: the diagnostic is pushed and the result code is
    [INVOKE_HOST_FUNCTION_ENTRY_ARCHIVED]; nothing else changes. *)
Definition entryArchivedState (lk : LedgerKey) (s : State) : State :=
  set_mRes INVOKE_HOST_FUNCTION_ENTRY_ARCHIVED
    (set_mDiagnosticEvents (mDiagnosticEvents s ++ archivedDiagnosticOf lk) s).

(** The key at [index] is in the read-only footprint, or the protocol does
    not support autorestore, or the key is not marked in the autorestore
    bitmap. *)
Definition notEligibleForAutorestore (env : Env) (ltx : LedgerTxn)
    (isReadOnly : bool) (lk : LedgerKey) (index : nat) : Prop :=
  isReadOnly = true
  ∨ protocolVersionStartsFrom (getLedgerVersion ltx)
      FIRST_PROTOCOL_SUPPORTING_PERSISTENT_EVICTION = false
  ∨ checkIfReadWriteEntryIsMarkedForAutorestore env lk index = Returns false.

(** The reads of the footprint up to, and without, the key [lk]: [lk] follows
    [pre] in the read-only footprint, or in the read-write footprint after
    the whole read-only footprint was read; [s1] is the state reached. *)
Definition readsUpTo (env : Env) (s : State) (isReadOnly : bool)
    (pre : list LedgerKey) (lk : LedgerKey) (post : list LedgerKey)
    (s1 : State) : Prop :=
  if isReadOnly then
    readOnly (footprint (mResources env)) = pre ++ lk :: post
    ∧ addReads env pre true s = Done true s1
  else
    readWrite (footprint (mResources env)) = pre ++ lk :: post
    ∧ ∃ s0, addReads env (readOnly (footprint (mResources env))) true s
            = Done true s0
            ∧ addReads env pre false s0 = Done true s1.

(** What no step before the events changes: the ledger header and the
    counter of emitted event bytes. *)
Definition untouchedBeforeEvents (s : State) : LedgerHeader * Z :=
  (ltx_header (mLtx s), mEmitEventByte (mMetrics s)).

(** [apply] reaches the ingestion of the events in state [s3], the host
    having returned [out]. *)
Definition reachesEvents (env : Env) (s : State)
    (out : InvokeHostFunctionOutput) (s3 : State) : Prop :=
  ∃ s0 s1 s2 keys,
    readFootprint env s = Done true s0
    ∧ invokeHost env s0 = Done out s1
    ∧ success out = true
    ∧ applyModifiedEntries env (modified_ledger_entries out) (mkTouched ∅ ∅) s1
      = Done (Some keys) s2
    ∧ (checkCreatedKeys (createdKeys keys);;
       eraseAllUntouched (createdAndModifiedKeys keys)
         (readWrite (footprint (mResources env)))) s2 = Done () s3.

(** The diagnostics of the two checks of the event size. *)
Definition eventsSizeError (env : Env) (emitEventByte : Z) : DiagnosticEvent :=
  ErrorEvent SCE_BUDGET SCEC_EXCEEDED_LIMIT
    "total events size exceeds network config maximum"
    [SCV_U64 emitEventByte;
     SCV_U64 (txMaxContractEventsSizeBytes (mSorobanConfig env))].

Definition returnValueSizeError (env : Env) (emitEventByte : Z) : DiagnosticEvent :=
  ErrorEvent SCE_BUDGET SCEC_EXCEEDED_LIMIT
    "return value pushes events size above network config maximum"
    [SCV_U64 emitEventByte;
     SCV_U64 (txMaxContractEventsSizeBytes (mSorobanConfig env))].
End invoke_notions.

Section manager_notions.
Import InvariantManagerImpl.
Context `{StdRegex}.

(** The registered invariants whose name the compiled pattern matches, in the
    order of [mInvariants]. *)
Definition matchedInvariants (r : regex) (invs : list (string * Invariant))
    : list (string * Invariant) :=
  List.filter (λ p, regex_match p.1 r [match_not_null]) invs.

(** What [registerInvariant] maintains: every invariant is stored under its
    own name, and no name is stored twice. *)
Definition registryWellFormed (s : State) : Prop :=
  NoDup (mInvariants s).*1 ∧ ∀ p, p ∈ mInvariants s → getName p.2 = p.1.
End manager_notions.


(** ** Notions for the consistency checks *)

(** The pairs of a [std::map] come in the strict order of their keys. *)
Definition keysSorted {V} (m : list (LedgerKey * V)) : Prop :=
  StronglySorted (λ a b, LedgerKey_ltb a b = true) m.*1.

(** Every entry of the live store is stored under its own key. *)
Definition wellKeyed (store : gmap LedgerKey LedgerEntry) : Prop :=
  ∀ k e, store !! k = Some e → LedgerEntryKey e = k.

(** Every archived entry of the hot archive is stored under its own key. *)
Definition wellKeyedArchive (store : gmap LedgerKey HotArchiveBucketEntry) : Prop :=
  ∀ k e, store !! k = Some (HOT_ARCHIVE_ARCHIVED e) → LedgerEntryKey e = k.

Section overlay_notions.
Context `{XdrCodec}.

(** What a step of a restoring loop does to the overlay for the key [k]: it
    leaves the entries as they are, or it restores the archived entry found
    for the persistent key [k], writing the entry under [k] and a fresh TTL
    entry under its TTL key.  The header is never changed. *)
Definition restoresAtMost (hotArchive : gmap LedgerKey HotArchiveBucketEntry)
    (ledgerSeq restoredLiveUntilLedger : Z) (k : LedgerKey)
    (before after : LedgerTxn) : Prop :=
  ltx_header after = ltx_header before
  ∧ (ltx_entries after = ltx_entries before
     ∨ ∃ e isHot,
         isPersistentEntry k = true
         ∧ foundArchived hotArchive before ledgerSeq k e isHot
         ∧ LedgerEntryKey e = k
         ∧ ltx_entries after
           = <[getTTLKey k := restoredTTLEntry e restoredLiveUntilLedger]>
               (<[k := e]> (ltx_entries before))).
End overlay_notions.

Section footprint_notions.
Import RestoreFootprintOpFrame.
Context `{XdrCodec} `{TransactionUtils} `{RustBridge}.
(** The same operation with another read-write footprint. *)
Definition with_readWrite (env : Env) (keys : list LedgerKey) : Env :=
  mkEnv
    (mkResources (mkFootprint (readOnly (footprint (resources env))) keys)
       (instructions (resources env)) (diskReadBytes (resources env))
       (writeBytes (resources env)))
    (sorobanConfig env) (appConfig env) (hotArchive env).
End footprint_notions.

Section restoration_notions.
Context `{XdrCodec} `{TransactionUtils} `{RustBridge}.

(** A restoration of the persistent entry [e] at ledger [seq] under the
    minimum persistent TTL [minTTL], leaving the overlay [after]: a run of
    [RestoreFootprintOpFrame::doApply] that returns [true], on a ledger at
    sequence [seq] and a configuration whose minimum persistent TTL is
    [minTTL], where [e] is found archived under a key of the read-write
    footprint; or a run of [addReads] over the read-write keys of an invoke
    operation that returns [true], where [e] is found archived under one of
    the keys.  In both, the entry comes from the hot archive ([isHot]) or is
    an expired entry of the live state.  The stores hold every entry under
    its own key, and the footprint of the RestoreFootprint operation holds
    persistent keys only, as [doCheckValidForSoroban] has checked. *)
Inductive Restoration (seq minTTL : Z) (e : LedgerEntry) (after : LedgerTxn)
    : Prop :=
  | RestoredByRestoreFootprint
      (env : RestoreFootprintOpFrame.Env) (ltx0 : LedgerTxn)
      (res0 : option RestoreFootprintOpFrame.RestoreFootprintResultCode)
      (tracker : option RefundableFeeTracker)
      (diagnosticEvents0 : list DiagnosticEvent)
      (s : RestoreFootprintOpFrame.State) (lk : LedgerKey) (isHot : bool) :
      seq = getLedgerSeq ltx0 →
      minTTL = minPersistentTTL
                 (stateArchivalSettings (RestoreFootprintOpFrame.sorobanConfig env)) →
      wellKeyed (ltx_entries ltx0) →
      wellKeyedArchive (RestoreFootprintOpFrame.hotArchive env) →
      Forall (λ k, isPersistentEntry k = true)
        (readWrite (footprint (RestoreFootprintOpFrame.resources env))) →
      lk ∈ readWrite (footprint (RestoreFootprintOpFrame.resources env)) →
      foundArchived (RestoreFootprintOpFrame.hotArchive env) ltx0 seq lk e isHot →
      RestoreFootprintOpFrame.doApply env ltx0 res0 tracker diagnosticEvents0
        = Done true s →
      after = RestoreFootprintOpFrame.ltx s →
      Restoration seq minTTL e after
  | RestoredByAutorestore
      (env : InvokeHostFunctionOpFrame.Env) (s s' : InvokeHostFunctionOpFrame.State)
      (keys : list LedgerKey) (lk : LedgerKey) (isHot : bool) :
      seq = getLedgerSeq (InvokeHostFunctionOpFrame.mLtx s) →
      minTTL = minPersistentTTL
                 (stateArchivalSettings (InvokeHostFunctionOpFrame.mSorobanConfig env)) →
      wellKeyed (ltx_entries (InvokeHostFunctionOpFrame.mLtx s)) →
      wellKeyedArchive (InvokeHostFunctionOpFrame.mHotArchive env) →
      isPersistentEntry lk = true →
      lk ∈ keys →
      foundArchived (InvokeHostFunctionOpFrame.mHotArchive env)
        (InvokeHostFunctionOpFrame.mLtx s) seq lk e isHot →
      InvokeHostFunctionOpFrame.addReads env keys false s = Done true s' →
      after = InvokeHostFunctionOpFrame.mLtx s' →
      Restoration seq minTTL e after.
End restoration_notions.

(** The entries of the hot archive of type [HOT_ARCHIVE_ARCHIVED]. *)
Definition archivedOnly (store : gmap LedgerKey HotArchiveBucketEntry)
    : gmap LedgerKey HotArchiveBucketEntry :=
  omap (λ be, match be with HOT_ARCHIVE_ARCHIVED _ => Some be | _ => None end) store.

Section consistency_notions.
Context `{XdrCodec}.

(** The TTL entry stored under [ttlKey] in [live] is expired at
    [ledgerSeq]. *)
Definition ttlExpired (live : gmap LedgerKey LedgerEntry) (ttlKey : LedgerKey)
    (ledgerSeq : Z) : Prop :=
  ∃ ttl keyHash liveUntil,
    live !! ttlKey = Some ttl ∧ data ttl = TTLData keyHash liveUntil
    ∧ liveUntil < ledgerSeq.

(** What the eviction check requires of an evicted entry: it is persistent,
    it is not yet in the archive, it is in the live state (with the same
    value, from protocol 24 on), and its TTL is in the live state and
    expired. *)
Definition evictedEntryConsistent (live : gmap LedgerKey LedgerEntry)
    (archived : gmap LedgerKey HotArchiveBucketEntry) (ledgerSeq ledgerVers : Z)
    (e : LedgerEntry) : Prop :=
  isPersistentEntry (LedgerEntryKey e) = true
  ∧ archived !! LedgerEntryKey e = None
  ∧ (∃ liveEntry, live !! LedgerEntryKey e = Some liveEntry
                  ∧ (V_24 ≤ ledgerVers → e = liveEntry))
  ∧ ttlExpired live (getTTLKey (LedgerEntryKey e)) ledgerSeq.

(** What the eviction check requires of a deleted temporary key: it is in
    the live state, and its TTL is in the live state and expired. *)
Definition deletedTempKeyConsistent (live : gmap LedgerKey LedgerEntry)
    (ledgerSeq : Z) (k : LedgerKey) : Prop :=
  is_Some (live !! k) ∧ ttlExpired live (getTTLKey k) ledgerSeq.

(** In a map of restored entries, every key that is not a TTL key is
    persistent and comes with its TTL key. *)
Definition restoredKeysPaired (restored : list (LedgerKey * LedgerEntry)) : Prop :=
  ∀ p, p ∈ restored → LedgerKey_type p.1 ≠ TTL →
       isPersistentEntry p.1 = true ∧ getTTLKey p.1 ∈ restored.*1.

(** What the restore check requires of an entry restored from the hot
    archive: its key is not in the live state and, unless it is a TTL key,
    the archive holds an entry with the same [data] (and, from protocol 24
    on, the same [ext]). *)
Definition hotArchiveRestoreConsistent (live : gmap LedgerKey LedgerEntry)
    (archived : gmap LedgerKey HotArchiveBucketEntry) (ledgerVer : Z)
    (p : LedgerKey * LedgerEntry) : Prop :=
  live !! p.1 = None
  ∧ (LedgerKey_type p.1 ≠ TTL →
     ∃ hot, archived !! p.1 = Some (HOT_ARCHIVE_ARCHIVED hot)
            ∧ data hot = data p.2
            ∧ (V_24 ≤ ledgerVer → ext hot = ext p.2)).

(** What the restore check requires of an entry restored from the live
    state: its key is not in the archive, the live state holds the same
    entry, and a TTL entry is expired. *)
Definition liveRestoreConsistent (live : gmap LedgerKey LedgerEntry)
    (archived : gmap LedgerKey HotArchiveBucketEntry) (ledgerSeq : Z)
    (p : LedgerKey * LedgerEntry) : Prop :=
  archived !! p.1 = None
  ∧ live !! p.1 = Some p.2
  ∧ (LedgerKey_type p.1 = TTL →
     ∃ keyHash liveUntil, data p.2 = TTLData keyHash liveUntil
                          ∧ liveUntil < ledgerSeq).
End consistency_notions.

(** ** Notions for the invariant manager *)

Section check_notions.
Import InvariantManagerImpl.
Context `{InvariantChecks}.

(** The enabled invariants whose check on the operation is run and returns a
    message, in the order of [mEnabled]. *)
Definition failingOnOperationApply (enabled : list Invariant)
    (operation : Operation) (opres : OperationResult)
    (ltxDelta : LedgerTxnDelta) (events : list ContractEvent) : list Invariant :=
  List.filter
    (λ invariant,
       negb (protocolVersionIsBefore (delta_ledgerVersion ltxDelta) V_8
             && negb (bool_decide
                        (getName invariant = "EventsAreConsistentWithEntryDiffs")))
       && negb (bool_decide
                  (Invariant_checkOnOperationApply invariant operation opres
                     ltxDelta events = EmptyString)))
    enabled.

(** The bookkeeping of one failure. *)
Definition recordFailure (ledger : Z) (messageOf : Invariant → string)
    (m : Manager) (invariant : Invariant) : Manager :=
  {| mRegistry := mRegistry m;
     mInvariantFailureCount := mInvariantFailureCount m + 1;
     mFailureInformation :=
       <[getName invariant := mkFailureInformation ledger (messageOf invariant)]>
         (mFailureInformation m) |}.

(** The message with which [checkOnOperationApply] reports [invariant]. *)
Definition operationApplyMessageOf (operation : Operation)
    (opres : OperationResult) (ltxDelta : LedgerTxnDelta)
    (events : list ContractEvent) (invariant : Invariant) : string :=
  operationApplyMessage invariant
    (Invariant_checkOnOperationApply invariant operation opres ltxDelta events)
    operation.

(** The enabled invariants whose check after assume-state returns a
    message. *)
Definition failingAfterAssumeState (enabled : list Invariant)
    (newestLedger : Z) : list Invariant :=
  List.filter
    (λ invariant,
       negb (bool_decide
               (Invariant_checkAfterAssumeState invariant newestLedger
                = EmptyString)))
    enabled.
End check_notions.

(** ** Pre- and post-conditions of the state-and-exception monad *)

(** Started in a state that satisfies [P], the computation [m] returns a
    value and a state that satisfy [Q], or throws in a state that satisfies
    [E]. *)
Definition triple {S A} (P : S → Prop) (m : M S A) (Q : A → S → Prop)
    (E : S → Prop) : Prop :=
  ∀ s, P s → match m s with Done a s' => Q a s' | Thrown _ s' => E s' end.

(** The post-condition of a loop body that returns [false] to leave the
    function: [P] holds when the loop goes on, [F] when the function
    returns. *)
Definition stepPost {S} (P F : S → Prop) (ok : bool) (s : S) : Prop :=
  if ok then P s else F s.

(** The same for a body that returns an optional value. *)
Definition optPost {S A} (P F : S → Prop) (r : option A) (s : S) : Prop :=
  if r is Some _ then P s else F s.

(** The condition that holds of every state. *)
Definition always {S} : S → Prop := λ _, True.

(** ** Notions for RestoreFootprint *)

(** A rent change charged for a restored entry: the entry is treated as if it
    had not existed before. *)
Definition restoredRentChange (restoredLiveUntilLedger : Z)
    (c : CxxLedgerEntryRentChange) : Prop :=
  is_persistent c = true ∧ old_size_bytes c = 0 ∧ old_live_until_ledger c = 0
  ∧ new_live_until_ledger c = restoredLiveUntilLedger.

Section restore_notions.
Import RestoreFootprintOpFrame.
Context `{XdrCodec} `{TransactionUtils} `{RustBridge}.

(** Inside the loop of [doApply] the refundable-fee tracker is the one the
    operation started with, and a [return false] has set the result code
    [RESTORE_FOOTPRINT_RESOURCE_LIMIT_EXCEEDED]. *)
Definition failedWithinLoop (tracker : option RefundableFeeTracker) (ok : bool)
    (s : State) : Prop :=
  refundableFeeTracker s = tracker
  ∧ (ok = false → res s = Some RESTORE_FOOTPRINT_RESOURCE_LIMIT_EXCEEDED).

(** The two byte counters are equal and within the declared resources. *)
Definition withinBudgets (env : Env) (s : State) : Prop :=
  mLedgerReadByte s ≤ diskReadBytes (resources env)
  ∧ mLedgerWriteByte s ≤ writeBytes (resources env)
  ∧ mLedgerReadByte s = mLedgerWriteByte s.

(** The same operation over another hot archive. *)
Definition with_hotArchive (env : Env)
    (hot : gmap LedgerKey HotArchiveBucketEntry) : Env :=
  mkEnv (resources env) (sorobanConfig env) (appConfig env) hot.
End restore_notions.

(** ** Notions for InvokeHostFunction *)

(** The indices listed for autorestore by the transaction. *)
Definition archivedIndices (ext : SorobanResourcesExt) : list nat :=
  match ext with
  | ResourcesExtV0 => []
  | ResourcesExtV1 archivedSorobanEntries => archivedSorobanEntries
  end.

(** The entries of the overlay after the entries of [bufs] are written in
    order. *)
Definition writeAll (bufs : list (Z * LedgerEntry))
    (entries : gmap LedgerKey LedgerEntry) : gmap LedgerKey LedgerEntry :=
  foldl (λ m buf, <[LedgerEntryKey buf.2 := buf.2]> m) entries bufs.

Section invoke_apply_notions.
Import InvokeHostFunctionOpFrame.
Context `{XdrCodec} `{TransactionUtils} `{RustBridge}.

(** What is handed over on success only: the hash of the success pre-image
    and the events and return value given to the meta. *)
Definition successOutputs (s : State) : option N * list N * option SCVal :=
  (mResSuccess s, mOpMetaEvents s, mOpMetaReturnValue s).

(** The result codes of a failed [apply]. *)
Definition failureCode (s : State) : Prop :=
  mRes s = Some INVOKE_HOST_FUNCTION_RESOURCE_LIMIT_EXCEEDED
  ∨ mRes s = Some INVOKE_HOST_FUNCTION_ENTRY_ARCHIVED
  ∨ mRes s = Some INVOKE_HOST_FUNCTION_TRAPPED
  ∨ mRes s = Some INVOKE_HOST_FUNCTION_INSUFFICIENT_REFUNDABLE_FEE.

(** The byte counters are within the declared resources. *)
Definition withinDeclaredBytes (env : Env) (s : State) : Prop :=
  mLedgerReadByte (mMetrics s) ≤ diskReadBytes (mResources env)
  ∧ mLedgerWriteByte (mMetrics s) ≤ writeBytes (mResources env).

(** A buffered TTL entry belongs to the buffered ledger entry: it carries the
    hash of the key of that entry. *)
Definition ttlOfEntry (le : LedgerEntry) (ttl : option TTLEntry) : Prop :=
  ∀ t, ttl = Some t → ttl_keyHash t = sha256_xdr_key (LedgerEntryKey le).

(** The two vectors of buffers handed to the host are parallel: the TTL
    entry at an index is the TTL of the ledger entry at that index.  The
    overlay stores every entry under its own key. *)
Definition buffersPaired (s : State) : Prop :=
  wellKeyed (ltx_entries (mLtx s))
  ∧ Forall2 ttlOfEntry (mLedgerEntryCxxBufs s) (mTtlEntryCxxBufs s).

(** The invocation that [apply] hands to the host in state [s]. *)
Definition hostInvocation (env : Env) (s : State) : HostInvocation :=
  {| inv_config_max_protocol := CURRENT_LEDGER_PROTOCOL_VERSION (mAppConfig env);
     inv_enable_diagnostics := ENABLE_SOROBAN_DIAGNOSTIC_EVENTS (mAppConfig env);
     inv_instruction_limit := instructions (mResources env);
     inv_hf := hostFunction env;
     inv_resources := mResources env;
     inv_ext := resourcesExt env;
     inv_source := sourceID env;
     inv_auth := auth env;
     inv_ledger_info := getLedgerInfo env (mLtx s);
     inv_ledger_entries := mLedgerEntryCxxBufs s;
     inv_ttl_entries := mTtlEntryCxxBufs s;
     inv_base_prng_seed := mSorobanBasePrngSeed env;
     inv_rent_fee_configuration :=
       rustBridgeRentFeeConfiguration (mSorobanConfig env) |}.
End invoke_apply_notions.

(** * Properties *)

Lemma u32_range z : 0 ≤ u32 z < 2 ^ 32.
Proof. unfold u32. apply Z.mod_pos_bound. lia. Qed.

Lemma u32_small z : 0 ≤ z < 2 ^ 32 → u32 z = z.
Proof. intros Hz. unfold u32. by apply Z.mod_small. Qed.

(** ** ArchivedStateConsistency *)

Section ArchivedStateConsistency_properties.
Import ArchivedStateConsistency.
Context `{XdrCodec}.

Lemma first_failure_None {A} (body : A → Outcome (option Failure)) l :
  first_failure body l = Returns None ↔ ∀ x, x ∈ l → body x = Returns None.
Proof.
  induction l as [|x l IH]; simpl.
  - split; [intros _ x Hx; inversion Hx | done].
  - destruct (body x) as [[f|]|e] eqn:Hb; simpl.
    + split; [done|]. intros Hall. specialize (Hall x (list_elem_of_here _ _)).
      congruence.
    + rewrite IH. split.
      * intros Hall y Hy. apply elem_of_cons in Hy as [->|Hy]; auto.
      * intros Hall y Hy. apply Hall. by apply list_elem_of_further.
    + split; [done|]. intros Hall. specialize (Hall x (list_elem_of_here _ _)).
      congruence.
Qed.

Lemma first_failure_Some {A} (body : A → Outcome (option Failure)) l f :
  first_failure body l = Returns (Some f) → ∃ x, x ∈ l ∧ body x = Returns (Some f).
Proof.
  induction l as [|x l IH]; simpl; [done|].
  destruct (body x) as [[g|]|e] eqn:Hb; simpl; [| |done].
  - intros [= ->]. exists x. split; [apply list_elem_of_here | done].
  - intros [y [Hy Hby]]%IH. exists y. split; [by apply list_elem_of_further | done].
Qed.

Lemma checkEvictedEntry_not_count live archived seq vers e ttls temps n :
  checkEvictedEntry live archived seq vers e
  ≠ Returns (Some (EvictedCountMismatch ttls temps n)).
Proof.
  unfold checkEvictedEntry.
  repeat (case_match; simpl; try done);
    unfold mbind, Outcome_bind, obind in *; repeat (case_match; simpl; try done).
Qed.

Lemma checkDeletedTempKey_not_count live seq k ttls temps n :
  checkDeletedTempKey live seq k ≠ Returns (Some (EvictedCountMismatch ttls temps n)).
Proof.
  unfold checkDeletedTempKey.
  repeat (case_match; simpl; try done);
    unfold mbind, Outcome_bind, obind in *; repeat (case_match; simpl; try done).
Qed.

Lemma countDeletedKeys_pass live seq keys ttls temps :
  (∀ k, k ∈ keys → isTemporaryEntry k = true →
        checkDeletedTempKey live seq k = Returns None) →
  countDeletedKeys live seq keys ttls temps
  = Returns (inr ((ttls + numTTLs keys)%nat, (temps + numTemps keys)%nat)).
Proof.
  revert ttls temps. induction keys as [|k keys IH]; intros ttls temps Hall.
  - simpl. unfold numTTLs, numTemps. simpl. do 3 f_equal; lia.
  - simpl. unfold numTTLs, numTemps in *. simpl.
    destruct (isTemporaryEntry k) eqn:Hk; simpl.
    + rewrite (Hall k) by (done || apply list_elem_of_here). simpl.
      rewrite IH by (intros; apply Hall; [by apply list_elem_of_further|done]).
      do 3 f_equal; lia.
    + rewrite IH by (intros; apply Hall; [by apply list_elem_of_further|done]).
      do 3 f_equal; lia.
Qed.

Lemma countDeletedKeys_inr live seq keys ttls temps p :
  countDeletedKeys live seq keys ttls temps = Returns (inr p) →
  ∀ k, k ∈ keys → isTemporaryEntry k = true →
       checkDeletedTempKey live seq k = Returns None.
Proof.
  revert ttls temps. induction keys as [|k keys IH]; intros ttls temps Hc x Hx Htemp.
  - inversion Hx.
  - simpl in Hc. apply elem_of_cons in Hx as [->|Hx].
    + rewrite Htemp in Hc.
      destruct (checkDeletedTempKey live seq k) as [[f|]|e]; simpl in Hc; done.
    + destruct (isTemporaryEntry k); [|by eapply IH].
      destruct (checkDeletedTempKey live seq k) as [[f|]|e]; simpl in Hc;
        try done. by eapply IH.
Qed.

Lemma countDeletedKeys_inl live seq keys ttls temps f :
  countDeletedKeys live seq keys ttls temps = Returns (inl f) →
  ∃ k, checkDeletedTempKey live seq k = Returns (Some f).
Proof.
  revert ttls temps. induction keys as [|k keys IH]; intros ttls temps Hc;
    simpl in Hc; [done|].
  destruct (isTemporaryEntry k); [|by eapply IH].
  destruct (checkDeletedTempKey live seq k) as [[g|]|e] eqn:Hk; simpl in Hc;
    try done.
  - exists k. congruence.
  - by eapply IH.
Qed.

(** The payload comparison of restored-from-archive entries, as the source
    parenthesises it: a difference in [data] is reported at every protocol,
    a difference in [ext] from protocol 24 on. *)
Lemma restoredValueIsIncorrect_spec archived entry ledgerVer :
  restoredValueIsIncorrect archived entry ledgerVer = true
  ↔ data archived ≠ data entry ∨ (ext archived ≠ ext entry ∧ V_24 ≤ ledgerVer).
Proof.
  unfold restoredValueIsIncorrect, protocolVersionStartsFrom.
  rewrite orb_true_iff, andb_true_iff, !negb_true_iff, !bool_decide_eq_false,
    Z.leb_le. done.
Qed.

Lemma checkHotArchiveRestore_reports live archived ledgerVer key entry hot :
  live !! key = None → LedgerKey_type key ≠ TTL →
  archived !! key = Some (HOT_ARCHIVE_ARCHIVED hot) →
  checkHotArchiveRestore live archived ledgerVer (key, entry)
  = Returns (if restoredValueIsIncorrect hot entry ledgerVer
             then Some (RestoredFromArchiveIncorrectValue entry hot) else None).
Proof.
  intros Hlive Hty Hhot. unfold checkHotArchiveRestore.
  rewrite Hlive, Hhot, bool_decide_eq_false_2 by done. simpl.
  by destruct (restoredValueIsIncorrect _ _ _).
Qed.

(** [C10] Before the first protocol that supports persistent eviction the
    invariant is a no-op: [start] and [checkOnLedgerCommit] both return the
    empty string and read nothing from the live state or the hot archive,
    whatever the state and the reported deltas are. *)
Theorem C10_noop_before_persistent_eviction
    (protocolVersion : Z) (archived live : list (LedgerKey * LedgerEntry))
    (lclLiveState : SearchableSnapshot)
    (lclHotArchiveState : gmap LedgerKey HotArchiveBucketEntry)
    (evictedFromLive : list LedgerEntry) (deletedKeysFromLive : list LedgerKey)
    (restoredFromArchive restoredFromLiveState : list (LedgerKey * LedgerEntry)) :
  protocolVersion < FIRST_PROTOCOL_SUPPORTING_PERSISTENT_EVICTION →
  snap_ledgerVersion lclLiveState < FIRST_PROTOCOL_SUPPORTING_PERSISTENT_EVICTION →
  start protocolVersion archived live = ([], None)
  ∧ checkOnLedgerCommit lclLiveState lclHotArchiveState evictedFromLive
      deletedKeysFromLive restoredFromArchive restoredFromLiveState
    = ([], Returns None).
Proof.
  intros Hstart Hcommit. unfold start, checkOnLedgerCommit, protocolVersionIsBefore.
  rewrite !(proj2 (Z.ltb_lt _ _)) by done. done.
Qed.

(** The count comparison is the last check of [checkEvictionInvariants]: it
    answers with the count-identity message exactly when every per-entry
    check passes and the counts over its set of deleted keys differ. *)
Lemma checkEvictionInvariants_count_mismatch
    (preloadedLiveEntries : gmap LedgerKey LedgerEntry)
    (preloadedArchivedEntries : gmap LedgerKey HotArchiveBucketEntry)
    (deletedKeys : list LedgerKey) (archivedEntries : list LedgerEntry)
    (ledgerSeq ledgerVers : Z) :
  reportsCountMismatch
    (checkEvictionInvariants preloadedLiveEntries preloadedArchivedEntries
       deletedKeys archivedEntries ledgerSeq ledgerVers)
  ↔ (∀ e, e ∈ archivedEntries →
          checkEvictedEntry preloadedLiveEntries preloadedArchivedEntries
            ledgerSeq ledgerVers e = Returns None)
    ∧ (∀ k, k ∈ deletedKeys → isTemporaryEntry k = true →
            checkDeletedTempKey preloadedLiveEntries ledgerSeq k = Returns None)
    ∧ (numTemps deletedKeys + length archivedEntries)%nat ≠ numTTLs deletedKeys.
Proof.
  unfold reportsCountMismatch, checkEvictionInvariants. split.
  - intros (ttls & temps & n & Hr).
    destruct (bool_decide (deletedKeys = []) && bool_decide (archivedEntries = []));
      [done|].
    destruct (first_failure _ archivedEntries) as [[f|]|e] eqn:Hff; simpl in Hr;
      [| |done].
    { apply first_failure_Some in Hff as (x & _ & Hx). simplify_eq.
      by apply checkEvictedEntry_not_count in Hx. }
    destruct (countDeletedKeys _ _ deletedKeys 0 0) as [[f|[ttls' temps']]|e] eqn:Hc;
      simpl in Hr; [| |done].
    { apply countDeletedKeys_inl in Hc as (k & Hk). simplify_eq.
      by apply checkDeletedTempKey_not_count in Hk. }
    pose proof (countDeletedKeys_inr _ _ _ _ _ _ Hc) as Hall.
    rewrite (countDeletedKeys_pass _ _ _ _ _ Hall) in Hc. simplify_eq.
    split; [by apply first_failure_None|]. split; [done|].
    case_bool_decide; [done|simplify_eq].
  - intros (Hev & Hdel & Hne).
    destruct (bool_decide (deletedKeys = []) && bool_decide (archivedEntries = []))
      eqn:Hempty.
    { apply andb_prop in Hempty as [->%bool_decide_eq_true ->%bool_decide_eq_true].
      by destruct Hne. }
    rewrite (proj2 (first_failure_None _ _) Hev). simpl.
    rewrite (countDeletedKeys_pass _ _ _ _ _ Hdel). simpl.
    rewrite bool_decide_eq_true_2 by done. eauto.
Qed.

(** [C7], as amended: at a ledger commit the eviction part of the answer of
    [checkOnLedgerCommit] is the count-identity message exactly when the
    protocol of the ledger supports persistent eviction (before it the check
    is skipped), every per-entry check of the evicted entries and of the
    deleted temporary keys passes, the number of temporary keys among the
    distinct deleted keys plus the number of evicted entries differs from
    the number of the other (TTL) keys among the distinct deleted keys, and
    the restore part of the check runs to its end. *)
Theorem C7_count_identity_after_entry_checks
    (lclLiveState : SearchableSnapshot)
    (lclHotArchiveState : gmap LedgerKey HotArchiveBucketEntry)
    (evictedFromLive : list LedgerEntry) (deletedKeysFromLive : list LedgerKey)
    (restoredFromArchive restoredFromLiveState : list (LedgerKey * LedgerEntry)) :
  let ledgerSeq := u32 (snap_ledgerSeq lclLiveState + 1) in
  let ledgerVers := snap_ledgerVersion lclLiveState in
  let allKeys :=
    collectAllKeys evictedFromLive deletedKeysFromLive restoredFromArchive
      restoredFromLiveState in
  let preloadedLiveEntries :=
    preloadLive (loadKeys (snap_entries lclLiveState) allKeys) in
  let preloadedArchivedEntries :=
    preloadArchived (loadKeys lclHotArchiveState allKeys) in
  let deletedKeys := remove_dups deletedKeysFromLive in
  commitReportsCountMismatch
    (checkOnLedgerCommit lclLiveState lclHotArchiveState evictedFromLive
       deletedKeysFromLive restoredFromArchive restoredFromLiveState).2
  ↔ FIRST_PROTOCOL_SUPPORTING_PERSISTENT_EVICTION ≤ ledgerVers
    ∧ (∀ e, e ∈ evictedFromLive →
            checkEvictedEntry preloadedLiveEntries preloadedArchivedEntries
              ledgerSeq ledgerVers e = Returns None)
    ∧ (∀ k, k ∈ deletedKeysFromLive → isTemporaryEntry k = true →
            checkDeletedTempKey preloadedLiveEntries ledgerSeq k = Returns None)
    ∧ (numTemps deletedKeys + length evictedFromLive)%nat ≠ numTTLs deletedKeys
    ∧ (∃ restoreRes,
         checkRestoreInvariants preloadedLiveEntries preloadedArchivedEntries
           restoredFromArchive restoredFromLiveState ledgerSeq ledgerVers
         = Returns restoreRes).
Proof.
  intros ledgerSeq ledgerVers allKeys preloadedLiveEntries
    preloadedArchivedEntries deletedKeys.
  pose proof (checkEvictionInvariants_count_mismatch preloadedLiveEntries
                preloadedArchivedEntries deletedKeys evictedFromLive ledgerSeq
                ledgerVers) as Hcount.
  assert (Hdel : (∀ k, k ∈ deletedKeys → isTemporaryEntry k = true →
                       checkDeletedTempKey preloadedLiveEntries ledgerSeq k
                       = Returns None)
                 ↔ (∀ k, k ∈ deletedKeysFromLive → isTemporaryEntry k = true →
                         checkDeletedTempKey preloadedLiveEntries ledgerSeq k
                         = Returns None)).
  { unfold deletedKeys. split; intros Hall k Hk; apply Hall;
      by apply elem_of_remove_dups. }
  unfold commitReportsCountMismatch, checkOnLedgerCommit,
    protocolVersionIsBefore.
  fold ledgerVers.
  destruct (Z.ltb_spec ledgerVers FIRST_PROTOCOL_SUPPORTING_PERSISTENT_EVICTION)
    as [Hlt|Hge].
  { simpl. split; [by intros (? & ? & ? & ? & ?)|]. intros [Hv _]. lia. }
  cbn [snd]. fold ledgerSeq allKeys preloadedLiveEntries
    preloadedArchivedEntries deletedKeys.
  unfold reportsCountMismatch in Hcount.
  destruct (checkEvictionInvariants preloadedLiveEntries
              preloadedArchivedEntries deletedKeys evictedFromLive ledgerSeq
              ledgerVers) as [evictionRes|ex] eqn:Hev; simpl.
  2:{ split; [by intros (? & ? & ? & ? & ?)|].
      intros (_ & He & Hd & Hne & _).
      destruct (proj2 Hcount) as (? & ? & ? & ?); [|done].
      split; [done|]. split; [by apply Hdel|done]. }
  destruct (checkRestoreInvariants preloadedLiveEntries
              preloadedArchivedEntries restoredFromArchive
              restoredFromLiveState ledgerSeq ledgerVers)
    as [restoreRes|ex] eqn:Hre; simpl.
  2:{ split; [by intros (? & ? & ? & ? & ?)|].
      by intros (_ & _ & _ & _ & ? & ?). }
  split.
  - intros (ttls & temps & n & rr & Hr).
    assert (Hres : evictionRes = Some (EvictedCountMismatch ttls temps n)).
    { destruct evictionRes as [f|], restoreRes as [g|]; by simplify_eq. }
    subst evictionRes.
    destruct (proj1 Hcount) as (He & Hd & Hne); [by eauto|].
    split; [done|]. split; [done|]. split; [by apply Hdel|].
    split; [done|by eauto].
  - intros (_ & He & Hd & Hne & _).
    destruct (proj2 Hcount) as (ttls & temps & n & Hr).
    { split; [done|]. split; [by apply Hdel|done]. }
    simplify_eq. by exists ttls, temps, n, restoreRes.
Qed.

End ArchivedStateConsistency_properties.

Section ArchivedStateConsistency_examples.
Import ArchivedStateConsistency Examples.

(** [C10], on an example: at protocol 22 a key present in both stores is not
    reported, neither at start-up nor at a commit. *)
Lemma C10_noop_witness :
  @start 22 [(key1, entry1)] [(key1, entry1)] = ([], None)
  ∧ @checkOnLedgerCommit codec
      (mkSnapshot 100 22 {[key1 := entry1]}) {[key1 := HOT_ARCHIVE_ARCHIVED entry1]}
      [entry1] [] [] []
    = ([], Returns None).
Proof.
  apply (@C10_noop_before_persistent_eviction codec 22
           [(key1, entry1)] [(key1, entry1)]
           (mkSnapshot 100 22 {[key1 := entry1]})
           {[key1 := HOT_ARCHIVE_ARCHIVED entry1]} [entry1] [] [] []);
    reflexivity.
Defined.

(** From protocol 23 on the same start-up state is rejected. *)
Example start_reports_shared_key :
  @start 23 [(key1, entry1)] [(key1, entry1)]
  = ([LoadCompleteHotArchiveState; LoadCompleteLedgerState],
     Some (SameKeyInLiveAndArchived key1)).
Proof. reflexivity. Qed.

(** [C7], as stated, fails.  First input: one evicted entry that is absent
    from the live state and no deleted key; the counts differ (0 + 1 against
    0), and the check answers with the message of the missing entry, not with
    the count-identity message.  Second input: a temporary key listed twice
    among the deleted keys, with its TTL key listed once; counted with
    repetitions the numbers differ (2 + 0 against 1), and the check, which
    counts over the set of deleted keys, reports nothing. *)
Lemma C7_counterexample :
  ((numTemps [] + length [entry1])%nat ≠ numTTLs []
   ∧ @checkEvictionInvariants codec ∅ ∅ [] [entry1] 101 23
     = Returns (Some (EvictedEntryNotInLiveState key1))
   ∧ ¬ reportsCountMismatch
         (@checkEvictionInvariants codec ∅ ∅ [] [entry1] 101 23))
  ∧ ((numTemps [key3; key3; ttlKey3] + length (@nil LedgerEntry))%nat
     ≠ numTTLs [key3; key3; ttlKey3]
     ∧ (@checkOnLedgerCommit codec
          (mkSnapshot 12 23 {[key3 := entry3; ttlKey3 := ttlEntry3 12]}) ∅
          [] [key3; key3; ttlKey3] [] []).2
       = Returns None).
Proof.
  split.
  - split; [vm_compute; lia|]. split; [reflexivity|].
    intros (ttls & temps & n & Hr). vm_compute in Hr. discriminate.
  - split; [vm_compute; lia|]. vm_compute. reflexivity.
Qed.

(** [C1]: at protocol 23 a restored entry whose [data] differs from the
    archived entry is reported, although the payload comparison is meant to
    start at protocol 24. *)
Theorem C1_data_mismatch_reported_at_protocol_23 :
  protocolVersionStartsFrom 23 V_24 = false
  ∧ (@checkOnLedgerCommit codec
       (mkSnapshot 100 23 ∅) {[key1 := HOT_ARCHIVE_ARCHIVED entry1]}
       [] [] [(key1, entry1'); (ttlKey1, ttlEntry1 4196)] []).2
    = Returns (Some (None, Some (RestoredFromArchiveIncorrectValue entry1' entry1)))
  ∧ @checkRestoreInvariants codec
       ∅ {[key1 := HOT_ARCHIVE_ARCHIVED entry1]}
       [(key1, entry1'); (ttlKey1, ttlEntry1 4196)] [] 101 23
    = Returns (Some (RestoredFromArchiveIncorrectValue entry1' entry1)).
Proof. split; [reflexivity|]. split; vm_compute; reflexivity. Qed.

(** At protocol 23 a difference in [ext] alone is not reported; from
    protocol 24 on it is. *)
Example ext_mismatch_checked_from_protocol_24 :
  let restored := {| lastModifiedLedgerSeq := 90; data := data entry1; ext := 1 |} in
  @checkRestoreInvariants codec ∅ {[key1 := HOT_ARCHIVE_ARCHIVED entry1]}
    [(key1, restored); (ttlKey1, ttlEntry1 4196)] [] 101 23 = Returns None
  ∧ @checkRestoreInvariants codec ∅ {[key1 := HOT_ARCHIVE_ARCHIVED entry1]}
      [(key1, restored); (ttlKey1, ttlEntry1 4196)] [] 101 24
    = Returns (Some (RestoredFromArchiveIncorrectValue restored entry1)).
Proof. split; vm_compute; reflexivity. Qed.

(** The count identity on an example: a deleted temporary key whose TTL key
    is not among the deleted keys, and the same with the TTL key deleted. *)
Example count_mismatch_reported :
  @checkEvictionInvariants codec
    {[key3 := entry3; ttlKey3 := ttlEntry3 12]} ∅ [key3] [] 13 23
  = Returns (Some (EvictedCountMismatch 0 1 0))
  ∧ @checkEvictionInvariants codec
      {[key3 := entry3; ttlKey3 := ttlEntry3 12]} ∅ [key3; ttlKey3] [] 13 23
    = Returns None.
Proof. split; vm_compute; reflexivity. Qed.

End ArchivedStateConsistency_examples.

(** ** The state-and-exception monad *)

Ltac munfold :=
  unfold releaseAssertOrThrow, liftO, mbind, mret, M_bind, M_ret, bind, ret,
    get, modify, throw in *.

Lemma bind_Done {S A B} (m : M S A) (k : A → M S B) s a s' :
  m s = Done a s' → (x ← m; k x) s = k a s'.
Proof. intros Hm. munfold. by rewrite Hm. Qed.

Lemma bind_Thrown {S A B} (m : M S A) (k : A → M S B) s e s' :
  m s = Thrown e s' → (x ← m; k x) s = Thrown e s'.
Proof. intros Hm. munfold. by rewrite Hm. Qed.

Section preserves.
Context {S X : Type} (f : S → X).

Lemma preserves_ret {A} (a : A) : preserves f (mret a : M S A).
Proof. done. Qed.
Lemma preserves_bind {A B} (m : M S A) (k : A → M S B) :
  preserves f m → (∀ a, preserves f (k a)) → preserves f (m ≫= k).
Proof.
  intros Hm Hk s. unfold mbind, M_bind, bind. specialize (Hm s).
  destruct (m s) as [a s1|e s1]; simpl in *; [|done]. by rewrite Hk.
Qed.
Lemma preserves_Done {A} (m : M S A) s a s' :
  preserves f m → m s = Done a s' → f s' = f s.
Proof. intros Hm Hs. specialize (Hm s). by rewrite Hs in Hm. Qed.
End preserves.

(** ** RestoreFootprintOpFrame *)

Section RestoreFootprintOpFrame_validity.
Import RestoreFootprintOpFrame.

(** [C5] Validity checking of a RestoreFootprint operation fails, with the
    result code Malformed, exactly when the read-only footprint is not empty
    or some key of the read-write footprint is not a persistent contract key;
    otherwise it succeeds and leaves the result and the diagnostics as they
    were. *)
Theorem C5_check_valid_malformed_iff (fp : LedgerFootprint)
    (res0 : option RestoreFootprintResultCode)
    (diagnosticEvents0 : list DiagnosticEvent) :
  let malformed :=
    readOnly fp ≠ [] ∨ ∃ lk, lk ∈ readWrite fp ∧ isPersistentEntry lk = false in
  let r := doCheckValidForSoroban fp res0 diagnosticEvents0 in
  (r.1.1 = false ↔ malformed)
  ∧ (r.1.1 = false → r.1.2 = Some RESTORE_FOOTPRINT_MALFORMED)
  ∧ (r.1.1 = true ↔ ¬ malformed)
  ∧ (r.1.1 = true → r = (true, res0, diagnosticEvents0)).
Proof.
  simpl. unfold doCheckValidForSoroban.
  assert (Hloop : ∀ keys,
    let r := checkReadWriteKeys keys res0 diagnosticEvents0 in
    (r.1.1 = false ↔ ∃ lk, lk ∈ keys ∧ isPersistentEntry lk = false)
    ∧ (r.1.1 = false → r.1.2 = Some RESTORE_FOOTPRINT_MALFORMED)
    ∧ (r.1.1 = true → r = (true, res0, diagnosticEvents0))).
  { induction keys as [|k keys IH]; simpl.
    - split; [|done]. split; [done|]. intros (lk & Hlk & _). inversion Hlk.
    - destruct (isPersistentEntry k) eqn:Hk; simpl.
      + destruct IH as (IH1 & IH2 & IH3). split; [|done]. rewrite IH1. split.
        * intros (lk & Hlk & Hp). exists lk. split; [by apply list_elem_of_further|done].
        * intros (lk & Hlk & Hp). apply elem_of_cons in Hlk as [->|Hlk];
            [congruence|eauto].
      + split; [|done]. split; [|done]. intros _. exists k.
        split; [apply list_elem_of_here|done]. }
  assert (Hneg : ∀ (b : bool) (P : Prop), (b = false ↔ P) → (b = true ↔ ¬ P)).
  { intros [] P [HP1 HP2]; split; intros; try done.
    - intros HP. by apply HP2 in HP.
    - exfalso. by apply H, HP1. }
  case_bool_decide as Hro; simpl.
  - destruct (Hloop (readWrite fp)) as (Hl1 & Hl2 & Hl3). simpl in *.
    assert (Hiff : (checkReadWriteKeys (readWrite fp) res0 diagnosticEvents0).1.1
                   = false
                   ↔ readOnly fp ≠ []
                     ∨ ∃ lk, lk ∈ readWrite fp ∧ isPersistentEntry lk = false).
    { rewrite Hl1. split; [by right|]. by intros [?|?]. }
    split; [done|]. split; [done|]. split; [by apply Hneg|done].
  - assert (Hiff : false = false
                   ↔ readOnly fp ≠ []
                     ∨ ∃ lk, lk ∈ readWrite fp ∧ isPersistentEntry lk = false).
    { split; [by left|done]. }
    split; [done|]. split; [done|]. split; [by apply Hneg|done].
Qed.

End RestoreFootprintOpFrame_validity.

(** ** Restoring steps on the overlay *)

Section overlay_properties.
Context `{XdrCodec}.

Lemma persistent_not_ttl k lk : isPersistentEntry k = true → k ≠ getTTLKey lk.
Proof. intros Hp ->. by destruct lk as [? ?|? ? []|?|?]. Qed.

Lemma wellKeyed_restore (m : gmap LedgerKey LedgerEntry) le rl :
  wellKeyed m →
  wellKeyed (<[getTTLKey (LedgerEntryKey le) := restoredTTLEntry le rl]>
               (<[LedgerEntryKey le := le]> m)).
Proof.
  intros Hm k e. rewrite lookup_insert_Some. intros [[<- <-]|[Hne Hk]]; [done|].
  apply lookup_insert_Some in Hk as [[<- <-]|[Hne' Hk]]; [done|]. by apply Hm.
Qed.

Lemma restoresAtMost_wellKeyed hot seq rl k t t' :
  restoresAtMost hot seq rl k t t' →
  wellKeyed (ltx_entries t) → wellKeyed (ltx_entries t').
Proof.
  intros [_ [-> | (e & isHot & _ & _ & <- & ->)]] Hwk; [done|].
  by apply wellKeyed_restore.
Qed.

Lemma foundArchived_key hot t seq lk e isHot :
  wellKeyed (ltx_entries t) → wellKeyedArchive hot →
  foundArchived hot t seq lk e isHot → LedgerEntryKey e = lk.
Proof.
  intros Hwk Hwa. destruct isHot; simpl.
  - intros (_ & _ & Hhot). by apply Hwa in Hhot.
  - intros (ttl & _ & _ & He). by apply Hwk in He.
Qed.

Lemma restoresAtMost_liveUntil hot seq rl k t t' e :
  restoresAtMost hot seq rl k t t' →
  liveUntilOf t e = Some rl → liveUntilOf t' e = Some rl.
Proof.
  intros [_ Hstep]. unfold liveUntilOf.
  destruct Hstep as [-> | (e' & isHot & Hk & _ & _ & ->)]; [done|].
  destruct (decide (getTTLKey k = getTTLKey (LedgerEntryKey e))) as [<-|Hne].
  - intros _. by rewrite lookup_insert_eq.
  - rewrite lookup_insert_ne by done.
    by rewrite lookup_insert_ne by (by apply persistent_not_ttl).
Qed.

(** The archived entry [e] of [lk] is still found archived, or it has been
    restored with the TTL [rl]. *)
Lemma restoresAtMost_archived_or_restored hot seq rl k t t' lk e isHot :
  isPersistentEntry lk = true →
  LedgerEntryKey e = lk →
  restoresAtMost hot seq rl k t t' →
  foundArchived hot t seq lk e isHot ∨ liveUntilOf t e = Some rl →
  foundArchived hot t' seq lk e isHot ∨ liveUntilOf t' e = Some rl.
Proof.
  intros Hlk He Hstep [Hfound|Hlive];
    [|right; by apply (restoresAtMost_liveUntil hot seq rl k t t' e Hstep)].
  destruct Hstep as [Hhdr [Heq | (e' & isHot' & Hk & _ & _ & Heq)]].
  { left. unfold foundArchived, loadWithoutRecord, getLedgerVersion in *.
    by rewrite Heq, Hhdr. }
  destruct (decide (getTTLKey k = getTTLKey lk)) as [Httl|Hne].
  { right. unfold liveUntilOf. by rewrite Heq, He, <- Httl, lookup_insert_eq. }
  assert (Hkl : k ≠ lk) by (by intros ->).
  left. unfold foundArchived, loadWithoutRecord, getLedgerVersion in *.
  rewrite Heq, Hhdr. destruct isHot.
  - destruct Hfound as (Hnone & Hv & Hhot). split; [|done].
    rewrite lookup_insert_ne by done.
    by rewrite lookup_insert_ne by (by apply persistent_not_ttl).
  - destruct Hfound as (ttl & Httl & Hexp & Hle). exists ttl.
    rewrite !(lookup_insert_ne _ (getTTLKey k)), !(lookup_insert_ne _ k); try done.
    + by apply persistent_not_ttl.
    + intros Heq'. symmetry in Heq'. by apply persistent_not_ttl in Heq'.
Qed.

(** A TTL entry that is live is not overwritten. *)
Lemma restoresAtMost_live_ttl hot seq rl k t t' lk ttl :
  isLive ttl seq = Returns true →
  restoresAtMost hot seq rl k t t' →
  loadWithoutRecord t (getTTLKey lk) = Some ttl →
  loadWithoutRecord t' (getTTLKey lk) = Some ttl.
Proof.
  intros Hlive [_ Hstep] Httl. unfold loadWithoutRecord in *.
  destruct Hstep as [-> | (e' & isHot' & Hk & Hfound & _ & ->)]; [done|].
  destruct (decide (getTTLKey k = getTTLKey lk)) as [Heq|Hne].
  - exfalso. unfold foundArchived, loadWithoutRecord in Hfound.
    rewrite Heq in Hfound. destruct isHot'.
    + destruct Hfound as (Hnone & _). congruence.
    + destruct Hfound as (ttl' & Httl' & Hexp & _). congruence.
  - rewrite lookup_insert_ne by done.
    by rewrite lookup_insert_ne by (by apply persistent_not_ttl).
Qed.
End overlay_properties.

Section RestoreFootprintOpFrame_properties.
Import RestoreFootprintOpFrame.
Context `{XdrCodec} `{TransactionUtils} `{RustBridge}.

Ltac brute :=
  munfold; simpl;
  repeat (case_match; simpl in *; simplify_eq);
  simpl in *; simplify_eq.

Lemma restoreKeys_app env seq rl vers pre rest s :
  restoreKeys env seq rl vers (pre ++ rest) s
  = match restoreKeys env seq rl vers pre s with
    | Done true s1 => restoreKeys env seq rl vers rest s1
    | other => other
    end.
Proof.
  revert s. induction pre as [|k pre IH]; intros s; simpl; [done|].
  munfold. destruct (restoreKey env seq rl vers k s) as [[] s1|e s1]; auto.
Qed.

Lemma findSource_live env seq lk s ttl :
  loadWithoutRecord (ltx s) (getTTLKey lk) = Some ttl →
  isLive ttl seq = Returns true →
  findSource env seq lk s = Done Skip s.
Proof. intros Httl Hlive. unfold findSource. munfold. by rewrite Httl, Hlive. Qed.

Lemma update_back_snoc {A} (f : A → A) (l : list A) (x : A) :
  update_back f (l ++ [x]) = l ++ [f x].
Proof.
  unfold update_back. rewrite length_app. simpl.
  replace (pred (length l + 1)) with (length l + 0)%nat by lia.
  by rewrite alter_app_r.
Qed.

Lemma restoreEntry_restores env rl vers lk s s' e (isHot : bool) :
  (if isHot then True else loadWithoutRecord (ltx s) lk = Some e) →
  restoreEntry env rl vers lk (if isHot then Some (HOT_ARCHIVE_ARCHIVED e) else None) s
    = Done true s' →
  ltx_entries (ltx s') !! getTTLKey (LedgerEntryKey e) = Some (restoredTTLEntry e rl)
  ∧ ∃ size, rustEntryRentChanges s'
            = rustEntryRentChanges s ++ [mkRentChange true 0 size 0 rl].
Proof.
  intros Hsrc Hrun. unfold restoreEntry, fail_with in Hrun. munfold.
  destruct isHot; simpl in Hrun.
  - repeat (case_match; simpl in *; simplify_eq);
      (split; [apply lookup_insert_eq
              | simpl; rewrite !update_back_snoc; simpl; eexists; reflexivity]).
  - unfold getNewestVersion, loadWithoutRecord, set_diagnosticEvents,
      set_mLedgerWriteByte, set_mLedgerReadByte, set_rustEntryRentChanges in *.
    simpl in Hrun. rewrite Hsrc in Hrun.
    repeat (case_match; simpl in *; simplify_eq).
    all: simpl in *; simplify_eq.
    all: split; [apply lookup_insert_eq
                | simpl; rewrite !update_back_snoc; simpl; eexists; reflexivity].
Qed.

Lemma restoreKey_restores env seq rl vers lk s s' e isHot :
  foundArchived (hotArchive env) (ltx s) seq lk e isHot →
  restoreKey env seq rl vers lk s = Done true s' →
  liveUntilOf (ltx s') e = Some rl
  ∧ ∃ size, rustEntryRentChanges s'
            = rustEntryRentChanges s ++ [mkRentChange true 0 size 0 rl].
Proof.
  intros Hfound Hrun. unfold restoreKey, findSource in Hrun.
  assert (Hgoal : ltx_entries (ltx s') !! getTTLKey (LedgerEntryKey e)
                  = Some (restoredTTLEntry e rl)
                  ∧ ∃ size, rustEntryRentChanges s'
                     = rustEntryRentChanges s ++ [mkRentChange true 0 size 0 rl]).
  { destruct isHot; simpl in Hfound.
    - destruct Hfound as (Hnone & Hvers & Hhot).
      apply (restoreEntry_restores env rl vers lk s s' e true I).
      revert Hrun. munfold. by rewrite Hnone, Hvers, Hhot.
    - destruct Hfound as (ttl & Httl & Hexp & He).
      apply (restoreEntry_restores env rl vers lk s s' e false He).
      revert Hrun. munfold. by rewrite Httl, Hexp. }
  destruct Hgoal as [Hl Hr]. split; [|done].
  unfold liveUntilOf. by rewrite Hl.
Qed.

Lemma restoreKey_restoresAtMost env seq rl vers k s s' :
  wellKeyed (ltx_entries (ltx s)) → wellKeyedArchive (hotArchive env) →
  isPersistentEntry k = true →
  restoreKey env seq rl vers k s = Done true s' →
  restoresAtMost (hotArchive env) seq rl k (ltx s) (ltx s').
Proof.
  intros Hwk Hwa Hk. unfold restoresAtMost, foundArchived, restoreKey,
    findSource, restoreEntry, fail_with, restoreFromHotArchive,
    restoreFromLiveBucketList, getNewestVersion, loadWithoutRecord.
  brute.
  all: intros; simplify_eq; simpl.
  all: try (split; [done|by left]).
  all: split; [done|right].
  all: repeat match goal with
       | Ha : archivedEntry_of ?be = Returns _ |- _ =>
           destruct be; simpl in Ha; simplify_eq
       end.
  all: repeat match goal with
       | Hl : ltx_entries _ !! _ = Some _ |- _ =>
           pose proof (Hwk _ _ Hl); clear Hl
       | Hh : hotArchive _ !! _ = Some (HOT_ARCHIVE_ARCHIVED _) |- _ =>
           pose proof (Hwa _ _ Hh); clear Hh
       end.
  all: first
    [ by (eexists _, false; split; [done|]; split; [by eexists|];
          split; [done|congruence])
    | by (eexists _, true; split; [done|]; split; [done|];
          split; [done|congruence]) ].
Qed.

(** A property of the overlay that every step keeps is kept by the loop. *)
Lemma restoreKeys_invariant (P : LedgerTxn → Prop) env seq rl vers keys s s' :
  wellKeyedArchive (hotArchive env) →
  Forall (λ k, isPersistentEntry k = true) keys →
  (∀ k t t', restoresAtMost (hotArchive env) seq rl k t t' → P t → P t') →
  wellKeyed (ltx_entries (ltx s)) → P (ltx s) →
  restoreKeys env seq rl vers keys s = Done true s' →
  wellKeyed (ltx_entries (ltx s')) ∧ P (ltx s').
Proof.
  intros Hwa Hkeys HP. revert s.
  induction keys as [|k keys IH]; intros s Hwk Hs; simpl.
  - by intros [= <-].
  - apply Forall_cons in Hkeys as [Hk Hkeys]. unfold mbind, M_bind, bind.
    destruct (restoreKey env seq rl vers k s) as [[] s1|ex s1] eqn:Hstep;
      [|done|done].
    pose proof (restoreKey_restoresAtMost _ _ _ _ _ _ _ Hwk Hwa Hk Hstep) as Hat.
    apply IH; [done| |by eapply HP].
    by eapply restoresAtMost_wellKeyed.
Qed.

Lemma restoreKeys_restores env seq rl vers lk e isHot keys s s' :
  wellKeyedArchive (hotArchive env) →
  Forall (λ k, isPersistentEntry k = true) keys →
  LedgerEntryKey e = lk →
  wellKeyed (ltx_entries (ltx s)) →
  lk ∈ keys →
  foundArchived (hotArchive env) (ltx s) seq lk e isHot
  ∨ liveUntilOf (ltx s) e = Some rl →
  restoreKeys env seq rl vers keys s = Done true s' →
  liveUntilOf (ltx s') e = Some rl.
Proof.
  intros Hwa Hkeys He. revert s.
  induction keys as [|k keys IH]; intros s Hwk Hin HJ; simpl.
  { inversion Hin. }
  pose proof Hkeys as Hall.
  apply Forall_cons in Hkeys as [Hk Hkeys]. unfold mbind, M_bind, bind.
  destruct (restoreKey env seq rl vers k s) as [[] s1|ex s1] eqn:Hstep;
    [|done|done].
  pose proof (restoreKey_restoresAtMost _ _ _ _ _ _ _ Hwk Hwa Hk Hstep) as Hat.
  pose proof (restoresAtMost_wellKeyed _ _ _ _ _ _ Hat Hwk) as Hwk1.
  intros Hrest.
  destruct (decide (k = lk)) as [->|Hne].
  - assert (Hs1 : liveUntilOf (ltx s1) e = Some rl).
    { destruct HJ as [Hfound|Hlive].
      - by destruct (restoreKey_restores _ _ _ _ _ _ _ _ _ Hfound Hstep).
      - by eapply restoresAtMost_liveUntil. }
    apply (restoreKeys_invariant (λ t, liveUntilOf t e = Some rl)
             env seq rl vers keys s1 s'); try done.
    intros k t t' Hat'. by apply restoresAtMost_liveUntil with (k := k) (hot := hotArchive env) (seq := seq).
  - apply elem_of_cons in Hin as [->|Hin]; [done|].
    apply (IH Hkeys s1); try done.
    rewrite Forall_forall in Hall.
    eapply restoresAtMost_archived_or_restored; [| |exact Hat|exact HJ]; [|done].
    subst lk. apply Hall. by apply list_elem_of_further.
Qed.

Lemma restoreKey_with_readWrite env keys seq rl vers k s :
  restoreKey (with_readWrite env keys) seq rl vers k s
  = restoreKey env seq rl vers k s.
Proof. reflexivity. Qed.

Lemma restoreKeys_with_readWrite env keys seq rl vers l s :
  restoreKeys (with_readWrite env keys) seq rl vers l s
  = restoreKeys env seq rl vers l s.
Proof.
  revert s. induction l as [|k l IH]; intros s; simpl; [done|].
  unfold mbind, M_bind, bind. rewrite restoreKey_with_readWrite.
  destruct (restoreKey env seq rl vers k s) as [[] s1|]; auto.
Qed.

Lemma restoreKey_live env seq rl vers lk s ttl :
  loadWithoutRecord (ltx s) (getTTLKey lk) = Some ttl →
  isLive ttl seq = Returns true →
  restoreKey env seq rl vers lk s = Done true s.
Proof.
  intros Httl Hlive. unfold restoreKey.
  by rewrite (bind_Done _ _ _ _ _ (findSource_live _ _ _ _ _ Httl Hlive)).
Qed.

Lemma restoreKeys_skip env seq rl vers pre lk post s0 s1 :
  restoreKeys env seq rl vers pre s0 = Done true s1 →
  restoreKey env seq rl vers lk s1 = Done true s1 →
  restoreKeys env seq rl vers (pre ++ lk :: post) s0
  = restoreKeys env seq rl vers (pre ++ post) s0.
Proof.
  intros Hpre Hstep. rewrite !restoreKeys_app, Hpre. simpl.
  by rewrite (bind_Done _ _ _ _ _ Hstep).
Qed.

Lemma doApply_Done_true env ltx0 res0 tracker diagnosticEvents0 s :
  doApply env ltx0 res0 tracker diagnosticEvents0 = Done true s →
  ∃ s1, restoreKeys env (getLedgerSeq ltx0)
          (restoredLiveUntilLedger_of (getLedgerSeq ltx0)
             (stateArchivalSettings (sorobanConfig env)))
          (getLedgerVersion ltx0) (readWrite (footprint (resources env)))
          (initialState ltx0 res0 tracker diagnosticEvents0) = Done true s1
        ∧ ltx s = ltx s1.
Proof.
  unfold doApply. destruct tracker as [t|]; [|done].
  unfold mbind, M_bind, bind.
  destruct (restoreKeys _ _ _ _ _ _) as [[] s1|ex s1]; simpl; [|done|done].
  intros Hcharge. exists s1. split; [done|].
  revert Hcharge. unfold chargeRentFee, fail_with. munfold. simpl.
  destruct (refundableFeeTracker s1); [|done].
  destruct (consumeRefundableSorobanResources _ _ _ _ _ _) as [[[] t'] diags];
    simpl; [|done]. by intros [= <-].
Qed.

(** [C6] A key of the read-write footprint whose TTL entry is in the live
    state and is live at the sequence of the ledger header is skipped:
    [doApply] runs exactly as it runs on the footprint without the key, with
    the same outcome and the same final state of the operation (overlay, byte
    counters, rent changes, diagnostics, result, refundable fee).  The
    footprint holds persistent keys only, as [doCheckValidForSoroban] has
    checked, and the stores hold every entry under its own key. *)
Theorem C6_live_key_is_skipped (env : Env) (ltx0 : LedgerTxn)
    (res0 : option RestoreFootprintResultCode)
    (tracker : option RefundableFeeTracker)
    (diagnosticEvents0 : list DiagnosticEvent)
    (pre post : list LedgerKey) (lk : LedgerKey) (ttl : LedgerEntry) :
  readWrite (footprint (resources env)) = pre ++ lk :: post →
  Forall (λ k, isPersistentEntry k = true)
    (readWrite (footprint (resources env))) →
  wellKeyed (ltx_entries ltx0) → wellKeyedArchive (hotArchive env) →
  loadWithoutRecord ltx0 (getTTLKey lk) = Some ttl →
  isLive ttl (getLedgerSeq ltx0) = Returns true →
  doApply env ltx0 res0 tracker diagnosticEvents0
  = doApply (with_readWrite env (pre ++ post)) ltx0 res0 tracker
      diagnosticEvents0.
Proof.
  intros Hfp Hkeys Hwk Hwa Httl Hlive. unfold doApply.
  destruct tracker as [t|]; [|done].
  set (s0 := initialState ltx0 res0 (Some t) diagnosticEvents0).
  set (seq := getLedgerSeq ltx0) in *.
  set (rl := restoredLiveUntilLedger_of seq (stateArchivalSettings (sorobanConfig env))).
  set (vers := getLedgerVersion ltx0).
  change (sorobanConfig (with_readWrite env (pre ++ post)))
    with (sorobanConfig env).
  change (readWrite (footprint (resources (with_readWrite env (pre ++ post)))))
    with (pre ++ post).
  fold rl. unfold mbind, M_bind, bind.
  rewrite restoreKeys_with_readWrite, Hfp.
  assert (Hskip : restoreKeys env seq rl vers (pre ++ lk :: post) s0
                  = restoreKeys env seq rl vers (pre ++ post) s0).
  { destruct (restoreKeys env seq rl vers pre s0) as [[] s1|ex s1] eqn:Hpre;
      [|by rewrite !restoreKeys_app, Hpre..].
    rewrite Hfp in Hkeys. apply Forall_app in Hkeys as [Hpre_keys _].
    destruct (restoreKeys_invariant
                (λ t, loadWithoutRecord t (getTTLKey lk) = Some ttl)
                env seq rl vers pre s0 s1) as [_ Httl1]; try done.
    { intros k t1 t2 Hat.
      by apply restoresAtMost_live_ttl
        with (hot := hotArchive env) (seq := seq) (rl := rl) (k := k). }
    apply (restoreKeys_skip _ _ _ _ _ _ _ _ _ Hpre).
    by apply restoreKey_live with (ttl := ttl). }
  rewrite Hskip.
  destruct (restoreKeys env seq rl vers (pre ++ post) s0) as [[] s1|ex s1];
    try done.
Qed.

End RestoreFootprintOpFrame_properties.

(** ** InvokeHostFunctionOpFrame *)

Section InvokeHostFunctionOpFrame_properties.
Import InvokeHostFunctionOpFrame.
Context `{XdrCodec} `{TransactionUtils} `{RustBridge}.

Lemma addReads_from_app env seq vers rl ro i pre rest s :
  addReads_from env seq vers rl ro i (pre ++ rest) s
  = match addReads_from env seq vers rl ro i pre s with
    | Done true s1 => addReads_from env seq vers rl ro (i + length pre) rest s1
    | other => other
    end.
Proof.
  revert i s. induction pre as [|k pre IH]; intros i s; simpl.
  - by rewrite Nat.add_0_r.
  - munfold. destruct (addRead env seq vers rl ro i k s) as [[] s1|e s1]; auto.
    rewrite IH. by replace (S i + length pre)%nat with (i + S (length pre))%nat by lia.
Qed.

Lemma handleArchivedEntry_not_eligible env lk le isReadOnly rl isHot i s :
  isPersistentEntry lk = true →
  notEligibleForAutorestore env (mLtx s) isReadOnly lk i →
  handleArchivedEntry env lk le isReadOnly rl isHot i s
  = Done false (entryArchivedState lk s).
Proof.
  intros Hp Hne. unfold handleArchivedEntry, entryArchivedState.
  assert (Hauto :
    (if negb isReadOnly
        && protocolVersionStartsFrom (getLedgerVersion (mLtx s))
             FIRST_PROTOCOL_SUPPORTING_PERSISTENT_EVICTION
     then liftO (checkIfReadWriteEntryIsMarkedForAutorestore env lk i)
     else mret false) s = Done false s).
  { destruct Hne as [-> | [-> | ->]]; simpl; [done| |].
    - by rewrite andb_false_r.
    - by destruct (_ && _). }
  munfold. rewrite Hauto.
  unfold archivedEntryDiagnostic, fail_with, diag_pushError, pushError. munfold.
  destruct lk as [? ?|? ? []|?|?]; simpl in *; try done.
Qed.

Lemma addRead_archived env seq vers rl isReadOnly i lk e isHot s :
  isPersistentEntry lk = true →
  foundArchived (mHotArchive env) (mLtx s) seq lk e isHot →
  notEligibleForAutorestore env (mLtx s) isReadOnly lk i →
  addRead env seq vers rl isReadOnly i lk s = Done false (entryArchivedState lk s).
Proof.
  intros Hp Hfound Hne. unfold addRead, checkExpiry.
  assert (Hs : isSorobanEntry lk = true) by (by destruct lk as [? ?|? ? []|?|?]).
  assert (Ht : isTemporaryEntry lk = false) by (by destruct lk as [? ?|? ? []|?|?]).
  rewrite Hs. destruct isHot; simpl in Hfound.
  - destruct Hfound as (Hnone & Hvers & Hhot). munfold.
    rewrite Hnone, Hp, Hvers, Hhot. simpl.
    by rewrite handleArchivedEntry_not_eligible.
  - destruct Hfound as (ttl & Httl & Hexp & He). munfold.
    rewrite Httl, Hexp. simpl. rewrite Ht, He. simpl.
    by rewrite handleArchivedEntry_not_eligible.
Qed.

Lemma handleArchivedEntry_restores env lk le isReadOnly rl isHot i s s' :
  handleArchivedEntry env lk le isReadOnly rl isHot i s = Done true s' →
  liveUntilOf (mLtx s') le = Some rl
  ∧ mTtlEntryCxxBufs s'
    = mTtlEntryCxxBufs s ++ [Some (mkTTLEntry (sha256_xdr_key (LedgerEntryKey le)) rl)].
Proof.
  intros Hrun. unfold handleArchivedEntry, validate, meterDiskReadResource,
    fail_with, diag_pushError, archivedEntryDiagnostic, restoreFromHotArchive,
    restoreFromLiveBucketList, ttl_of in Hrun. munfold.
  repeat (case_match; simpl in *; simplify_eq).
  all: simpl in *; simplify_eq.
  all: unfold liveUntilOf; simpl; by rewrite lookup_insert_eq.
Qed.

Lemma addRead_restores env seq vers rl isReadOnly i lk e isHot s s' :
  isPersistentEntry lk = true →
  foundArchived (mHotArchive env) (mLtx s) seq lk e isHot →
  addRead env seq vers rl isReadOnly i lk s = Done true s' →
  liveUntilOf (mLtx s') e = Some rl
  ∧ mTtlEntryCxxBufs s'
    = mTtlEntryCxxBufs s ++ [Some (mkTTLEntry (sha256_xdr_key (LedgerEntryKey e)) rl)].
Proof.
  intros Hp Hfound. unfold addRead, checkExpiry.
  assert (Hs : isSorobanEntry lk = true) by (by destruct lk as [? ?|? ? []|?|?]).
  assert (Ht : isTemporaryEntry lk = false) by (by destruct lk as [? ?|? ? []|?|?]).
  rewrite Hs. destruct isHot; simpl in Hfound.
  - destruct Hfound as (Hnone & Hvers & Hhot). munfold.
    rewrite Hnone, Hp, Hvers, Hhot. simpl.
    destruct (handleArchivedEntry env lk e isReadOnly rl true i s)
      as [[] s1|ex s1] eqn:Hh; intros; simplify_eq.
    by eapply handleArchivedEntry_restores.
  - destruct Hfound as (ttl & Httl & Hexp & He). munfold.
    rewrite Httl, Hexp. simpl. rewrite Ht, He. simpl.
    destruct (handleArchivedEntry env lk e isReadOnly rl false i s)
      as [[] s1|ex s1] eqn:Hh; intros; simplify_eq.
    by eapply handleArchivedEntry_restores.
Qed.

Ltac brute_preserves :=
  intros s; unfold untouchedBeforeEvents;
  munfold; simpl;
  repeat (case_match; simpl in *; simplify_eq);
  simpl in *; simplify_eq; try reflexivity.

Lemma preserves_handleArchivedEntry env lk le ro rl hot i :
  preserves untouchedBeforeEvents (handleArchivedEntry env lk le ro rl hot i).
Proof.
  unfold handleArchivedEntry, archivedEntryDiagnostic, validate,
    meterDiskReadResource, fail_with, diag_pushError, restoreFromHotArchive,
    restoreFromLiveBucketList, ttl_of, noteDiskReadEntry.
  brute_preserves.
Qed.

Lemma preserves_readEntry env vers lk live ttl :
  preserves untouchedBeforeEvents (readEntry env vers lk live ttl).
Proof.
  unfold readEntry, validate, meterDiskReadResource, fail_with,
    diag_pushError, noteDiskReadEntry.
  brute_preserves.
Qed.

Lemma preserves_addRead env seq vers rl ro i lk :
  preserves untouchedBeforeEvents (addRead env seq vers rl ro i lk).
Proof.
  unfold addRead.
  apply preserves_bind;
    [|intros []; [apply preserves_ret|apply preserves_readEntry]].
  unfold checkExpiry.
  destruct (isSorobanEntry lk); [|apply preserves_ret].
  intros s. unfold mbind at 1, M_bind at 1, bind at 1, get at 1.
  destruct (loadWithoutRecord (mLtx s) (getTTLKey lk)).
  - unfold mbind at 1, M_bind at 1, bind at 1, liftO at 1.
    destruct (isLive l seq) as [[]|]; simpl; try done.
    + unfold ttl_of. by destruct (data l).
    + destruct (isTemporaryEntry lk); simpl; try done.
      destruct (loadWithoutRecord (mLtx s) lk); simpl; try done.
      pose proof (preserves_handleArchivedEntry env lk l0 ro rl false i s) as Hp.
      unfold mbind, M_bind, bind.
      by destruct (handleArchivedEntry env lk l0 ro rl false i s).
  - destruct (_ && _); try done. destruct (mHotArchive env !! lk) as [[]|]; try done.
    simpl.
    pose proof (preserves_handleArchivedEntry env lk archivedEntry ro rl true i s) as Hp.
    unfold mbind, M_bind, bind, mret, M_ret, ret.
    by destruct (handleArchivedEntry env lk archivedEntry ro rl true i s).
Qed.

Lemma preserves_addReads_from env seq vers rl ro i keys :
  preserves untouchedBeforeEvents (addReads_from env seq vers rl ro i keys).
Proof.
  revert i. induction keys as [|k keys IH]; intros i; simpl; [apply preserves_ret|].
  apply preserves_bind; [apply preserves_addRead|].
  intros []; [apply IH|apply preserves_ret].
Qed.

Lemma preserves_addReads env keys ro :
  preserves untouchedBeforeEvents (addReads env keys ro).
Proof. intros s. apply preserves_addReads_from. Qed.

Lemma preserves_readFootprint env : preserves untouchedBeforeEvents (readFootprint env).
Proof.
  unfold readFootprint. apply preserves_bind; [apply preserves_addReads|].
  intros []; [apply preserves_addReads|apply preserves_ret].
Qed.

Lemma preserves_invokeHost env : preserves untouchedBeforeEvents (invokeHost env).
Proof. unfold invokeHost. brute_preserves. Qed.

Lemma preserves_applyModifiedEntry env buf keys :
  preserves untouchedBeforeEvents (applyModifiedEntry env buf keys).
Proof.
  unfold applyModifiedEntry, validate, fail_with, diag_pushError, noteWriteEntry,
    create, update, load.
  brute_preserves.
Qed.

Lemma preserves_applyModifiedEntries env bufs keys :
  preserves untouchedBeforeEvents (applyModifiedEntries env bufs keys).
Proof.
  revert keys. induction bufs as [|b bufs IH]; intros keys; simpl;
    [apply preserves_ret|].
  apply preserves_bind; [apply preserves_applyModifiedEntry|].
  intros []; [apply IH|apply preserves_ret].
Qed.

Lemma preserves_eraseAllUntouched touched keys :
  preserves untouchedBeforeEvents (eraseAllUntouched touched keys).
Proof.
  induction keys as [|k keys IH]; simpl; [apply preserves_ret|].
  apply preserves_bind; [|intros; apply IH].
  unfold eraseUntouched, erase, load. brute_preserves.
Qed.

Lemma preserves_checkCreatedKeys created :
  preserves untouchedBeforeEvents (checkCreatedKeys created).
Proof. unfold checkCreatedKeys. brute_preserves. Qed.

(** The event phase *)

Lemma meterFrom_snoc c0 sizes size :
  meterFrom c0 (sizes ++ [size]) = u32 (meterFrom c0 sizes + u32 size).
Proof. unfold meterFrom. by rewrite foldl_app. Qed.

Lemma ingestEvents_spec env bufs events s :
  let limit := txMaxContractEventsSizeBytes (mSorobanConfig env) in
  let c0 := mEmitEventByte (mMetrics s) in
  (∀ n, (1 ≤ n ≤ length bufs)%nat → meterFrom c0 (take n bufs.*1) ≤ limit) ∧
    (∃ s', ingestEvents env bufs events s = Done (Some (events ++ bufs.*2)) s'
           ∧ mEmitEventByte (mMetrics s') = meterFrom c0 bufs.*1
           ∧ mRefundableFeeTracker s' = mRefundableFeeTracker s)
  ∨ (∃ n, (1 ≤ n ≤ length bufs)%nat ∧ limit < meterFrom c0 (take n bufs.*1)) ∧
    (∃ s' c, ingestEvents env bufs events s = Done None s'
           ∧ mRes s' = Some INVOKE_HOST_FUNCTION_RESOURCE_LIMIT_EXCEEDED
           ∧ last (mDiagnosticEvents s') = Some (eventsSizeError env c)).
Proof.
  revert events s. induction bufs as [|[size evt] bufs IH]; intros events s; simpl.
  - left. split; [intros n Hn; lia|]. exists s. by rewrite app_nil_r.
  - unfold fail_with, diag_pushError, pushError, meterEvent. munfold. simpl.
    destruct (_ <? _) eqn:Hlim.
    + right. apply Z.ltb_lt in Hlim. split.
      * exists 1%nat. split; [lia|]. simpl. done.
      * eexists _, _. split; [done|]. split; [done|]. simpl. apply last_snoc.
    + apply Z.ltb_ge in Hlim.
      match goal with |- context [ingestEvents env bufs ?e ?st] =>
        destruct (IH e st) as [[Hall (s' & Hrun & Hc & Ht)]|[Hex (s' & c & Hrun & Hr & Hd)]]
      end; simpl in *.
      * left. split.
        -- intros [|n] Hn; [lia|]. simpl. destruct n as [|n].
           ++ done.
           ++ apply Hall. lia.
        -- exists s'. rewrite Hrun. by rewrite <- app_assoc.
      * right. split.
        -- destruct Hex as (n & Hn & Hlt). exists (S n). split; [lia|done].
        -- eauto.
Qed.


Lemma finish_exceeds env out events s :
  txMaxContractEventsSizeBytes (mSorobanConfig env)
    < u32 (mEmitEventByte (mMetrics s) + u32 (result_value out).1) →
  ∃ s', finish env out events s = Done false s'
        ∧ mRes s' = Some INVOKE_HOST_FUNCTION_RESOURCE_LIMIT_EXCEEDED
        ∧ last (mDiagnosticEvents s')
          = Some (returnValueSizeError env
                    (u32 (mEmitEventByte (mMetrics s) + u32 (result_value out).1))).
Proof.
  intros Hlt. unfold finish, fail_with, diag_pushError, pushError. munfold. simpl.
  rewrite (proj2 (Z.ltb_lt _ _) Hlt). eexists. split; [done|]. split; [done|].
  simpl. apply last_snoc.
Qed.

Lemma apply_reachesEvents env s out s3 :
  reachesEvents env s out s3 →
  apply env s = emitEvents env out s3
  ∧ untouchedBeforeEvents s3 = untouchedBeforeEvents s.
Proof.
  intros (s0 & s1 & s2 & keys & Hread & Hinv & Hsucc & Hmod & Herase). split.
  - unfold apply. rewrite (bind_Done _ _ _ _ _ Hread). simpl.
    rewrite (bind_Done _ _ _ _ _ Hinv). rewrite Hsucc. simpl.
    unfold applyOutput. rewrite (bind_Done _ _ _ _ _ Hmod).
    revert Herase. munfold.
    destruct (checkCreatedKeys (createdKeys keys) s2) as [[] s2'|]; [|done].
    destruct (eraseAllUntouched _ _ s2') as [[] s3'|]; [|done].
    by intros [= ->].
  - rewrite <- (preserves_Done _ _ _ _ _ (preserves_readFootprint env) Hread).
    rewrite <- (preserves_Done _ _ _ _ _ (preserves_invokeHost env) Hinv).
    rewrite <- (preserves_Done _ _ _ _ _
                  (preserves_applyModifiedEntries env _ _) Hmod).
    eapply preserves_Done; [|exact Herase].
    apply preserves_bind; [apply preserves_checkCreatedKeys|].
    intros _. apply preserves_eraseAllUntouched.
Qed.

Lemma meterFrom_no_wrap sizes :
  (∀ size, size ∈ sizes → 0 ≤ size) → sumSizes sizes < 2 ^ 32 →
  ∀ n, meterFrom 0 (take n sizes) = sumSizes (take n sizes).
Proof.
  intros Hpos Hsum n.
  assert (Hgen : ∀ l c0, (∀ size, size ∈ l → 0 ≤ size) → 0 ≤ c0 →
                 c0 + sumSizes l < 2 ^ 32 →
                 meterFrom c0 l = c0 + sumSizes l ∧ 0 ≤ sumSizes l).
  { induction l as [|x l IH]; intros c0 Hl Hc0 Hlt; simpl in *; [split; lia|].
    assert (0 ≤ x) by (apply Hl, list_elem_of_here).
    assert (0 ≤ sumSizes l).
    { clear -Hl. induction l as [|y l IH]; simpl; [done|].
      assert (0 ≤ y) by (apply Hl, list_elem_of_further, list_elem_of_here).
      assert (0 ≤ sumSizes l); [|lia].
      apply IH. intros z Hz. apply Hl. apply elem_of_cons in Hz as [->|Hz].
      - apply list_elem_of_here.
      - by do 2 apply list_elem_of_further. }
    unfold meterFrom in *. simpl. rewrite (u32_small x) by lia.
    rewrite (u32_small (c0 + x)) by lia.
    destruct (IH (c0 + x)) as [-> _]; [| lia | lia | lia].
    intros z Hz. by apply Hl, list_elem_of_further. }
  assert (Htake : ∀ m l, (∀ size, size ∈ l → 0 ≤ size) →
                  0 ≤ sumSizes (take m l) ≤ sumSizes l).
  { intros m l. revert m. induction l as [|x l IH]; intros [|m] Hl; simpl;
      try lia.
    - assert (0 ≤ x) by (apply Hl, list_elem_of_here).
      specialize (IH 0%nat (λ z Hz, Hl z (list_elem_of_further _ _ _ Hz))).
      rewrite take_0 in IH. simpl in IH. lia.
    - assert (0 ≤ x) by (apply Hl, list_elem_of_here).
      specialize (IH m (λ z Hz, Hl z (list_elem_of_further _ _ _ Hz))). lia. }
  destruct (Hgen (take n sizes) 0) as [-> _]; try lia.
  - intros z Hz. apply Hpos. by apply (subseteq_take n sizes).
  - specialize (Htake n sizes Hpos). lia.
Qed.

(** [C8] The limit on the total size of the events is enforced twice.  When
    [apply] reaches the events with the counter [mEmitEventByte] at zero, it
    fails with ResourceLimitExceeded if the counter exceeds
    [tx_max_contract_events_size_bytes] after some event is metered, and it
    also fails with ResourceLimitExceeded if the counter stays within the
    limit for every event and exceeds it once the size of the return value
    is added.  The counter is the sum of the sizes whenever that sum fits in
    32 bits. *)
Theorem C8_event_size_limit_enforced_twice (env : Env) (s s3 : State)
    (out : InvokeHostFunctionOutput) :
  mEmitEventByte (mMetrics s) = 0 →
  reachesEvents env s out s3 →
  let limit := txMaxContractEventsSizeBytes (mSorobanConfig env) in
  let sizes := (contract_events out).*1 in
  let returnValueSize := u32 (result_value out).1 in
  ((∃ n, (1 ≤ n ≤ length sizes)%nat ∧ limit < meterFrom 0 (take n sizes)) →
   ∃ s' c, apply env s = Done false s'
         ∧ mRes s' = Some INVOKE_HOST_FUNCTION_RESOURCE_LIMIT_EXCEEDED
         ∧ last (mDiagnosticEvents s') = Some (eventsSizeError env c))
  ∧ ((∀ n, (1 ≤ n ≤ length sizes)%nat → meterFrom 0 (take n sizes) ≤ limit) →
     limit < u32 (meterFrom 0 sizes + returnValueSize) →
     ∃ s' c, apply env s = Done false s'
           ∧ mRes s' = Some INVOKE_HOST_FUNCTION_RESOURCE_LIMIT_EXCEEDED
           ∧ last (mDiagnosticEvents s') = Some (returnValueSizeError env c))
  ∧ ((∀ size, size ∈ sizes → 0 ≤ size < 2 ^ 32) →
     sumSizes sizes < 2 ^ 32 →
     ∀ n, meterFrom 0 (take n sizes) = sumSizes (take n sizes)).
Proof.
  intros Hzero Hreach limit sizes returnValueSize.
  destruct (apply_reachesEvents _ _ _ _ Hreach) as [Happly Hpres].
  assert (Hc0 : mEmitEventByte (mMetrics s3) = 0).
  { unfold untouchedBeforeEvents in Hpres. injection Hpres as _ He. congruence. }
  rewrite Happly. unfold emitEvents.
  pose proof (ingestEvents_spec env (contract_events out) [] s3) as Hing.
  simpl in Hing. rewrite Hc0 in Hing. fold limit sizes in Hing.
  assert (Hlen : length sizes = length (contract_events out))
    by apply length_fmap.
  rewrite <- Hlen in Hing.
  split; [|split].
  - intros (n & Hn & Hlt).
    destruct Hing as [[Hall _]|[_ (s' & c & Hrun & Hres & Hdiag)]].
    + specialize (Hall n Hn). lia.
    + exists s', c. by rewrite (bind_Done _ _ _ _ _ Hrun).
  - intros Hall Hlt.
    destruct Hing as [[_ (s' & Hrun & Hc & _)]|[(n & Hn & Hex) _]].
    + rewrite (bind_Done _ _ _ _ _ Hrun).
      destruct (finish_exceeds env out ([] ++ (contract_events out).*2) s')
        as (s'' & Hfin & Hres & Hdiag).
      { rewrite Hc. done. }
      eauto.
    + specialize (Hall n Hn). lia.
  - intros Hpos Hsum. apply meterFrom_no_wrap; [|done].
    intros size Hsize. by apply Hpos.
Qed.

(** [C3] When the host invocation returns [success = false]: with
    [is_internal_error] set the failure is thrown as a runtime error; else
    the result code is ResourceLimitExceeded if the reported [cpu_insns]
    exceed the declared instructions, else ResourceLimitExceeded if the
    reported [mem_bytes] exceed [tx_memory_limit], else Trapped. *)
Theorem C3_failed_invocation_result (env : Env) (s s0 s1 : State)
    (out : InvokeHostFunctionOutput) :
  readFootprint env s = Done true s0 →
  invokeHost env s0 = Done out s1 →
  success out = false →
  (is_internal_error out = true →
   apply env s
   = Thrown (RuntimeError "Got internal error during Soroban host invocation.") s1)
  ∧ (is_internal_error out = false →
     ∃ s', apply env s = Done false s'
           ∧ mRes s'
             = Some (if instructions (mResources env) <? cpu_insns out
                     then INVOKE_HOST_FUNCTION_RESOURCE_LIMIT_EXCEEDED
                     else if txMemoryLimit (mSorobanConfig env) <? mem_bytes out
                     then INVOKE_HOST_FUNCTION_RESOURCE_LIMIT_EXCEEDED
                     else INVOKE_HOST_FUNCTION_TRAPPED)
           ∧ mLtx s' = mLtx s1).
Proof.
  intros Hread Hinv Hfail. unfold apply.
  rewrite (bind_Done _ _ _ _ _ Hread). simpl.
  rewrite (bind_Done _ _ _ _ _ Hinv). rewrite Hfail. simpl.
  unfold failedInvocation, fail_with, diag_pushError. split; intros ->.
  - done.
  - munfold. repeat case_match; eauto.
Qed.

Lemma addReads_eq env keys ro s :
  addReads env keys ro s
  = addReads_from env (getLedgerSeq (mLtx s)) (getLedgerVersion (mLtx s))
      (restoredLiveUntilLedger_of (getLedgerSeq (mLtx s))
         (stateArchivalSettings (mSorobanConfig env))) ro 0 keys s.
Proof. done. Qed.

Lemma addReads_archived env s s1 isReadOnly pre lk post e isHot :
  addReads env pre isReadOnly s = Done true s1 →
  isPersistentEntry lk = true →
  foundArchived (mHotArchive env) (mLtx s1) (getLedgerSeq (mLtx s1)) lk e isHot →
  notEligibleForAutorestore env (mLtx s1) isReadOnly lk (length pre) →
  addReads env (pre ++ lk :: post) isReadOnly s
  = Done false (entryArchivedState lk s1).
Proof.
  intros Hpre Hp Hfound Hne.
  assert (Hhdr : getLedgerSeq (mLtx s1) = getLedgerSeq (mLtx s)).
  { pose proof (preserves_Done _ _ _ _ _ (preserves_addReads env pre isReadOnly)
                  Hpre) as Hpres.
    unfold untouchedBeforeEvents in Hpres. injection Hpres as Hh _.
    unfold getLedgerSeq. by rewrite Hh. }
  rewrite addReads_eq in *. rewrite addReads_from_app, Hpre. simpl.
  rewrite <- Hhdr.
  erewrite (bind_Done _ _ _ _ _ (addRead_archived _ _ _ _ _ _ _ _ _ _ Hp Hfound Hne)).
  done.
Qed.

(** [C2] When the assembly of the footprint comes to a persistent contract
    key that it finds archived (its TTL in the live state is expired, or it
    has no TTL there and the hot archive holds it), and the key is in the
    read-only footprint, or the protocol does not support autorestore, or the
    key is not marked in the autorestore bitmap, then the operation fails
    with the result code EntryArchived, after pushing the diagnostic that
    describes the key; the overlay and the buffers for the host are left
    as they were, so the key is not restored. *)
Theorem C2_archived_entry_fails_with_entry_archived (env : Env) (s s1 : State)
    (isReadOnly : bool) (pre post : list LedgerKey) (lk : LedgerKey)
    (e : LedgerEntry) (isHotArchiveEntry : bool) :
  readsUpTo env s isReadOnly pre lk post s1 →
  isPersistentEntry lk = true →
  foundArchived (mHotArchive env) (mLtx s1) (getLedgerSeq (mLtx s1)) lk e
    isHotArchiveEntry →
  notEligibleForAutorestore env (mLtx s1) isReadOnly lk (length pre) →
  ∃ s', apply env s = Done false s'
        ∧ mRes s' = Some INVOKE_HOST_FUNCTION_ENTRY_ARCHIVED
        ∧ (∃ d, archivedDiagnosticOf lk = [d]
                ∧ mDiagnosticEvents s' = mDiagnosticEvents s1 ++ [d])
        ∧ mLtx s' = mLtx s1
        ∧ mLedgerEntryCxxBufs s' = mLedgerEntryCxxBufs s1
        ∧ mTtlEntryCxxBufs s' = mTtlEntryCxxBufs s1.
Proof.
  intros Hreads Hp Hfound Hne. exists (entryArchivedState lk s1).
  split; [|split; [done|split; [|done]]].
  - assert (Hrf : readFootprint env s = Done false (entryArchivedState lk s1)).
    { unfold readFootprint. destruct isReadOnly; simpl in Hreads.
      + destruct Hreads as [-> Hpre].
        by rewrite (bind_Done _ _ _ _ _
             (addReads_archived _ _ _ _ _ _ post _ _ Hpre Hp Hfound Hne)).
      + destruct Hreads as (-> & s0 & Hro & Hpre).
        rewrite (bind_Done _ _ _ _ _ Hro). simpl.
        by rewrite (addReads_archived _ _ _ _ _ _ post _ _ Hpre Hp Hfound Hne). }
    unfold apply. by rewrite (bind_Done _ _ _ _ _ Hrf).
  - destruct lk as [? ?|? ? []|?|?]; simpl in *; try done; eauto.
Qed.

Ltac brute :=
  munfold; simpl;
  repeat (case_match; simpl in *; simplify_eq);
  simpl in *; simplify_eq.

Lemma soroban_not_temporary_persistent lk :
  isSorobanEntry lk = true → isTemporaryEntry lk = false →
  isPersistentEntry lk = true.
Proof. by destruct lk as [? ?|? ? []|?|?]. Qed.

Lemma handleArchivedEntry_restoresAtMost env seq rl ro i k le isHot s s' :
  isPersistentEntry k = true →
  foundArchived (mHotArchive env) (mLtx s) seq k le isHot →
  LedgerEntryKey le = k →
  handleArchivedEntry env k le ro rl isHot i s = Done true s' →
  restoresAtMost (mHotArchive env) seq rl k (mLtx s) (mLtx s').
Proof.
  intros Hk Hfound Hle.
  unfold restoresAtMost, handleArchivedEntry, archivedEntryDiagnostic, validate,
    meterDiskReadResource, fail_with, diag_pushError, restoreFromHotArchive,
    restoreFromLiveBucketList, ttl_of, noteDiskReadEntry.
  brute.
  all: intros; simplify_eq; simpl.
  all: split; [done|right].
  all: first
    [ by (exists le, true; split; [done|]; split; [exact Hfound|])
    | by (exists le, false; split; [done|]; split; [exact Hfound|]) ].
Qed.

Lemma readEntry_ltx env vers lk live ttl s b s' :
  readEntry env vers lk live ttl s = Done b s' → mLtx s' = mLtx s.
Proof.
  unfold readEntry, validate, meterDiskReadResource, fail_with,
    diag_pushError, noteDiskReadEntry.
  brute. all: intros; by simplify_eq.
Qed.

Lemma addRead_restoresAtMost env seq vers rl ro i k s s' :
  wellKeyed (ltx_entries (mLtx s)) → wellKeyedArchive (mHotArchive env) →
  addRead env seq vers rl ro i k s = Done true s' →
  restoresAtMost (mHotArchive env) seq rl k (mLtx s) (mLtx s').
Proof.
  intros Hwk Hwa. unfold addRead, checkExpiry.
  assert (Hsame : ∀ live ttl,
            readEntry env vers k live ttl s = Done true s' →
            restoresAtMost (mHotArchive env) seq rl k (mLtx s) (mLtx s')).
  { intros live ttl Hr. apply readEntry_ltx in Hr. rewrite Hr.
    split; [done|by left]. }
  destruct (isSorobanEntry k) eqn:Hs; [|by apply Hsame].
  munfold. unfold loadWithoutRecord at 1.
  destruct (ltx_entries (mLtx s) !! getTTLKey k) as [ttl|] eqn:Httl.
  - destruct (isLive ttl seq) as [[]|] eqn:Hlive; simpl; [| |done].
    + destruct (ttl_of ttl); simpl; [|done]. apply Hsame.
    + destruct (isTemporaryEntry k) eqn:Ht; simpl; [by apply Hsame|].
      unfold loadWithoutRecord at 1.
      destruct (ltx_entries (mLtx s) !! k) as [le|] eqn:Hle; [|done].
      destruct (handleArchivedEntry env k le ro rl false i s)
        as [[] s1|ex s1] eqn:Hh; intros; simplify_eq.
      apply (handleArchivedEntry_restoresAtMost env seq rl ro i k le false s s'
               (soroban_not_temporary_persistent _ Hs Ht));
        [|by apply Hwk|done].
      by exists ttl.
  - destruct (isPersistentEntry k) eqn:Hp; simpl; [|by apply Hsame].
    destruct (protocolVersionStartsFrom _ _) eqn:Hv; simpl; [|by apply Hsame].
    destruct (mHotArchive env !! k) as [[le| |]|] eqn:Hhot; simpl;
      [| done | done | by apply Hsame].
    destruct (handleArchivedEntry env k le ro rl true i s)
      as [[] s1|ex s1] eqn:Hh; intros; simplify_eq.
    apply (handleArchivedEntry_restoresAtMost env seq rl ro i k le true s s' Hp);
      [done|by apply Hwa|done].
Qed.

Lemma addReads_from_invariant (P : LedgerTxn → Prop) env seq vers rl ro keys i s s' :
  wellKeyedArchive (mHotArchive env) →
  (∀ k t t', restoresAtMost (mHotArchive env) seq rl k t t' → P t → P t') →
  wellKeyed (ltx_entries (mLtx s)) → P (mLtx s) →
  addReads_from env seq vers rl ro i keys s = Done true s' →
  wellKeyed (ltx_entries (mLtx s')) ∧ P (mLtx s').
Proof.
  intros Hwa HP. revert i s.
  induction keys as [|k keys IH]; intros i s Hwk Hs; simpl.
  - by intros [= <-].
  - unfold mbind, M_bind, bind.
    destruct (addRead env seq vers rl ro i k s) as [[] s1|ex s1] eqn:Hstep;
      [|done|done].
    pose proof (addRead_restoresAtMost _ _ _ _ _ _ _ _ _ Hwk Hwa Hstep) as Hat.
    apply IH; [|by eapply HP].
    by eapply restoresAtMost_wellKeyed.
Qed.

Lemma addReads_from_restores env seq vers rl ro lk e isHot keys i s s' :
  wellKeyedArchive (mHotArchive env) →
  isPersistentEntry lk = true →
  LedgerEntryKey e = lk →
  wellKeyed (ltx_entries (mLtx s)) →
  lk ∈ keys →
  foundArchived (mHotArchive env) (mLtx s) seq lk e isHot
  ∨ liveUntilOf (mLtx s) e = Some rl →
  addReads_from env seq vers rl ro i keys s = Done true s' →
  liveUntilOf (mLtx s') e = Some rl.
Proof.
  intros Hwa Hlk He. revert i s.
  induction keys as [|k keys IH]; intros i s Hwk Hin HJ; simpl.
  { inversion Hin. }
  unfold mbind, M_bind, bind.
  destruct (addRead env seq vers rl ro i k s) as [[] s1|ex s1] eqn:Hstep;
    [|done|done].
  pose proof (addRead_restoresAtMost _ _ _ _ _ _ _ _ _ Hwk Hwa Hstep) as Hat.
  pose proof (restoresAtMost_wellKeyed _ _ _ _ _ _ Hat Hwk) as Hwk1.
  intros Hrest.
  destruct (decide (k = lk)) as [->|Hne].
  - assert (Hs1 : liveUntilOf (mLtx s1) e = Some rl).
    { destruct HJ as [Hfound|Hlive].
      - by destruct (addRead_restores _ _ _ _ _ _ _ _ _ _ _ Hlk Hfound Hstep).
      - by eapply restoresAtMost_liveUntil. }
    apply (addReads_from_invariant (λ t, liveUntilOf t e = Some rl)
             env seq vers rl ro keys (S i) s1 s'); try done.
    intros k t1 t2 Hat'.
    by apply restoresAtMost_liveUntil
      with (k := k) (hot := mHotArchive env) (seq := seq).
  - apply elem_of_cons in Hin as [->|Hin]; [done|].
    apply (IH (S i) s1); try done.
    by eapply restoresAtMost_archived_or_restored.
Qed.

End InvokeHostFunctionOpFrame_properties.

(** ** InvariantManagerImpl *)

Section InvariantManagerImpl_properties.
Import InvariantManagerImpl.
Context `{StdRegex}.

Lemma map_insert_elem name inv m p :
  name ∉ m.*1 → p ∈ map_insert name inv m ↔ p = (name, inv) ∨ p ∈ m.
Proof.
  induction m as [|[n v] m IH]; intros Hfresh; simpl.
  - rewrite list_elem_of_singleton, elem_of_nil. tauto.
  - simpl in Hfresh. apply not_elem_of_cons in Hfresh as [Hne Hfresh].
    destruct (String.ltb name n); [by rewrite elem_of_cons|].
    destruct (String.eqb name n) eqn:Heq; [by apply String.eqb_eq in Heq|].
    rewrite !elem_of_cons, IH by done. tauto.
Qed.

(** [registerInvariant] keeps the registry well formed. *)
Lemma registerInvariant_wellFormed invariant s s' :
  registryWellFormed s → registerInvariant invariant s = Done () s' →
  registryWellFormed s' ∧ mEnabled s' = mEnabled s.
Proof.
  intros [Hnd Hname]. unfold registerInvariant. munfold.
  case_bool_decide as Hin; [done|]. intros [= <-]. simpl. split; [|done].
  split.
  - clear Hname. revert Hnd Hin. generalize (mInvariants s) as m.
    induction m as [|[n v] m IH]; intros Hnd Hin; simpl.
    + apply NoDup_singleton.
    + simpl in Hin, Hnd. apply not_elem_of_cons in Hin as [Hne Hin].
      apply NoDup_cons in Hnd as [Hn Hnd].
      destruct (String.ltb (getName invariant) n).
      { simpl. apply NoDup_cons. split; [|by apply NoDup_cons].
        rewrite elem_of_cons. tauto. }
      destruct (String.eqb (getName invariant) n) eqn:Heq;
        [by apply String.eqb_eq in Heq|].
      simpl. apply NoDup_cons. split; [|by apply IH].
      intros Hn'. apply list_elem_of_fmap in Hn' as ([n' v'] & -> & Hp).
      destruct (proj1 (map_insert_elem _ _ _ _ Hin) Hp) as [[= -> ->]|Hp'];
        [done|].
      apply Hn. by apply (list_elem_of_fmap_2 fst) in Hp'.
  - intros p Hp.
    destruct (proj1 (map_insert_elem _ _ _ _ Hin) Hp) as [->|Hp']; [done|].
    by apply Hname.
Qed.

Lemma enableMatching_already_enabled r invs b s :
  (∃ p, p ∈ matchedInvariants r invs ∧ p.2 ∈ mEnabled s) →
  ∃ name s',
    enableMatching r invs b s
    = Thrown (RuntimeError ("Invariant " +:+ name +:+ " already enabled")) s'.
Proof.
  revert b s. induction invs as [|[n v] invs IH]; intros b s (p & Hp & Hen).
  - inversion Hp.
  - simpl in *. destruct (regex_match n r [match_not_null]) eqn:Hm.
    + munfold. case_bool_decide as Hv; [eauto|].
      apply elem_of_cons in Hp as [->|Hp]; [done|].
      apply IH. exists p. split; [done|]. simpl. apply elem_of_app. by left.
    + apply IH. eauto.
Qed.

Lemma enableMatching_enables r invs b s :
  (∀ p, p ∈ matchedInvariants r invs → p.2 ∉ mEnabled s) →
  NoDup (matchedInvariants r invs).*2 →
  enableMatching r invs b s
  = Done (b || bool_decide (matchedInvariants r invs ≠ []))
      (mkState (mInvariants s) (mEnabled s ++ (matchedInvariants r invs).*2)).
Proof.
  revert b s. induction invs as [|[n v] invs IH]; intros b s Hnot Hnd; simpl in *.
  - rewrite orb_false_r, app_nil_r. by destruct s.
  - destruct (regex_match n r [match_not_null]) eqn:Hm; simpl in *.
    + munfold. rewrite bool_decide_eq_false_2
        by (apply (Hnot (n, v)), list_elem_of_here).
      apply NoDup_cons in Hnd as [Hv Hnd].
      rewrite IH; simpl; [|
        | done].
      * rewrite orb_true_r. simpl. by rewrite <- app_assoc.
      * intros p Hp Hin. apply elem_of_app in Hin as [Hin|Hin].
        -- by apply (Hnot p (list_elem_of_further _ _ _ Hp)).
        -- apply list_elem_of_singleton in Hin. apply Hv. rewrite <- Hin.
           by apply (list_elem_of_fmap_2 snd).
    + by apply IH.
Qed.

Lemma matchedInvariants_elem r invs p :
  p ∈ matchedInvariants r invs
  ↔ p ∈ invs ∧ regex_match p.1 r [match_not_null] = true.
Proof. unfold matchedInvariants. rewrite !list_elem_of_In. apply filter_In. Qed.

Lemma matchedInvariants_NoDup r invs :
  NoDup invs.*1 → (∀ p, p ∈ invs → getName p.2 = p.1) →
  NoDup (matchedInvariants r invs).*2.
Proof.
  induction invs as [|[n v] invs IH]; intros Hnd Hname; simpl; [constructor|].
  apply NoDup_cons in Hnd as [Hn Hnd].
  assert (Hrest : NoDup (matchedInvariants r invs).*2).
  { apply IH; [done|]. intros p Hp. by apply Hname, list_elem_of_further. }
  destruct (regex_match n r [match_not_null]); [|done].
  simpl. apply NoDup_cons. split; [|done].
  intros Hv. apply list_elem_of_fmap in Hv as ([n' v'] & Heq & Hin). simpl in Heq. subst v'.
  apply matchedInvariants_elem in Hin as [Hin _].
  apply Hn. apply list_elem_of_fmap. exists (n', v). split; [|done]. simpl.
  pose proof (Hname (n, v) (list_elem_of_here _ _)) as Hn1.
  pose proof (Hname (n', v) (list_elem_of_further _ _ _ Hin)) as Hn2.
  simpl in *. congruence.
Qed.

(** [C9] [enableInvariant] compiles the pattern as a case-insensitive
    ECMAScript regular expression and matches it against the names of the
    registered invariants.  It throws for an empty pattern, for a pattern
    that does not compile, when a matched invariant is already enabled, and
    when no registered invariant matches; otherwise every matched invariant
    is appended to the enabled invariants. *)
Theorem C9_enableInvariant_pattern (invPattern : string) (s : State) :
  registryWellFormed s →
  (invPattern = "" →
   enableInvariant invPattern s
   = Thrown (InvalidArgument "Invariant pattern must be non empty") s)
  ∧ (invPattern ≠ "" →
     match regex_ctor invPattern [ECMAScript; icase] with
     | inr what =>
         enableInvariant invPattern s
         = Thrown (InvalidArgument
                     ("Invalid invariant pattern '" +:+ invPattern +:+ "': "
                      +:+ what)) s
     | inl r =>
         let matched := matchedInvariants r (mInvariants s) in
         ((∃ p, p ∈ matched ∧ p.2 ∈ mEnabled s) →
          ∃ name s',
            enableInvariant invPattern s
            = Thrown (RuntimeError ("Invariant " +:+ name +:+ " already enabled")) s')
         ∧ (matched = [] →
            enableInvariant invPattern s
            = Thrown (RuntimeError (noMatchMessage invPattern (mInvariants s))) s)
         ∧ (matched ≠ [] → (∀ p, p ∈ matched → p.2 ∉ mEnabled s) →
            enableInvariant invPattern s
            = Done () (mkState (mInvariants s) (mEnabled s ++ matched.*2)))
     end).
Proof.
  intros [Hnd Hname]. unfold enableInvariant. split.
  - intros ->. done.
  - intros Hne. rewrite bool_decide_eq_false_2 by done.
    destruct (regex_ctor invPattern [ECMAScript; icase]) as [r|what]; [|done].
    simpl. split; [|split].
    + intros Hex.
      destruct (enableMatching_already_enabled r (mInvariants s) false s Hex)
        as (name & s' & Hrun).
      exists name, s'. munfold. by rewrite Hrun.
    + intros Hnone. munfold.
      rewrite enableMatching_enables; rewrite Hnone; simpl.
      * rewrite app_nil_r. by destruct s.
      * intros p Hp. inversion Hp.
      * constructor.
    + intros Hsome Hnot. munfold.
      rewrite enableMatching_enables;
        [|done|by apply matchedInvariants_NoDup].
      by rewrite bool_decide_eq_true_2.
Qed.

End InvariantManagerImpl_properties.

(** ** The TTL written by a restoration *)

Section restoration_properties.
Context `{XdrCodec} `{TransactionUtils} `{RustBridge}.

(** [C4] Every restoration of a persistent entry, by the RestoreFootprint
    operation or by autorestore in an invoke operation, from the hot archive
    or from an expired entry of the live state, writes the TTL of the entry
    as [current_ledger_seq + min_persistent_ttl - 1] in 32-bit arithmetic,
    which is exactly that number whenever it is a 32-bit value. *)
Theorem C4_restored_ttl_is_minimum_persistent_ttl (seq minTTL : Z)
    (e : LedgerEntry) (after : LedgerTxn) :
  Restoration seq minTTL e after →
  liveUntilOf after e = Some (u32 (seq + minTTL - 1))
  ∧ (0 ≤ seq + minTTL - 1 < 2 ^ 32 →
     liveUntilOf after e = Some (seq + minTTL - 1)).
Proof.
  intros Hrest.
  assert (Hlive : liveUntilOf after e = Some (u32 (seq + minTTL - 1))).
  { destruct Hrest as [env ltx0 res0 tracker diag s lk isHot -> -> Hwk Hwa
                         Hkeys Hin Hfound Hrun ->
                      |env s s' keys lk isHot -> -> Hwk Hwa Hp Hin Hfound Hrun ->].
    - apply doApply_Done_true in Hrun
        as (s1 & Hloop & ->).
      apply (restoreKeys_restores _ _ _ _ lk e isHot _ _ _ Hwa Hkeys) in Hloop;
        [done| |done|done|by left].
      by apply (foundArchived_key _ _ _ _ _ _ Hwk Hwa Hfound).
    - rewrite addReads_eq in Hrun.
      apply (addReads_from_restores _ _ _ _ _ lk e isHot _ _ _ _ Hwa Hp)
        in Hrun; [done| |done|done|by left].
      by apply (foundArchived_key _ _ _ _ _ _ Hwk Hwa Hfound). }
  split; [done|]. intros Hrange. by rewrite Hlive, u32_small.
Qed.

End restoration_properties.

(** ** The properties on examples *)

Section examples.
Import Examples.

Lemma run_Done {S A} (r : Result S A) (a : A) :
  (if r is Done a' _ then a' = a else False) → r = Done a (state_of r).
Proof. destruct r as [a' s|e s]; simpl; [by intros ->|done]. Qed.

Lemma live1_wellKeyed liveUntil : wellKeyed (live1 liveUntil).
Proof.
  intros k e Hk. unfold live1 in Hk. apply lookup_insert_Some in Hk as [[<- <-]|[_ Hk]]; [reflexivity|].
  apply lookup_singleton_Some in Hk as [<- <-]. reflexivity.
Qed.

Lemma live3_wellKeyed liveUntil : wellKeyed (live3 liveUntil).
Proof.
  intros k e Hk. unfold live3 in Hk. apply lookup_insert_Some in Hk as [[<- <-]|[_ Hk]]; [reflexivity|].
  apply lookup_singleton_Some in Hk as [<- <-]. reflexivity.
Qed.

Lemma empty_wellKeyed : wellKeyed (∅ : gmap LedgerKey LedgerEntry).
Proof. intros k e Hk. by rewrite lookup_empty in Hk. Qed.

Lemma empty_wellKeyedArchive : wellKeyedArchive ∅.
Proof. intros k e Hk. by rewrite lookup_empty in Hk. Qed.

Lemma hot1_wellKeyedArchive : wellKeyedArchive hot1.
Proof.
  intros k e Hk. unfold hot1 in Hk.
  apply lookup_singleton_Some in Hk as [<- [= <-]]. reflexivity.
Qed.

(** The runs used as examples: RestoreFootprint of [key1], archived in the
    hot archive; the reads of an invoke operation that autorestores [key1],
    whose TTL in the live state expired at ledger 99; and RestoreFootprint of
    [key1] and [key2] where [key1] is live until ledger 200, with and without
    [key1] in the footprint. *)
Local Abbreviation hotRestoreRun :=
  (@RestoreFootprintOpFrame.doApply codec utils (bridge (Throws OutOfRange))
     (restoreEnv [key1] hot1) (ltx0 100 23 ∅) None (Some 1000000) []).
Local Abbreviation expiredReadsRun :=
  (@InvokeHostFunctionOpFrame.addReads codec utils
     (invokeEnv [] [key1] 100 ∅ [true]) [key1] false
     (invokeState (ltx0 100 23 (live1 99)) 100)).

(** [C4], on examples: at ledger 100 with a minimum persistent TTL of 4096,
    RestoreFootprint restores [entry1] from the hot archive, and the reads of
    an invoke operation autorestore the expired [entry1] of the live state;
    both write the TTL 4195. *)
Lemma C4_restoration_witness :
  liveUntilOf (H := codec)
    (RestoreFootprintOpFrame.ltx (state_of hotRestoreRun)) entry1 = Some 4195
  ∧ liveUntilOf (H := codec)
      (InvokeHostFunctionOpFrame.mLtx (state_of expiredReadsRun)) entry1
    = Some 4195.
Proof.
  split.
  - refine (proj2 (@C4_restored_ttl_is_minimum_persistent_ttl codec utils
              (bridge (Throws OutOfRange)) 100 4096 entry1 _ _) _).
    + apply (@RestoredByRestoreFootprint codec utils (bridge (Throws OutOfRange))
               100 4096 entry1 _
               (restoreEnv [key1] hot1) (ltx0 100 23 ∅) None (Some 1000000) []
               (state_of hotRestoreRun) key1 true).
      * reflexivity.
      * reflexivity.
      * apply empty_wellKeyed.
      * apply hot1_wellKeyedArchive.
      * repeat constructor.
      * apply list_elem_of_here.
      * repeat split.
      * apply run_Done. vm_compute. reflexivity.
      * reflexivity.
    + lia.
  - refine (proj2 (@C4_restored_ttl_is_minimum_persistent_ttl codec utils
              (bridge (Throws OutOfRange)) 100 4096 entry1 _ _) _).
    + apply (@RestoredByAutorestore codec utils (bridge (Throws OutOfRange))
               100 4096 entry1 _
               (invokeEnv [] [key1] 100 ∅ [true])
               (invokeState (ltx0 100 23 (live1 99)) 100)
               (state_of expiredReadsRun) [key1] key1 false).
      * reflexivity.
      * reflexivity.
      * apply live1_wellKeyed.
      * apply empty_wellKeyedArchive.
      * reflexivity.
      * apply list_elem_of_here.
      * exists (ttlEntry1 99). repeat split.
      * apply run_Done. vm_compute. reflexivity.
      * reflexivity.
    + lia.
Defined.

(** [C2], on an example: the read-write footprint is [key2; key1], only
    index 0 is marked for autorestore, and the hot archive holds [entry1]
    under [key1]. *)
Lemma C2_entry_archived_witness :
  let env := invokeEnv [] [key2; key1] 100 hot1 [true; false] in
  let s := invokeState (ltx0 100 23 ∅) 100 in
  let s1 := state_of (@InvokeHostFunctionOpFrame.addReads codec utils
                        env [key2] false s) in
  ∃ s', @InvokeHostFunctionOpFrame.apply codec utils (bridge (Throws OutOfRange))
          env s = Done false s'
        ∧ InvokeHostFunctionOpFrame.mRes s'
          = Some InvokeHostFunctionOpFrame.INVOKE_HOST_FUNCTION_ENTRY_ARCHIVED
        ∧ (∃ d, archivedDiagnosticOf key1 = [d]
                ∧ InvokeHostFunctionOpFrame.mDiagnosticEvents s'
                  = InvokeHostFunctionOpFrame.mDiagnosticEvents s1 ++ [d])
        ∧ InvokeHostFunctionOpFrame.mLtx s' = InvokeHostFunctionOpFrame.mLtx s1
        ∧ InvokeHostFunctionOpFrame.mLedgerEntryCxxBufs s'
          = InvokeHostFunctionOpFrame.mLedgerEntryCxxBufs s1
        ∧ InvokeHostFunctionOpFrame.mTtlEntryCxxBufs s'
          = InvokeHostFunctionOpFrame.mTtlEntryCxxBufs s1.
Proof.
  intros env s s1.
  apply (@C2_archived_entry_fails_with_entry_archived codec utils
           (bridge (Throws OutOfRange)) env s s1 false [key2] [] key1 entry1 true).
  - split; [reflexivity|]. exists s. split; vm_compute; reflexivity.
  - reflexivity.
  - repeat split.
  - right. right. reflexivity.
Defined.

(** [C3], on an example: 100 instructions declared, 200 reported. *)
Lemma C3_failed_invocation_witness :
  let env := invokeEnv [] [] 100 ∅ [] in
  let s := invokeState (ltx0 100 23 ∅) 100 in
  ∃ s', @InvokeHostFunctionOpFrame.apply codec utils
          (bridge (Returns (failedOutput 200 0))) env s = Done false s'
        ∧ InvokeHostFunctionOpFrame.mRes s'
          = Some InvokeHostFunctionOpFrame.INVOKE_HOST_FUNCTION_RESOURCE_LIMIT_EXCEEDED.
Proof.
  intros env s.
  destruct (proj2 (@C3_failed_invocation_result codec utils
                     (bridge (Returns (failedOutput 200 0))) env s s
                     (state_of (@InvokeHostFunctionOpFrame.invokeHost utils
                                  (bridge (Returns (failedOutput 200 0))) env s))
                     (failedOutput 200 0) eq_refl eq_refl eq_refl) eq_refl)
    as (s' & Happly & Hres & _).
  exists s'. split; [exact Happly|exact Hres].
Defined.

(** [C6], on an example: the footprint is [key1; key2], and [key1] is in
    the live state with a TTL that is live at ledger 100. *)
Lemma C6_live_key_witness :
  @RestoreFootprintOpFrame.doApply codec utils (bridge (Throws OutOfRange))
    (restoreEnv [key1; key2] ∅) (ltx0 100 23 (live1 200)) None (Some 1000000) []
  = @RestoreFootprintOpFrame.doApply codec utils (bridge (Throws OutOfRange))
      (with_readWrite (restoreEnv [key1; key2] ∅) ([] ++ [key2]))
      (ltx0 100 23 (live1 200)) None (Some 1000000) [].
Proof.
  apply (@C6_live_key_is_skipped codec utils (bridge (Throws OutOfRange))
           (restoreEnv [key1; key2] ∅) (ltx0 100 23 (live1 200)) None
           (Some 1000000) [] [] [key2] key1 (ttlEntry1 200)).
  - reflexivity.
  - repeat constructor.
  - apply live1_wellKeyed.
  - apply empty_wellKeyedArchive.
  - reflexivity.
  - reflexivity.
Defined.

(** [C8], on examples with a limit of 8198 bytes: two events of 5000 and 4000
    bytes; and one event of 5000 bytes with a return value of 4000 bytes. *)
Lemma C8_event_size_witness :
  let env := invokeEnv [] [] 100 ∅ [] in
  let s := invokeState (ltx0 100 23 ∅) 100 in
  (∃ s' c, @InvokeHostFunctionOpFrame.apply codec utils
             (bridge (Returns (eventsOutput [(5000, 1%N); (4000, 2%N)] 10))) env s
           = Done false s'
           ∧ InvokeHostFunctionOpFrame.mRes s'
             = Some InvokeHostFunctionOpFrame.INVOKE_HOST_FUNCTION_RESOURCE_LIMIT_EXCEEDED
           ∧ last (InvokeHostFunctionOpFrame.mDiagnosticEvents s')
             = Some (eventsSizeError env c))
  ∧ (∃ s' c, @InvokeHostFunctionOpFrame.apply codec utils
               (bridge (Returns (eventsOutput [(5000, 1%N)] 4000))) env s
             = Done false s'
             ∧ InvokeHostFunctionOpFrame.mRes s'
               = Some InvokeHostFunctionOpFrame.INVOKE_HOST_FUNCTION_RESOURCE_LIMIT_EXCEEDED
             ∧ last (InvokeHostFunctionOpFrame.mDiagnosticEvents s')
               = Some (returnValueSizeError env c)).
Proof.
  intros env s. split.
  - refine (proj1 (@C8_event_size_limit_enforced_twice codec utils
              (bridge (Returns (eventsOutput [(5000, 1%N); (4000, 2%N)] 10)))
              env s _ _ eq_refl _) _).
    + eexists _, _, _, _. repeat split; reflexivity.
    + exists 2%nat. split; [simpl; lia|]. vm_compute. reflexivity.
  - refine (proj1 (proj2 (@C8_event_size_limit_enforced_twice codec utils
              (bridge (Returns (eventsOutput [(5000, 1%N)] 4000)))
              env s _ _ eq_refl _)) _ _).
    + eexists _, _, _, _. repeat split; reflexivity.
    + intros n Hn. simpl in Hn. assert (n = 1%nat) as -> by lia.
      vm_compute. discriminate.
    + vm_compute. reflexivity.
Defined.

(** [C9], on an example: with two registered invariants and none enabled,
    the pattern [.*] enables both, in the order of their names. *)
Lemma C9_enableInvariant_witness :
  @InvariantManagerImpl.enableInvariant stdRegex ".*" manager0
  = Done () (InvariantManagerImpl.mkState
               (InvariantManagerImpl.mInvariants manager0) [inv1; inv2]).
Proof.
  refine (proj2 (proj2 (proj2 (@C9_enableInvariant_pattern stdRegex ".*" manager0 _)
                          _)) _ _).
  - split.
    + vm_compute. repeat constructor; intros Hin; repeat
        (apply elem_of_cons in Hin as [Hin|Hin]; [discriminate|]); inversion Hin.
    + intros p Hp. repeat (apply elem_of_cons in Hp as [->|Hp]; [reflexivity|]).
      inversion Hp.
  - discriminate.
  - discriminate.
  - intros p Hp Hin. inversion Hin.
Defined.
(** RestoreFootprint at ledger 100: [key1] comes back from the hot archive
    and the expired code entry [key2] from the live state; both get the TTL
    4195, and the code entry is charged by its memory size. *)
Example restore_footprint_scenario :
  match @RestoreFootprintOpFrame.doApply codec utils (bridge (Throws OutOfRange))
          (restoreEnv [key1; key2] hot1) (ltx0 100 23 live2) None (Some 1000000) []
  with
  | Done ok s =>
      ok = true
      ∧ RestoreFootprintOpFrame.res s
        = Some RestoreFootprintOpFrame.RESTORE_FOOTPRINT_SUCCESS
      ∧ RestoreFootprintOpFrame.rustEntryRentChanges s
        = [mkRentChange true 0 96 0 4195; mkRentChange true 0 1000 0 4195]
      ∧ @liveUntilOf codec (RestoreFootprintOpFrame.ltx s) entry1 = Some 4195
      ∧ @liveUntilOf codec (RestoreFootprintOpFrame.ltx s) entry2 = Some 4195
  | Thrown _ _ => False
  end.
Proof. vm_compute. repeat split. Qed.

(** Autorestore in an invoke operation: success, the entry is live again with
    the TTL 4195, and event bytes and rent fee are charged to the refundable
    fee; with too small a refundable fee the operation fails. *)
Example autorestore_scenario :
  match @InvokeHostFunctionOpFrame.doApply codec utils
          (bridge (Returns autorestoreOutput)) autorestoreApp autorestoreFrame
          (ltx0 100 23 ∅) 0 None (Some 1000000) []
  with
  | Done ok s =>
      ok = true
      ∧ InvokeHostFunctionOpFrame.mRes s
        = Some InvokeHostFunctionOpFrame.INVOKE_HOST_FUNCTION_SUCCESS
      ∧ @liveUntilOf codec (InvokeHostFunctionOpFrame.mLtx s) entry1 = Some 4195
      ∧ InvokeHostFunctionOpFrame.mRefundableFeeTracker s = Some 999872
  | Thrown _ _ => False
  end.
Proof. vm_compute. repeat split. Qed.

Example refundable_fee_shortfall_scenario :
  match @InvokeHostFunctionOpFrame.doApply codec utils
          (bridge (Returns autorestoreOutput)) autorestoreApp autorestoreFrame
          (ltx0 100 23 ∅) 0 None (Some 100) []
  with
  | Done ok s =>
      ok = false
      ∧ InvokeHostFunctionOpFrame.mRes s
        = Some InvokeHostFunctionOpFrame.INVOKE_HOST_FUNCTION_INSUFFICIENT_REFUNDABLE_FEE
  | Thrown _ _ => False
  end.
Proof. vm_compute. repeat split. Qed.

End examples.

(** * Further properties *)

(** ** The order of the keys and the merge walk of [start] *)

Section start_properties.
Import ArchivedStateConsistency.

Lemma lex_ltb_irrefl a : lex_ltb a a = false.
Proof. induction a as [|x a IH]; simpl; [done|]. by rewrite N.ltb_irrefl. Qed.

Lemma lex_ltb_trans a b c :
  lex_ltb a b = true → lex_ltb b c = true → lex_ltb a c = true.
Proof.
  revert b c. induction a as [|x a IH]; intros [|y b] [|z c]; simpl; try done.
  destruct (N.ltb_spec x y), (N.ltb_spec y x), (N.ltb_spec y z), (N.ltb_spec z y),
    (N.ltb_spec x z), (N.ltb_spec z x); try done; try lia.
  apply IH.
Qed.

Lemma lex_ltb_total a b :
  lex_ltb a b = false → lex_ltb b a = false → a = b.
Proof.
  revert b. induction a as [|x a IH]; intros [|y b]; simpl; try done.
  destruct (N.ltb_spec x y), (N.ltb_spec y x); try done; try lia.
  intros Hab Hba. f_equal; [lia|by apply IH].
Qed.

Lemma LedgerKey_ltb_irrefl a : LedgerKey_ltb a a = false.
Proof. unfold LedgerKey_ltb. by rewrite N.ltb_irrefl, lex_ltb_irrefl. Qed.

Lemma LedgerKey_ltb_trans a b c :
  LedgerKey_ltb a b = true → LedgerKey_ltb b c = true → LedgerKey_ltb a c = true.
Proof.
  unfold LedgerKey_ltb.
  destruct (N.ltb_spec (LedgerEntryType_tag (LedgerKey_type a))
              (LedgerEntryType_tag (LedgerKey_type b))),
    (N.ltb_spec (LedgerEntryType_tag (LedgerKey_type b))
              (LedgerEntryType_tag (LedgerKey_type a))),
    (N.ltb_spec (LedgerEntryType_tag (LedgerKey_type b))
              (LedgerEntryType_tag (LedgerKey_type c))),
    (N.ltb_spec (LedgerEntryType_tag (LedgerKey_type c))
              (LedgerEntryType_tag (LedgerKey_type b))),
    (N.ltb_spec (LedgerEntryType_tag (LedgerKey_type a))
              (LedgerEntryType_tag (LedgerKey_type c))),
    (N.ltb_spec (LedgerEntryType_tag (LedgerKey_type c))
              (LedgerEntryType_tag (LedgerKey_type a))); try done; try lia.
  apply lex_ltb_trans.
Qed.

Lemma LedgerKey_ltb_total a b :
  LedgerKey_ltb a b = false → LedgerKey_ltb b a = false → a = b.
Proof.
  unfold LedgerKey_ltb.
  destruct (N.ltb_spec (LedgerEntryType_tag (LedgerKey_type a))
              (LedgerEntryType_tag (LedgerKey_type b))),
    (N.ltb_spec (LedgerEntryType_tag (LedgerKey_type b))
              (LedgerEntryType_tag (LedgerKey_type a))); try done; try lia.
  intros Hab Hba. pose proof (lex_ltb_total _ _ Hab Hba) as Hf.
  assert (Ht : LedgerEntryType_tag (LedgerKey_type a)
               = LedgerEntryType_tag (LedgerKey_type b)) by lia.
  clear -Hf Ht.
  destruct a as [[] ?|? ? []|?|?], b as [[] ?|? ? []|?|?]; simpl in *;
    try discriminate; by simplify_eq.
Qed.

Lemma start_walk_cons ka va archived kl vl live :
  start_walk ((ka, va) :: archived) ((kl, vl) :: live)
  = if LedgerKey_ltb ka kl then start_walk archived ((kl, vl) :: live)
    else if LedgerKey_ltb kl ka then start_walk ((ka, va) :: archived) live
    else Some (SameKeyInLiveAndArchived ka).
Proof. reflexivity. Qed.

Lemma start_walk_nil_r archived : start_walk archived [] = None.
Proof. by destruct archived as [|[]]. Qed.

Lemma start_walk_spec archived live :
  keysSorted archived → keysSorted live →
  match start_walk archived live with
  | None => ∀ k, k ∈ archived.*1 → k ∉ live.*1
  | Some f => ∃ k, f = SameKeyInLiveAndArchived k ∧ k ∈ archived.*1 ∧ k ∈ live.*1
  end.
Proof.
  unfold keysSorted. revert live.
  induction archived as [|[ka va] archived IHa]; intros live Ha Hl.
  { simpl. destruct live; intros k Hk; inversion Hk. }
  induction live as [|[kl vl] live IHl].
  { rewrite start_walk_nil_r. intros k _ Hk. inversion Hk. }
  rewrite start_walk_cons. simpl in Ha, Hl.
  pose proof Hl as Hl0.
  apply StronglySorted_inv in Ha as [Ha Hka].
  apply StronglySorted_inv in Hl as [Hl Hkl].
  rewrite Forall_forall in Hka, Hkl.
  destruct (LedgerKey_ltb ka kl) eqn:Hlt.
  - specialize (IHa ((kl, vl) :: live) Ha Hl0).
    destruct (start_walk archived ((kl, vl) :: live)) as [f|].
    + destruct IHa as (k & -> & Hk1 & Hk2).
      exists k. split; [done|]. split; [by apply list_elem_of_further|done].
    + intros k Hk Hin. simpl in Hk. apply elem_of_cons in Hk as [->|Hk].
      * simpl in Hin. apply elem_of_cons in Hin as [->|Hin].
        -- by rewrite LedgerKey_ltb_irrefl in Hlt.
        -- apply Hkl in Hin.
           pose proof (LedgerKey_ltb_trans _ _ _ Hlt Hin) as Hc.
           by rewrite LedgerKey_ltb_irrefl in Hc.
      * by eapply IHa.
  - destruct (LedgerKey_ltb kl ka) eqn:Hgt.
    + specialize (IHl Hl).
      destruct (start_walk ((ka, va) :: archived) live) as [f|].
      * destruct IHl as (k & -> & Hk1 & Hk2).
        exists k. split; [done|]. split; [done|by apply list_elem_of_further].
      * intros k Hk Hin. simpl in Hin. apply elem_of_cons in Hin as [->|Hin];
          [|by eapply IHl].
        simpl in Hk. apply elem_of_cons in Hk as [->|Hk].
        -- by rewrite LedgerKey_ltb_irrefl in Hgt.
        -- apply Hka in Hk.
           pose proof (LedgerKey_ltb_trans _ _ _ Hgt Hk) as Hc.
           by rewrite LedgerKey_ltb_irrefl in Hc.
    + pose proof (LedgerKey_ltb_total _ _ Hlt Hgt) as ->.
      exists kl. split; [done|]. split; apply list_elem_of_here.
Qed.

(** [X1] From the first protocol that supports persistent eviction on, the
    merge walk of [start] over the two complete states, each in the order of
    its keys, returns the empty string exactly when no key is in both states;
    a message that it returns names a key that is in both. *)
Theorem X1_start_reports_exactly_the_shared_keys (protocolVersion : Z)
    (archived live : list (LedgerKey * LedgerEntry)) :
  FIRST_PROTOCOL_SUPPORTING_PERSISTENT_EVICTION ≤ protocolVersion →
  keysSorted archived → keysSorted live →
  ((start protocolVersion archived live).2 = None
   ↔ ∀ k, k ∈ archived.*1 → k ∉ live.*1)
  ∧ (∀ f, (start protocolVersion archived live).2 = Some f →
          ∃ k, f = SameKeyInLiveAndArchived k ∧ k ∈ archived.*1 ∧ k ∈ live.*1).
Proof.
  intros Hv Ha Hl. unfold start, protocolVersionIsBefore.
  rewrite (proj2 (Z.ltb_ge _ _)) by done. simpl.
  pose proof (start_walk_spec archived live Ha Hl) as Hspec.
  destruct (start_walk archived live) as [f|].
  - split.
    + split; [done|]. intros Hdis. destruct Hspec as (k & _ & Hk1 & Hk2).
      by destruct (Hdis k Hk1).
    + intros g [= <-]. done.
  - split; [done|]. intros f Hf. done.
Qed.

End start_properties.

(** ** The checks of [checkOnLedgerCommit] *)

Section commit_properties.
Import ArchivedStateConsistency.
Context `{XdrCodec}.

Lemma isLive_false_iff ttl seq :
  isLive ttl seq = Returns false
  ↔ ∃ keyHash liveUntil, data ttl = TTLData keyHash liveUntil ∧ liveUntil < seq.
Proof.
  unfold isLive. destruct (data ttl); split; try done;
    try (by intros (? & ? & ? & ?)).
  - intros [= Hle]. apply Z.leb_gt in Hle. eauto.
  - intros (h & l & [= -> ->] & Hlt). f_equal. by apply Z.leb_gt.
Qed.

Lemma ttlExpired_iff live ttlKey seq :
  ttlExpired live ttlKey seq
  ↔ ∃ ttl, live !! ttlKey = Some ttl ∧ isLive ttl seq = Returns false.
Proof.
  unfold ttlExpired. split.
  - intros (ttl & h & l & Hl & Hd & Hlt). exists ttl. split; [done|].
    apply isLive_false_iff. eauto.
  - intros (ttl & Hl & (h & l & Hd & Hlt)%isLive_false_iff). eauto 10.
Qed.

Lemma ttlExpired_mono (live live' : gmap LedgerKey LedgerEntry) ttlKey seq :
  (∀ k e, live !! k = Some e → live' !! k = Some e) →
  ttlExpired live ttlKey seq → ttlExpired live' ttlKey seq.
Proof. intros Hsub (ttl & h & l & Hl & Hd & Hlt). exists ttl, h, l. auto. Qed.

Lemma checkEvictedEntry_None live archived seq vers e :
  checkEvictedEntry live archived seq vers e = Returns None
  ↔ evictedEntryConsistent live archived seq vers e.
Proof.
  unfold checkEvictedEntry, evictedEntryConsistent. rewrite ttlExpired_iff.
  change (LedgerEntryKey_data (data e)) with (LedgerEntryKey e).
  destruct (isPersistentEntry (LedgerEntryKey e)) eqn:Hp; simpl;
    [|split; [done|by intros [? _]]].
  destruct (archived !! LedgerEntryKey e) as [pre|] eqn:Ha.
  { split; [|by intros (_ & ? & _)]. by destruct pre. }
  destruct (live !! LedgerEntryKey e) as [liveEntry|] eqn:Hl.
  2:{ split; [done|]. by intros (_ & _ & (? & ? & _) & _). }
  destruct (live !! getTTLKey (LedgerEntryKey e)) as [ttl|] eqn:Httl.
  2:{ split; [done|]. by intros (_ & _ & _ & (? & ? & _)). }
  destruct (isLive ttl seq) as [[]|ex] eqn:Hlive; simpl.
  - split; [done|]. intros (_ & _ & _ & (? & ? & ?)). congruence.
  - unfold protocolVersionStartsFrom.
    destruct (Z.leb_spec V_24 vers); simpl.
    + case_bool_decide as Hne; split; try done.
      * intros (_ & _ & (? & ? & Heq) & _). simplify_eq. by destruct Hne, Heq.
      * intros _. repeat split; try done; [|eauto].
        exists liveEntry. split; [done|]. intros _.
        by destruct (decide (e = liveEntry)).
    + split; [|done]. intros _. repeat split; try done; [|eauto].
      exists liveEntry. split; [done|]. lia.
  - split; [done|]. intros (_ & _ & _ & (? & ? & ?)). congruence.
Qed.

Lemma checkDeletedTempKey_None live seq k :
  checkDeletedTempKey live seq k = Returns None
  ↔ deletedTempKeyConsistent live seq k.
Proof.
  unfold checkDeletedTempKey, deletedTempKeyConsistent. rewrite ttlExpired_iff.
  destruct (live !! k) as [e|] eqn:Hl.
  2:{ split; [done|]. by intros [[? ?] _]. }
  destruct (live !! getTTLKey k) as [ttl|] eqn:Httl.
  2:{ split; [done|]. by intros (_ & (? & ? & _)). }
  destruct (isLive ttl seq) as [[]|ex] eqn:Hlive; simpl.
  - split; [done|]. intros (_ & (? & ? & ?)). congruence.
  - split; [|done]. intros _. split; [done|eauto].
  - split; [done|]. intros (_ & (? & ? & ?)). congruence.
Qed.

(** [X2] The eviction check returns the empty string exactly when every
    evicted entry is persistent, absent from the preloaded archive and
    present in the preloaded live state (with the same value, from protocol
    24 on) together with an expired TTL; every deleted temporary key is in
    the preloaded live state together with an expired TTL; and the number of
    deleted temporary keys plus the number of evicted entries equals the
    number of the other deleted keys. *)
Theorem X2_eviction_check_passes_iff
    (preloadedLiveEntries : gmap LedgerKey LedgerEntry)
    (preloadedArchivedEntries : gmap LedgerKey HotArchiveBucketEntry)
    (deletedKeys : list LedgerKey) (archivedEntries : list LedgerEntry)
    (ledgerSeq ledgerVers : Z) :
  checkEvictionInvariants preloadedLiveEntries preloadedArchivedEntries
    deletedKeys archivedEntries ledgerSeq ledgerVers = Returns None
  ↔ (∀ e, e ∈ archivedEntries →
          evictedEntryConsistent preloadedLiveEntries preloadedArchivedEntries
            ledgerSeq ledgerVers e)
    ∧ (∀ k, k ∈ deletedKeys → isTemporaryEntry k = true →
            deletedTempKeyConsistent preloadedLiveEntries ledgerSeq k)
    ∧ (numTemps deletedKeys + length archivedEntries)%nat = numTTLs deletedKeys.
Proof.
  unfold checkEvictionInvariants.
  destruct (bool_decide (deletedKeys = []) && bool_decide (archivedEntries = []))
    eqn:Hempty.
  { apply andb_prop in Hempty as [->%bool_decide_eq_true ->%bool_decide_eq_true].
    split; [|done]. intros _. split; [intros e He; inversion He|].
    split; [intros k Hk; inversion Hk|done]. }
  split.
  - intros Hr.
    destruct (first_failure _ archivedEntries) as [[f|]|e] eqn:Hff; simpl in Hr;
      [done| |done].
    destruct (countDeletedKeys _ _ deletedKeys 0 0) as [[f|[ttls' temps']]|e] eqn:Hc;
      simpl in Hr; [done| |done].
    pose proof (countDeletedKeys_inr _ _ _ _ _ _ Hc) as Hall.
    rewrite (countDeletedKeys_pass _ _ _ _ _ Hall) in Hc. simplify_eq.
    split; [|split].
    + intros e He. apply checkEvictedEntry_None.
      by apply (proj1 (first_failure_None _ _) Hff).
    + intros k Hk Ht. apply checkDeletedTempKey_None. by apply Hall.
    + case_bool_decide as Hne; [done|]. simpl in Hne.
      destruct (decide ((numTemps deletedKeys + length archivedEntries)%nat
                        = numTTLs deletedKeys)); [done|by destruct Hne].
  - intros (Hev & Hdel & Heq).
    rewrite (proj2 (first_failure_None _ _)); simpl.
    2:{ intros e He. by apply checkEvictedEntry_None, Hev. }
    rewrite countDeletedKeys_pass; simpl.
    2:{ intros k Hk Ht. by apply checkDeletedTempKey_None, Hdel. }
    by rewrite bool_decide_eq_false_2 by (intros Hne; by apply Hne).
Qed.

Lemma umap_find_None {V} (m : list (LedgerKey * V)) k :
  umap_find m k = None ↔ k ∉ m.*1.
Proof.
  induction m as [|[k' v] m IH]; simpl.
  - split; [intros _ Hk; inversion Hk|done].
  - rewrite not_elem_of_cons. destruct (decide (k' = k)) as [->|Hne].
    + split; [done|]. by intros [? _].
    + rewrite IH. split; [|tauto]. intros. split; [congruence|done].
Qed.

Lemma checkRestoredFromLiveKey_None restored p :
  checkRestoredFromLiveKey restored p = Returns None
  ↔ (LedgerKey_type p.1 ≠ TTL →
     isPersistentEntry p.1 = true ∧ getTTLKey p.1 ∈ restored.*1).
Proof.
  unfold checkRestoredFromLiveKey. case_bool_decide as Hty; [split; done|].
  destruct (isPersistentEntry p.1); simpl.
  - destruct (umap_find restored (getTTLKey p.1)) eqn:Hf.
    + split; [|done]. intros _ _. split; [done|].
      destruct (decide (getTTLKey p.1 ∈ restored.*1)) as [|Hn]; [done|].
      apply umap_find_None in Hn. congruence.
    + split; [done|]. intros Hp. destruct (Hp Hty) as [_ Hin].
      by apply umap_find_None in Hf.
  - split; [done|]. intros Hp. by destruct (Hp Hty).
Qed.

Lemma checkRestoredFromArchiveKey_None restored p :
  checkRestoredFromArchiveKey restored p = Returns None
  ↔ (LedgerKey_type p.1 ≠ TTL →
     isPersistentEntry p.1 = true ∧ getTTLKey p.1 ∈ restored.*1).
Proof.
  unfold checkRestoredFromArchiveKey. case_bool_decide as Hty; [split; done|].
  destruct (isPersistentEntry p.1); simpl.
  - destruct (umap_find restored (getTTLKey p.1)) eqn:Hf.
    + split; [|done]. intros _ _. split; [done|].
      destruct (decide (getTTLKey p.1 ∈ restored.*1)) as [|Hn]; [done|].
      apply umap_find_None in Hn. congruence.
    + split; [done|]. intros Hp. destruct (Hp Hty) as [_ Hin].
      by apply umap_find_None in Hf.
  - split; [done|]. intros Hp. by destruct (Hp Hty).
Qed.

Lemma checkHotArchiveRestore_None live archived ver p :
  checkHotArchiveRestore live archived ver p = Returns None
  ↔ hotArchiveRestoreConsistent live archived ver p.
Proof.
  unfold checkHotArchiveRestore, hotArchiveRestoreConsistent.
  destruct p as [key entry]. simpl.
  destruct (live !! key) eqn:Hl; [split; [done|by intros [? _]]|].
  case_bool_decide as Hty; [split; done|].
  destruct (archived !! key) as [[hot| |]|] eqn:Ha; simpl.
  - destruct (restoredValueIsIncorrect hot entry ver) eqn:Hinc.
    + split; [done|]. intros [_ Hc]. destruct (Hc Hty) as (hot' & [= <-] & Hd & He).
      apply restoredValueIsIncorrect_spec in Hinc as [Hdata|[Hext Hv]]; [done|].
      by apply He in Hv.
    + split; [|done]. intros _. split; [done|]. intros _. exists hot.
      split; [done|].
      assert (Hn : ¬ (data hot ≠ data entry ∨ (ext hot ≠ ext entry ∧ V_24 ≤ ver))).
      { intros Hc%restoredValueIsIncorrect_spec. congruence. }
      split.
      * destruct (decide (data hot = data entry)); [done|]. destruct Hn. by left.
      * intros Hv. destruct (decide (ext hot = ext entry)); [done|].
        destruct Hn. by right.
  - split; [done|]. intros [_ Hc]. by destruct (Hc Hty) as (? & ? & _).
  - split; [done|]. intros [_ Hc]. by destruct (Hc Hty) as (? & ? & _).
  - split; [done|]. intros [_ Hc]. by destruct (Hc Hty) as (? & ? & _).
Qed.

Lemma checkLiveRestore_None live archived seq p :
  checkLiveRestore live archived seq p = Returns None
  ↔ liveRestoreConsistent live archived seq p.
Proof.
  unfold checkLiveRestore, liveRestoreConsistent.
  destruct p as [key entry]. simpl.
  destruct (archived !! key) as [hot|] eqn:Ha.
  { split; [|by intros [? _]]. by destruct hot. }
  destruct (live !! key) as [liveEntry|] eqn:Hl;
    [|split; [done|by intros (_ & ? & _)]].
  case_bool_decide as Hne.
  { split; [done|]. intros (_ & [= ->] & _). done. }
  assert (liveEntry = entry) as ->.
  { destruct (decide (liveEntry = entry)); [done|by destruct Hne]. }
  case_bool_decide as Hty.
  - destruct (isLive entry seq) as [[]|ex] eqn:Hlive; simpl.
    + split; [done|]. intros (_ & _ & Hc).
      apply Hc, isLive_false_iff in Hty. congruence.
    + split; [|done]. intros _. split; [done|]. split; [done|]. intros _.
      by apply isLive_false_iff.
    + split; [done|]. intros (_ & _ & Hc).
      apply Hc, isLive_false_iff in Hty. congruence.
  - split; [|done]. intros _. done.
Qed.

(** [X3] The restore check returns the empty string exactly when, in each of
    the two maps of restored entries, every key that is not a TTL key is
    persistent and comes with its TTL key; every entry restored from the
    archive is absent from the preloaded live state and (unless it is a TTL
    entry) equal in [data] to the archived entry, and in [ext] from protocol
    24 on; and every entry restored from the live state is absent from the
    preloaded archive and equal to the preloaded live entry, a TTL entry
    being expired. *)
Theorem X3_restore_check_passes_iff
    (preloadedLiveEntries : gmap LedgerKey LedgerEntry)
    (preloadedArchivedEntries : gmap LedgerKey HotArchiveBucketEntry)
    (restoredFromArchive restoredFromLiveState : list (LedgerKey * LedgerEntry))
    (ledgerSeq ledgerVer : Z) :
  checkRestoreInvariants preloadedLiveEntries preloadedArchivedEntries
    restoredFromArchive restoredFromLiveState ledgerSeq ledgerVer = Returns None
  ↔ restoredKeysPaired restoredFromLiveState
    ∧ restoredKeysPaired restoredFromArchive
    ∧ (∀ p, p ∈ restoredFromArchive →
            hotArchiveRestoreConsistent preloadedLiveEntries
              preloadedArchivedEntries ledgerVer p)
    ∧ (∀ p, p ∈ restoredFromLiveState →
            liveRestoreConsistent preloadedLiveEntries preloadedArchivedEntries
              ledgerSeq p).
Proof.
  unfold checkRestoreInvariants, restoredKeysPaired. split.
  - intros Hr.
    destruct (first_failure (checkRestoredFromLiveKey _) _) as [[f|]|e] eqn:Hr1;
      simpl in Hr; [done| |done].
    destruct (first_failure (checkRestoredFromArchiveKey _) _) as [[f|]|e] eqn:Hr2;
      simpl in Hr; [done| |done].
    destruct (first_failure (checkHotArchiveRestore _ _ _) _) as [[f|]|e] eqn:Hr3;
      simpl in Hr; [done| |done].
    rewrite first_failure_None in Hr1, Hr2, Hr3, Hr.
    split; [|split; [|split]].
    + intros p Hp. by apply checkRestoredFromLiveKey_None, Hr1.
    + intros p Hp. by apply checkRestoredFromArchiveKey_None, Hr2.
    + intros p Hp. by apply checkHotArchiveRestore_None, Hr3.
    + intros p Hp. by apply checkLiveRestore_None, Hr.
  - intros (Hp1 & Hp2 & Hp3 & Hp4).
    rewrite (proj2 (first_failure_None (checkRestoredFromLiveKey _) _)); simpl.
    2:{ intros p Hp. by apply checkRestoredFromLiveKey_None, Hp1. }
    rewrite (proj2 (first_failure_None (checkRestoredFromArchiveKey _) _)); simpl.
    2:{ intros p Hp. by apply checkRestoredFromArchiveKey_None, Hp2. }
    rewrite (proj2 (first_failure_None (checkHotArchiveRestore _ _ _) _)); simpl.
    2:{ intros p Hp. by apply checkHotArchiveRestore_None, Hp3. }
    apply first_failure_None. intros p Hp. by apply checkLiveRestore_None, Hp4.
Qed.

Lemma preloadLive_loadKeys store keys k :
  wellKeyed store →
  preloadLive (loadKeys store keys) !! k
  = if decide (k ∈ keys) then store !! k else None.
Proof.
  intros Hwk. unfold preloadLive, loadKeys.
  assert (Hgen : ∀ l (m : gmap LedgerKey LedgerEntry),
    foldl (λ m entry, <[LedgerEntryKey entry := entry]> m) m
      (omap (λ k, store !! k) l) !! k
    = if decide (k ∈ l)
      then match store !! k with Some e => Some e | None => m !! k end
      else m !! k).
  { induction l as [|k' l IH]; intros m; simpl.
    - done.
    - destruct (store !! k') as [e|] eqn:Hk'; simpl.
      + rewrite IH, (Hwk _ _ Hk'). destruct (decide (k = k')) as [->|Hne].
        * rewrite Hk', lookup_insert_eq, (decide_True (P := k' ∈ k' :: l))
            by apply list_elem_of_here.
          by destruct (decide (k' ∈ l)).
        * rewrite lookup_insert_ne by done.
          destruct (decide (k ∈ l)) as [Hin|Hnin].
          -- by rewrite decide_True by (by apply list_elem_of_further).
          -- rewrite decide_False; [done|]. rewrite elem_of_cons. tauto.
      + rewrite IH. destruct (decide (k = k')) as [->|Hne].
        * rewrite Hk', (decide_True (P := k' ∈ k' :: l)) by apply list_elem_of_here.
          by destruct (decide (k' ∈ l)).
        * destruct (decide (k ∈ l)) as [Hin|Hnin].
          -- by rewrite decide_True by (by apply list_elem_of_further).
          -- rewrite decide_False; [done|]. rewrite elem_of_cons. tauto. }
  rewrite Hgen, lookup_empty.
  destruct (decide (k ∈ elements keys)) as [Hin|Hnin].
  - rewrite decide_True by (by apply elem_of_elements). by destruct (store !! k).
  - rewrite decide_False; [done|]. by rewrite <- elem_of_elements.
Qed.

Lemma preloadArchived_loadKeys store keys k :
  wellKeyedArchive store →
  preloadArchived (loadKeys store keys) !! k
  = if decide (k ∈ keys) then archivedOnly store !! k else None.
Proof.
  intros Hwk. unfold preloadArchived, loadKeys, archivedOnly.
  rewrite lookup_omap.
  assert (Hgen : ∀ l (m : gmap LedgerKey HotArchiveBucketEntry),
    foldl (λ m entry,
             match entry with
             | HOT_ARCHIVE_ARCHIVED e => <[LedgerEntryKey e := entry]> m
             | _ => m
             end) m (omap (λ k, store !! k) l) !! k
    = if decide (k ∈ l)
      then match store !! k with
           | Some (HOT_ARCHIVE_ARCHIVED e) => Some (HOT_ARCHIVE_ARCHIVED e)
           | _ => m !! k
           end
      else m !! k).
  { induction l as [|k' l IH]; intros m; simpl.
    - done.
    - destruct (store !! k') as [be|] eqn:Hk'; simpl.
      + rewrite IH. destruct (decide (k = k')) as [->|Hne].
        * rewrite Hk', (decide_True (P := k' ∈ k' :: l)) by apply list_elem_of_here.
          destruct be as [e| |]; try by destruct (decide (k' ∈ l)).
          rewrite (Hwk _ _ Hk'), lookup_insert_eq. by destruct (decide (k' ∈ l)).
        * assert (Hm : match be with
                       | HOT_ARCHIVE_ARCHIVED e => <[LedgerEntryKey e := be]> m
                       | _ => m
                       end !! k = m !! k).
          { destruct be as [e| |]; try done.
            by rewrite (Hwk _ _ Hk'), lookup_insert_ne. }
          rewrite Hm.
          destruct (decide (k ∈ l)) as [Hin|Hnin].
          -- by rewrite decide_True by (by apply list_elem_of_further).
          -- rewrite decide_False; [done|]. rewrite elem_of_cons. tauto.
      + rewrite IH. destruct (decide (k = k')) as [->|Hne].
        * rewrite Hk', (decide_True (P := k' ∈ k' :: l)) by apply list_elem_of_here.
          by destruct (decide (k' ∈ l)).
        * destruct (decide (k ∈ l)) as [Hin|Hnin].
          -- by rewrite decide_True by (by apply list_elem_of_further).
          -- rewrite decide_False; [done|]. rewrite elem_of_cons. tauto. }
  rewrite Hgen, lookup_empty.
  destruct (decide (k ∈ elements keys)) as [Hin|Hnin].
  - rewrite decide_True by (by apply elem_of_elements).
    by destruct (store !! k) as [[]|].
  - rewrite decide_False; [done|]. by rewrite <- elem_of_elements.
Qed.

(** [X4] The two preloaded maps that [checkOnLedgerCommit] builds from the
    answers of [loadKeys] agree with the stores on every requested key, and
    hold nothing under any other key: the live map holds the live entry of
    the key, the archived map the entry of the key in the hot archive when
    that is an archived entry.  The stores keep every entry under its own
    key. *)
Theorem X4_preloaded_entries_agree_with_the_stores
    (live : gmap LedgerKey LedgerEntry)
    (hot : gmap LedgerKey HotArchiveBucketEntry) (allKeys : gset LedgerKey)
    (k : LedgerKey) :
  wellKeyed live → wellKeyedArchive hot →
  (k ∈ allKeys →
   preloadLive (loadKeys live allKeys) !! k = live !! k
   ∧ preloadArchived (loadKeys hot allKeys) !! k = archivedOnly hot !! k)
  ∧ (k ∉ allKeys →
     preloadLive (loadKeys live allKeys) !! k = None
     ∧ preloadArchived (loadKeys hot allKeys) !! k = None).
Proof.
  intros Hl Hh. rewrite preloadLive_loadKeys, preloadArchived_loadKeys by done.
  split; intros Hk.
  - by rewrite !decide_True.
  - by rewrite !decide_False.
Qed.

Lemma collectAllKeys_elem evicted deleted rArch rLive k :
  k ∈ collectAllKeys evicted deleted rArch rLive ↔
    (∃ e, e ∈ evicted ∧ k ∈ keysToPreload (LedgerEntryKey e))
    ∨ (∃ d, d ∈ deleted ∧ k ∈ keysToPreload d)
    ∨ (∃ p, p ∈ rArch ∧
            k ∈ (if isPersistentEntry p.1
                 then {[p.1; getTTLKey (LedgerEntryKey p.2)]} else {[p.1]} : gset _))
    ∨ (∃ p, p ∈ rLive ∧
            k ∈ (if isPersistentEntry p.1
                 then {[p.1; getTTLKey (LedgerEntryKey p.2)]} else {[p.1]} : gset _)).
Proof.
  unfold collectAllKeys. rewrite elem_of_union_list. split.
  - intros (X & HX & Hk). rewrite !elem_of_app in HX.
    destruct HX as [HX|[HX|[HX|HX]]];
      apply list_elem_of_fmap in HX as (x & -> & Hx); eauto 10.
  - intros [(e & He & Hk)|[(d & Hd & Hk)|[(p & Hp & Hk)|(p & Hp & Hk)]]];
      eexists; (split; [|exact Hk]); rewrite !elem_of_app.
    + left. apply list_elem_of_fmap. eauto.
    + right. left. apply list_elem_of_fmap. eauto.
    + right. right. left. apply list_elem_of_fmap. eauto.
    + right. right. right. apply list_elem_of_fmap. eauto.
Qed.

Lemma restoredKey_collected (p : LedgerKey * LedgerEntry) :
  p.1 ∈ (if isPersistentEntry p.1
         then {[p.1; getTTLKey (LedgerEntryKey p.2)]} else {[p.1]} : gset _).
Proof.
  destruct (isPersistentEntry p.1).
  - apply elem_of_union. left. by apply elem_of_singleton.
  - by apply elem_of_singleton.
Qed.

(** [X5] From the first protocol that supports persistent eviction on, when
    [checkOnLedgerCommit] returns the empty string, the reported deltas are
    consistent with the two snapshots themselves (not only with what was
    preloaded): every evicted entry is persistent, has no archived entry in
    the hot archive and is in the live snapshot with an expired TTL; every
    deleted temporary key is in the live snapshot with an expired TTL; every
    entry restored from the archive is absent from the live snapshot and
    matches the archived entry; every entry restored from the live state is
    in the live snapshot and has no archived entry.  The ledger sequence of
    the checks is the sequence of the snapshot plus one. *)
Theorem X5_commit_check_is_sound_for_the_snapshots
    (lclLiveState : SearchableSnapshot)
    (lclHotArchiveState : gmap LedgerKey HotArchiveBucketEntry)
    (evictedFromLive : list LedgerEntry) (deletedKeysFromLive : list LedgerKey)
    (restoredFromArchive restoredFromLiveState : list (LedgerKey * LedgerEntry)) :
  let live := snap_entries lclLiveState in
  let archived := archivedOnly lclHotArchiveState in
  let ledgerSeq := u32 (snap_ledgerSeq lclLiveState + 1) in
  let ledgerVers := snap_ledgerVersion lclLiveState in
  FIRST_PROTOCOL_SUPPORTING_PERSISTENT_EVICTION ≤ ledgerVers →
  wellKeyed live → wellKeyedArchive lclHotArchiveState →
  (checkOnLedgerCommit lclLiveState lclHotArchiveState evictedFromLive
     deletedKeysFromLive restoredFromArchive restoredFromLiveState).2
  = Returns None →
  (∀ e, e ∈ evictedFromLive →
        evictedEntryConsistent live archived ledgerSeq ledgerVers e)
  ∧ (∀ k, k ∈ deletedKeysFromLive → isTemporaryEntry k = true →
          deletedTempKeyConsistent live ledgerSeq k)
  ∧ (∀ p, p ∈ restoredFromArchive →
          hotArchiveRestoreConsistent live archived ledgerVers p)
  ∧ (∀ p, p ∈ restoredFromLiveState →
          liveRestoreConsistent live archived ledgerSeq p).
Proof.
  intros live archived ledgerSeq ledgerVers Hv Hwl Hwa.
  unfold checkOnLedgerCommit, protocolVersionIsBefore.
  rewrite (proj2 (Z.ltb_ge _ _)) by done. simpl.
  set (allKeys := collectAllKeys _ _ _ _).
  set (pl := preloadLive _). set (pa := preloadArchived _).
  fold ledgerSeq ledgerVers.
  assert (Hpl : ∀ k, k ∈ allKeys → pl !! k = live !! k).
  { intros k Hk. unfold pl. by rewrite preloadLive_loadKeys, decide_True. }
  assert (Hpa : ∀ k, k ∈ allKeys → pa !! k = archived !! k).
  { intros k Hk. unfold pa. by rewrite preloadArchived_loadKeys, decide_True. }
  assert (Hsub : ∀ k e, pl !! k = Some e → live !! k = Some e).
  { intros k e. unfold pl. rewrite preloadLive_loadKeys by done.
    by case_decide. }
  intros Hr.
  destruct (checkEvictionInvariants _ _ _ _ _ _) as [[f|]|ex] eqn:Hev;
    simpl in Hr; [by destruct (checkRestoreInvariants _ _ _ _ _ _) as [[]|]| |done].
  destruct (checkRestoreInvariants _ _ _ _ _ _) as [[f|]|ex] eqn:Hre;
    simpl in Hr; [done| |done].
  clear Hr.
  assert (Hevicted : ∀ e, e ∈ evictedFromLive →
            checkEvictedEntry pl pa ledgerSeq ledgerVers e = Returns None).
  { unfold checkEvictionInvariants in Hev.
    destruct (_ && _) eqn:Hempty.
    - apply andb_prop in Hempty as [_ ->%bool_decide_eq_true].
      intros e He. inversion He.
    - destruct (first_failure _ evictedFromLive) as [[f|]|ex] eqn:Hff;
        simpl in Hev; [done| |done].
      by apply first_failure_None. }
  assert (Hdeleted : ∀ k, k ∈ deletedKeysFromLive → isTemporaryEntry k = true →
            checkDeletedTempKey pl ledgerSeq k = Returns None).
  { unfold checkEvictionInvariants in Hev.
    destruct (_ && _) eqn:Hempty.
    - apply andb_prop in Hempty as [Hd%bool_decide_eq_true _].
      intros k Hk. apply elem_of_remove_dups in Hk. rewrite Hd in Hk. inversion Hk.
    - destruct (first_failure _ evictedFromLive) as [[f|]|ex];
        simpl in Hev; [done| |done].
      destruct (countDeletedKeys _ _ _ 0 0) as [[f|[ttls' temps']]|e] eqn:Hc;
        simpl in Hev; [done| |done].
      intros k Hk. apply (countDeletedKeys_inr _ _ _ _ _ _ Hc).
      by apply elem_of_remove_dups. }
  unfold checkRestoreInvariants in Hre.
  destruct (first_failure (checkRestoredFromLiveKey _) _) as [[f|]|e] eqn:Hr1;
    simpl in Hre; [done| |done].
  destruct (first_failure (checkRestoredFromArchiveKey _) _) as [[f|]|e] eqn:Hr2;
    simpl in Hre; [done| |done].
  destruct (first_failure (checkHotArchiveRestore _ _ _) _) as [[f|]|e] eqn:Hr3;
    simpl in Hre; [done| |done].
  rewrite first_failure_None in Hr3, Hre.
  split; [|split; [|split]].
  - intros e He. specialize (Hevicted e He).
    apply checkEvictedEntry_None in Hevicted as (Hp & Ha & (le & Hle & Heq) & Httl).
    assert (Hk : LedgerEntryKey e ∈ allKeys).
    { apply collectAllKeys_elem. left. exists e. split; [done|].
      unfold keysToPreload. rewrite Hp. apply elem_of_union. left.
      by apply elem_of_singleton. }
    split; [done|]. split; [by rewrite <- Hpa|].
    split; [exists le; split; [by apply Hsub|done]|].
    by eapply ttlExpired_mono.
  - intros k Hk Ht. specialize (Hdeleted k Hk Ht).
    apply checkDeletedTempKey_None in Hdeleted as [[e He] Httl].
    split; [exists e; by apply Hsub|by eapply ttlExpired_mono].
  - intros p Hp. specialize (Hr3 p Hp).
    apply checkHotArchiveRestore_None in Hr3 as [Hl Harch].
    assert (Hk : p.1 ∈ allKeys).
    { apply collectAllKeys_elem. right. right. left. exists p. split; [done|].
      apply restoredKey_collected. }
    split; [by rewrite <- Hpl|]. intros Hty.
    destruct (Harch Hty) as (hot & Hhot & Hd & He). exists hot.
    split; [by rewrite <- Hpa|done].
  - intros p Hp. specialize (Hre p Hp).
    apply checkLiveRestore_None in Hre as (Ha & Hl & Httl).
    assert (Hk : p.1 ∈ allKeys).
    { apply collectAllKeys_elem. right. right. right. exists p. split; [done|].
      apply restoredKey_collected. }
    split; [by rewrite <- Hpa|]. split; [by apply Hsub|done].
Qed.

End commit_properties.

(** ** The registry and the checks of the invariant manager *)

Section registry_properties.
Import InvariantManagerImpl.
Context `{StdRegex}.

(** [X6] In a well-formed registry, [registerInvariant] throws "Invariant
    <name> already registered" and changes nothing when the name of the
    invariant is registered.  When the name is new it returns, the registry
    stays well formed, it holds the new pair beside the pairs it held, the
    enabled invariants are the same, and registering the same invariant
    again throws. *)
Theorem X6_registerInvariant_rejects_a_registered_name (invariant : Invariant)
    (s : State) :
  registryWellFormed s →
  (getName invariant ∈ (mInvariants s).*1 →
   registerInvariant invariant s
   = Thrown (RuntimeError
               ("Invariant " +:+ getName invariant +:+ " already registered")) s)
  ∧ (getName invariant ∉ (mInvariants s).*1 →
     ∃ s', registerInvariant invariant s = Done () s'
           ∧ registryWellFormed s'
           ∧ mEnabled s' = mEnabled s
           ∧ (∀ p, p ∈ mInvariants s'
                   ↔ p = (getName invariant, invariant) ∨ p ∈ mInvariants s)
           ∧ registerInvariant invariant s'
             = Thrown (RuntimeError
                         ("Invariant " +:+ getName invariant
                          +:+ " already registered")) s').
Proof.
  intros Hwf. split.
  - intros Hin. unfold registerInvariant. munfold.
    by rewrite bool_decide_eq_true_2.
  - intros Hfresh.
    assert (Hrun : registerInvariant invariant s
                   = Done () (mkState (map_insert (getName invariant) invariant
                                         (mInvariants s)) (mEnabled s))).
    { unfold registerInvariant. munfold. by rewrite bool_decide_eq_false_2. }
    eexists. split; [exact Hrun|].
    destruct (registerInvariant_wellFormed _ _ _ Hwf Hrun) as [Hwf' Hen].
    split; [done|]. split; [done|]. split.
    + intros p. simpl. by apply map_insert_elem.
    + unfold registerInvariant. munfold. simpl.
      rewrite bool_decide_eq_true_2; [done|].
      apply list_elem_of_fmap. exists (getName invariant, invariant).
      split; [done|]. apply map_insert_elem; [done|by left].
Qed.

Lemma enableMatching_first_enabled r invs b s name inv rest :
  matchedInvariants r invs = (name, inv) :: rest →
  inv ∈ mEnabled s →
  enableMatching r invs b s
  = Thrown (RuntimeError ("Invariant " +:+ name +:+ " already enabled")) s.
Proof.
  revert b. induction invs as [|[n v] invs IH]; intros b Hm Hin; simpl in *.
  - done.
  - destruct (regex_match n r [match_not_null]); [|by apply IH].
    simplify_eq. munfold. by rewrite bool_decide_eq_true_2.
Qed.

(** [X7] In a well-formed registry, when [enableInvariant] returns, the
    pattern compiled and matched at least one name, the registered
    invariants are unchanged, and the names of the enabled invariants are
    the former ones followed by the matched names in the order of the
    registry.  Enabling the same pattern again throws "Invariant <name>
    already enabled" and changes nothing. *)
Theorem X7_enabling_a_pattern_twice_throws (invPattern : string) (s s' : State) :
  registryWellFormed s →
  enableInvariant invPattern s = Done () s' →
  (∃ r, regex_ctor invPattern [ECMAScript; icase] = inl r
        ∧ matchedInvariants r (mInvariants s) ≠ []
        ∧ mInvariants s' = mInvariants s
        ∧ getEnabledInvariants s'
          = getEnabledInvariants s ++ (matchedInvariants r (mInvariants s)).*1)
  ∧ ∃ name, enableInvariant invPattern s'
            = Thrown (RuntimeError ("Invariant " +:+ name +:+ " already enabled"))
                s'.
Proof.
  intros [Hnd Hname] Hrun. unfold enableInvariant in *.
  case_bool_decide as Hempty; [done|].
  destruct (regex_ctor invPattern [ECMAScript; icase]) as [r|what]; [|done].
  set (matched := matchedInvariants r (mInvariants s)) in *.
  assert (Hnot : ∀ p, p ∈ matched → p.2 ∉ mEnabled s).
  { intros p Hp Hin.
    destruct (enableMatching_already_enabled r (mInvariants s) false s)
      as (name & s1 & Hthrow); [by exists p|].
    revert Hrun. munfold. by rewrite Hthrow. }
  assert (Hmatch : enableMatching r (mInvariants s) false s
                   = Done (bool_decide (matched ≠ []))
                       (mkState (mInvariants s) (mEnabled s ++ matched.*2))).
  { rewrite (enableMatching_enables r (mInvariants s) false s);
      [done|done|by apply matchedInvariants_NoDup]. }
  revert Hrun. munfold. rewrite Hmatch.
  case_bool_decide as Hsome; simpl; [|done]. intros [= <-]. simpl. split.
  - exists r. split; [done|]. split; [done|]. split; [done|].
    unfold getEnabledInvariants. simpl. rewrite fmap_app. f_equal.
    fold matched. clear -Hname.
    assert (Hsub : ∀ p, p ∈ matched → getName p.2 = p.1).
    { intros p [Hp _]%matchedInvariants_elem. by apply Hname. }
    induction matched as [|p l IH]; simpl; [done|].
    rewrite (Hsub p) by apply list_elem_of_here. f_equal. apply IH.
    intros q Hq. by apply Hsub, list_elem_of_further.
  - destruct matched as [|[name inv] rest] eqn:Hm; [done|].
    exists name.
    rewrite (enableMatching_first_enabled r _ false _ name inv rest); [done|done|].
    simpl. apply elem_of_app. right. apply list_elem_of_here.
Qed.

End registry_properties.

Section check_properties.
Import InvariantManagerImpl.
Context `{InvariantChecks}.

Lemma checkEnabledOnOperationApply_spec enabled operation opres ltxDelta events m :
  let failing :=
    failingOnOperationApply enabled operation opres ltxDelta events in
  let record :=
    recordFailure (delta_ledgerSeq ltxDelta)
      (operationApplyMessageOf operation opres ltxDelta events) in
  (Forall (λ inv, isStrict inv = false) failing →
   checkEnabledOnOperationApply enabled operation opres ltxDelta events m
   = Returned (foldl record m failing))
  ∧ (∀ lax invariant rest,
       failing = lax ++ invariant :: rest →
       Forall (λ inv, isStrict inv = false) lax → isStrict invariant = true →
       checkEnabledOnOperationApply enabled operation opres ltxDelta events m
       = InvariantDoesNotHold
           (operationApplyMessageOf operation opres ltxDelta events invariant)
           (record (foldl record m lax) invariant)).
Proof.
  revert m. unfold failingOnOperationApply.
  induction enabled as [|inv enabled IH]; intros m; simpl.
  - split; [done|]. intros lax invariant rest Heq. by destruct lax.
  - destruct (protocolVersionIsBefore (delta_ledgerVersion ltxDelta) V_8
              && negb (bool_decide
                         (getName inv = "EventsAreConsistentWithEntryDiffs")));
      simpl; [apply IH|].
    destruct (bool_decide
                (Invariant_checkOnOperationApply inv operation opres ltxDelta
                   events = EmptyString)); simpl; [apply IH|].
    unfold onInvariantFailure, handleInvariantFailure.
    destruct (isStrict inv) eqn:Hstrict.
    + split.
      * intros Hall. apply Forall_cons in Hall as [Hlax _]. congruence.
      * intros [|x lax] invariant rest Heq Hlax Hs; simpl in *; simplify_eq.
        -- done.
        -- apply Forall_cons in Hlax as [Hx _]. congruence.
    + split.
      * intros Hall. apply Forall_cons in Hall as [_ Hall].
        by apply (proj1 (IH _)).
      * intros [|x lax] invariant rest Heq Hlax Hs; simpl in *; simplify_eq.
        -- congruence.
        -- apply Forall_cons in Hlax as [_ Hlax].
           by apply (proj2 (IH _) lax invariant rest).
Qed.

Lemma checkEnabledAfterAssumeState_spec enabled newestLedger m :
  let failing := failingAfterAssumeState enabled newestLedger in
  let messageOf := λ inv,
    assumeStateMessage inv (Invariant_checkAfterAssumeState inv newestLedger) in
  let record := recordFailure 0 messageOf in
  (Forall (λ inv, isStrict inv = false) failing →
   checkEnabledAfterAssumeState enabled newestLedger m
   = Returned (foldl record m failing))
  ∧ (∀ lax invariant rest,
       failing = lax ++ invariant :: rest →
       Forall (λ inv, isStrict inv = false) lax → isStrict invariant = true →
       checkEnabledAfterAssumeState enabled newestLedger m
       = InvariantDoesNotHold (messageOf invariant)
           (record (foldl record m lax) invariant)).
Proof.
  revert m. unfold failingAfterAssumeState.
  induction enabled as [|inv enabled IH]; intros m; simpl.
  - split; [done|]. intros lax invariant rest Heq. by destruct lax.
  - destruct (bool_decide
                (Invariant_checkAfterAssumeState inv newestLedger = EmptyString));
      simpl; [apply IH|].
    unfold onInvariantFailure, handleInvariantFailure.
    destruct (isStrict inv) eqn:Hstrict.
    + split.
      * intros Hall. apply Forall_cons in Hall as [Hlax _]. congruence.
      * intros [|x lax] invariant rest Heq Hlax Hs; simpl in *; simplify_eq.
        -- done.
        -- apply Forall_cons in Hlax as [Hx _]. congruence.
    + split.
      * intros Hall. apply Forall_cons in Hall as [_ Hall].
        by apply (proj1 (IH _)).
      * intros [|x lax] invariant rest Heq Hlax Hs; simpl in *; simplify_eq.
        -- congruence.
        -- apply Forall_cons in Hlax as [_ Hlax].
           by apply (proj2 (IH _) lax invariant rest).
Qed.

Lemma foldl_recordFailure ledger messageOf m failing :
  let m' := foldl (recordFailure ledger messageOf) m failing in
  mRegistry m' = mRegistry m
  ∧ mInvariantFailureCount m' = mInvariantFailureCount m + Z.of_nat (length failing)
  ∧ (∀ name, name ∉ getName <$> failing →
             mFailureInformation m' !! name = mFailureInformation m !! name)
  ∧ (NoDup (getName <$> failing) →
     ∀ inv, inv ∈ failing →
            mFailureInformation m' !! getName inv
            = Some (mkFailureInformation ledger (messageOf inv))).
Proof.
  revert m. induction failing as [|x failing IH]; intros m; simpl.
  - split; [done|]. split; [lia|]. split; [done|]. intros _ inv Hinv.
    inversion Hinv.
  - destruct (IH (recordFailure ledger messageOf m x)) as (IH1 & IH2 & IH3 & IH4).
    simpl in *. split; [done|]. split; [lia|]. split.
    + intros name Hname. apply not_elem_of_cons in Hname as [Hne Hname].
      rewrite IH3 by done. by rewrite lookup_insert_ne.
    + intros Hnd inv Hinv. apply NoDup_cons in Hnd as [Hx Hnd].
      apply elem_of_cons in Hinv as [->|Hinv]; [|by apply IH4].
      rewrite IH3 by done. apply lookup_insert_eq.
Qed.

(** [X8] When none of the enabled invariants that fail on an operation is
    strict, [checkOnOperationApply] returns after checking all of them: the
    failure counter has grown by the number of failing invariants, the
    failure information of every other name is unchanged and, the names of
    the failing invariants being distinct, each failing invariant is recorded
    with the ledger sequence of the delta and its message.  The registry is
    unchanged. *)
Theorem X8_lax_failures_are_recorded_and_checks_go_on (operation : Operation)
    (opres : OperationResult) (ltxDelta : LedgerTxnDelta)
    (events : list ContractEvent) (m : Manager) :
  let failing :=
    failingOnOperationApply (mEnabled (mRegistry m)) operation opres ltxDelta
      events in
  Forall (λ inv, isStrict inv = false) failing →
  ∃ m', checkOnOperationApply operation opres ltxDelta events m = Returned m'
    ∧ mRegistry m' = mRegistry m
    ∧ mInvariantFailureCount m'
      = mInvariantFailureCount m + Z.of_nat (length failing)
    ∧ (∀ name, name ∉ getName <$> failing →
               mFailureInformation m' !! name = mFailureInformation m !! name)
    ∧ (NoDup (getName <$> failing) →
       ∀ inv, inv ∈ failing →
         mFailureInformation m' !! getName inv
         = Some (mkFailureInformation (delta_ledgerSeq ltxDelta)
                   (operationApplyMessageOf operation opres ltxDelta events inv))).
Proof.
  intros failing Hlax. unfold checkOnOperationApply.
  rewrite (proj1 (checkEnabledOnOperationApply_spec _ _ _ _ _ _) Hlax).
  eexists. split; [done|]. apply foldl_recordFailure.
Qed.

(** [X9] When the first strict invariant that fails on an operation comes
    after the failing invariants [lax], none of them strict,
    [checkOnOperationApply] throws [InvariantDoesNotHold] with the message of
    the strict invariant; the invariants after it are not checked.  The
    failure is recorded before the throw: the counter has grown by the
    length of [lax] plus one, and the failure information of the strict
    invariant holds the ledger sequence of the delta and the message. *)
Theorem X9_strict_failure_throws_after_recording (operation : Operation)
    (opres : OperationResult) (ltxDelta : LedgerTxnDelta)
    (events : list ContractEvent) (m : Manager)
    (lax : list Invariant) (invariant : Invariant) (rest : list Invariant) :
  failingOnOperationApply (mEnabled (mRegistry m)) operation opres ltxDelta events
  = lax ++ invariant :: rest →
  Forall (λ inv, isStrict inv = false) lax →
  isStrict invariant = true →
  ∃ m', checkOnOperationApply operation opres ltxDelta events m
        = InvariantDoesNotHold
            (operationApplyMessageOf operation opres ltxDelta events invariant) m'
    ∧ mRegistry m' = mRegistry m
    ∧ mInvariantFailureCount m'
      = mInvariantFailureCount m + Z.of_nat (length lax) + 1
    ∧ mFailureInformation m' !! getName invariant
      = Some (mkFailureInformation (delta_ledgerSeq ltxDelta)
                (operationApplyMessageOf operation opres ltxDelta events
                   invariant)).
Proof.
  intros Hfail Hlax Hstrict. unfold checkOnOperationApply.
  rewrite (proj2 (checkEnabledOnOperationApply_spec _ _ _ _ _ _)
             lax invariant rest Hfail Hlax Hstrict).
  eexists. split; [done|].
  destruct (foldl_recordFailure (delta_ledgerSeq ltxDelta)
              (operationApplyMessageOf operation opres ltxDelta events) m lax)
    as (Hreg & Hcount & _).
  simpl in *. split; [done|]. split; [lia|]. apply lookup_insert_eq.
Qed.

(** [X10] Before protocol 8, [checkOnOperationApply] runs the check of no
    invariant but "EventsAreConsistentWithEntryDiffs": when no enabled
    invariant has that name, it returns with the manager unchanged, whatever
    the checks of the enabled invariants would answer. *)
Theorem X10_before_protocol_8_only_the_events_invariant_is_checked
    (operation : Operation) (opres : OperationResult)
    (ltxDelta : LedgerTxnDelta) (events : list ContractEvent) (m : Manager) :
  delta_ledgerVersion ltxDelta < V_8 →
  (∀ inv, inv ∈ mEnabled (mRegistry m) →
          getName inv ≠ "EventsAreConsistentWithEntryDiffs") →
  checkOnOperationApply operation opres ltxDelta events m = Returned m.
Proof.
  intros Hv Hnames. unfold checkOnOperationApply.
  assert (Hnone : failingOnOperationApply (mEnabled (mRegistry m)) operation
                    opres ltxDelta events = []).
  { unfold failingOnOperationApply, protocolVersionIsBefore.
    rewrite (proj2 (Z.ltb_lt _ _)) by done.
    induction (mEnabled (mRegistry m)) as [|inv enabled IH]; simpl; [done|].
    rewrite (bool_decide_eq_false_2 (getName inv = _))
      by (apply Hnames, list_elem_of_here).
    simpl. apply IH. intros inv' Hinv'. by apply Hnames, list_elem_of_further. }
  pose proof (proj1 (checkEnabledOnOperationApply_spec (mEnabled (mRegistry m))
                       operation opres ltxDelta events m)) as Hspec.
  simpl in Hspec. rewrite Hnone in Hspec. by apply Hspec.
Qed.

(** [X11] A failure of a lax invariant after assume-state is reported by
    [getJsonInfo] at ledger 0, whatever the newest ledger is: when the
    failing invariants are lax and have distinct names,
    [checkAfterAssumeState] returns, and then the object of [getJsonInfo]
    has, under the name of each failing invariant other than "count", the
    ledger 0 and the message of the failure, and under "count" the former
    count plus the number of failing invariants. *)
Theorem X11_failure_after_assume_state_is_reported_at_ledger_0
    (newestLedger : Z) (m : Manager) (invariant : Invariant) :
  let failing := failingAfterAssumeState (mEnabled (mRegistry m)) newestLedger in
  Forall (λ inv, isStrict inv = false) failing →
  NoDup (getName <$> failing) →
  invariant ∈ failing →
  getName invariant ≠ "count" →
  ∃ m', checkAfterAssumeState newestLedger m = Returned m'
    ∧ getJsonInfo m' !! getName invariant
      = Some (JsonFailure 0
                (assumeStateMessage invariant
                   (Invariant_checkAfterAssumeState invariant newestLedger)))
    ∧ getJsonInfo m' !! "count"
      = Some (JsonCount (mInvariantFailureCount m + Z.of_nat (length failing))).
Proof.
  intros failing Hlax Hnd Hin Hname. unfold checkAfterAssumeState.
  rewrite (proj1 (checkEnabledAfterAssumeState_spec _ _ _) Hlax).
  eexists. split; [done|].
  match goal with |- context [foldl ?f m ?l] =>
    destruct (foldl_recordFailure 0
      (λ inv, assumeStateMessage inv
                (Invariant_checkAfterAssumeState inv newestLedger)) m l)
      as (_ & Hcount & _ & Hinfo);
    set (m' := foldl f m l) in *
  end.
  specialize (Hinfo Hnd invariant Hin). simpl in Hinfo.
  unfold getJsonInfo. rewrite bool_decide_eq_false_2.
  - rewrite lookup_insert_ne by done. rewrite lookup_insert_eq, lookup_fmap, Hinfo.
    simpl. by rewrite Hcount.
  - intros Hempty. apply fmap_empty_inv in Hempty.
    rewrite Hempty in Hinfo. by rewrite lookup_empty in Hinfo.
Qed.

End check_properties.

(** ** Reasoning with pre- and post-conditions *)

Section hoare.
Context {S : Type}.

Lemma triple_ret {A} (P : S → Prop) (Q : A → S → Prop) E (a : A) :
  (∀ s, P s → Q a s) → triple P (mret a : M S A) Q E.
Proof. intros HQ s Hs. by apply HQ. Qed.

Lemma triple_bind {A B} (P : S → Prop) (R : A → S → Prop) (Q : B → S → Prop) E
    (m : M S A) (k : A → M S B) :
  triple P m R E → (∀ a, triple (R a) (k a) Q E) → triple P (m ≫= k) Q E.
Proof.
  intros Hm Hk s Hs. unfold mbind, M_bind, bind. specialize (Hm s Hs).
  destruct (m s) as [a s1|e s1]; [|done]. by apply Hk.
Qed.

Lemma stepPost_state_of (P : S → Prop) (m : M S bool) s :
  triple P m (stepPost P P) P → P s → P (state_of (m s)).
Proof.
  intros Hm Hs. specialize (Hm s Hs). by destruct (m s) as [[] ?|].
Qed.

Lemma state_of_bind {A B} (m : M S A) (k : A → M S B) s :
  state_of ((m ≫= k) s)
  = match m s with Done a s1 => state_of (k a s1) | Thrown _ s1 => s1 end.
Proof. unfold mbind, M_bind, bind. by destruct (m s). Qed.

End hoare.

(** ** RestoreFootprint: result codes, budgets and rent changes *)

Section restore_properties.
Import RestoreFootprintOpFrame.
Context `{XdrCodec} `{TransactionUtils} `{RustBridge}.

Ltac brute :=
  munfold; simpl;
  repeat (case_match; simpl in *; simplify_eq);
  simpl in *; simplify_eq.

Lemma restoreKey_code env seq rl vers lk tracker :
  triple (λ s, refundableFeeTracker s = tracker)
    (restoreKey env seq rl vers lk) (failedWithinLoop tracker) always.
Proof.
  intros s Hs. unfold failedWithinLoop, restoreKey, findSource, restoreEntry,
    fail_with, restoreFromHotArchive, restoreFromLiveBucketList.
  brute; done.
Qed.

Lemma restoreKeys_code env seq rl vers keys tracker :
  triple (λ s, refundableFeeTracker s = tracker)
    (restoreKeys env seq rl vers keys) (failedWithinLoop tracker) always.
Proof.
  induction keys as [|k keys IH]; simpl.
  - apply triple_ret. by intros s Hs.
  - eapply triple_bind; [apply restoreKey_code|].
    intros [].
    + intros s [Hs _]. by apply IH.
    + by apply triple_ret.
Qed.

(** [X12] When [doApply] returns, the result code agrees with the returned
    flag: the code is [RESTORE_FOOTPRINT_SUCCESS] only with [true], and
    otherwise one of [RESTORE_FOOTPRINT_RESOURCE_LIMIT_EXCEEDED] and
    [RESTORE_FOOTPRINT_INSUFFICIENT_REFUNDABLE_FEE] with [false]; no other
    code is ever set.  With [RESTORE_FOOTPRINT_RESOURCE_LIMIT_EXCEEDED] the
    refundable-fee tracker is the one the operation started with: no rent was
    charged. *)
Theorem X12_restore_result_code_agrees_with_outcome (env : Env) (ltx0 : LedgerTxn)
    (res0 : option RestoreFootprintResultCode)
    (tracker : option RefundableFeeTracker)
    (diagnosticEvents0 : list DiagnosticEvent) (ok : bool) (s : State) :
  doApply env ltx0 res0 tracker diagnosticEvents0 = Done ok s →
  match res s with
  | Some RESTORE_FOOTPRINT_SUCCESS => ok = true
  | Some RESTORE_FOOTPRINT_RESOURCE_LIMIT_EXCEEDED =>
      ok = false ∧ refundableFeeTracker s = tracker
  | Some RESTORE_FOOTPRINT_INSUFFICIENT_REFUNDABLE_FEE => ok = false
  | _ => False
  end.
Proof.
  unfold doApply. destruct tracker as [t|]; [|done].
  set (s0 := initialState ltx0 res0 (Some t) diagnosticEvents0).
  pose proof (restoreKeys_code env (getLedgerSeq ltx0)
    (restoredLiveUntilLedger_of (getLedgerSeq ltx0)
       (stateArchivalSettings (sorobanConfig env)))
    (getLedgerVersion ltx0) (readWrite (footprint (resources env))) (Some t)
    s0 eq_refl) as Hloop.
  unfold mbind, M_bind, bind.
  destruct (restoreKeys _ _ _ _ _ s0) as [[] s1|e s1]; simpl; [| |done].
  - clear Hloop. unfold chargeRentFee, fail_with. munfold. simpl.
    destruct (refundableFeeTracker s1); [|done].
    destruct (consumeRefundableSorobanResources _ _ _ _ _ _) as [[[] t'] diags];
      simpl; by intros [= <- <-].
  - intros [= <- <-]. destruct Hloop as [Ht Hres]. by rewrite Hres.
Qed.

Lemma restoreKey_budgets env seq rl vers lk :
  triple (withinBudgets env) (restoreKey env seq rl vers lk)
    (λ ok s, ok = true → withinBudgets env s) always.
Proof.
  intros s (Hr & Hw & Heq). unfold withinBudgets, restoreKey, findSource,
    restoreEntry, fail_with, restoreFromHotArchive, restoreFromLiveBucketList.
  brute; try done.
  all: intros _; rewrite <- ?Heq in *; repeat split; lia.
Qed.

Lemma restoreKeys_budgets env seq rl vers keys :
  triple (withinBudgets env) (restoreKeys env seq rl vers keys)
    (λ ok s, ok = true → withinBudgets env s) always.
Proof.
  induction keys as [|k keys IH]; simpl.
  - apply triple_ret. by intros s Hs.
  - eapply triple_bind; [apply restoreKey_budgets|].
    intros [].
    + intros s Hs. apply IH. by apply Hs.
    + by apply triple_ret.
Qed.

(** [X13] When [doApply] returns [true] for resources whose byte limits are
    not negative, the bytes read and the bytes written that it metered are
    within [diskReadBytes] and [writeBytes], and they are equal: every
    restored entry is counted once as a read and once as a write. *)
Theorem X13_restore_success_within_byte_budgets (env : Env) (ltx0 : LedgerTxn)
    (res0 : option RestoreFootprintResultCode)
    (tracker : option RefundableFeeTracker)
    (diagnosticEvents0 : list DiagnosticEvent) (s : State) :
  0 ≤ diskReadBytes (resources env) → 0 ≤ writeBytes (resources env) →
  doApply env ltx0 res0 tracker diagnosticEvents0 = Done true s →
  mLedgerReadByte s ≤ diskReadBytes (resources env)
  ∧ mLedgerWriteByte s ≤ writeBytes (resources env)
  ∧ mLedgerReadByte s = mLedgerWriteByte s.
Proof.
  intros Hr Hw. unfold doApply. destruct tracker as [t|]; [|done].
  set (s0 := initialState ltx0 res0 (Some t) diagnosticEvents0).
  assert (Hs0 : withinBudgets env s0) by (by repeat split).
  pose proof (restoreKeys_budgets env (getLedgerSeq ltx0)
    (restoredLiveUntilLedger_of (getLedgerSeq ltx0)
       (stateArchivalSettings (sorobanConfig env)))
    (getLedgerVersion ltx0) (readWrite (footprint (resources env))) s0 Hs0)
    as Hloop.
  unfold mbind, M_bind, bind.
  destruct (restoreKeys _ _ _ _ _ s0) as [[] s1|e s1]; simpl; [|done|done].
  specialize (Hloop eq_refl).
  unfold chargeRentFee, fail_with. munfold. simpl.
  destruct (refundableFeeTracker s1); [|done].
  destruct (consumeRefundableSorobanResources _ _ _ _ _ _) as [[[] t'] diags];
    simpl; [|done]. by intros [= <-].
Qed.

Lemma restoreKey_rentShape env seq rl vers lk s :
  match restoreKey env seq rl vers lk s with
  | Done _ s' =>
      rustEntryRentChanges s' = rustEntryRentChanges s
      ∨ ∃ size, rustEntryRentChanges s'
                = rustEntryRentChanges s ++ [mkRentChange true 0 size 0 rl]
  | Thrown _ s' =>
      rustEntryRentChanges s' = rustEntryRentChanges s
      ∨ (∃ size, rustEntryRentChanges s'
                 = rustEntryRentChanges s ++ [mkRentChange true 0 size 0 rl])
      ∨ rustEntryRentChanges s'
        = rustEntryRentChanges s ++ [mkRentChange true 0 0 0 0]
  end.
Proof.
  unfold restoreKey, findSource, restoreEntry, fail_with,
    restoreFromHotArchive, restoreFromLiveBucketList.
  brute; rewrite ?update_back_snoc; simpl; rewrite ?update_back_snoc; simpl;
    eauto.
Qed.

Lemma restoreKeys_rentShape env seq rl vers keys s :
  let r := restoreKeys env seq rl vers keys s in
  ∃ filled pending,
    rustEntryRentChanges (state_of r)
    = rustEntryRentChanges s ++ filled ++ pending
    ∧ Forall (restoredRentChange rl) filled
    ∧ (pending = []
       ∨ (∃ e s', r = Thrown e s') ∧ pending = [mkRentChange true 0 0 0 0])
    ∧ (length (filled ++ pending) ≤ length keys)%nat.
Proof.
  revert s. induction keys as [|k keys IH]; intros s; simpl.
  - exists [], []. rewrite !app_nil_r. split; [done|]. split; [done|].
    split; [by left|done].
  - pose proof (restoreKey_rentShape env seq rl vers k s) as Hstep.
    unfold mbind, M_bind, bind.
    destruct (restoreKey env seq rl vers k s) as [[] s1|e s1]; simpl in *.
    + destruct (IH s1) as (filled & pending & Heq & Hall & Hpend & Hlen).
      rewrite Heq. destruct Hstep as [->|[size ->]].
      * exists filled, pending. split; [done|]. split; [done|].
        split; [done|lia].
      * exists (mkRentChange true 0 size 0 rl :: filled), pending.
        rewrite <- !app_assoc. split; [done|].
        split; [by constructor|]. split; [done|simpl; lia].
    + destruct Hstep as [->|[size ->]].
      * exists [], []. rewrite !app_nil_r. split; [done|]. split; [done|].
        split; [by left|simpl; lia].
      * exists [mkRentChange true 0 size 0 rl], []. split; [done|].
        split; [by repeat constructor|]. split; [by left|simpl; lia].
    + destruct Hstep as [->|[[size ->]| ->]].
      * exists [], []. rewrite !app_nil_r. split; [done|]. split; [done|].
        split; [by left|simpl; lia].
      * exists [mkRentChange true 0 size 0 rl], []. split; [done|].
        split; [by repeat constructor|]. split; [by left|simpl; lia].
      * exists [], [mkRentChange true 0 0 0 0]. split; [done|].
        split; [done|]. split; [right; eauto|simpl; lia].
Qed.

(** [X14] Every rent change that [doApply] has built is that of a persistent
    entry that did not exist before: old size 0, old live-until ledger 0,
    and the new live-until ledger [ledgerSeq + minPersistentTTL - 1] (as a
    32-bit value).  The one exception is the last rent change of a run that
    throws after the rent change is appended and before it is filled: its
    new size and new live-until ledger are still 0.  There is at most one
    rent change per key of the read-write footprint. *)
Theorem X14_restore_rent_changes_are_fresh_entries (env : Env) (ltx0 : LedgerTxn)
    (res0 : option RestoreFootprintResultCode)
    (tracker : option RefundableFeeTracker)
    (diagnosticEvents0 : list DiagnosticEvent) :
  let r := doApply env ltx0 res0 tracker diagnosticEvents0 in
  let restoredLiveUntilLedger :=
    u32 (getLedgerSeq ltx0
         + minPersistentTTL (stateArchivalSettings (sorobanConfig env)) - 1) in
  ∃ filled pending,
    rustEntryRentChanges (state_of r) = filled ++ pending
    ∧ Forall (restoredRentChange restoredLiveUntilLedger) filled
    ∧ (pending = []
       ∨ (∃ e s, r = Thrown e s) ∧ pending = [mkRentChange true 0 0 0 0])
    ∧ (length (rustEntryRentChanges (state_of r))
       ≤ length (readWrite (footprint (resources env))))%nat.
Proof.
  simpl. unfold doApply. destruct tracker as [t|].
  2:{ exists [], []. simpl. split; [done|]. split; [done|].
      split; [by left|lia]. }
  set (s0 := initialState ltx0 res0 (Some t) diagnosticEvents0).
  pose proof (restoreKeys_rentShape env (getLedgerSeq ltx0)
    (restoredLiveUntilLedger_of (getLedgerSeq ltx0)
       (stateArchivalSettings (sorobanConfig env)))
    (getLedgerVersion ltx0) (readWrite (footprint (resources env))) s0)
    as (filled & pending & Hadd & Hall & Hpend & Hlen).
  simpl in Hadd. unfold mbind, M_bind, bind.
  destruct (restoreKeys _ _ _ _ _ s0) as [[] s1|e s1] eqn:Hloop; simpl in *.
  - assert (Hsame : rustEntryRentChanges
                      (state_of (chargeRentFee env (getLedgerSeq ltx0)
                                   (getLedgerVersion ltx0) s1))
                    = rustEntryRentChanges s1).
    { unfold chargeRentFee, fail_with. munfold. simpl.
      destruct (refundableFeeTracker s1); [|done].
      by destruct (consumeRefundableSorobanResources _ _ _ _ _ _) as [[[] t'] diags]. }
    rewrite Hsame, Hadd. destruct Hpend as [->|[(e & s' & Hthrown) _]]; [|done].
    exists filled, []. split; [done|]. split; [done|]. split; [by left|done].
  - rewrite Hadd. destruct Hpend as [->|[(e & s' & Hthrown) _]]; [|done].
    exists filled, []. split; [done|]. split; [done|]. split; [by left|done].
  - rewrite Hadd. exists filled, pending. split; [done|]. split; [done|].
    split; [|done]. destruct Hpend as [->|[_ ->]]; [by left|right; eauto].
Qed.

(** [X15] A key of the footprint that has no TTL entry in the ledger and,
    from protocol 23 on, no entry in the hot archive, is skipped: the step of
    the loop for it returns [true] and changes nothing, neither the ledger
    nor the counters nor the rent changes. *)
Theorem X15_restore_skips_a_key_that_exists_nowhere (env : Env)
    (ledgerSeq restoredLiveUntilLedger ledgerVersion : Z) (lk : LedgerKey)
    (s : State) :
  loadWithoutRecord (ltx s) (getTTLKey lk) = None →
  getLedgerVersion (ltx s) < FIRST_PROTOCOL_SUPPORTING_PERSISTENT_EVICTION
  ∨ hotArchive env !! lk = None →
  restoreKey env ledgerSeq restoredLiveUntilLedger ledgerVersion lk s
  = Done true s.
Proof.
  intros Hnone Hcase. unfold restoreKey, findSource. munfold. rewrite Hnone.
  unfold protocolVersionStartsFrom. destruct Hcase as [Hlt| ->].
  - by rewrite (proj2 (Z.leb_gt _ _)).
  - by destruct (_ <=? _).
Qed.

Lemma restoreKey_version env seq rl vers lk s :
  ltx_header (ltx (state_of (restoreKey env seq rl vers lk s)))
  = ltx_header (ltx s).
Proof.
  unfold restoreKey, findSource, restoreEntry, fail_with,
    restoreFromHotArchive, restoreFromLiveBucketList.
  brute; done.
Qed.

Lemma restoreKey_before_23 env hot seq rl vers lk s :
  getLedgerVersion (ltx s) < FIRST_PROTOCOL_SUPPORTING_PERSISTENT_EVICTION →
  restoreKey (with_hotArchive env hot) seq rl vers lk s
  = restoreKey env seq rl vers lk s.
Proof.
  intros Hlt. unfold restoreKey, findSource. munfold.
  unfold protocolVersionStartsFrom. rewrite (proj2 (Z.leb_gt _ _)) by done.
  destruct (loadWithoutRecord (ltx s) (getTTLKey lk)); [|done].
  destruct (isLive l seq) as [[]|]; done.
Qed.

Lemma restoreKeys_before_23 env hot seq rl vers keys s :
  getLedgerVersion (ltx s) < FIRST_PROTOCOL_SUPPORTING_PERSISTENT_EVICTION →
  restoreKeys (with_hotArchive env hot) seq rl vers keys s
  = restoreKeys env seq rl vers keys s.
Proof.
  revert s. induction keys as [|k keys IH]; intros s Hlt; simpl; [done|].
  unfold mbind, M_bind, bind. rewrite restoreKey_before_23 by done.
  pose proof (restoreKey_version env seq rl vers k s) as Hh.
  destruct (restoreKey env seq rl vers k s) as [[] s1|e s1]; simpl in *; try done.
  apply IH. unfold getLedgerVersion in *. by rewrite Hh.
Qed.

(** [X16] Before protocol 23 [doApply] does not read the hot archive: with
    any other hot archive it returns the same flag, or throws the same
    exception, in the same state. *)
Theorem X16_restore_before_protocol_23_ignores_the_hot_archive (env : Env)
    (hot : gmap LedgerKey HotArchiveBucketEntry) (ltx0 : LedgerTxn)
    (res0 : option RestoreFootprintResultCode)
    (tracker : option RefundableFeeTracker)
    (diagnosticEvents0 : list DiagnosticEvent) :
  getLedgerVersion ltx0 < FIRST_PROTOCOL_SUPPORTING_PERSISTENT_EVICTION →
  doApply (with_hotArchive env hot) ltx0 res0 tracker diagnosticEvents0
  = doApply env ltx0 res0 tracker diagnosticEvents0.
Proof.
  intros Hlt. unfold doApply. destruct tracker as [t|]; [|done].
  unfold mbind, M_bind, bind. simpl. by rewrite restoreKeys_before_23.
Qed.

Lemma restoreKey_then_live env seq rl vers lk s s' e isHot :
  foundArchived (hotArchive env) (ltx s) seq lk e isHot →
  LedgerEntryKey e = lk → seq ≤ rl →
  restoreKey env seq rl vers lk s = Done true s' →
  ∃ ttl, loadWithoutRecord (ltx s') (getTTLKey lk) = Some ttl
         ∧ isLive ttl seq = Returns true.
Proof.
  intros Hfound Hkey Hle Hrun.
  destruct (restoreKey_restores _ _ _ _ _ _ _ _ _ Hfound Hrun) as [Hlive _].
  unfold liveUntilOf in Hlive. rewrite Hkey in Hlive.
  unfold loadWithoutRecord.
  destruct (ltx_entries (ltx s') !! getTTLKey lk) as [ttl|]; [|done].
  exists ttl. split; [done|]. unfold isLive.
  destruct (data ttl); try done. simplify_eq. f_equal. by apply Z.leb_le.
Qed.

(** [X17] A key listed twice in the footprint is restored once: when the key
    is found archived and the restored live-until ledger is not before the
    current ledger, the loop over a footprint that repeats the key behaves as
    the loop over the footprint without the repetition (the second visit
    finds the entry live and skips it, so it is neither metered nor charged
    again). *)
Theorem X17_restoring_a_key_twice_restores_it_once (env : Env)
    (ledgerSeq restoredLiveUntilLedger ledgerVersion : Z) (lk : LedgerKey)
    (rest : list LedgerKey) (s : State) (e : LedgerEntry) (isHot : bool) :
  foundArchived (hotArchive env) (ltx s) ledgerSeq lk e isHot →
  LedgerEntryKey e = lk →
  ledgerSeq ≤ restoredLiveUntilLedger →
  restoreKeys env ledgerSeq restoredLiveUntilLedger ledgerVersion
    (lk :: lk :: rest) s
  = restoreKeys env ledgerSeq restoredLiveUntilLedger ledgerVersion
      (lk :: rest) s.
Proof.
  intros Hfound Hkey Hle. simpl. unfold mbind, M_bind, bind.
  destruct (restoreKey env ledgerSeq restoredLiveUntilLedger ledgerVersion lk s)
    as [[] s1|ex s1] eqn:Hrun; [|done|done].
  destruct (restoreKey_then_live _ _ _ _ _ _ _ _ _ Hfound Hkey Hle Hrun)
    as (ttl & Httl & Hlive).
  unfold restoreKey at 1.
  by rewrite (bind_Done _ _ _ _ _ (findSource_live _ _ _ _ _ Httl Hlive)).
Qed.

(** [X18] When the step of the loop succeeds for a persistent key that is
    found archived, the ledger holds under that key the archived entry
    itself, the entry is recorded as restored from the hot archive or from
    the live bucket list according to where it was found, and the header of
    the ledger is unchanged. *)
Theorem X18_restore_writes_the_archived_payload (env : Env)
    (ledgerSeq restoredLiveUntilLedger ledgerVersion : Z) (lk : LedgerKey)
    (s s' : State) (e : LedgerEntry) (isHot : bool) :
  foundArchived (hotArchive env) (ltx s) ledgerSeq lk e isHot →
  LedgerEntryKey e = lk → isPersistentEntry lk = true →
  restoreKey env ledgerSeq restoredLiveUntilLedger ledgerVersion lk s
  = Done true s' →
  loadWithoutRecord (ltx s') lk = Some e
  ∧ (if isHot then ltx_restoredFromHotArchive (ltx s')
     else ltx_restoredFromLiveBucketList (ltx s')) !! lk = Some e
  ∧ ltx_header (ltx s') = ltx_header (ltx s).
Proof.
  intros Hfound <- Hp Hrun.
  assert (Hne : getTTLKey (LedgerEntryKey e) ≠ LedgerEntryKey e)
    by (by destruct (LedgerEntryKey e) as [? ?|? ? []|?|?]).
  destruct isHot; simpl in Hfound.
  - destruct Hfound as (Hnone & Hvers & Hhot).
    unfold restoreKey, findSource, restoreEntry, fail_with,
      restoreFromHotArchive, loadWithoutRecord in *.
    revert Hrun. munfold. simpl. rewrite Hnone, Hvers, Hhot.
    brute.
    all: intros; simplify_eq; simpl.
    all: repeat split; try (rewrite lookup_insert_ne by done);
      by rewrite ?lookup_insert_eq.
  - destruct Hfound as (ttl & Httl & Hexp & He).
    unfold restoreKey, findSource, restoreEntry, fail_with,
      restoreFromLiveBucketList, getNewestVersion, loadWithoutRecord in *.
    revert Hrun. munfold. simpl. rewrite Httl, Hexp. simpl.
    rewrite He. brute.
    all: intros; simplify_eq; simpl.
    all: repeat split; try (rewrite lookup_insert_ne by done);
      by rewrite ?lookup_insert_eq.
Qed.
End restore_properties.

(** ** InvokeHostFunction: the autorestore marks *)

Section invoke_properties.
Import InvokeHostFunctionOpFrame.
Context `{XdrCodec} `{TransactionUtils} `{RustBridge}.

Ltac brute :=
  munfold; simpl;
  repeat (case_match; simpl in *; simplify_eq);
  simpl in *; simplify_eq.

Ltac fin :=
  repeat split; first [done | congruence | auto 10 | eauto].

Ltac start_brute :=
  intros st0 Hst0;
  unfold handleArchivedEntry, readEntry, invokeHost, failedInvocation,
    applyModifiedEntry, checkCreatedKeys, eraseUntouched, finish,
    checkIfReadWriteEntryIsMarkedForAutorestore, archivedEntryDiagnostic,
    validate, meterDiskReadResource, fail_with, diag_pushError,
    noteDiskReadEntry, noteWriteEntry, restoreFromHotArchive,
    restoreFromLiveBucketList, create, update, erase, load, ttl_of, stepPost,
    optPost, always in *.

Lemma markAutorestored_spec v archivedEntries :
  match markAutorestored v archivedEntries with
  | Returns v' =>
      (∀ i, i ∈ archivedEntries → (i < length v)%nat)
      ∧ length v' = length v
      ∧ ∀ i b, v' !! i = Some b ↔
               (i < length v)%nat
               ∧ b = (bool_decide (i ∈ archivedEntries)
                      || bool_decide (v !! i = Some true))
  | Throws e =>
      e = OutOfRange ∧ ∃ i, i ∈ archivedEntries ∧ (length v ≤ i)%nat
  end.
Proof.
  revert v. induction archivedEntries as [|index rest IH]; intros v; simpl.
  - split; [intros i Hi; inversion Hi|]. split; [done|]. intros i b.
    split.
    + intros Hb. split; [by eapply lookup_lt_Some|]. rewrite Hb.
      destruct b; [by rewrite bool_decide_eq_true_2|].
      by rewrite bool_decide_eq_false_2.
    + intros [Hi ->]. by destruct (lookup_lt_is_Some_2 v i Hi) as [[] Hb];
        rewrite Hb; f_equal.
  - destruct (decide (index < length v)%nat) as [Hlt|Hge].
    + specialize (IH (<[index := true]> v)).
      destruct (markAutorestored (<[index := true]> v) rest) as [v'|e].
      * rewrite length_insert in IH. destruct IH as (Hall & Hlen & Hbits).
        split; [|split; [done|]].
        { intros i Hi. apply elem_of_cons in Hi as [->|Hi]; auto. }
        intros i b. rewrite Hbits. apply and_iff_compat_l.
        destruct (decide (i = index)) as [->|Hne].
        -- rewrite list_lookup_insert_eq by done.
           rewrite (bool_decide_eq_true_2 (Some true = Some true)) by done.
           rewrite (bool_decide_eq_true_2 (index ∈ index :: rest))
             by apply list_elem_of_here.
           by rewrite orb_true_r.
        -- rewrite list_lookup_insert_ne by done.
           assert (Hiff : bool_decide (i ∈ index :: rest) = bool_decide (i ∈ rest)).
           { apply bool_decide_ext. rewrite elem_of_cons. tauto. }
           by rewrite Hiff.
      * rewrite length_insert in IH. destruct IH as (-> & i & Hi & Hle).
        split; [done|]. exists i. split; [by apply list_elem_of_further|done].
    + split; [done|]. exists index. split; [apply list_elem_of_here|lia].
Qed.

Lemma initAutorestoredEntries_spec ext rw :
  match initAutorestoredEntries ext rw with
  | Returns v =>
      (∀ i, i ∈ archivedIndices ext → (i < length rw)%nat)
      ∧ (v = [] ∧ archivedIndices ext = []
         ∨ length v = length rw
           ∧ ∀ i, (i < length rw)%nat →
                  v !! i = Some (bool_decide (i ∈ archivedIndices ext)))
  | Throws e =>
      e = OutOfRange ∧ ∃ i, i ∈ archivedIndices ext ∧ (length rw ≤ i)%nat
  end.
Proof.
  unfold initAutorestoredEntries. destruct ext as [|archived]; simpl.
  { split; [intros i Hi; inversion Hi|by left]. }
  case_bool_decide as Hnil.
  { subst. split; [intros i Hi; inversion Hi|by left]. }
  pose proof (markAutorestored_spec (replicate (length rw) false) archived) as Hm.
  rewrite length_replicate in Hm.
  destruct (markAutorestored _ archived) as [v|e]; [|done].
  destruct Hm as (Hall & Hlen & Hbits). split; [done|]. right.
  split; [done|]. intros i Hi. apply Hbits. split; [done|].
  rewrite (bool_decide_eq_false_2 (_ !! i = Some true)); [by rewrite orb_false_r|].
  rewrite lookup_replicate. by intros [? _].
Qed.

(** [X19] When the constructor of the helper returns, every index listed
    for autorestore is an index of the read-write footprint, and the helper
    answers for every index of the read-write footprint that it is marked
    for autorestore exactly when the transaction lists it. *)
Theorem X19_autorestore_marks_are_the_listed_indices (app : App) (frame : Frame)
    (seed : N) (env : Env) :
  newApplyHelper app frame seed = Returns env →
  let rw := readWrite (footprint (frame_resources frame)) in
  (∀ i, i ∈ archivedIndices (frame_resourcesExt frame) → (i < length rw)%nat)
  ∧ ∀ lk i, (i < length rw)%nat →
      checkIfReadWriteEntryIsMarkedForAutorestore env lk i
      = Returns (bool_decide (i ∈ archivedIndices (frame_resourcesExt frame))).
Proof.
  intros Hnew rw. unfold newApplyHelper in Hnew.
  pose proof (initAutorestoredEntries_spec (frame_resourcesExt frame) rw) as Hinit.
  fold rw in Hnew.
  destruct (initAutorestoredEntries _ rw) as [v|e]; simpl in Hnew; [|done].
  injection Hnew as <-. destruct Hinit as [Hall Hv]. split; [done|].
  intros lk i Hi. unfold checkIfReadWriteEntryIsMarkedForAutorestore. simpl.
  destruct Hv as [[-> ->]|[Hlen Hbits]]; [done|].
  rewrite bool_decide_eq_false_2.
  - by rewrite Hbits.
  - intros ->. simpl in Hlen. lia.
Qed.

(** [X20] When the transaction lists for autorestore an index that is not an
    index of the read-write footprint, [doApply] throws the out-of-range
    error of [vector::at] from the constructor of the helper, before
    anything is read or changed: the state is the initial one. *)
Theorem X20_out_of_range_autorestore_index_throws (app : App) (frame : Frame)
    (ltx : LedgerTxn) (seed : N) (res : option InvokeHostFunctionResultCode)
    (tracker : RefundableFeeTracker) (diagnosticEvents : list DiagnosticEvent)
    (i : nat) :
  i ∈ archivedIndices (frame_resourcesExt frame) →
  (length (readWrite (footprint (frame_resources frame))) ≤ i)%nat →
  doApply app frame ltx seed res (Some tracker) diagnosticEvents
  = Thrown OutOfRange (initialState frame ltx res (Some tracker) diagnosticEvents).
Proof.
  intros Hi Hle. unfold doApply, newApplyHelper.
  pose proof (initAutorestoredEntries_spec (frame_resourcesExt frame)
                (readWrite (footprint (frame_resources frame)))) as Hinit.
  destruct (initAutorestoredEntries _ _) as [v|e]; simpl.
  - destruct Hinit as [Hall _]. specialize (Hall i Hi). lia.
  - by destruct Hinit as [-> _].
Qed.
(** ** InvokeHostFunction: the reads of the footprint *)

Lemma triple_addRead (P F E : State → Prop) env seq vers rl ro i lk :
  (∀ s, P s → E s) →
  (∀ le hot, triple P (handleArchivedEntry env lk le ro rl hot i) (stepPost P F) E) →
  (∀ live ttl, triple P (readEntry env vers lk live ttl) (stepPost P F) E) →
  triple P (addRead env seq vers rl ro i lk) (stepPost P F) E.
Proof.
  intros HPE Hh Hr. unfold addRead.
  eapply (triple_bind _ (λ c s, match c with
                                | Handled ok => stepPost P F ok s
                                | GoOn _ _ => P s
                                end)).
  2:{ intros [ok|live ttl]; [by apply triple_ret|apply Hr]. }
  unfold checkExpiry.
  destruct (isSorobanEntry lk); [|by apply triple_ret].
  intros s Hs. unfold mbind at 1, M_bind at 1, bind at 1, get at 1.
  destruct (loadWithoutRecord (mLtx s) (getTTLKey lk)) as [ttlEntryOp|].
  - unfold mbind at 1, M_bind at 1, bind at 1, liftO at 1.
    destruct (isLive ttlEntryOp seq) as [[]|]; simpl; [| |by apply HPE].
    + unfold ttl_of. munfold. destruct (data ttlEntryOp); simpl; auto.
    + destruct (isTemporaryEntry lk); simpl; [done|].
      destruct (loadWithoutRecord (mLtx s) lk) as [le|]; simpl; [|by apply HPE].
      specialize (Hh le false s Hs). unfold mbind, M_bind, bind.
      by destruct (handleArchivedEntry env lk le ro rl false i s).
  - destruct (_ && _); [|done].
    destruct (mHotArchive env !! lk) as [[le| |]|]; simpl; auto.
    specialize (Hh le true s Hs). unfold mbind, M_bind, bind, mret, M_ret, ret.
    by destruct (handleArchivedEntry env lk le ro rl true i s).
Qed.

Lemma triple_addReads_from (P F E : State → Prop) env seq vers rl ro i keys :
  (∀ s, P s → E s) →
  (∀ lk le i,
     triple P (handleArchivedEntry env lk le ro rl false i) (stepPost P F) E
     ∧ triple P (handleArchivedEntry env lk le ro rl true i) (stepPost P F) E) →
  (∀ lk live ttl, triple P (readEntry env vers lk live ttl) (stepPost P F) E) →
  triple P (addReads_from env seq vers rl ro i keys) (stepPost P F) E.
Proof.
  intros HPE Hh Hr. revert i. induction keys as [|k keys IH]; intros i; simpl.
  - by apply triple_ret.
  - eapply triple_bind.
    + apply triple_addRead; [done| |done].
      intros le hot. destruct (Hh k le i) as [Hfalse Htrue]. by destruct hot.
    + intros []; [apply IH|by apply triple_ret].
Qed.

Lemma triple_addReads (P F E : State → Prop) env keys ro :
  (∀ s, P s → E s) →
  (∀ lk le rl hot i,
     triple P (handleArchivedEntry env lk le ro rl hot i) (stepPost P F) E) →
  (∀ vers lk live ttl, triple P (readEntry env vers lk live ttl) (stepPost P F) E) →
  triple P (addReads env keys ro) (stepPost P F) E.
Proof.
  intros HPE Hh Hr s Hs. rewrite addReads_eq.
  by apply triple_addReads_from.
Qed.

Lemma triple_readFootprint (P F E : State → Prop) env :
  (∀ s, P s → E s) →
  (∀ lk le ro rl hot i,
     triple P (handleArchivedEntry env lk le ro rl hot i) (stepPost P F) E) →
  (∀ vers lk live ttl, triple P (readEntry env vers lk live ttl) (stepPost P F) E) →
  triple P (readFootprint env) (stepPost P F) E.
Proof.
  intros HPE Hh Hr. unfold readFootprint.
  eapply triple_bind; [by apply triple_addReads|].
  intros []; cbn [negb stepPost]; [by apply triple_addReads|by apply triple_ret].
Qed.

Lemma triple_applyModifiedEntries (P F E : State → Prop) env bufs keys :
  (∀ buf keys, triple P (applyModifiedEntry env buf keys) (optPost P F) E) →
  triple P (applyModifiedEntries env bufs keys) (optPost P F) E.
Proof.
  intros Hb. revert keys. induction bufs as [|b bufs IH]; intros keys; simpl.
  - by apply triple_ret.
  - eapply triple_bind; [apply Hb|].
    intros [keys'|]; [apply IH|by apply triple_ret].
Qed.

Lemma triple_eraseAllUntouched (P E : State → Prop) touched keys :
  (∀ lk, triple P (eraseUntouched touched lk) (λ _, P) E) →
  triple P (eraseAllUntouched touched keys) (λ _, P) E.
Proof.
  intros Hb. induction keys as [|k keys IH]; simpl.
  - by apply triple_ret.
  - eapply triple_bind; [apply Hb|]. intros ?. apply IH.
Qed.

Lemma triple_apply (P F Qs E : State → Prop) env :
  triple P (readFootprint env) (stepPost P F) E →
  triple P (invokeHost env) (λ _, P) E →
  (∀ out, triple P (failedInvocation env out) (λ ok s, ok = false ∧ F s) E) →
  (∀ buf keys, triple P (applyModifiedEntry env buf keys) (optPost P F) E) →
  (∀ created, triple P (checkCreatedKeys created) (λ _, P) E) →
  (∀ touched lk, triple P (eraseUntouched touched lk) (λ _, P) E) →
  (∀ bufs events, triple P (ingestEvents env bufs events) (optPost P F) E) →
  (∀ out events, triple P (finish env out events) (stepPost Qs F) E) →
  triple P (apply env) (stepPost Qs F) E.
Proof.
  intros Hread Hinv Hfail Hmod Hcreated Herase Hing Hfin. unfold apply.
  eapply triple_bind; [apply Hread|].
  intros []; cbn [negb stepPost]; [|by apply triple_ret].
  eapply triple_bind; [apply Hinv|]. intros out. cbn beta.
  destruct (success out); cbn [negb].
  - unfold applyOutput.
    eapply triple_bind; [by apply triple_applyModifiedEntries|].
    intros [keys|]; cbn [optPost]; [|by apply triple_ret].
    eapply triple_bind; [apply Hcreated|]. intros ?.
    eapply triple_bind; [by apply triple_eraseAllUntouched|]. intros ?.
    unfold emitEvents. eapply triple_bind; [apply Hing|].
    intros [events|]; cbn [optPost]; [apply Hfin|by apply triple_ret].
  - intros s Hs. specialize (Hfail out s Hs).
    destruct (failedInvocation env out s) as [ok s'|]; [|done].
    destruct Hfail as [Hok HF]. by subst ok.
Qed.

Lemma Forall2_snoc {A B} (R : A → B → Prop) l k x y :
  Forall2 R l k → R x y → Forall2 R (l ++ [x]) (k ++ [y]).
Proof. intros Hl Hxy. apply Forall2_app; [done|]. by constructor. Qed.

Lemma addRead_buffersPaired env seq vers rl ro i lk s :
  buffersPaired s → buffersPaired (state_of (addRead env seq vers rl ro i lk s)).
Proof.
  intros [Hwk Hbufs]. unfold buffersPaired.
  unfold addRead, checkExpiry, handleArchivedEntry, readEntry,
    checkIfReadWriteEntryIsMarkedForAutorestore, archivedEntryDiagnostic,
    validate, meterDiskReadResource, fail_with, diag_pushError,
    noteDiskReadEntry, restoreFromHotArchive, restoreFromLiveBucketList,
    ttl_of, isLive, loadWithoutRecord.
  brute.
  all: try (split; [done|done]).
  all: split; try (by apply wellKeyed_restore); try done.
  all: apply Forall2_snoc; try done.
  all: intros t [= <-]; simpl; try done.
  all: repeat match goal with
       | Hl : ltx_entries _ !! _ = Some _ |- _ => apply Hwk in Hl
       end.
  all: unfold LedgerEntryKey, getTTLKey in *.
  all: repeat match goal with
       | Hd : data ?e = _, Hk : LedgerEntryKey_data (data ?e) = _ |- _ =>
           rewrite Hd in Hk; simpl in Hk
       end.
  all: simplify_eq; try done.
Qed.

Lemma addReads_buffersPaired env keys ro s :
  buffersPaired s → buffersPaired (state_of (addReads env keys ro s)).
Proof.
  rewrite addReads_eq.
  generalize (getLedgerSeq (mLtx s)) (getLedgerVersion (mLtx s))
    (restoredLiveUntilLedger_of (getLedgerSeq (mLtx s))
       (stateArchivalSettings (mSorobanConfig env))) 0%nat.
  intros seq vers rl i. revert i s.
  induction keys as [|k keys IH]; intros i s Hs; simpl; [done|].
  rewrite state_of_bind.
  pose proof (addRead_buffersPaired env seq vers rl ro i k s Hs) as Hstep.
  destruct (addRead env seq vers rl ro i k s) as [[] s1|e s1]; simpl in *;
    [by apply IH|done|done].
Qed.

(** [X21] The reads of the footprint keep the two vectors of buffers for the
    host parallel: when the overlay stores every entry under its own key and
    each buffered TTL entry carries the hash of the key of the ledger entry
    at the same index, the same holds after [readFootprint], whether it
    returns or throws. *)
Theorem X21_host_buffers_pair_entries_with_their_ttl (env : Env) (s : State) :
  buffersPaired s → buffersPaired (state_of (readFootprint env s)).
Proof.
  intros Hs. unfold readFootprint. rewrite state_of_bind.
  pose proof (addReads_buffersPaired env
                (readOnly (footprint (mResources env))) true s Hs) as Hro.
  destruct (addReads env _ true s) as [[] s1|e s1]; simpl in *; [|done|done].
  by apply addReads_buffersPaired.
Qed.

Lemma readEntry_mLtx env vers lk live ttl l0 :
  triple (λ s, mLtx s = l0) (readEntry env vers lk live ttl)
    (stepPost (λ s, mLtx s = l0) (λ s, mLtx s = l0)) (λ s, mLtx s = l0).
Proof.
  intros s Hs. unfold readEntry, validate, meterDiskReadResource, fail_with,
    diag_pushError, noteDiskReadEntry.
  brute; done.
Qed.

Lemma handleArchivedEntry_mLtx env lk le ro rl hot i l0 :
  ro = true ∨ mAutorestoredEntries env = [] →
  triple (λ s, mLtx s = l0) (handleArchivedEntry env lk le ro rl hot i)
    (stepPost (λ s, mLtx s = l0) (λ s, mLtx s = l0)) (λ s, mLtx s = l0).
Proof.
  intros Hcase s Hs.
  unfold handleArchivedEntry, checkIfReadWriteEntryIsMarkedForAutorestore,
    archivedEntryDiagnostic, validate, meterDiskReadResource, fail_with,
    diag_pushError.
  destruct Hcase as [-> | ->]; brute; done.
Qed.

(** [X22] Reading does not write: the reads of read-only keys never change
    the ledger overlay, and when no entry is marked for autorestore the
    reads of the whole footprint never change it, whether they return or
    throw. *)
Theorem X22_reads_without_autorestore_leave_the_overlay (env : Env) (s : State) :
  (∀ keys, mLtx (state_of (addReads env keys true s)) = mLtx s)
  ∧ (mAutorestoredEntries env = [] →
     mLtx (state_of (readFootprint env s)) = mLtx s).
Proof.
  split.
  - intros keys.
    apply (stepPost_state_of (λ s', mLtx s' = mLtx s)); [|done].
    apply triple_addReads; [done| |].
    + intros. apply handleArchivedEntry_mLtx. by left.
    + intros. apply readEntry_mLtx.
  - intros Hmarks.
    apply (stepPost_state_of (λ s', mLtx s' = mLtx s)); [|done].
    apply triple_readFootprint; [done| |].
    + intros. apply handleArchivedEntry_mLtx. by right.
    + intros. apply readEntry_mLtx.
Qed.
(** [X29] From protocol 23 on, reading a Soroban entry is not metered as a
    disk read when the key is read-only or the entry is live: the count of
    bytes read is the same after the step as before, whatever the size of
    the entry. *)
Theorem X29_soroban_reads_not_metered_from_protocol_23 (env : Env)
    (ledgerSeq ledgerVersion restoredLiveUntilLedger : Z) (isReadOnly : bool)
    (i : nat) (lk : LedgerKey) (s : State) :
  isSorobanEntry lk = true →
  AUTO_RESTORE_PROTOCOL_VERSION ≤ ledgerVersion →
  isReadOnly = true
  ∨ (∃ ttl, loadWithoutRecord (mLtx s) (getTTLKey lk) = Some ttl
            ∧ isLive ttl ledgerSeq = Returns true) →
  mLedgerReadByte
    (mMetrics (state_of (addRead env ledgerSeq ledgerVersion
                           restoredLiveUntilLedger isReadOnly i lk s)))
  = mLedgerReadByte (mMetrics s).
Proof.
  intros Hs Hv Hcase.
  unfold addRead, checkExpiry, handleArchivedEntry, readEntry,
    checkIfReadWriteEntryIsMarkedForAutorestore, archivedEntryDiagnostic,
    validate, meterDiskReadResource, fail_with, diag_pushError,
    noteDiskReadEntry, restoreFromHotArchive, restoreFromLiveBucketList,
    ttl_of, protocolVersionIsBefore, AUTO_RESTORE_PROTOCOL_VERSION in *.
  rewrite Hs. rewrite (proj2 (Z.ltb_ge _ _)) by done.
  destruct Hcase as [-> | (ttl & Httl & Hlive)].
  - brute; done.
  - munfold. rewrite Httl, Hlive. brute; done.
Qed.

(** [X30] A temporary entry whose TTL is expired is read as if it did not
    exist: the step of the loop for its key changes neither the overlay nor
    the buffers handed to the host, and sets no result code other than
    [INVOKE_HOST_FUNCTION_RESOURCE_LIMIT_EXCEEDED]. *)
Theorem X30_expired_temporary_entry_is_read_as_absent (env : Env)
    (ledgerSeq ledgerVersion restoredLiveUntilLedger : Z) (isReadOnly : bool)
    (i : nat) (lk : LedgerKey) (s : State) (ttl : LedgerEntry) :
  isTemporaryEntry lk = true →
  loadWithoutRecord (mLtx s) (getTTLKey lk) = Some ttl →
  isLive ttl ledgerSeq = Returns false →
  let s' := state_of (addRead env ledgerSeq ledgerVersion
                        restoredLiveUntilLedger isReadOnly i lk s) in
  mLtx s' = mLtx s
  ∧ mLedgerEntryCxxBufs s' = mLedgerEntryCxxBufs s
  ∧ mTtlEntryCxxBufs s' = mTtlEntryCxxBufs s
  ∧ (mRes s' = mRes s
     ∨ mRes s' = Some INVOKE_HOST_FUNCTION_RESOURCE_LIMIT_EXCEEDED).
Proof.
  intros Ht Httl Hlive.
  assert (Hs : isSorobanEntry lk = true) by (by destruct lk as [? ?|? ? []|?|?]).
  unfold addRead, checkExpiry, readEntry, validate, meterDiskReadResource,
    fail_with, diag_pushError, noteDiskReadEntry in *.
  rewrite Hs, Ht. munfold. rewrite Httl, Hlive. brute; auto.
Qed.

(** ** InvokeHostFunction: the outcome of [doApply] *)

Lemma doApply_apply app frame ltx seed res tracker diagnosticEvents ok s' :
  doApply app frame ltx seed res tracker diagnosticEvents = Done ok s' →
  ∃ env, newApplyHelper app frame seed = Returns env
         ∧ mResources env = frame_resources frame
         ∧ mSorobanConfig env = app_sorobanConfig app
         ∧ apply env (initialState frame ltx res tracker diagnosticEvents)
           = Done ok s'.
Proof.
  unfold doApply. destruct tracker as [t|]; [|done].
  destruct (newApplyHelper app frame seed) as [env|e] eqn:Hnew; [|done].
  intros Hrun. exists env. split; [done|].
  unfold newApplyHelper in Hnew.
  destruct (initAutorestoredEntries _ _); simpl in Hnew; [|done].
  by injection Hnew as <-.
Qed.

Lemma ingestEvents_post (P F : State → Prop) env bufs events :
  (∀ s size, P s → P (set_mMetrics (meterEvent size (mMetrics s)) s)) →
  (∀ s d, P s → F (set_mRes INVOKE_HOST_FUNCTION_RESOURCE_LIMIT_EXCEEDED
                     (set_mDiagnosticEvents d s))) →
  triple P (ingestEvents env bufs events) (optPost P F) always.
Proof.
  intros HP HF. revert events. induction bufs as [|[size evt] bufs IH];
    intros events s Hs; simpl; [done|].
  unfold fail_with, diag_pushError. munfold. simpl.
  destruct (_ <? _).
  - apply (HF (set_mMetrics _ s)). by apply HP.
  - apply IH. by apply HP.
Qed.

(** [X23] When [doApply] returns, the result code agrees with the returned
    flag.  With [true] the code is [INVOKE_HOST_FUNCTION_SUCCESS], the
    success flag of the metrics is set, and the hash of the success
    pre-image and the return value are handed over.  With [false] the code
    is one of [INVOKE_HOST_FUNCTION_RESOURCE_LIMIT_EXCEEDED],
    [INVOKE_HOST_FUNCTION_ENTRY_ARCHIVED], [INVOKE_HOST_FUNCTION_TRAPPED] and
    [INVOKE_HOST_FUNCTION_INSUFFICIENT_REFUNDABLE_FEE], and neither a success
    hash nor events nor a return value are handed over. *)
Theorem X23_invoke_result_code_agrees_with_outcome (app : App) (frame : Frame)
    (ltx : LedgerTxn) (seed : N) (res : option InvokeHostFunctionResultCode)
    (tracker : option RefundableFeeTracker)
    (diagnosticEvents : list DiagnosticEvent) (ok : bool) (s' : State) :
  doApply app frame ltx seed res tracker diagnosticEvents = Done ok s' →
  if ok then
    mRes s' = Some INVOKE_HOST_FUNCTION_SUCCESS
    ∧ mSuccess (mMetrics s') = true
    ∧ is_Some (mResSuccess s') ∧ is_Some (mOpMetaReturnValue s')
  else
    failureCode s' ∧ successOutputs s' = (None, [], None).
Proof.
  intros (env & _ & _ & _ & Hrun)%doApply_apply.
  set (s := initialState frame ltx res tracker diagnosticEvents) in *.
  pose (P := λ st : State, successOutputs st = successOutputs s).
  pose (F := λ st : State, failureCode st ∧ successOutputs st = successOutputs s).
  pose (Qs := λ st : State,
          mRes st = Some INVOKE_HOST_FUNCTION_SUCCESS
          ∧ mSuccess (mMetrics st) = true
          ∧ is_Some (mResSuccess st) ∧ is_Some (mOpMetaReturnValue st)).
  assert (Happly : triple P (apply env) (stepPost Qs F) always).
  { apply triple_apply.
    - apply triple_readFootprint; [done| |].
      + intros. start_brute. unfold P, F, failureCode, successOutputs in *.
        brute; fin.
      + intros. start_brute. unfold P, F, failureCode, successOutputs in *.
        brute; fin.
    - start_brute. unfold P, F, failureCode, successOutputs in *. brute; fin.
    - intros. start_brute. unfold P, F, failureCode, successOutputs in *.
      brute; fin.
    - intros. start_brute. unfold P, F, failureCode, successOutputs in *.
      brute; fin.
    - intros. start_brute. unfold P, F, failureCode, successOutputs in *.
      brute; fin.
    - intros. start_brute. unfold P, F, failureCode, successOutputs in *.
      brute; fin.
    - intros. apply ingestEvents_post.
      + by intros st v Hst.
      + intros st d Hst. split; [by left|done].
    - intros. start_brute. unfold P, F, Qs, failureCode, successOutputs in *.
      brute; fin. }
  pose proof (Happly s eq_refl) as Hpost. rewrite Hrun in Hpost.
  by destruct ok.
Qed.

(** [X24] When [doApply] returns [true] for resources whose byte limits are
    not negative, the bytes read from disk and the bytes written that it
    metered are within the [diskReadBytes] and [writeBytes] that the
    transaction declares, and the bytes of the emitted events are within
    the limit [txMaxContractEventsSizeBytes] of the network. *)
Theorem X24_invoke_success_within_declared_resources (app : App) (frame : Frame)
    (ltx : LedgerTxn) (seed : N) (res : option InvokeHostFunctionResultCode)
    (tracker : option RefundableFeeTracker)
    (diagnosticEvents : list DiagnosticEvent) (s' : State) :
  0 ≤ diskReadBytes (frame_resources frame) →
  0 ≤ writeBytes (frame_resources frame) →
  doApply app frame ltx seed res tracker diagnosticEvents = Done true s' →
  mLedgerReadByte (mMetrics s') ≤ diskReadBytes (frame_resources frame)
  ∧ mLedgerWriteByte (mMetrics s') ≤ writeBytes (frame_resources frame)
  ∧ mEmitEventByte (mMetrics s')
    ≤ txMaxContractEventsSizeBytes (app_sorobanConfig app).
Proof.
  intros Hread Hwrite (env & _ & Hres & Hcfg & Hrun)%doApply_apply.
  rewrite <- Hres, <- Hcfg in *.
  set (s := initialState frame ltx res tracker diagnosticEvents) in *.
  assert (Hs : withinDeclaredBytes env s) by (by split).
  pose (P := withinDeclaredBytes env).
  pose (Qs := λ st : State,
          withinDeclaredBytes env st
          ∧ mEmitEventByte (mMetrics st)
            ≤ txMaxContractEventsSizeBytes (mSorobanConfig env)).
  assert (Happly : triple P (apply env) (stepPost Qs always) always).
  { apply triple_apply.
    - apply triple_readFootprint; [done| |].
      + intros. start_brute. unfold P, withinDeclaredBytes in *.
        brute; try done; lia.
      + intros. start_brute. unfold P, withinDeclaredBytes in *.
        brute; try done; lia.
    - start_brute. unfold P, withinDeclaredBytes in *. brute; done.
    - intros. start_brute. unfold P, withinDeclaredBytes in *. brute; done.
    - intros. start_brute. unfold P, withinDeclaredBytes in *.
      brute; try done; lia.
    - intros. start_brute. unfold P, withinDeclaredBytes in *. brute; done.
    - intros. start_brute. unfold P, withinDeclaredBytes in *. brute; done.
    - intros. apply ingestEvents_post; [by intros st v Hst|done].
    - intros. start_brute. unfold P, Qs, withinDeclaredBytes in *.
      brute; try done. repeat split; try done; lia. }
  pose proof (Happly s Hs) as Hpost. rewrite Hrun in Hpost.
  destruct Hpost as [[Hr Hw] He]. done.
Qed.

(** ** InvokeHostFunction: what [apply] does with the output of the host *)

Lemma eraseUntouched_spec touched lk s s' :
  eraseUntouched touched lk s = Done () s' →
  (lk ∉ touched → load (mLtx s') lk = None)
  ∧ (∀ k, load (mLtx s') k = None ∨ load (mLtx s') k = load (mLtx s) k)
  ∧ (∀ k, k ≠ lk → k ≠ getTTLKey lk → load (mLtx s') k = load (mLtx s) k).
Proof.
  unfold eraseUntouched, erase, load. brute.
  all: intros; simplify_eq; simpl.
  all: repeat split; try done; try (intros; by right).
  - intros Hn.
    match goal with
    | Hin : bool_decide (lk ∈ touched) = true |- _ =>
        by apply bool_decide_eq_true in Hin
    end.
  - intros Hn. destruct (decide (lk = getTTLKey lk)) as [<-|Hne].
    + apply lookup_delete_eq.
    + rewrite lookup_delete_ne by done. apply lookup_delete_eq.
  - intros k. destruct (decide (k = getTTLKey lk)) as [->|Hne1].
    { left. apply lookup_delete_eq. }
    rewrite lookup_delete_ne by done.
    destruct (decide (k = lk)) as [->|Hne2].
    { left. apply lookup_delete_eq. }
    right. by rewrite lookup_delete_ne.
  - intros k Hk1 Hk2. by rewrite !lookup_delete_ne.
Qed.

(** [X25] After the loop that erases the read-write keys which the host did
    not return, no such key can be loaded any more; the loop adds nothing to
    the overlay; and a key that is neither a read-write key nor the TTL key
    of one loads what it loaded before. *)
Theorem X25_untouched_read_write_keys_are_erased (touched : gset LedgerKey)
    (keys : list LedgerKey) (s s' : State) :
  eraseAllUntouched touched keys s = Done () s' →
  (∀ lk, lk ∈ keys → lk ∉ touched → load (mLtx s') lk = None)
  ∧ (∀ k e, load (mLtx s') k = Some e → load (mLtx s) k = Some e)
  ∧ (∀ k, k ∉ keys → (∀ lk, lk ∈ keys → k ≠ getTTLKey lk) →
          load (mLtx s') k = load (mLtx s) k).
Proof.
  revert s. induction keys as [|lk keys IH]; intros s; simpl.
  - intros [= <-]. split; [intros lk Hlk; inversion Hlk|]. by split.
  - unfold mbind, M_bind, bind.
    destruct (eraseUntouched touched lk s) as [[] s1|] eqn:Hstep; [|done].
    intros Hrest. destruct (IH _ Hrest) as (IH1 & IH2 & IH3).
    destruct (eraseUntouched_spec _ _ _ _ Hstep) as (Hs1 & Hs2 & Hs3).
    split; [|split].
    + intros k Hk Hnt. apply elem_of_cons in Hk as [->|Hk]; [|by apply IH1].
      specialize (Hs1 Hnt).
      destruct (load (mLtx s') lk) as [e|] eqn:Hl; [|done].
      apply IH2 in Hl. congruence.
    + intros k e Hk. apply IH2 in Hk. destruct (Hs2 k) as [Hn|Heq]; congruence.
    + intros k Hk Httl. apply not_elem_of_cons in Hk as [Hne Hk].
      rewrite IH3; [|done|].
      * apply Hs3; [done|]. apply Httl, list_elem_of_here.
      * intros lk' Hlk'. by apply Httl, list_elem_of_further.
Qed.
Lemma with_entries_id ltx : with_entries ltx (ltx_entries ltx) = ltx.
Proof. by destruct ltx. Qed.

Lemma applyModifiedEntry_spec env buf keys s :
  ∃ r s', applyModifiedEntry env buf keys s = Done r s'
    ∧ ∀ keys', r = Some keys' →
        mLtx s' = with_entries (mLtx s)
                    (<[LedgerEntryKey buf.2 := buf.2]> (ltx_entries (mLtx s)))
        ∧ createdAndModifiedKeys keys'
          = {[LedgerEntryKey buf.2]} ∪ createdAndModifiedKeys keys.
Proof.
  unfold applyModifiedEntry, validate, fail_with, diag_pushError, create,
    update, load.
  destruct buf as [size le]. brute; eexists _, _; (split; [done|]);
    intros keys' ?; by simplify_eq.
Qed.

Lemma applyModifiedEntries_spec env bufs keys s :
  ∃ r s', applyModifiedEntries env bufs keys s = Done r s'
    ∧ ∀ keys', r = Some keys' →
        mLtx s' = with_entries (mLtx s) (writeAll bufs (ltx_entries (mLtx s)))
        ∧ createdAndModifiedKeys keys'
          = list_to_set ((λ buf, LedgerEntryKey buf.2) <$> bufs)
            ∪ createdAndModifiedKeys keys.
Proof.
  revert keys s. induction bufs as [|b bufs IH]; intros keys s; simpl.
  - eexists _, _. split; [done|]. intros keys' [= <-].
    rewrite with_entries_id. split; [done|]. simpl.
    by rewrite (left_id_L ∅ (∪)).
  - destruct (applyModifiedEntry_spec env b keys s) as (r & s1 & Hrun & Hpost).
    unfold mbind, M_bind, bind. rewrite Hrun.
    destruct r as [keys1|]; [|by eexists _, _].
    destruct (Hpost keys1 eq_refl) as [Hltx Hkeys].
    destruct (IH keys1 s1) as (r & s' & Hrun' & Hpost').
    exists r, s'. split; [done|]. intros keys' ->.
    destruct (Hpost' keys' eq_refl) as [Hltx' Hkeys'].
    rewrite Hltx', Hltx, Hkeys', Hkeys. simpl. split; [done|].
    apply set_eq. intros x. rewrite !elem_of_union. tauto.
Qed.

(** [X26] The loop over the entries that the host returns never throws.
    When it completes, the overlay is the former overlay with the returned
    entries written in order, each under its own key; the keys recorded as
    created or modified are the former ones and the keys of the returned
    entries; and when the keys of the returned entries are distinct, each
    returned entry is what the overlay then loads under its key. *)
Theorem X26_modified_entries_are_written_in_order (env : Env)
    (bufs : list (Z * LedgerEntry)) (keys : TouchedKeys) (s : State) :
  ∃ r s', applyModifiedEntries env bufs keys s = Done r s'
    ∧ ∀ keys', r = Some keys' →
        mLtx s' = with_entries (mLtx s) (writeAll bufs (ltx_entries (mLtx s)))
        ∧ createdAndModifiedKeys keys'
          = list_to_set ((λ buf, LedgerEntryKey buf.2) <$> bufs)
            ∪ createdAndModifiedKeys keys
        ∧ (∀ buf, buf ∈ bufs →
             NoDup ((λ buf, LedgerEntryKey buf.2) <$> bufs) →
             load (mLtx s') (LedgerEntryKey buf.2) = Some buf.2).
Proof.
  destruct (applyModifiedEntries_spec env bufs keys s) as (r & s' & Hrun & Hpost).
  exists r, s'. split; [done|]. intros keys' Hr.
  destruct (Hpost keys' Hr) as [Hltx Hkeys]. split; [done|]. split; [done|].
  intros buf Hbuf Hnd. rewrite Hltx. unfold load. simpl.
  clear -Hbuf Hnd. unfold writeAll. generalize (ltx_entries (mLtx s)) as m.
  induction bufs as [|b bufs IH]; intros m; [inversion Hbuf|].
  simpl in *. apply NoDup_cons in Hnd as [Hb Hnd].
  apply elem_of_cons in Hbuf as [->|Hbuf]; [|by apply IH].
  clear IH. 
  assert (Hgen : ∀ l (m : gmap LedgerKey LedgerEntry) k,
            k ∉ (λ buf : Z * LedgerEntry, LedgerEntryKey buf.2) <$> l →
            foldl (λ m buf, <[LedgerEntryKey buf.2 := buf.2]> m) m l !! k = m !! k).
  { induction l as [|x l IHl]; intros m' k Hk; simpl; [done|].
    simpl in Hk. apply not_elem_of_cons in Hk as [Hne Hk].
    rewrite IHl by done. by rewrite lookup_insert_ne. }
  rewrite Hgen by done. apply lookup_insert_eq.
Qed.

(** [X27] When the reads of the footprint succeed and the host function
    throws, [apply] throws the runtime error "Got internal error during
    Soroban host invocation." whatever the host threw, in the state reached
    by the reads: no result code is set for the failure. *)
Theorem X27_host_exception_becomes_internal_error (env : Env) (s s0 : State)
    (e : Exception) :
  readFootprint env s = Done true s0 →
  invoke_host_function (hostInvocation env s0) = Throws e →
  apply env s
  = Thrown (RuntimeError "Got internal error during Soroban host invocation.") s0.
Proof.
  intros Hread Hhost. unfold apply. rewrite (bind_Done _ _ _ _ _ Hread).
  cbn [negb]. unfold invokeHost. unfold hostInvocation in Hhost.
  unfold mbind at 1, M_bind at 1, bind at 1.
  unfold mbind at 1, M_bind at 1, bind at 1, get at 1.
  by rewrite Hhost.
Qed.

Lemma foldl_pushEvent buffer events :
  foldl (λ buffer e, pushEvent e buffer) buffer events = buffer ++ events.
Proof.
  revert buffer. induction events as [|e events IH]; intros buffer; simpl.
  - by rewrite app_nil_r.
  - rewrite IH. unfold pushEvent. by rewrite <- app_assoc.
Qed.

(** [X28] With diagnostic events enabled, a successful end of [apply]
    appends to the diagnostic events those of the host followed by the 19
    metrics events, and sets the success flag of the metrics afterwards:
    every metrics event carries the value [false] that the flag has until
    then, and the event "emit_event_byte" carries the bytes of events
    counted before the size of the return value is added. *)
Theorem X28_metrics_events_precede_the_success_flag (env : Env)
    (out : InvokeHostFunctionOutput) (events : list N) (s s' : State) :
  ENABLE_SOROBAN_DIAGNOSTIC_EVENTS (mAppConfig env) = true →
  mSuccess (mMetrics s) = false →
  finish env out events s = Done true s' →
  mSuccess (mMetrics s') = true
  ∧ ∃ metricsEvents rest,
      mDiagnosticEvents s'
      = mDiagnosticEvents s ++ (HostDiagnosticEvent <$> diagnostic_events out)
        ++ metricsEvents ++ rest
      ∧ length metricsEvents = 19%nat
      ∧ Forall (λ e, ∃ topic value, e = metricsEvent false topic value)
          metricsEvents
      ∧ metricsEvent false "emit_event_byte" (mEmitEventByte (mMetrics s))
        ∈ metricsEvents.
Proof.
  intros Hen Hflag. unfold finish, fail_with, diag_pushError. munfold. simpl.
  unfold maybePopulateDiagnosticEvents. rewrite Hen, Hflag.
  destruct (_ <? _); [done|].
  destruct (mRefundableFeeTracker s) as [tracker|]; [|done].
  destruct (consumeRefundableSorobanResources _ _ _ _ _ _) as [[[] t'] diags];
    simpl; [|done].
  intros [= <-]. simpl. split; [done|].
  rewrite foldl_pushEvent, <- !app_assoc. eexists _, diags.
  split; [reflexivity|]. split; [done|]. split.
  - repeat (constructor; [by eexists _, _|]). constructor.
  - do 11 apply list_elem_of_further. apply list_elem_of_here.
Qed.
End invoke_properties.

(** ** The further properties on examples *)

Section further_examples.
Import Examples.

(** The runs used as examples: RestoreFootprint of [key1], archived in the
    hot archive, and of the expired code entry [key2] of the live state; the
    same for [key1] alone with 50 bytes declared for reads and writes; and
    the invoke operation that autorestores [key1], with a refundable fee of
    1000000 and of 100. *)
Local Abbreviation restoreRun :=
  (@RestoreFootprintOpFrame.doApply codec utils (bridge (Throws OutOfRange))
     (restoreEnv [key1; key2] hot1) (ltx0 100 23 live2) None (Some 1000000) []).
Local Abbreviation smallRestoreEnv :=
  (RestoreFootprintOpFrame.mkEnv (mkResources (mkFootprint [] [key1]) 0 50 50)
     networkConfig config hot1).
Local Abbreviation smallRestoreRun :=
  (@RestoreFootprintOpFrame.doApply codec utils (bridge (Throws OutOfRange))
     smallRestoreEnv (ltx0 100 23 ∅) None (Some 1000000) []).
Local Abbreviation autorestoreRun fee :=
  (@InvokeHostFunctionOpFrame.doApply codec utils
     (bridge (Returns autorestoreOutput)) autorestoreApp autorestoreFrame
     (ltx0 100 23 ∅) 0%N None (Some fee) []).

Lemma manager0_wellFormed : registryWellFormed manager0.
Proof.
  split.
  - vm_compute. repeat constructor; intros Hin; repeat
      (apply elem_of_cons in Hin as [Hin|Hin]; [discriminate|]); inversion Hin.
  - intros p Hp. repeat (apply elem_of_cons in Hp as [->|Hp]; [reflexivity|]).
    inversion Hp.
Qed.

(** [X1], on an example: the archive holds [key1] and the live state
    [key2]. *)
Lemma X1_start_witness :
  (ArchivedStateConsistency.start 23 [(key1, entry1)] [(key2, entry2)]).2 = None.
Proof.
  refine (proj2 (proj1 (X1_start_reports_exactly_the_shared_keys 23
                          [(key1, entry1)] [(key2, entry2)] _ _ _)) _).
  - vm_compute. discriminate.
  - repeat constructor.
  - repeat constructor.
  - intros k Hk Hin. apply list_elem_of_singleton in Hk.
    apply list_elem_of_singleton in Hin. subst k. discriminate.
Defined.

(** [X2], on an example: at ledger 13 the temporary [key3] and its TTL key
    are deleted, and the TTL expired at ledger 12. *)
Lemma X2_eviction_check_witness :
  @ArchivedStateConsistency.checkEvictionInvariants codec (live3 12) ∅
    [key3; ttlKey3] [] 13 23 = Returns None.
Proof.
  apply (@X2_eviction_check_passes_iff codec). split; [|split].
  - intros e He. inversion He.
  - intros k Hk Ht. apply elem_of_cons in Hk as [->|Hk].
    + split; [by eexists|]. exists (ttlEntry3 12), (@sha256_xdr_key codec key3), 12.
      repeat split.
    + apply list_elem_of_singleton in Hk. subst k. discriminate.
  - reflexivity.
Defined.

(** [X3], on an example: [entry1] is restored from the hot archive together
    with its TTL. *)
Lemma X3_restore_check_witness :
  @ArchivedStateConsistency.checkRestoreInvariants codec ∅ hot1
    [(key1, entry1); (ttlKey1, ttlEntry1 4195)] [] 100 23 = Returns None.
Proof.
  apply (@X3_restore_check_passes_iff codec). split; [|split; [|split]].
  - intros p Hp. inversion Hp.
  - intros p Hp Hty. apply elem_of_cons in Hp as [->|Hp].
    + split; [reflexivity|]. apply list_elem_of_further, list_elem_of_here.
    + apply list_elem_of_singleton in Hp. subst p. by destruct Hty.
  - intros p Hp. apply elem_of_cons in Hp as [->|Hp].
    + split; [reflexivity|]. intros _. exists entry1. repeat split.
    + apply list_elem_of_singleton in Hp. subst p. split; [reflexivity|].
      intros Hty. by destruct Hty.
  - intros p Hp. inversion Hp.
Defined.

(** [X4], on an example: [key1] is requested from a live state that holds
    [entry1] and a hot archive that holds it as well. *)
Lemma X4_preloaded_entries_witness :
  ArchivedStateConsistency.preloadLive
    (loadKeys ({[key1 := entry1]} : gmap LedgerKey LedgerEntry) {[key1]}) !! key1
  = ({[key1 := entry1]} : gmap LedgerKey LedgerEntry) !! key1
  ∧ ArchivedStateConsistency.preloadArchived (loadKeys hot1 {[key1]}) !! key1
    = archivedOnly hot1 !! key1.
Proof.
  refine (proj1 (X4_preloaded_entries_agree_with_the_stores
                   {[key1 := entry1]} hot1 {[key1]} key1 _ _) _).
  - intros k e Hk. apply lookup_singleton_Some in Hk as [<- <-]. reflexivity.
  - intros k e Hk. unfold hot1 in Hk.
    apply lookup_singleton_Some in Hk as [<- Heq].
    injection Heq as <-. reflexivity.
  - apply elem_of_singleton. reflexivity.
Defined.

(** [X5], on an example: the snapshot is at ledger 12 and protocol 23, and
    [key3] with its TTL key is reported as deleted. *)
Lemma X5_commit_check_witness :
  deletedTempKeyConsistent (H := codec) (live3 12) 13 key3.
Proof.
  refine (proj1 (proj2 (@X5_commit_check_is_sound_for_the_snapshots codec
                          (mkSnapshot 12 23 (live3 12)) ∅ [] [key3; ttlKey3] [] []
                          _ _ _ _)) key3 _ _).
  - vm_compute. discriminate.
  - apply live3_wellKeyed.
  - intros k e Hk. rewrite lookup_empty in Hk. discriminate.
  - vm_compute. reflexivity.
  - apply list_elem_of_here.
  - reflexivity.
Defined.

(** [X6], on an example: a third invariant is registered beside the two of
    [manager0]. *)
Lemma X6_registerInvariant_witness :
  ∃ s', InvariantManagerImpl.registerInvariant inv3 manager0 = Done () s'
        ∧ InvariantManagerImpl.registerInvariant inv3 s'
          = Thrown (RuntimeError "Invariant LedgerEntryIsValid already registered")
              s'.
Proof.
  destruct (proj2 (X6_registerInvariant_rejects_a_registered_name inv3 manager0
                     manager0_wellFormed)) as (s' & Hrun & _ & _ & _ & Hagain).
  - vm_compute. intros Hin.
    repeat (apply elem_of_cons in Hin as [Hin|Hin]; [discriminate|]).
    inversion Hin.
  - exists s'. split; [exact Hrun|exact Hagain].
Defined.

(** [X7], on an example: the pattern [.*] is enabled twice. *)
Lemma X7_enabling_twice_witness :
  ∃ name,
    @InvariantManagerImpl.enableInvariant stdRegex ".*"
      (InvariantManagerImpl.mkState (InvariantManagerImpl.mInvariants manager0)
         [inv1; inv2])
    = Thrown (RuntimeError ("Invariant " +:+ name +:+ " already enabled"))
        (InvariantManagerImpl.mkState (InvariantManagerImpl.mInvariants manager0)
           [inv1; inv2]).
Proof.
  refine (proj2 (@X7_enabling_a_pattern_twice_throws stdRegex ".*" manager0 _
                   manager0_wellFormed _)).
  vm_compute. reflexivity.
Defined.

(** [X8], on an example: on the operation 1 the lax invariant at address 1
    fails and the strict one at address 2 holds. *)
Lemma X8_lax_failure_witness :
  ∃ m', @InvariantManagerImpl.checkOnOperationApply checks 1%N () (23, 100) []
          manager1 = InvariantManagerImpl.Returned m'
        ∧ InvariantManagerImpl.mInvariantFailureCount m' = 1.
Proof.
  destruct (@X8_lax_failures_are_recorded_and_checks_go_on checks 1%N ()
              (23, 100) [] manager1) as (m' & Hrun & _ & Hcount & _).
  - vm_compute. repeat constructor.
  - exists m'. split; [exact Hrun|exact Hcount].
Defined.

(** [X9], on an example: on the operation 2 both invariants fail, the lax
    one first. *)
Lemma X9_strict_failure_witness :
  ∃ m', @InvariantManagerImpl.checkOnOperationApply checks 2%N () (23, 100) []
          manager1
        = InvariantManagerImpl.InvariantDoesNotHold
            (@operationApplyMessageOf checks 2%N () (23, 100) [] inv2) m'
        ∧ InvariantManagerImpl.mInvariantFailureCount m' = 2.
Proof.
  destruct (@X9_strict_failure_throws_after_recording checks 2%N ()
              (23, 100) [] manager1 [inv1] inv2 [])
    as (m' & Hrun & _ & Hcount & _).
  - vm_compute. reflexivity.
  - repeat constructor.
  - reflexivity.
  - exists m'. split; [exact Hrun|exact Hcount].
Defined.

(** [X10], on an example: the same operation at protocol 7. *)
Lemma X10_before_protocol_8_witness :
  @InvariantManagerImpl.checkOnOperationApply checks 2%N () (7, 100) [] manager1
  = InvariantManagerImpl.Returned manager1.
Proof.
  apply (@X10_before_protocol_8_only_the_events_invariant_is_checked checks).
  - vm_compute. reflexivity.
  - intros inv Hin.
    repeat (apply elem_of_cons in Hin as [->|Hin]; [discriminate|]).
    inversion Hin.
Defined.

(** [X11], on an example: after assume-state at ledger 50 the invariant at
    address 1 fails. *)
Lemma X11_assume_state_witness :
  ∃ m', @InvariantManagerImpl.checkAfterAssumeState checks 50 manager1
        = InvariantManagerImpl.Returned m'
        ∧ InvariantManagerImpl.getJsonInfo m' !! "AccountSubEntriesCountIsValid"
          = Some (InvariantManagerImpl.JsonFailure 0
                    (InvariantManagerImpl.assumeStateMessage inv1 "violated"))
        ∧ InvariantManagerImpl.getJsonInfo m' !! "count"
          = Some (InvariantManagerImpl.JsonCount 1).
Proof.
  destruct (@X11_failure_after_assume_state_is_reported_at_ledger_0 checks 50
              manager1 inv1) as (m' & Hrun & Hinfo & Hcount).
  - vm_compute. repeat constructor.
  - vm_compute. repeat constructor. intros Hin. inversion Hin.
  - vm_compute. apply list_elem_of_here.
  - discriminate.
  - exists m'. split; [exact Hrun|]. split; [exact Hinfo|exact Hcount].
Defined.

(** [X12], on an example: the archived [entry1] of 96 bytes is to be restored
    with 50 bytes declared for reads; the refundable fee is untouched. *)
Lemma X12_restore_result_code_witness :
  RestoreFootprintOpFrame.refundableFeeTracker (state_of smallRestoreRun)
  = Some 1000000.
Proof.
  assert (Hrun : smallRestoreRun = Done false (state_of smallRestoreRun))
    by (apply run_Done; vm_compute; reflexivity).
  pose proof (@X12_restore_result_code_agrees_with_outcome codec utils
                (bridge (Throws OutOfRange)) smallRestoreEnv (ltx0 100 23 ∅) None
                (Some 1000000) [] false (state_of smallRestoreRun) Hrun) as Hcode.
  assert (Hres : RestoreFootprintOpFrame.res (state_of smallRestoreRun)
                 = Some RestoreFootprintOpFrame.RESTORE_FOOTPRINT_RESOURCE_LIMIT_EXCEEDED)
    by (vm_compute; reflexivity).
  rewrite Hres in Hcode. exact (proj2 Hcode).
Defined.

(** [X13], on an example: [key1] is restored from the hot archive and the
    expired code entry [key2] from the live state. *)
Lemma X13_restore_budgets_witness :
  RestoreFootprintOpFrame.mLedgerReadByte (state_of restoreRun) ≤ 10000
  ∧ RestoreFootprintOpFrame.mLedgerWriteByte (state_of restoreRun) ≤ 10000
  ∧ RestoreFootprintOpFrame.mLedgerReadByte (state_of restoreRun)
    = RestoreFootprintOpFrame.mLedgerWriteByte (state_of restoreRun).
Proof.
  refine (@X13_restore_success_within_byte_budgets codec utils
            (bridge (Throws OutOfRange)) (restoreEnv [key1; key2] hot1)
            (ltx0 100 23 live2) None (Some 1000000) [] (state_of restoreRun)
            _ _ _).
  - vm_compute. discriminate.
  - vm_compute. discriminate.
  - apply run_Done. vm_compute. reflexivity.
Defined.

(** [X15], on an example: [key1] is neither live nor archived. *)
Lemma X15_restore_skips_witness :
  @RestoreFootprintOpFrame.restoreKey codec utils (bridge (Throws OutOfRange))
    (restoreEnv [key1] ∅) 100 4195 23 key1 (restoreState (ltx0 100 23 ∅))
  = Done true (restoreState (ltx0 100 23 ∅)).
Proof.
  apply (@X15_restore_skips_a_key_that_exists_nowhere codec utils
           (bridge (Throws OutOfRange))).
  - reflexivity.
  - right. reflexivity.
Defined.

(** [X16], on an example: at protocol 22 a hot archive that holds [entry1]
    makes no difference. *)
Lemma X16_restore_before_23_witness :
  @RestoreFootprintOpFrame.doApply codec utils (bridge (Throws OutOfRange))
    (with_hotArchive (restoreEnv [key1] ∅) hot1) (ltx0 100 22 ∅) None
    (Some 1000000) []
  = @RestoreFootprintOpFrame.doApply codec utils (bridge (Throws OutOfRange))
      (restoreEnv [key1] ∅) (ltx0 100 22 ∅) None (Some 1000000) [].
Proof.
  apply (@X16_restore_before_protocol_23_ignores_the_hot_archive codec utils
           (bridge (Throws OutOfRange))).
  vm_compute. reflexivity.
Defined.

(** [X17], on an example: [key1] is listed twice and archived in the hot
    archive. *)
Lemma X17_restoring_twice_witness :
  @RestoreFootprintOpFrame.restoreKeys codec utils (bridge (Throws OutOfRange))
    (restoreEnv [key1; key1] hot1) 100 4195 23 [key1; key1]
    (restoreState (ltx0 100 23 ∅))
  = @RestoreFootprintOpFrame.restoreKeys codec utils (bridge (Throws OutOfRange))
      (restoreEnv [key1; key1] hot1) 100 4195 23 [key1]
      (restoreState (ltx0 100 23 ∅)).
Proof.
  apply (@X17_restoring_a_key_twice_restores_it_once codec utils
           (bridge (Throws OutOfRange)) (restoreEnv [key1; key1] hot1) 100 4195 23
           key1 [] (restoreState (ltx0 100 23 ∅)) entry1 true).
  - repeat split.
  - reflexivity.
  - vm_compute. discriminate.
Defined.

(** [X18], on an example: [entry1] is restored from the hot archive. *)
Lemma X18_restored_payload_witness :
  let s' := state_of (@RestoreFootprintOpFrame.restoreKey codec utils
                        (bridge (Throws OutOfRange)) (restoreEnv [key1] hot1) 100
                        4195 23 key1 (restoreState (ltx0 100 23 ∅))) in
  loadWithoutRecord (RestoreFootprintOpFrame.ltx s') key1 = Some entry1
  ∧ ltx_restoredFromHotArchive (RestoreFootprintOpFrame.ltx s') !! key1
    = Some entry1
  ∧ ltx_header (RestoreFootprintOpFrame.ltx s') = header 100 23.
Proof.
  intros s'.
  apply (@X18_restore_writes_the_archived_payload codec utils
           (bridge (Throws OutOfRange)) (restoreEnv [key1] hot1) 100 4195 23 key1
           (restoreState (ltx0 100 23 ∅)) s' entry1 true).
  - repeat split.
  - reflexivity.
  - reflexivity.
  - apply run_Done. vm_compute. reflexivity.
Defined.

(** [X19], on an example: the transaction lists the index 0 of a read-write
    footprint of one key. *)
Lemma X19_autorestore_marks_witness :
  InvokeHostFunctionOpFrame.checkIfReadWriteEntryIsMarkedForAutorestore
    autorestoreEnv key1 0
  = Returns (bool_decide (0%nat ∈ [0%nat])).
Proof.
  refine (proj2 (X19_autorestore_marks_are_the_listed_indices autorestoreApp
                   autorestoreFrame 0%N autorestoreEnv _) key1 0%nat _).
  - reflexivity.
  - apply Nat.lt_0_1.
Defined.

(** [X20], on an example: the transaction lists the index 3 of a read-write
    footprint of one key. *)
Lemma X20_out_of_range_witness :
  @InvokeHostFunctionOpFrame.doApply codec utils
    (bridge (Returns autorestoreOutput)) autorestoreApp outOfRangeFrame
    (ltx0 100 23 ∅) 0 None (Some 1000000) []
  = Thrown OutOfRange
      (@InvokeHostFunctionOpFrame.initialState utils outOfRangeFrame
         (ltx0 100 23 ∅) None (Some 1000000) []).
Proof.
  apply (@X20_out_of_range_autorestore_index_throws codec utils
           (bridge (Returns autorestoreOutput)) autorestoreApp outOfRangeFrame
           (ltx0 100 23 ∅) 0%N None 1000000 [] 3%nat).
  - apply list_elem_of_here.
  - vm_compute. repeat constructor.
Defined.

(** [X21], on an example: the live [key1] is read as a read-only key. *)
Lemma X21_host_buffers_witness :
  buffersPaired (H := codec)
    (state_of (@InvokeHostFunctionOpFrame.readFootprint codec utils
                 (invokeEnv [key1] [] 100 ∅ [])
                 (invokeState (ltx0 100 23 (live1 200)) 100))).
Proof.
  apply (@X21_host_buffers_pair_entries_with_their_ttl codec utils).
  split; [apply live1_wellKeyed|constructor].
Defined.

(** [X22], on an example: no entry is marked for autorestore. *)
Lemma X22_reads_leave_the_overlay_witness :
  InvokeHostFunctionOpFrame.mLtx
    (state_of (@InvokeHostFunctionOpFrame.readFootprint codec utils
                 (invokeEnv [key1] [key2] 100 ∅ [])
                 (invokeState (ltx0 100 23 (live1 200)) 100)))
  = ltx0 100 23 (live1 200).
Proof.
  apply (proj2 (@X22_reads_without_autorestore_leave_the_overlay codec utils
                  (invokeEnv [key1] [key2] 100 ∅ [])
                  (invokeState (ltx0 100 23 (live1 200)) 100))).
  reflexivity.
Defined.

(** [X23], on examples: the autorestore of [entry1] succeeds with a
    refundable fee of 1000000 and fails with a refundable fee of 100. *)
Lemma X23_invoke_result_code_witness :
  (InvokeHostFunctionOpFrame.mRes (state_of (autorestoreRun 1000000))
   = Some InvokeHostFunctionOpFrame.INVOKE_HOST_FUNCTION_SUCCESS
   ∧ InvokeHostFunctionOpFrame.mSuccess
       (InvokeHostFunctionOpFrame.mMetrics (state_of (autorestoreRun 1000000)))
     = true
   ∧ is_Some (InvokeHostFunctionOpFrame.mResSuccess
                (state_of (autorestoreRun 1000000)))
   ∧ is_Some (InvokeHostFunctionOpFrame.mOpMetaReturnValue
                (state_of (autorestoreRun 1000000))))
  ∧ (failureCode (state_of (autorestoreRun 100))
     ∧ successOutputs (state_of (autorestoreRun 100)) = (None, [], None)).
Proof.
  split.
  - refine (@X23_invoke_result_code_agrees_with_outcome codec utils
              (bridge (Returns autorestoreOutput)) autorestoreApp autorestoreFrame
              (ltx0 100 23 ∅) 0%N None (Some 1000000) [] true
              (state_of (autorestoreRun 1000000)) _).
    apply run_Done. vm_compute. reflexivity.
  - refine (@X23_invoke_result_code_agrees_with_outcome codec utils
              (bridge (Returns autorestoreOutput)) autorestoreApp autorestoreFrame
              (ltx0 100 23 ∅) 0%N None (Some 100) [] false
              (state_of (autorestoreRun 100)) _).
    apply run_Done. vm_compute. reflexivity.
Defined.

(** [X24], on the first of these examples. *)
Lemma X24_invoke_resources_witness :
  InvokeHostFunctionOpFrame.mLedgerReadByte
    (InvokeHostFunctionOpFrame.mMetrics (state_of (autorestoreRun 1000000)))
  ≤ 10000
  ∧ InvokeHostFunctionOpFrame.mLedgerWriteByte
      (InvokeHostFunctionOpFrame.mMetrics (state_of (autorestoreRun 1000000)))
    ≤ 10000
  ∧ InvokeHostFunctionOpFrame.mEmitEventByte
      (InvokeHostFunctionOpFrame.mMetrics (state_of (autorestoreRun 1000000)))
    ≤ 8198.
Proof.
  refine (@X24_invoke_success_within_declared_resources codec utils
            (bridge (Returns autorestoreOutput)) autorestoreApp autorestoreFrame
            (ltx0 100 23 ∅) 0%N None (Some 1000000) []
            (state_of (autorestoreRun 1000000)) _ _ _).
  - vm_compute. discriminate.
  - vm_compute. discriminate.
  - apply run_Done. vm_compute. reflexivity.
Defined.

(** [X25], on an example: the host returned nothing for the read-write key
    [key1]. *)
Lemma X25_untouched_keys_witness :
  let s' := state_of (@InvokeHostFunctionOpFrame.eraseAllUntouched codec utils ∅
                        [key1] (invokeState (ltx0 100 23 (live1 200)) 100)) in
  load (InvokeHostFunctionOpFrame.mLtx s') key1 = None.
Proof.
  intros s'.
  refine (proj1 (@X25_untouched_read_write_keys_are_erased codec utils ∅ [key1]
                   (invokeState (ltx0 100 23 (live1 200)) 100) s' _) key1 _ _).
  - apply run_Done. vm_compute. reflexivity.
  - apply list_elem_of_here.
  - intros Hin. exact (proj1 (elem_of_empty key1) Hin).
Defined.

(** [X27], on an example: the footprint is empty and the host throws. *)
Lemma X27_host_exception_witness :
  @InvokeHostFunctionOpFrame.apply codec utils (bridge (Throws OutOfRange))
    (invokeEnv [] [] 100 ∅ []) (invokeState (ltx0 100 23 ∅) 100)
  = Thrown (RuntimeError "Got internal error during Soroban host invocation.")
      (invokeState (ltx0 100 23 ∅) 100).
Proof.
  apply (@X27_host_exception_becomes_internal_error codec utils
           (bridge (Throws OutOfRange)) (invokeEnv [] [] 100 ∅ [])
           (invokeState (ltx0 100 23 ∅) 100) (invokeState (ltx0 100 23 ∅) 100)
           OutOfRange).
  - reflexivity.
  - reflexivity.
Defined.

(** [X28], on an example: the host returns no event and a return value of 8
    bytes; the metrics event reports 0 bytes of events for a failed
    invocation. *)
Lemma X28_metrics_events_witness :
  let env := InvokeHostFunctionOpFrame.mkEnv (resources0 [] [] 100) networkConfig
               configDiagnostics ∅ [] 0 ResourcesExtV0 0 [] 0 0 in
  let s' := state_of (@InvokeHostFunctionOpFrame.finish codec utils env
                        (eventsOutput [] 8) []
                        (invokeState (ltx0 100 23 ∅) 100)) in
  InvokeHostFunctionOpFrame.mSuccess (InvokeHostFunctionOpFrame.mMetrics s') = true
  ∧ InvokeHostFunctionOpFrame.metricsEvent false "emit_event_byte" 0
    ∈ InvokeHostFunctionOpFrame.mDiagnosticEvents s'.
Proof.
  intros env s'.
  destruct (@X28_metrics_events_precede_the_success_flag codec utils env
              (eventsOutput [] 8) [] (invokeState (ltx0 100 23 ∅) 100) s')
    as (Hflag & metricsEvents & rest & Hdiag & _ & _ & Hin).
  - reflexivity.
  - reflexivity.
  - apply run_Done. vm_compute. reflexivity.
  - split; [exact Hflag|]. rewrite Hdiag.
    apply elem_of_app. right. apply elem_of_app. right.
    apply elem_of_app. left. exact Hin.
Defined.

(** [X29], on an example: the live [key1] is read as a read-only key at
    protocol 23. *)
Lemma X29_reads_not_metered_witness :
  InvokeHostFunctionOpFrame.mLedgerReadByte
    (InvokeHostFunctionOpFrame.mMetrics
       (state_of (@InvokeHostFunctionOpFrame.addRead codec utils
                    (invokeEnv [key1] [] 100 ∅ []) 100 23 4195 true 0 key1
                    (invokeState (ltx0 100 23 (live1 200)) 100))))
  = 0.
Proof.
  apply (@X29_soroban_reads_not_metered_from_protocol_23 codec utils
           (invokeEnv [key1] [] 100 ∅ []) 100 23 4195 true 0%nat key1
           (invokeState (ltx0 100 23 (live1 200)) 100)).
  - reflexivity.
  - vm_compute. discriminate.
  - left. reflexivity.
Defined.

(** [X30], on an example: at ledger 13 the temporary [key3] has a TTL that
    expired at ledger 12. *)
Lemma X30_expired_temporary_witness :
  let s := invokeState (ltx0 13 23 (live3 12)) 100 in
  let s' := state_of (@InvokeHostFunctionOpFrame.addRead codec utils
                        (invokeEnv [key3] [] 100 ∅ []) 13 23 28 true 0 key3 s) in
  InvokeHostFunctionOpFrame.mLtx s' = InvokeHostFunctionOpFrame.mLtx s
  ∧ InvokeHostFunctionOpFrame.mLedgerEntryCxxBufs s'
    = InvokeHostFunctionOpFrame.mLedgerEntryCxxBufs s
  ∧ InvokeHostFunctionOpFrame.mTtlEntryCxxBufs s'
    = InvokeHostFunctionOpFrame.mTtlEntryCxxBufs s
  ∧ (InvokeHostFunctionOpFrame.mRes s' = InvokeHostFunctionOpFrame.mRes s
     ∨ InvokeHostFunctionOpFrame.mRes s'
       = Some InvokeHostFunctionOpFrame.INVOKE_HOST_FUNCTION_RESOURCE_LIMIT_EXCEEDED).
Proof.
  intros s s'.
  assert (Httl : loadWithoutRecord (InvokeHostFunctionOpFrame.mLtx s)
                   (@getTTLKey codec key3) = Some (ttlEntry3 12))
    by (vm_compute; reflexivity).
  assert (Hlive : isLive (ttlEntry3 12) 13 = Returns false)
    by (vm_compute; reflexivity).
  exact (@X30_expired_temporary_entry_is_read_as_absent codec utils
           (invokeEnv [key3] [] 100 ∅ []) 13 23 28 true 0%nat key3 s
           (ttlEntry3 12) eq_refl Httl Hlive).
Defined.

End further_examples.
